(** * DroidNode: action resolution and loop control

    A shallow embedding of the decision logic of the two DroidNode clients,
    [clients/llm-controller/controller.py] (grid planner, two-stage tap) and
    [tools/actl_agent.py] (function-call agent with retry-with-drift), and
    the properties of that logic.

    Conventions of the embedding
    - Python [int] is [Z]; [//] and [%] are [Z.div] and [Z.modulo] (both
      floor, sign of the divisor).  Python raises [ZeroDivisionError] on a
      zero divisor where [Z.div] returns 0: the functions with a result
      that divide by [rows] or [cols] raise it ([nonzero]), and every
      statement about the plain grid functions assumes both positive.
    - Python [float] is binary64: a finite value is carried as the rational
      it is, and every conversion and operation rounds its exact result to
      the nearest double, ties to even ([round_double]); [int(f)] truncates
      toward zero.  The grid partitioner alone is kept in exact arithmetic,
      with [math.log] abstract.
    - Python [str] is [string]: text is carried as its byte string, and the
      character classes [\s], [\d], [str.strip] and [str.lower] have their
      ASCII meaning (bytes above 127 are never spaces, digits or letters);
      a statement that depends on it is stated for ASCII text.
      [int(s)] refuses a literal of more than 4300 digits, the default
      limit of the interpreter.
    - A Python [dict] with string keys is a [gmap string pyval].
    - An exception is a [Raise] result; the device and the model are
      explicit oracles. *)

From Stdlib Require Import ZArith NArith QArith Qround List String Ascii Lia Lqa Bool Sorted.
From stdpp Require Import base gmap strings list pretty.

Set Warnings "-register-all".

Open Scope Z_scope.

(** ** Python values and exceptions *)

Module Py.

(** A [float]: a finite value, carried as the rational it is, or one of
    the three special values. *)
Inductive pyfloat : Type :=
| Fin (q : Q)
| PosInf
| NegInf
| NaN.

Inductive pyval : Type :=
| VNone
| VBool (b : bool)
| VInt (z : Z)
| VFloat (f : pyfloat)
| VStr (s : string)
| VList (l : list pyval)
| VDict (d : gmap string pyval).

Inductive exn : Type :=
| ValueError
| TypeError
| KeyError
| OverflowError
| ZeroDivisionError
| HttpError.

Inductive result (A : Type) : Type :=
| Ok (a : A)
| Raise (e : exn).

Arguments Ok {A} a.
Arguments Raise {A} e.

Definition bind {A B : Type} (m : result A) (f : A -> result B) : result B :=
  match m with
  | Ok a => f a
  | Raise e => Raise e
  end.

(** [try: m except Exception: d] *)
Definition catch {A : Type} (m : result A) (d : A) : A :=
  match m with
  | Ok a => a
  | Raise _ => d
  end.

#[global] Instance result_ret : MRet result := fun A a => Ok a.
#[global] Instance result_bind : MBind result := fun A B f m => bind m f.

(** [[f(x) for x in l]] where [f] may raise. *)
Fixpoint map_result {A B : Type} (f : A -> result B) (l : list A) : result (list B) :=
  match l with
  | [] => Ok []
  | x :: l' => y ← f x; ys ← map_result f l'; Ok (y :: ys)
  end.

Definition is_ok {A : Type} (m : result A) : bool :=
  match m with
  | Ok _ => true
  | Raise _ => false
  end.

(** *** Characters *)

Definition code (c : ascii) : N := N_of_ascii c.

(** The double quote. *)
Definition dquote : ascii := "034"%char.

Definition in_range (lo hi : N) (c : ascii) : bool :=
  ((lo <=? code c) && (code c <=? hi))%N.

Definition is_digit : ascii -> bool := in_range 48 57.
Definition is_upper : ascii -> bool := in_range 65 90.
Definition is_lower : ascii -> bool := in_range 97 122.

(** [str.isspace] on the ASCII range: TAB..CR, FS..US and the space. *)
Definition is_space (c : ascii) : bool := in_range 9 13 c || in_range 28 32 c.

Definition lower_char (c : ascii) : ascii :=
  if is_upper c then ascii_of_N (code c + 32) else c.

Definition chars (s : string) : list ascii := list_ascii_of_string s.
Definition str (l : list ascii) : string := string_of_list_ascii l.

(** [s.lower()] *)
Definition lower (s : string) : string := str (map lower_char (chars s)).

Fixpoint lstrip_chars (l : list ascii) : list ascii :=
  match l with
  | c :: l' => if is_space c then lstrip_chars l' else l
  | [] => []
  end.

Definition strip_chars (l : list ascii) : list ascii :=
  rev (lstrip_chars (rev (lstrip_chars l))).

(** [s.strip()] *)
Definition strip (s : string) : string := str (strip_chars (chars s)).

Fixpoint is_prefix (p l : list ascii) : bool :=
  match p, l with
  | [], _ => true
  | a :: p', b :: l' => Ascii.eqb a b && is_prefix p' l'
  | _ :: _, [] => false
  end.

(** [s.startswith(p)] *)
Definition startswith (s p : string) : bool := is_prefix (chars p) (chars s).

Fixpoint contains_chars (k l : list ascii) : bool :=
  is_prefix k l ||
  match l with
  | [] => false
  | _ :: l' => contains_chars k l'
  end.

(** [k in s] *)
Definition contains (k s : string) : bool := contains_chars (chars k) (chars s).

(** [s.replace(old, new)] for a non-empty [old]: leftmost, non-overlapping.
    [skip] counts the characters of a replaced occurrence still to drop. *)
Fixpoint replace_go (old new : list ascii) (skip : nat) (l : list ascii) : list ascii :=
  match l with
  | [] => []
  | c :: l' =>
      match skip with
      | S n => replace_go old new n l'
      | O =>
          if is_prefix old l
          then new ++ replace_go old new (length old - 1) l'
          else c :: replace_go old new 0 l'
      end
  end.

Definition replace (s old new : string) : string :=
  str (replace_go (chars old) (chars new) 0 (chars s)).

(** Text written with apostrophes for its double quotes. *)
Definition dq (s : string) : string :=
  str (map (fun c => if Ascii.eqb c "'" then dquote else c) (chars s)).

(** *** Integers from text *)

Definition digit_val (c : ascii) : Z := Z.of_N (code c) - 48.

(** Value of a run of decimal digits, most significant first. *)
Definition digits_val (l : list ascii) : Z :=
  fold_left (fun acc c => 10 * acc + digit_val c) l 0.

(** The digits of an integer literal with its single underscores between
    digits taken out; [None] when the shape is wrong. *)
Fixpoint literal_digits (prev_digit : bool) (l : list ascii) : option (list ascii) :=
  match l with
  | [] => if prev_digit then Some [] else None
  | c :: l' =>
      if is_digit c then option_map (cons c) (literal_digits true l')
      else if Ascii.eqb c "_"%char && prev_digit then literal_digits false l'
      else None
  end.

(** The most digits [int] reads from a text and [json.loads] from an
    integer: the default of the interpreter
    ([sys.int_info.default_max_str_digits]), leading zeros counted. *)
Definition max_str_digits : Z := 4300.

Definition too_long (d : list ascii) : bool := max_str_digits <? Z.of_nat (length d).

(** [int(s)] for a [str]: surrounding whitespace, an optional sign, decimal
    digits, no more of them than the limit; [ValueError] otherwise. *)
Definition int_of_chars (l : list ascii) : result Z :=
  let body := strip_chars l in
  let '(neg, ds) :=
    match body with
    | "-"%char :: r => (true, r)
    | "+"%char :: r => (false, r)
    | _ => (false, body)
    end in
  match literal_digits false ds with
  | Some d =>
      if too_long d then Raise ValueError
      else Ok (if neg then - digits_val d else digits_val d)
  | None => Raise ValueError
  end.

Definition int_of_str (s : string) : result Z := int_of_chars (chars s).

(** *** Floats *)

(** A [float] is a binary64 number.  [round_double q] is the double nearest
    to the rational [q], the even one of two equally near, and an infinity
    when that is beyond the largest double; below [2^-1022] the doubles are
    [2^-1074] apart.  The sign of a zero is not kept: nothing below divides
    by a float or prints one. *)
Definition pow2 (e : Z) : Q :=
  if 0 <=? e then inject_Z (2 ^ e) else Qinv (inject_Z (2 ^ (- e))).

(** The integer nearest to [q]; of two equally near, the even one. *)
Definition round_half_even (q : Q) : Z :=
  let f := Qfloor q in
  match Qcompare (q - inject_Z f) (1 # 2) with
  | Lt => f
  | Gt => f + 1
  | Eq => if Z.even f then f else f + 1
  end.

(** For a positive [q], the [e] with [2^e <= q < 2^(e+1)]. *)
Definition binade (q : Q) : Z :=
  let e := Z.log2 (Qnum q) - Z.log2 (Zpos (Qden q)) in
  if Qle_bool (pow2 e) q then e else e - 1.

Definition round_double (q : Q) : pyfloat :=
  match Qcompare q 0 with
  | Eq => Fin 0
  | sign =>
      let a := match sign with Lt => (- q)%Q | _ => q end in
      let ulp := pow2 (Z.max (binade a) (-1022) - 52) in
      let r := Qred (inject_Z (round_half_even (a / ulp)) * ulp) in
      match sign with
      | Lt => if Qle_bool (pow2 1024) r then NegInf else Fin (- r)%Q
      | _ => if Qle_bool (pow2 1024) r then PosInf else Fin r
      end
  end.

(** An [int] as a [float] operand: [OverflowError] beyond the doubles. *)
Definition float_of_int (z : Z) : result pyfloat :=
  match round_double (inject_Z z) with
  | Fin q => Ok (Fin q)
  | _ => Raise OverflowError
  end.

Definition fneg (a : pyfloat) : pyfloat :=
  match a with
  | Fin x => Fin (- x)%Q
  | PosInf => NegInf
  | NegInf => PosInf
  | NaN => NaN
  end.

(** [a + b] and [a * b] on floats. *)
Definition fadd (a b : pyfloat) : pyfloat :=
  match a, b with
  | Fin x, Fin y => round_double (x + y)%Q
  | NaN, _ | _, NaN => NaN
  | PosInf, NegInf | NegInf, PosInf => NaN
  | PosInf, _ | _, PosInf => PosInf
  | NegInf, _ | _, NegInf => NegInf
  end.

Definition fmul_inf (x : Q) (i : pyfloat) : pyfloat :=
  match Qcompare x 0 with
  | Eq => NaN
  | Gt => i
  | Lt => fneg i
  end.

Definition fmul (a b : pyfloat) : pyfloat :=
  match a, b with
  | Fin x, Fin y => round_double (x * y)%Q
  | NaN, _ | _, NaN => NaN
  | Fin x, i | i, Fin x => fmul_inf x i
  | PosInf, PosInf | NegInf, NegInf => PosInf
  | PosInf, NegInf | NegInf, PosInf => NegInf
  end.

(** *** Floats from text *)

Fixpoint span_digits (l : list ascii) : list ascii * list ascii :=
  match l with
  | c :: l' =>
      if is_digit c then let '(d, r) := span_digits l' in (c :: d, r) else ([], l)
  | [] => ([], [])
  end.

Definition pow10 (e : Z) : Q :=
  if 0 <=? e then inject_Z (10 ^ e) else Qinv (inject_Z (10 ^ (- e))).

(** The exponent part of a decimal literal, when there is one. *)
Definition exponent (l : list ascii) : option (Z * list ascii) :=
  match l with
  | c :: r =>
      if Ascii.eqb c "e" || Ascii.eqb c "E" then
        let '(neg, r1) :=
          match r with
          | "-"%char :: r' => (true, r')
          | "+"%char :: r' => (false, r')
          | _ => (false, r)
          end in
        let '(e, r2) := span_digits r1 in
        match e with
        | [] => None
        | _ => Some (if neg then - digits_val e else digits_val e, r2)
        end
      else None
  | [] => None
  end.

(** [float(s)] for a [str]: surrounding whitespace, a sign, then [inf],
    [infinity], [nan] or a decimal literal with an optional exponent
    (digit-group underscores are not read), rounded to the nearest double;
    [ValueError] otherwise. *)
Definition float_of_chars (l : list ascii) : result pyfloat :=
  let body := strip_chars l in
  let '(neg, b1) :=
    match body with
    | "-"%char :: r => (true, r)
    | "+"%char :: r => (false, r)
    | _ => (false, body)
    end in
  let word := str (map lower_char b1) in
  if String.eqb word "inf" || String.eqb word "infinity"
  then Ok (if neg then NegInf else PosInf)
  else if String.eqb word "nan" then Ok NaN
  else
    let '(ip, r1) := span_digits b1 in
    let '(fp, r2) :=
      match r1 with
      | "."%char :: r => span_digits r
      | _ => ([], r1)
      end in
    match ip ++ fp with
    | [] => Raise ValueError
    | ds =>
        let '(e, r3) :=
          match r2 with
          | [] => (Some 0, [])
          | _ =>
              match exponent r2 with
              | Some (e, r) => (Some e, r)
              | None => (None, r2)
              end
          end in
        match e, r3 with
        | Some e, [] =>
            let mant := inject_Z (if neg then - digits_val ds else digits_val ds) in
            Ok (round_double (mant * pow10 (e - Z.of_nat (length fp))))
        | _, _ => Raise ValueError
        end
    end.

Definition float_of_str (s : string) : result pyfloat := float_of_chars (chars s).

(** [float(v)] *)
Definition py_float (v : pyval) : result pyfloat :=
  match v with
  | VInt z => float_of_int z
  | VBool b => Ok (Fin (if b then 1 else 0))
  | VFloat f => Ok f
  | VStr s => float_of_str s
  | VNone | VList _ | VDict _ => Raise TypeError
  end.

(** [str(v)]; [repr_other] stands for the [repr] of a float or of a
    container, as [str] shows it. *)
Definition py_str (repr_other : pyval -> string) (v : pyval) : string :=
  match v with
  | VStr s => s
  | VNone => "None"
  | VBool b => if b then "True" else "False"
  | VInt z => pretty z
  | _ => repr_other v
  end.

(** [d.get(k)], [d.get(k, v)] and [d[k]] *)
Definition get (d : gmap string pyval) (k : string) : pyval := default VNone (d !! k).
Definition get_or (d : gmap string pyval) (k : string) (v : pyval) : pyval :=
  default v (d !! k).
Definition item (d : gmap string pyval) (k : string) : result pyval :=
  match d !! k with
  | Some v => Ok v
  | None => Raise KeyError
  end.

(** A dict literal. *)
Definition dict (items : list (string * pyval)) : gmap string pyval :=
  foldl (fun d kv => <[kv.1 := kv.2]> d) ∅ items.

(** [a < b] on floats; every comparison with [nan] is false. *)
Definition flt (a b : pyfloat) : bool :=
  match a, b with
  | NaN, _ | _, NaN => false
  | Fin x, Fin y => negb (Qle_bool y x)
  | NegInf, (Fin _ | PosInf) => true
  | Fin _, PosInf => true
  | _, _ => false
  end.

(** [min(a, b)] and [max(a, b)] of two floats: the first argument unless the
    second is strictly beyond it. *)
Definition fmin (a b : pyfloat) : pyfloat := if flt b a then b else a.
Definition fmax (a b : pyfloat) : pyfloat := if flt a b then b else a.

(** [max(0.0, min(1.0, f))] is always finite. *)
Definition clamp_ratio (f : pyfloat) : Q :=
  match fmax (Fin 0) (fmin (Fin 1) f) with
  | Fin q => q
  | _ => 0
  end.

(** [int(f)] for a [float]: truncation toward zero. *)
Definition trunc (q : Q) : Z := Z.quot (Qnum q) (Zpos (Qden q)).

Definition int_of_float (f : pyfloat) : result Z :=
  match f with
  | Fin q => Ok (trunc q)
  | PosInf | NegInf => Raise OverflowError
  | NaN => Raise ValueError
  end.

(** [int(v)] *)
Definition py_int (v : pyval) : result Z :=
  match v with
  | VInt z => Ok z
  | VBool b => Ok (if b then 1 else 0)
  | VFloat f => int_of_float f
  | VStr s => int_of_str s
  | VNone | VList _ | VDict _ => Raise TypeError
  end.

End Py.

(** ** [json.loads] *)

(** The standard decoder the controller calls, after the grammar of the
    [json] module: objects (the last of equal keys wins), arrays, strings
    with their escapes, numbers ([int] without fraction and exponent,
    [float] otherwise), [true], [false], [null] and the three constants
    [NaN], [Infinity], [-Infinity]; anything else is a [ValueError]. *)

Module Json.
Import Py.

Definition is_ws (c : ascii) : bool :=
  Ascii.eqb c " " || Ascii.eqb c "009" || Ascii.eqb c "010" || Ascii.eqb c "013".

Fixpoint skip_ws (l : list ascii) : list ascii :=
  match l with
  | c :: l' => if is_ws c then skip_ws l' else l
  | [] => []
  end.

Definition hex_val (c : ascii) : option N :=
  if is_digit c then Some (code c - 48)%N
  else if in_range 97 102 c then Some (code c - 87)%N
  else if in_range 65 70 c then Some (code c - 55)%N
  else None.

(** The UTF-8 bytes of a code point of the basic plane. *)
Definition utf8 (n : N) : list ascii :=
  if (n <? 128)%N then [ascii_of_N n]
  else if (n <? 2048)%N then
    [ascii_of_N (192 + n / 64); ascii_of_N (128 + n mod 64)]%N
  else
    [ascii_of_N (224 + n / 4096); ascii_of_N (128 + (n / 64) mod 64);
     ascii_of_N (128 + n mod 64)]%N.

Definition escape (e : ascii) : option ascii :=
  if Ascii.eqb e dquote then Some dquote
  else if Ascii.eqb e "\" then Some "\"%char
  else if Ascii.eqb e "/" then Some "/"%char
  else if Ascii.eqb e "b" then Some "008"%char
  else if Ascii.eqb e "f" then Some "012"%char
  else if Ascii.eqb e "n" then Some "010"%char
  else if Ascii.eqb e "r" then Some "013"%char
  else if Ascii.eqb e "t" then Some "009"%char
  else None.

(** The text of a string after its opening quote, and what follows the
    closing one. *)
Fixpoint parse_str (fuel : nat) (l : list ascii) : option (list ascii * list ascii) :=
  match fuel with
  | O => None
  | S f =>
      match l with
      | [] => None
      | c :: r =>
          if Ascii.eqb c dquote then Some ([], r)
          else if Ascii.eqb c "\" then
            match r with
            | "u"%char :: h1 :: h2 :: h3 :: h4 :: r' =>
                match hex_val h1, hex_val h2, hex_val h3, hex_val h4 with
                | Some a, Some b, Some c', Some d =>
                    option_map (fun '(w, rest) =>
                                  (utf8 (((a * 16 + b) * 16 + c') * 16 + d) ++ w, rest))
                               (parse_str f r')
                | _, _, _, _ => None
                end
            | e :: r' =>
                match escape e with
                | Some x => option_map (fun '(w, rest) => (x :: w, rest)) (parse_str f r')
                | None => None
                end
            | [] => None
            end
          else if (code c <? 32)%N then None
          else option_map (fun '(w, rest) => (c :: w, rest)) (parse_str f r)
      end
  end.

(** A number: an optional minus, an integer part without leading zero, an
    optional fraction and an optional exponent.  Without fraction and
    exponent it is read by [int], which refuses more digits than its limit;
    otherwise by [float], which rounds. *)
Definition parse_number (l : list ascii) : option (pyval * list ascii) :=
  let '(neg, l1) :=
    match l with
    | "-"%char :: r => (true, r)
    | _ => (false, l)
    end in
  let '(ip, l2) := span_digits l1 in
  match ip with
  | [] => None
  | d0 :: ds =>
      if Ascii.eqb d0 "0" && negb (Nat.eqb (length ds) 0) then None
      else
        let '(fp, l3) :=
          match l2 with
          | "."%char :: r =>
              let '(f, r') := span_digits r in
              match f with
              | [] => (None, l2)
              | _ => (Some f, r')
              end
          | _ => (None, l2)
          end in
        let '(ep, l4) :=
          match exponent l3 with
          | Some (e, r) => (Some e, r)
          | None => (None, l3)
          end in
        let sign (z : Z) := if neg then - z else z in
        match fp, ep with
        | None, None =>
            if too_long ip then None else Some (VInt (sign (digits_val ip)), l4)
        | _, _ =>
            let f := default [] fp in
            let mant := inject_Z (sign (digits_val (ip ++ f))) in
            let scale := default 0 ep - Z.of_nat (length f) in
            Some (VFloat (round_double (mant * pow10 scale)), l4)
        end
  end.

Definition keyword (w : string) (v : pyval) (l : list ascii)
    : option (pyval * list ascii) :=
  if is_prefix (chars w) l then Some (v, skipn (length (chars w)) l) else None.

Fixpoint parse_value (fuel : nat) (l : list ascii) : option (pyval * list ascii) :=
  match fuel with
  | O => None
  | S f =>
      match l with
      | [] => None
      | c :: r =>
          if Ascii.eqb c dquote then
            option_map (fun '(w, rest) => (VStr (str w), rest)) (parse_str (length r) r)
          else if Ascii.eqb c "{" then
            match skip_ws r with
            | "}"%char :: r' => Some (VDict ∅, r')
            | r1 => parse_members f r1 ∅
            end
          else if Ascii.eqb c "[" then
            match skip_ws r with
            | "]"%char :: r' => Some (VList [], r')
            | r1 => parse_elements f r1 []
            end
          else if Ascii.eqb c "t" then keyword "true" (VBool true) l
          else if Ascii.eqb c "f" then keyword "false" (VBool false) l
          else if Ascii.eqb c "n" then keyword "null" VNone l
          else if Ascii.eqb c "N" then keyword "NaN" (VFloat NaN) l
          else if Ascii.eqb c "I" then keyword "Infinity" (VFloat PosInf) l
          else if is_prefix (chars "-Infinity") l then
            keyword "-Infinity" (VFloat NegInf) l
          else parse_number l
      end
  end
with parse_members (fuel : nat) (l : list ascii) (acc : gmap string pyval)
    : option (pyval * list ascii) :=
  match fuel with
  | O => None
  | S f =>
      match l with
      | "034"%char :: r =>
          match parse_str (length r) r with
          | Some (key, r1) =>
              match skip_ws r1 with
              | ":"%char :: r2 =>
                  match parse_value f (skip_ws r2) with
                  | Some (v, r3) =>
                      match skip_ws r3 with
                      | ","%char :: r4 =>
                          parse_members f (skip_ws r4) (<[str key := v]> acc)
                      | "}"%char :: r4 => Some (VDict (<[str key := v]> acc), r4)
                      | _ => None
                      end
                  | None => None
                  end
              | _ => None
              end
          | None => None
          end
      | _ => None
      end
  end
with parse_elements (fuel : nat) (l : list ascii) (acc : list pyval)
    : option (pyval * list ascii) :=
  match fuel with
  | O => None
  | S f =>
      match parse_value f l with
      | Some (v, r1) =>
          match skip_ws r1 with
          | ","%char :: r2 => parse_elements f (skip_ws r2) (acc ++ [v])
          | "]"%char :: r2 => Some (VList (acc ++ [v]), r2)
          | _ => None
          end
      | None => None
      end
  end.

(** [json.loads(s)]; a decoding error is a [ValueError]. *)
Definition loads (s : string) : result pyval :=
  let l := skip_ws (chars s) in
  match parse_value (S (length l)) l with
  | Some (v, r) =>
      match skip_ws r with
      | [] => Ok v
      | _ => Raise ValueError
      end
  | None => Raise ValueError
  end.

End Json.

(** ** Regular expressions ([re]) *)

(** The fragment of Python's [re] the two clients use: literals and classes,
    concatenation, ordered alternation, greedy and lazy repetition, capturing
    groups and the two anchors, matched by backtracking in the order the [re]
    module tries the alternatives. *)

Module Re.
Import Py.

Inductive regex : Type :=
| Eps
| Chr (p : ascii -> bool)
| Cat (r1 r2 : regex)
| Alt (r1 r2 : regex)
| Star (greedy : bool) (r : regex)
| Group (n : nat) (r : regex)
| Bos
| Eos.

(** Captured groups, the most recent binding of a group first. *)
Definition caps : Type := list (nat * list ascii).

Fixpoint group (n : nat) (c : caps) : option (list ascii) :=
  match c with
  | [] => None
  | (m, w) :: c' => if Nat.eqb n m then Some w else group n c'
  end.

Section Matcher.

Context {R : Type}.

(** [total] is the length of the whole subject, [s] what is left of it. *)
Variable total : nat.

(** Repetition of the matcher [body]: greedy tries one more round first,
    lazy tries the rest of the pattern first.  A round has to take at least
    one character. *)
Fixpoint star_loop
    (body : list ascii -> caps -> (list ascii -> caps -> option R) -> option R)
    (greedy : bool) (k : list ascii -> caps -> option R)
    (fuel : nat) (s : list ascii) (c : caps) {struct fuel} : option R :=
  match fuel with
  | O => k s c
  | S fuel' =>
      let again :=
        body s c (fun s1 c1 =>
          if (length s1 <? length s)%nat then star_loop body greedy k fuel' s1 c1
          else None) in
      if greedy then
        match again with
        | Some x => Some x
        | None => k s c
        end
      else
        match k s c with
        | Some x => Some x
        | None => again
        end
  end.

Fixpoint rmatch (r : regex) (s : list ascii) (c : caps)
    (k : list ascii -> caps -> option R) {struct r} : option R :=
  match r with
  | Eps => k s c
  | Chr p =>
      match s with
      | a :: s' => if p a then k s' c else None
      | [] => None
      end
  | Cat r1 r2 => rmatch r1 s c (fun s1 c1 => rmatch r2 s1 c1 k)
  | Alt r1 r2 =>
      match rmatch r1 s c k with
      | Some x => Some x
      | None => rmatch r2 s c k
      end
  | Star greedy r1 => star_loop (rmatch r1) greedy k (length s) s c
  | Group n r1 =>
      rmatch r1 s c (fun s1 c1 =>
        k s1 ((n, firstn (length s - length s1) s) :: c1))
  | Bos => if (length s =? total)%nat then k s c else None
  | Eos =>
      match s with
      | [] => k s c
      | [a] => if Ascii.eqb a "010"%char then k s c else None
      | _ => None
      end
  end.

End Matcher.

(** A match object: the span of group 0 and the captured groups. *)
Record rmatch_obj : Type := MatchObj {
  m_start : nat;
  m_end : nat;
  m_whole : list ascii;
  m_caps : caps
}.

(** The match of [r] that starts at the current position, if any. *)
Definition match_here (total : nat) (r : regex) (s : list ascii) : option rmatch_obj :=
  rmatch total r s [] (fun s1 c1 =>
    Some {| m_start := total - length s;
            m_end := total - length s1;
            m_whole := firstn (length s - length s1) s;
            m_caps := c1 |}).

Fixpoint search_from (total : nat) (r : regex) (s : list ascii) : option rmatch_obj :=
  match match_here total r s with
  | Some m => Some m
  | None =>
      match s with
      | [] => None
      | _ :: s' => search_from total r s'
      end
  end.

(** [re.match(r, s)] *)
Definition re_match (r : regex) (s : string) : option rmatch_obj :=
  match_here (length (chars s)) r (chars s).

(** [re.search(r, s)] *)
Definition re_search (r : regex) (s : string) : option rmatch_obj :=
  search_from (length (chars s)) r (chars s).

(** [m.group(n)] for a group that took part in the match. *)
Definition m_group (n : nat) (m : rmatch_obj) : string :=
  match n with
  | O => str (m_whole m)
  | _ => str (default [] (group n (m_caps m)))
  end.

(** All non-overlapping matches of [r], left to right.  [skip] counts the
    characters of the match just found that are still to pass; an empty
    match is passed over (none of the patterns used can match empty). *)
Fixpoint matches_from (total : nat) (r : regex) (skip : nat) (s : list ascii)
    : list rmatch_obj :=
  match s with
  | [] => []
  | _ :: s' =>
      match skip with
      | S n => matches_from total r n s'
      | O =>
          match match_here total r s with
          | Some m =>
              m :: matches_from total r (length (m_whole m) - 1) s'
          | None => matches_from total r 0 s'
          end
      end
  end.

(** [re.findall(r, s)] for a pattern without groups. *)
Definition re_findall (r : regex) (s : string) : list string :=
  map (fun m => str (m_whole m)) (matches_from (length (chars s)) r 0 (chars s)).

(** [re.sub] with the empty replacement: every match is cut out. *)
Fixpoint cut_matches (total : nat) (r : regex) (skip : nat) (s : list ascii)
    : list ascii :=
  match s with
  | [] => []
  | a :: s' =>
      match skip with
      | S n => cut_matches total r n s'
      | O =>
          match match_here total r s with
          | Some m =>
              match length (m_whole m) with
              | O => a :: cut_matches total r 0 s'
              | S n => cut_matches total r n s'
              end
          | None => a :: cut_matches total r 0 s'
          end
      end
  end.

Definition re_sub_empty (r : regex) (s : string) : string :=
  str (cut_matches (length (chars s)) r 0 (chars s)).

(** *** Pattern syntax *)

Definition any : regex := Chr (fun _ => true).                    (* . with DOTALL *)
Definition lit_char (a : ascii) : regex := Chr (Ascii.eqb a).
Definition lit_char_i (a : ascii) : regex :=                      (* IGNORECASE *)
  Chr (fun b => Ascii.eqb (lower_char a) (lower_char b)).
Definition not_char (a : ascii) : regex := Chr (fun b => negb (Ascii.eqb a b)).
Definition digit : regex := Chr is_digit.                         (* \d *)
Definition space : regex := Chr is_space.                         (* \s *)

Definition cats (rs : list regex) : regex := fold_right Cat Eps rs.
Definition lit (s : string) : regex := cats (map lit_char (chars s)).
Definition lit_i (s : string) : regex := cats (map lit_char_i (chars s)).
Definition star (r : regex) : regex := Star true r.               (* r* *)
Definition star_lazy (r : regex) : regex := Star false r.         (* r*? *)
Definition plus (r : regex) : regex := Cat r (Star true r).       (* r+ *)
Definition opt (r : regex) : regex := Alt r Eps.                  (* r? *)
Definition alts (rs : list regex) : regex :=
  match rs with
  | [] => Eps
  | r :: rs' => fold_left Alt rs' r
  end.

End Re.

(** ** [clients/llm-controller/controller.py] *)

Module Controller.
Import Py Re.

Record ClickRange : Type := {
  x_min : Z;
  y_min : Z;
  x_max : Z;
  y_max : Z
}.

(** *** Planner answer: strict extraction *)

(** The markdown fence: three backquotes, a language tag of letters,
    digits, [_] and [-] and an optional newline at the start; an optional
    newline and three backquotes at the end.  [braces_re] is the span from
    the first opening brace to the last closing one. *)
Definition fence_char (c : ascii) : bool :=
  is_lower c || is_upper c || is_digit c || Ascii.eqb c "_" || Ascii.eqb c "-".

Definition fence_open_re : regex :=
  cats [Bos; lit "```"; star (Chr fence_char); opt (lit_char "010")].

Definition fence_close_re : regex :=
  cats [opt (lit_char "010"); lit "```"; Eos].

Definition braces_re : regex :=
  cats [lit_char "{"; star any; lit_char "}"].

Definition loads_dict (text : string) : result (option (gmap string pyval)) :=
  obj ← Json.loads text;
  match obj with
  | VDict d => Ok (Some d)
  | _ => Ok None
  end.

Definition _extract_json (raw : string) : option (gmap string pyval) :=
  let text := strip raw in
  let text :=
    if startswith text "```"
    then re_sub_empty fence_close_re (re_sub_empty fence_open_re text)
    else text in
  match catch (loads_dict text) None with
  | Some d => Some d
  | None =>
      match re_search braces_re raw with
      | Some m =>
          match loads_dict (m_group 0 m) with
          | Ok (Some d) => Some d
          | Ok None => None
          | Raise _ => None
          end
      | None => None
      end
  end.

(** *** Planner answer: field-by-field fallback *)

Definition ws : regex := star space.

(** ["key" \s* : \s*] without regard to case, then the value pattern. *)
Definition field_re (key : string) (value : regex) : regex :=
  cats [lit_char dquote; lit_i key; lit_char dquote; ws; lit_char ":"; ws; value].

Definition quoted (body : regex) : regex :=
  cats [lit_char dquote; Group 1 body; lit_char dquote].

(** The value patterns of the fallback, each with its text in group 1: a
    quoted text that is not empty ([str_field_re]) or may be
    ([str0_field_re]), a run of digits ([nat_field_re]), an integer with an
    optional minus ([int_field_re]), a decimal number with an optional
    fraction ([float_field_re]), what stands between the brackets of a
    closed array ([regions_field_re]), one of the four directions and one
    of the two booleans. *)
Definition str_field_re (key : string) : regex :=
  field_re key (quoted (plus (not_char dquote))).
Definition str0_field_re (key : string) : regex :=
  field_re key (quoted (star (not_char dquote))).
Definition nat_field_re (key : string) : regex :=
  field_re key (Group 1 (plus digit)).
Definition int_field_re (key : string) : regex :=
  field_re key (Group 1 (Cat (opt (lit_char "-")) (plus digit))).
Definition decimal_re : regex :=
  cats [opt (lit_char "-"); plus digit; opt (Cat (lit_char ".") (plus digit))].
Definition float_field_re (key : string) : regex :=
  field_re key (Group 1 decimal_re).
Definition regions_field_re : regex :=
  field_re "regions"
    (cats [lit_char "["; Group 1 (plus (not_char "]")); lit_char "]"]).
Definition direction_field_re : regex :=
  field_re "direction"
    (quoted (alts [lit_i "up"; lit_i "down"; lit_i "left"; lit_i "right"])).
Definition bool_field_re (key : string) : regex :=
  field_re key (Group 1 (alts [lit_i "true"; lit_i "false"])).

Definition digits_re : regex := plus digit.

(** [out[key] = f(m.group(1))] when the pattern is found. *)
Definition fill (raw : string) (r : regex) (key : string)
    (f : string -> result pyval) (out : gmap string pyval)
    : result (gmap string pyval) :=
  match re_search r raw with
  | Some m => v ← f (m_group 1 m); Ok (<[key := v]> out)
  | None => Ok out
  end.

Definition as_int (s : string) : result pyval := z ← int_of_str s; Ok (VInt z).
Definition as_float (s : string) : result pyval := f ← float_of_str s; Ok (VFloat f).
Definition as_str (s : string) : result pyval := Ok (VStr s).

Definition fill_all (raw : string) (mk : string -> regex) (f : string -> result pyval)
    (keys : list string) (out : gmap string pyval) : result (gmap string pyval) :=
  foldl (fun acc key => o ← acc; fill raw (mk key) key f o) (Ok out) keys.

Definition _extract_planner_fallback (raw : string) : result (gmap string pyval) :=
  let out : gmap string pyval := ∅ in
  out ← fill raw (str_field_re "action") "action"
          (fun g => Ok (VStr (lower (strip g)))) out;
  out ← fill raw (str0_field_re "target") "target"
          (fun g => Ok (VStr (strip g))) out;
  out ← fill raw (nat_field_re "region") "region" as_int out;
  out ←
    match re_search regions_field_re raw with
    | Some m =>
        let nums := re_findall digits_re (m_group 1 m) in
        match nums with
        | [] => Ok out
        | _ => zs ← map_result int_of_str nums; Ok (<["regions" := VList (map VInt zs)]> out)
        end
    | None => Ok out
    end;
  out ← fill raw (str0_field_re "text") "text" as_str out;
  out ← fill raw (str_field_re "enterAction") "enterAction"
          (fun g => Ok (VStr (lower (strip g)))) out;
  out ← fill raw (nat_field_re "waitSec") "waitSec" as_int out;
  out ← fill raw (str0_field_re "finishMessage") "finishMessage" as_str out;
  out ← fill raw (str0_field_re "swipeTarget") "swipeTarget"
          (fun g => Ok (VStr (strip g))) out;
  out ← fill raw direction_field_re "direction" (fun g => Ok (VStr (lower g))) out;
  out ← fill raw (nat_field_re "durationMs") "durationMs" as_int out;
  out ← fill raw (nat_field_re "startRegion") "startRegion" as_int out;
  out ← fill raw (nat_field_re "endRegion") "endRegion" as_int out;
  out ← fill_all raw int_field_re as_int ["startX"; "startY"; "endX"; "endY"] out;
  out ← fill_all raw float_field_re as_float
          ["startXRatio"; "startYRatio"; "endXRatio"; "endYRatio"] out;
  fill raw (bool_field_re "pressEnter") "pressEnter"
    (fun g => Ok (VBool (String.eqb (lower g) "true"))) out.

(** The opening of a [regions] array with no closing bracket after it. *)
Definition regions_open_re : regex :=
  field_re "regions" (lit_char "[").

Definition _has_unclosed_regions_array (raw : string) : bool :=
  match re_search regions_open_re raw with
  | None => false
  | Some m => negb (existsb (Ascii.eqb "]") (skipn (m_end m) (chars raw)))
  end.

(** *** Numbers *)

Definition _clamp (v lo hi : Z) : Z := Z.max lo (Z.min hi v).

Definition _safe_int (value : pyval) (dflt : Z) : Z :=
  let value :=
    match value with
    | VStr s => VStr (strip s)
    | _ => value
    end in
  catch (py_int value) dflt.

Definition _safe_float (value : pyval) (dflt : pyfloat) : pyfloat :=
  catch
    (match value with
     | VStr s =>
         match re_search decimal_re s with
         | Some m => float_of_str (m_group 0 m)
         | None => py_float value
         end
     | _ => py_float value
     end)
    dflt.

(** [range(lo, hi)] *)
Definition range (lo hi : Z) : list Z :=
  map (fun i => lo + Z.of_nat i) (seq 0 (Z.to_nat (hi - lo))).

(** [min(l)] and [max(l)]; [ValueError] on an empty argument. *)
Definition py_min (l : list Z) : result Z :=
  match l with
  | [] => Raise ValueError
  | x :: l' => Ok (fold_left Z.min l' x)
  end.

Definition py_max (l : list Z) : result Z :=
  match l with
  | [] => Raise ValueError
  | x :: l' => Ok (fold_left Z.max l' x)
  end.

(** [min(l, key=key)]: the first element whose key none of the later ones
    is strictly below. *)
Definition min_by {A K : Type} (lt : K -> K -> bool) (key : A -> K) (l : list A)
    : option A :=
  match l with
  | [] => None
  | x :: l' => Some (fold_left (fun best y => if lt (key y) (key best) then y else best) l' x)
  end.

(** *** Grid partitioner *)

Section Grid.

(** The type of the log-error values and the float operations on them:
    [log_error_of a] stands for [abs(math.log(max(1e-6, a)))]. *)
Context {F : Type}.
Variable log_error_of : Q -> F.
Variable F_lt : F -> F -> bool.
Variable F_le : F -> F -> bool.
Variable F_eq : F -> F -> bool.

Definition candidate : Type := Z * Z * Z * Q * F.

Definition c_rows (c : candidate) : Z := c.1.1.1.1.
Definition c_cols (c : candidate) : Z := c.1.1.1.2.
Definition c_cells (c : candidate) : Z := c.1.1.2.
Definition c_log_error (c : candidate) : F := c.2.

(** The candidate of one [(rows, cols)] pair, unless a cell is no more than
    a pixel wide or high.  The quotients are exact; a float quotient of
    two integers compares with 1 as the exact one does as long as the
    divisor is below 2^53, and the callers keep it between 3 and the
    configured maximum. *)
Definition grid_candidate (width height rows cols : Z) : list candidate :=
  let cell_w := (inject_Z width / inject_Z cols)%Q in
  let cell_h := (inject_Z height / inject_Z rows)%Q in
  if Qle_bool cell_w 1 || Qle_bool cell_h 1 then []
  else
    let cell_aspect := (cell_w / cell_h)%Q in
    [(rows, cols, rows * cols, cell_aspect, log_error_of cell_aspect)].

Definition grid_candidates (width height min_segments max_segments : Z)
    : list candidate :=
  flat_map (fun rows =>
    flat_map (fun cols => grid_candidate width height rows cols)
             (range min_segments (max_segments + 1)))
    (range min_segments (max_segments + 1)).

(** Tuple order on [(cells, log_error)] and on [(log_error, cells)]. *)
Definition lt_cells_error (a b : Z * F) : bool :=
  if a.1 =? b.1 then (if F_eq a.2 b.2 then false else F_lt a.2 b.2) else a.1 <? b.1.

Definition lt_error_cells (a b : F * Z) : bool :=
  if F_eq a.1 b.1 then a.2 <? b.2 else F_lt a.1 b.1.

Definition _choose_adaptive_grid (width height min_segments max_segments : Z)
    (target_log_error : F) : candidate :=
  let candidates := grid_candidates width height min_segments max_segments in
  let degenerate : candidate :=
    let h := inject_Z height in
    let aspect := (inject_Z width / (if Qle_bool h 1 then 1 else h))%Q in
    (3, 3, 9, aspect, log_error_of aspect) in
  match candidates with
  | [] => degenerate
  | _ =>
      let near_square :=
        List.filter (fun c => F_le (c_log_error c) target_log_error) candidates in
      match near_square with
      | [] =>
          default degenerate
            (min_by lt_error_cells (fun c => (c_log_error c, c_cells c)) candidates)
      | _ =>
          default degenerate
            (min_by lt_cells_error (fun c => (c_cells c, c_log_error c)) near_square)
      end
  end.

End Grid.

(** The grid partitioner in exact arithmetic: a log-error [e] is carried as
    [exp e], the larger of the clamped aspect and its inverse, which orders
    the candidates as their log-errors do. *)
Module ExactLog.

Definition log_error_of (a : Q) : Q :=
  let a := if Qle_bool a (1 # 1000000) then (1 # 1000000)%Q else a in
  if Qle_bool 1 a then a else Qinv a.

Definition F_lt (a b : Q) : bool := negb (Qle_bool b a).
Definition F_le (a b : Q) : bool := Qle_bool a b.
Definition F_eq (a b : Q) : bool := Qeq_bool a b.

(** [exp 0.2], the default target log-error. *)
Definition default_target : Q := 12214027581601698 # 10000000000000000.

Definition choose (width height : Z) : candidate :=
  _choose_adaptive_grid log_error_of F_lt F_le F_eq width height 3 12 default_target.

End ExactLog.

(** *** Regions *)

(** [_region_box] and [_region_row_col] divide by [cols] and by [rows],
    and Python raises [ZeroDivisionError] on a zero divisor: the two
    definitions are the values for [rows] and [cols] other than 0, and
    [nonzero] is the check their callers below make before they use them. *)
Definition nonzero (rows cols : Z) : result unit :=
  if (rows =? 0) || (cols =? 0) then Raise ZeroDivisionError else Ok tt.

Definition _region_box (region rows cols width height : Z) : Z * Z * Z * Z :=
  let r := _clamp region 1 (rows * cols) - 1 in
  let row := r / cols in
  let col := r mod cols in
  let cell_w := width / cols in
  let cell_h := height / rows in
  let left := col * cell_w in
  let top := row * cell_h in
  let right := if col =? cols - 1 then width else (col + 1) * cell_w in
  let bottom := if row =? rows - 1 then height else (row + 1) * cell_h in
  (left, top, right, bottom).

Definition _region_row_col (region rows cols : Z) : Z * Z :=
  let r := _clamp region 1 (rows * cols) - 1 in
  (r / cols, r mod cols).

Definition _parse_regions_value (value : pyval) : result (list Z) :=
  match value with
  | VList l =>
      Ok (flat_map (fun v => match py_int v with Ok z => [z] | Raise _ => [] end) l)
  | VStr s => map_result int_of_str (re_findall digits_re s)
  | _ => Ok []
  end.

Definition span_keywords : list string :=
  ["input"; "field"; "search"; "bar"; "message"; "textbox"; "text box";
   "输入"; "搜索"; "消息"; "聊天"].

Definition _looks_like_horizontal_span_target (target : string) : bool :=
  let t := lower target in
  existsb (fun k => contains k t) span_keywords.

(** [sorted(set(l))] *)
Fixpoint insert_uniq (x : Z) (l : list Z) : list Z :=
  match l with
  | [] => [x]
  | y :: l' =>
      if x <? y then x :: l
      else if x =? y then l
      else y :: insert_uniq x l'
  end.

Definition sorted_set (l : list Z) : list Z := fold_right insert_uniq [] l.

Section Regions.

Variable repr_other : pyval -> string.

Definition _rect_cover_from_regions (planner : gmap string pyval)
    (rows cols width height : Z)
    : result (list Z * list Z * (Z * Z * Z * Z) * (Z * Z * Z * Z)) :=
  let cells := rows * cols in
  regions_raw ← _parse_regions_value (get planner "regions");
  _ ← nonzero rows cols;
  let single := _safe_int (get_or planner "region" (VInt 0)) 0 in
  let regions_raw := if 0 <? single then regions_raw ++ [single] else regions_raw in
  let normalized :=
    sorted_set (map (fun r => _clamp r 1 cells) (List.filter (fun r => 0 <? r) regions_raw)) in
  let normalized :=
    match normalized with
    | [] => [_clamp ((rows / 2) * cols + cols / 2 + 1) 1 cells]
    | _ => normalized
    end in
  let normalized :=
    if (length normalized =? 1)%nat
       && _looks_like_horizontal_span_target
            (py_str repr_other (get_or planner "target" (VStr EmptyString)))
    then
      let row := (_region_row_col (List.hd 0 normalized) rows cols).1 in
      map (fun c => row * cols + c + 1) (range 0 cols)
    else normalized in
  let row_cols := map (fun r => _region_row_col r rows cols) normalized in
  min_row ← py_min (map fst row_cols);
  max_row ← py_max (map fst row_cols);
  min_col ← py_min (map snd row_cols);
  max_col ← py_max (map snd row_cols);
  let rect_regions :=
    flat_map (fun rr => map (fun cc => rr * cols + cc + 1) (range min_col (max_col + 1)))
             (range min_row (max_row + 1)) in
  let cell_w := width / cols in
  let cell_h := height / rows in
  let left := min_col * cell_w in
  let top := min_row * cell_h in
  let right := if max_col =? cols - 1 then width else (max_col + 1) * cell_w in
  let bottom := if max_row =? rows - 1 then height else (max_row + 1) * cell_h in
  Ok (normalized, rect_regions, (left, top, right, bottom),
      (min_row, max_row, min_col, max_col)).

End Regions.

(** [int(base + ratio * span)] for a float [ratio] and two integers: the
    product and the sum are rounded, and an integer beyond the doubles is an
    [OverflowError]. *)
Definition ratio_point (base : Z) (ratio : pyfloat) (span : Z) : result Z :=
  s ← float_of_int span;
  b ← float_of_int base;
  int_of_float (fadd b (fmul ratio s)).

Definition _point_from_region_ratio (region rows cols width height : Z)
    (xr yr : pyfloat) : result (Z * Z) :=
  _ ← nonzero rows cols;
  let box := _region_box region rows cols width height in
  let left := box.1.1.1 in
  let top := box.1.1.2 in
  let right := box.1.2 in
  let bottom := box.2 in
  let xr := clamp_ratio xr in
  let yr := clamp_ratio yr in
  x ← ratio_point left (Fin xr) (Z.max 1 (right - left - 1));
  y ← ratio_point top (Fin yr) (Z.max 1 (bottom - top - 1));
  Ok (x, y).

(** *** [run_controller]: what a step sends to the device *)

(** The branches of the loop body of [run_controller] that decide what the
    device receives: the planner dict of an answer ([planner_of]), the
    regions repair of the tap branch ([need_regions_repair],
    [repair_regions]), and the arguments of [client.swipe] and
    [client.click] ([swipe_command], [tap_command]). *)

(** [_extract_json(raw) or _extract_planner_fallback(raw)]: an empty dict
    is false. *)
Definition planner_of (planner_raw : string) : result (gmap string pyval) :=
  match _extract_json planner_raw with
  | Some d =>
      match map_to_list d with
      | [] => _extract_planner_fallback planner_raw
      | _ => Ok d
      end
  | None => _extract_planner_fallback planner_raw
  end.

(** Whether the tap branch asks the model once more for the region list. *)
Definition need_regions_repair (last_finish_reason planner_raw : string)
    (planner : gmap string pyval) : result bool :=
  parsed_regions ← _parse_regions_value (get planner "regions");
  Ok ((String.eqb last_finish_reason "length" || _has_unclosed_regions_array planner_raw)
      && (length parsed_regions <=? 1)%nat).

(** The planner after the answer [repair_raw] to the repair request. *)
Definition repair_regions (planner : gmap string pyval) (repair_raw : string)
    : result (gmap string pyval) :=
  parsed_regions ← _parse_regions_value (get planner "regions");
  repair_obj ← planner_of repair_raw;
  repair_regions ← _parse_regions_value (get repair_obj "regions");
  match repair_regions with
  | [] => Ok planner
  | _ =>
      let merged := sorted_set (parsed_regions ++ repair_regions) in
      let planner := <["regions" := VList (map VInt merged)]> planner in
      match planner !! "region", merged with
      | None, r :: _ => Ok (<["region" := VInt r]> planner)
      | _, _ => Ok planner
      end
  end.

Definition is_none (v : pyval) : bool :=
  match v with
  | VNone => true
  | _ => false
  end.

(** [int(n * f)] for an integer [n] and the float constant written [f]. *)
Definition scaled (n : Z) (f : Q) : result Z :=
  x ← float_of_int n;
  int_of_float (fmul x (round_double f)).

Section Step.

Variable repr_other : pyval -> string.

(** The end points of a swipe before they are clamped. *)
Definition swipe_points (planner : gmap string pyval)
    (rows cols cells width height : Z) : result (Z * Z * Z * Z) :=
  let start_x := get planner "startX" in
  let start_y := get planner "startY" in
  let end_x := get planner "endX" in
  let end_y := get planner "endY" in
  if forallb (fun v => negb (is_none v)) [start_x; start_y; end_x; end_y] then
    y72 ← scaled height (72 # 100);
    y32 ← scaled height (32 # 100);
    Ok (_safe_int start_x (width / 2), _safe_int start_y y72,
        _safe_int end_x (width / 2), _safe_int end_y y32)
  else
    let direction :=
      strip (lower (py_str repr_other (get_or planner "direction" (VStr EmptyString)))) in
    let cx := width / 2 in
    let cy := height / 2 in
    if String.eqb direction "up" then
      y72 ← scaled height (72 # 100);
      y32 ← scaled height (32 # 100);
      Ok (cx, y72, cx, y32)
    else if String.eqb direction "down" then
      y32 ← scaled height (32 # 100);
      y72 ← scaled height (72 # 100);
      Ok (cx, y32, cx, y72)
    else if String.eqb direction "left" then
      x75 ← scaled width (75 # 100);
      x25 ← scaled width (25 # 100);
      Ok (x75, cy, x25, cy)
    else if String.eqb direction "right" then
      x25 ← scaled width (25 # 100);
      x75 ← scaled width (75 # 100);
      Ok (x25, cy, x75, cy)
    else
      let start_region := _clamp (_safe_int (get_or planner "startRegion" (VInt 8)) 8) 1 cells in
      let end_region := _clamp (_safe_int (get_or planner "endRegion" (VInt 2)) 2) 1 cells in
      let half := VFloat (Fin (1 # 2)) in
      let sxr := _safe_float (get_or planner "startXRatio" half) (Fin (1 # 2)) in
      let syr := _safe_float (get_or planner "startYRatio" half) (Fin (1 # 2)) in
      let exr := _safe_float (get_or planner "endXRatio" half) (Fin (1 # 2)) in
      let eyr := _safe_float (get_or planner "endYRatio" half) (Fin (1 # 2)) in
      s ← _point_from_region_ratio start_region rows cols width height sxr syr;
      e ← _point_from_region_ratio end_region rows cols width height exr eyr;
      Ok (s.1, s.2, e.1, e.2).

(** The arguments of [client.swipe] in the swipe branch. *)
Definition swipe_command (planner : gmap string pyval)
    (rows cols cells width height : Z) (click_range : ClickRange)
    : result (Z * Z * Z * Z * Z) :=
  let duration_ms :=
    _clamp (_safe_int (get_or planner "durationMs" (VInt 260)) 260) 50 5000 in
  p ← swipe_points planner rows cols cells width height;
  let '(sx, sy, ex, ey) := p in
  Ok (_clamp sx (x_min click_range) (x_max click_range),
      _clamp sy (y_min click_range) (y_max click_range),
      _clamp ex (x_min click_range) (x_max click_range),
      _clamp ey (y_min click_range) (y_max click_range),
      duration_ms).

(** The arguments of [client.click] in the tap branch, given the stage-2
    answer [raw_stage2]. *)
Definition tap_command (planner : gmap string pyval) (rows cols width height : Z)
    (raw_stage2 : string) (click_range : ClickRange) : result (Z * Z) :=
  cover ← _rect_cover_from_regions repr_other planner rows cols width height;
  let box := cover.1.2 in
  let left := box.1.1.1 in
  let top := box.1.1.2 in
  let right := box.1.2 in
  let bottom := box.2 in
  let obj_stage2 := default ∅ (_extract_json raw_stage2) in
  let half := VFloat (Fin (1 # 2)) in
  let xr := clamp_ratio (_safe_float (get_or obj_stage2 "x_ratio" half) (Fin (1 # 2))) in
  let yr := clamp_ratio (_safe_float (get_or obj_stage2 "y_ratio" half) (Fin (1 # 2))) in
  x ← ratio_point left (Fin xr) (Z.max 1 (right - left - 1));
  y ← ratio_point top (Fin yr) (Z.max 1 (bottom - top - 1));
  Ok (_clamp x (x_min click_range) (x_max click_range),
      _clamp y (y_min click_range) (y_max click_range)).

End Step.

End Controller.

(** ** [tools/actl_agent.py]: answer parser and state comparator *)

Module Agent.
Import Py Re.

Record UiState : Type := {
  source : string;
  text : string;
  image_b64 : string;
  state_sig : string;
  screen_ahash : option Z
}.

(** *** Function-call grammar *)

(** The text between the [answer] tags, without regard to case and across
    lines, taken lazily; failing that the first [finish(...)] or [do(...)]
    up to its first closing parenthesis. *)
Definition answer_re : regex :=
  cats [lit_i "<answer>"; star space; Group 1 (star_lazy any); star space;
        lit_i "</answer>"].

Definition call_re (name : string) : regex :=
  cats [lit name; lit_char "("; star (not_char ")"); lit_char ")"].

Definition line_re : regex := Group 1 (Alt (call_re "finish") (call_re "do")).

Definition _extract_answer (raw : string) : string :=
  match re_search answer_re raw with
  | Some m => strip (m_group 1 m)
  | None =>
      match re_search line_re raw with
      | Some m => strip (m_group 1 m)
      | None => strip raw
      end
  end.

Definition backslash : ascii := "\"%char.
Definition newline : ascii := "010"%char.

(** [key \s* = \s*] *)
Definition arg_re (key : string) (value : regex) : regex :=
  cats [lit key; star space; lit_char "="; star space; value].

(** One character of a quoted argument: neither a quote nor a backslash, or
    two backslashes and any character but a newline. *)
Definition quoted_char : regex :=
  Alt (Chr (fun c => negb (Ascii.eqb c dquote || Ascii.eqb c backslash)))
      (cats [lit_char backslash; lit_char backslash;
             Chr (fun c => negb (Ascii.eqb c newline))]).

Definition quoted_re (key : string) : regex :=
  arg_re key (cats [lit_char dquote; Group 1 (star quoted_char); lit_char dquote]).

Definition _parse_quoted (arg_text key : string) : option string :=
  match re_search (quoted_re key) arg_text with
  | None => None
  | Some m =>
      let v := m_group 1 m in
      let v := replace v (str [backslash; backslash]) (str [backslash]) in
      let v := replace v (str [backslash; dquote]) (str [dquote]) in
      Some v
  end.

(** An integer with an optional minus; a pair of them in brackets, each
    with blanks around it, the brackets inside optional quotes. *)
Definition signed_re : regex := Cat (opt (lit_char "-")) (plus digit).

Definition any_quote : regex := opt (Alt (lit_char dquote) (lit_char "'")).

Definition pair_re (key : string) : regex :=
  arg_re key
    (cats [any_quote; lit_char "["; star space; Group 1 signed_re; star space;
           lit_char ","; star space; Group 2 signed_re; star space; lit_char "]";
           any_quote]).

Definition _parse_pair (arg_text key : string) : result (option (Z * Z)) :=
  match re_search (pair_re key) arg_text with
  | None => Ok None
  | Some m =>
      a ← int_of_str (m_group 1 m);
      b ← int_of_str (m_group 2 m);
      Ok (Some (a, b))
  end.

Definition int_re (key : string) : regex := arg_re key (Group 1 signed_re).

Definition _parse_int (arg_text key : string) : result (option Z) :=
  match re_search (int_re key) arg_text with
  | None => Ok None
  | Some m => z ← int_of_str (m_group 1 m); Ok (Some z)
  end.

(** The call [do(action="...", ...)] to the end of the answer: the action
    name in group 1, the rest of the arguments in group 2. *)
Definition do_re : regex :=
  cats [lit "do("; star space; lit "action"; star space; lit_char "="; star space;
        lit_char dquote; Group 1 (plus (not_char dquote)); lit_char dquote;
        Group 2 (star any); lit_char ")"; star space; Eos].

Definition digits_group_re : regex := Group 1 (plus digit).

Definition invalid (raw reason : string) : gmap string pyval :=
  dict [("kind", VStr "invalid"); ("raw", VStr raw); ("reason", VStr reason)]%string.

(** [x or d] for an optional text: [None] and the empty text are false. *)
Definition or_str (x : option string) (d : string) : string :=
  match x with
  | Some s => if String.eqb s EmptyString then d else s
  | None => d
  end.

Definition opt_str (x : option string) : pyval :=
  match x with
  | Some s => VStr s
  | None => VNone
  end.

Definition parse_action (answer : string) : result (gmap string pyval) :=
  let text := strip answer in
  if startswith text "finish(" then
    let msg := or_str (_parse_quoted text "message") EmptyString in
    Ok (dict [("kind", VStr "finish"); ("message", VStr msg)]%string)
  else
    match re_match do_re text with
    | None => Ok (invalid text "cannot parse action format")
    | Some m =>
        let action := strip (m_group 1 m) in
        let args := m_group 2 m in
        if String.eqb action "Tap" then
          p ← _parse_pair args "element";
          match p with
          | None => Ok (invalid text "missing element=[x,y]")
          | Some (x, y) =>
              Ok (dict [("kind", VStr "tap"); ("x", VInt x); ("y", VInt y)]%string)
          end
        else if String.eqb action "Swipe" then
          s ← _parse_pair args "start";
          e ← _parse_pair args "end";
          d ← _parse_int args "durationMs";
          match s, e with
          | Some (sx, sy), Some (ex, ey) =>
              let d :=
                match d with
                | Some n => if n =? 0 then 300 else n
                | None => 300
                end in
              Ok (dict [("kind", VStr "swipe"); ("sx", VInt sx); ("sy", VInt sy);
                        ("ex", VInt ex); ("ey", VInt ey); ("durationMs", VInt d)]%string)
          | _, _ => Ok (invalid text "missing start/end")
          end
        else if String.eqb action "Type" || String.eqb action "Type_Name" then
          match _parse_quoted args "text" with
          | None => Ok (invalid text "missing text")
          | Some text_v =>
              let enter_action := _parse_quoted args "enterAction" in
              Ok (dict [("kind", VStr "type"); ("text", VStr text_v);
                        ("enterAction", opt_str enter_action)]%string)
          end
        else if String.eqb action "Wait" then
          let duration := or_str (_parse_quoted args "duration") "2 seconds" in
          sec ←
            match re_search digits_group_re duration with
            | Some m_d => int_of_str (m_group 1 m_d)
            | None => Ok 2
            end;
          let sec := Z.max 1 (Z.min sec 15) in
          Ok (dict [("kind", VStr "wait"); ("seconds", VInt sec)]%string)
        else Ok (invalid text ("unsupported action=" +:+ action))
    end.

(** *** State comparator *)

Fixpoint popcount (p : positive) : Z :=
  match p with
  | xH => 1
  | xO p' => popcount p'
  | xI p' => 1 + popcount p'
  end.

(** [n.bit_count()]: the ones in the binary form of the absolute value. *)
Definition bit_count (n : Z) : Z :=
  match n with
  | Z0 => 0
  | Zpos p | Zneg p => popcount p
  end.

Definition _hamming_distance (a b : Z) : Z := bit_count (Z.lxor a b).

Definition _states_similar (prev curr : option UiState) (ahash_threshold : Z)
    : bool * string :=
  match prev, curr with
  | Some prev, Some curr =>
      if negb (String.eqb (source prev) (source curr)) then (false, "source_changed"%string)
      else if String.eqb (source curr) "xml" then
        let same := String.eqb (state_sig prev) (state_sig curr) in
        (same, if same then "xml_sig_equal" else "xml_sig_changed")%string
      else
        match screen_ahash prev, screen_ahash curr with
        | Some a, Some b =>
            let dist := _hamming_distance a b in
            (dist <=? ahash_threshold, "ahash_dist=" +:+ pretty dist)
        | _, _ =>
            let same := String.eqb (state_sig prev) (state_sig curr) in
            (same, if same then "shot_sig_equal" else "shot_sig_changed")%string
        end
  | _, _ => (false, "missing_state"%string)
  end.

Definition _clip (v low high : Z) : Z := Z.max low (Z.min high v).

End Agent.

(** ** [tools/actl_agent.py]: tap executor and episode loop *)

(** The device service and the model are an explicit world: every request
    takes the world to the next one and answers with a value or with the
    [HttpError] of an unreachable service.  The commands sent to the three
    control endpoints and the pause of a wait action are logged in the order
    they happen, each with the success flag of its response.  Prompt texts,
    the printed log, the history lines and the settle delay after a tap are
    left out: they feed the model and the console, never a decision of the
    loop. *)

Module AgentLoop.
Import Py Re Agent.

Inductive command : Type :=
| Click (x y : Z)
| Swipe (sx sy ex ey duration_ms : Z)
| InputText (text : string) (enter_action : pyval)
| Sleep (sec : Z).

(** A logged command and the [ok] of its response; [None] when the request
    raised. *)
Definition entry : Type := command * option bool.

(** What a screenshot request brings back: the image and its two
    fingerprints. *)
Record Shot : Type := {
  shot_b64 : string;
  shot_sha256 : string;
  shot_ahash : option Z
}.

Record FocusContext : Type := {
  focus_b64 : string;
  center_x : Z;
  center_y : Z
}.

Record Config : Type := {
  click_range : gmap string pyval;
  tap_retry_on_no_change : Z;
  invalid_action_retry : Z;
  min_tap_drift_px : Z;
  post_state_check : bool;
  screenshot_ahash_threshold : Z
}.

(** The state the loop carries from one step to the next. *)
Record Loop : Type := {
  prev_state : option UiState;
  same_state_streak : Z;
  last_tap_point : option (Z * Z);
  pending_focus_ctx : option FocusContext
}.

Section World.

Context {W : Type}.

Record Env : Type := {
  env_screenshot : W -> result Shot * W;
  env_chat : W -> result string * W;
  env_click : Z -> Z -> W -> result (bool * string) * W;
  env_swipe : Z -> Z -> Z -> Z -> Z -> W -> result (bool * string) * W;
  env_input : string -> pyval -> W -> result (bool * string) * W;
  env_crop : string -> Z -> Z -> option string;
  env_repr : pyval -> string
}.

Variable env : Env.

(** A computation over the world and the command log. *)
Definition M (A : Type) : Type := W * list entry -> result A * (W * list entry).

Definition ret {A : Type} (a : A) : M A := fun s => (Ok a, s).

Definition mbind' {A B : Type} (m : M A) (f : A -> M B) : M B :=
  fun s =>
    match m s with
    | (Ok a, s') => f a s'
    | (Raise e, s') => (Raise e, s')
    end.

Notation "'let*' x := m 'in' k" := (mbind' m (fun x => k))
  (at level 10, x name, m at level 100, k at level 200, only parsing).
Notation "'let*' ' pat := m 'in' k" := (mbind' m (fun x => match x with pat => k end))
  (at level 10, pat pattern, m at level 100, k at level 200, only parsing).

Definition lift {A : Type} (r : result A) : M A := fun s => (r, s).

(** A request that leaves no entry in the log. *)
Definition query {A : Type} (f : W -> result A * W) : M A :=
  fun s => let '(r, w) := f s.1 in (r, (w, s.2)).

(** A control request: logged with the success flag of its response. *)
Definition control (c : command) (f : W -> result (bool * string) * W)
    : M (bool * string) :=
  fun s =>
    let '(r, w) := f s.1 in
    let flag :=
      match r with
      | Ok (ok, _) => Some ok
      | Raise _ => None
      end in
    (r, (w, s.2 ++ [(c, flag)])).

Definition click (x y : Z) : M (bool * string) :=
  control (Click x y) (env_click env x y).

Definition swipe (sx sy ex ey duration_ms : Z) : M (bool * string) :=
  control (Swipe sx sy ex ey duration_ms) (env_swipe env sx sy ex ey duration_ms).

Definition input_text (text : string) (enter_action : pyval) : M (bool * string) :=
  control (InputText text enter_action) (env_input env text enter_action).

(** [time.sleep(sec)] *)
Definition sleep (sec : Z) : M unit :=
  fun s => (Ok tt, (s.1, s.2 ++ [(Sleep sec, Some true)])).

Definition get_ui_screenshot : M Shot := query (env_screenshot env).

Definition chat : M string := query (env_chat env).

Definition fetch_ui_state : M UiState :=
  let* shot := get_ui_screenshot in
  ret {| source := "screenshot";
         text := EmptyString;
         image_b64 := shot_b64 shot;
         state_sig := "shot:" +:+ shot_sha256 shot;
         screen_ahash := shot_ahash shot |}.

(** *** Tap executor *)

Definition offsets : list (Z * Z) :=
  [(0, 0); (50, 0); (-50, 0); (0, 50); (0, -50); (80, 80); (-80, 80)].

(** [int(click_range.get(key, dflt))] *)
Definition bound (click_range : gmap string pyval) (key : string) (dflt : Z) : result Z :=
  py_int (get_or click_range key (VInt dflt)).

(** The body of the retry loop over the offsets still to try. *)
Fixpoint tap_attempts (base_state : UiState) (x y xmin ymin xmax ymax : Z)
    (ahash_threshold : Z) (todo : list (Z * Z))
    (last_body : string) (any_success : bool) (final_point : Z * Z)
    : M (bool * string * bool * (Z * Z)) :=
  match todo with
  | [] => ret (any_success, last_body, false, final_point)
  | (dx, dy) :: todo' =>
      let tx := _clip (x + dx) xmin xmax in
      let ty := _clip (y + dy) ymin ymax in
      let final_point := (tx, ty) in
      let* '(ok, body) := click tx ty in
      if negb ok then
        tap_attempts base_state x y xmin ymin xmax ymax ahash_threshold todo'
                     body any_success final_point
      else
        let* after := fetch_ui_state in
        let '(same, reason) := _states_similar (Some base_state) (Some after) ahash_threshold in
        if negb same then ret (true, body, true, final_point)
        else
          tap_attempts base_state x y xmin ymin xmax ymax ahash_threshold todo'
                       body true final_point
  end.

Definition _tap_with_retry (base_state : UiState) (x y : Z)
    (click_range : gmap string pyval) (max_retry ahash_threshold : Z)
    : M (bool * string * bool * (Z * Z)) :=
  let* xmin := lift (bound click_range "xMin" 0) in
  let* ymin := lift (bound click_range "yMin" 0) in
  let* xmax := lift (bound click_range "xMax" 1079) in
  let* ymax := lift (bound click_range "yMax" 2339) in
  let attempts := Z.min (max_retry + 1) (Z.of_nat (length offsets)) in
  tap_attempts base_state x y xmin ymin xmax ymax ahash_threshold
               (firstn (Z.to_nat attempts) offsets) EmptyString false (x, y).

(** *** Episode loop *)

(** [run_agent], cut along its body: [step] is one turn of the [for] loop,
    [recover] the re-prompt loop after an invalid answer, [dispatch] the
    [if]/[elif] chain on the kind of the action with [loop_guard] for the
    forced drift of a tap, and [perform] the dispatch with the post-state
    check and the focus escalation that follow it. *)

(** [action["kind"] == k] *)
Definition is_kind (action : gmap string pyval) (k : string) : result bool :=
  v ← item action "kind";
  Ok (match v with
      | VStr s => String.eqb s k
      | _ => false
      end).

(** [int(action[k])] *)
Definition int_item (action : gmap string pyval) (k : string) : result Z :=
  v ← item action k; py_int v.

(** The loop guard of a repeated tap: the target the tap executor is given. *)
Definition loop_guard (cfg : Config) (same_state_streak : Z)
    (last_tap_point : option (Z * Z)) (target_x target_y : Z) : result (Z * Z) :=
  match last_tap_point with
  | Some (lx, ly) =>
      if 1 <=? same_state_streak then
        let manhattan := Z.abs (target_x - lx) + Z.abs (target_y - ly) in
        if manhattan <? min_tap_drift_px cfg then
          xmin ← bound (click_range cfg) "xMin" 0;
          ymin ← bound (click_range cfg) "yMin" 0;
          xmax ← bound (click_range cfg) "xMax" 1079;
          ymax ← bound (click_range cfg) "yMax" 2339;
          if target_x + min_tap_drift_px cfg <=? xmax
          then Ok (target_x + min_tap_drift_px cfg, target_y)
          else if xmin <=? target_x - min_tap_drift_px cfg
          then Ok (target_x - min_tap_drift_px cfg, target_y)
          else if target_y + min_tap_drift_px cfg <=? ymax
          then Ok (target_x, target_y + min_tap_drift_px cfg)
          else Ok (target_x, Z.max ymin (target_y - min_tap_drift_px cfg))
        else Ok (target_x, target_y)
      else Ok (target_x, target_y)
  | None => Ok (target_x, target_y)
  end.

(** What the dispatch of one action leaves behind. *)
Record Outcome : Type := {
  ok : bool;
  result_body : string;
  ui_changed : bool;
  final_tap_point : option (Z * Z);
  new_last_tap_point : option (Z * Z)
}.

Definition dispatch (cfg : Config) (state : UiState) (same_state_streak : Z)
    (last_tap_point : option (Z * Z)) (action : gmap string pyval) : M Outcome :=
  let* is_tap := lift (is_kind action "tap") in
  if is_tap then
    let* target_x := lift (int_item action "x") in
    let* target_y := lift (int_item action "y") in
    let* '(target_x, target_y) :=
      lift (loop_guard cfg same_state_streak last_tap_point target_x target_y) in
    let* '(ok, result_body, ui_changed, final_tap) :=
      _tap_with_retry state target_x target_y (click_range cfg)
                      (tap_retry_on_no_change cfg) (screenshot_ahash_threshold cfg) in
    ret {| ok := ok; result_body := result_body; ui_changed := ui_changed;
           final_tap_point := Some final_tap; new_last_tap_point := Some final_tap |}
  else
    let* is_swipe := lift (is_kind action "swipe") in
    if is_swipe then
      let* sx := lift (int_item action "sx") in
      let* sy := lift (int_item action "sy") in
      let* ex := lift (int_item action "ex") in
      let* ey := lift (int_item action "ey") in
      let* duration_ms := lift (int_item action "durationMs") in
      let* '(ok, result_body) := swipe sx sy ex ey duration_ms in
      ret {| ok := ok; result_body := result_body; ui_changed := false;
             final_tap_point := None; new_last_tap_point := None |}
    else
      let* is_type := lift (is_kind action "type") in
      if is_type then
        let* text := lift (item action "text") in
        let* '(ok, result_body) := input_text (py_str (env_repr env) text)
                                              (get action "enterAction") in
        ret {| ok := ok; result_body := result_body; ui_changed := false;
               final_tap_point := None; new_last_tap_point := None |}
      else
        let* is_wait := lift (is_kind action "wait") in
        if is_wait then
          let* sec := lift (int_item action "seconds") in
          let* _ := sleep sec in
          ret {| ok := true; result_body := dq "{'code':0,'message':'wait done'}";
                 ui_changed := false;
                 final_tap_point := None; new_last_tap_point := None |}
        else
          ret {| ok := false; result_body := EmptyString; ui_changed := false;
                 final_tap_point := None; new_last_tap_point := last_tap_point |}.

(** The stricter re-prompts after an unparseable answer. *)
Fixpoint recover (attempts : nat) : M (option (gmap string pyval)) :=
  match attempts with
  | O => ret None
  | S attempts' =>
      let* raw2 := chat in
      let* action2 := lift (parse_action (_extract_answer raw2)) in
      let* is_invalid := lift (is_kind action2 "invalid") in
      if negb is_invalid then ret (Some action2) else recover attempts'
  end.

Definition build_focus_context (full_image_b64 : string) (center_x center_y : Z)
    : option FocusContext :=
  option_map (fun img => {| focus_b64 := img; center_x := center_x; center_y := center_y |})
             (env_crop env full_image_b64 center_x center_y).

(** The rest of a step once its action is known: dispatch, post-state check
    and focus escalation. *)
Definition perform (cfg : Config) (state : UiState) (streak : Z)
    (last_tap_point : option (Z * Z)) (action : gmap string pyval) : M Loop :=
  let* out := dispatch cfg state streak last_tap_point action in
  let* '(post_state, ui_changed) :=
    (if post_state_check cfg && ok out then
       let* post := fetch_ui_state in
       let post_same := (_states_similar (Some state) (Some post)
                                         (screenshot_ahash_threshold cfg)).1 in
       ret (Some post, ui_changed out || negb post_same)
     else ret (None, ui_changed out)) in
  let* is_tap := lift (is_kind action "tap") in
  let* pending :=
    match final_tap_point out with
    | Some (cx, cy) =>
        if is_tap && ok out && negb ui_changed then
          let* focus_base_b64 :=
            match post_state with
            | Some post =>
                if String.eqb (source post) "screenshot" then ret (image_b64 post)
                else let* shot := get_ui_screenshot in ret (shot_b64 shot)
            | None => let* shot := get_ui_screenshot in ret (shot_b64 shot)
            end in
          ret (build_focus_context focus_base_b64 cx cy)
        else ret None
    | None => ret None
    end in
  ret {| prev_state := Some state; same_state_streak := streak;
         last_tap_point := new_last_tap_point out; pending_focus_ctx := pending |}.

(** One step of the loop: the exit code when the step ends the run, and the
    state for the next step otherwise. *)
Definition step (cfg : Config) (st : Loop) : M (Z + Loop) :=
  let* state := fetch_ui_state in
  let same_as_prev :=
    (_states_similar (prev_state st) (Some state) (screenshot_ahash_threshold cfg)).1 in
  let streak :=
    match prev_state st with
    | Some _ => if same_as_prev then same_state_streak st + 1 else 0
    | None => 0
    end in
  let* raw := chat in
  let* action := lift (parse_action (_extract_answer raw)) in
  let* is_finish := lift (is_kind action "finish") in
  if is_finish then ret (inl 0)
  else
    let* is_invalid := lift (is_kind action "invalid") in
    if is_invalid then
      let* recovered := recover (Z.to_nat (Z.max 0 (invalid_action_retry cfg))) in
      match recovered with
      | Some action2 =>
          let* st' := perform cfg state streak (last_tap_point st) action2 in ret (inr st')
      | None =>
          ret (inr {| prev_state := Some state; same_state_streak := streak;
                      last_tap_point := last_tap_point st; pending_focus_ctx := None |})
      end
    else
      let* st' := perform cfg state streak (last_tap_point st) action in ret (inr st').

Fixpoint run_steps (cfg : Config) (steps : nat) (st : Loop) : M Z :=
  match steps with
  | O => ret 2
  | S steps' =>
      let* r := step cfg st in
      match r with
      | inl code => ret code
      | inr st' => run_steps cfg steps' st'
      end
  end.

Definition initial : Loop :=
  {| prev_state := None; same_state_streak := 0;
     last_tap_point := None; pending_focus_ctx := None |}.

Definition run_agent (cfg : Config) (max_steps : Z) : M Z :=
  run_steps cfg (Z.to_nat max_steps) initial.

End World.

End AgentLoop.

(** ** Screen fingerprints *)

(** [_compute_screen_ahash] of [tools/actl_agent.py].  Decoding the PNG,
    the conversion to 8-bit grey and the resize to [size] x [size] are the
    image library's: [gray_pixels image_bytes size] stands for the flat
    pixel buffer they give, or for the exception they raise.  The average
    is the exact quotient; the float quotient of a sum of bytes by their
    number is ordered with every byte as the exact one is. *)

Module Fingerprint.
Import Py Agent.

Definition sum (l : list Z) : Z := fold_left Z.add l 0.

Definition ahash_bits (avg : Q) (pixels : list Z) : Z :=
  fold_left
    (fun bits p => Z.lor (Z.shiftl bits 1) (if Qle_bool avg (inject_Z p) then 1 else 0))
    pixels 0.

Definition _compute_screen_ahash (gray_pixels : string -> Z -> result (list Z))
    (image_bytes : string) (size : Z) : option Z :=
  match gray_pixels image_bytes size with
  | Raise _ => None
  | Ok [] => None
  | Ok pixels =>
      let avg := (inject_Z (sum pixels) / inject_Z (Z.of_nat (length pixels)))%Q in
      Some (ahash_bits avg pixels)
  end.

End Fingerprint.

(** ** The local focus crop *)

(** [build_focus_context] and [_draw_local_grid] of [tools/actl_agent.py],
    as far as they decide: the radius loop with its crop boxes, and the
    segments drawn over the crop.  The image library is outside: a decoded
    image is its size and, for each crop box, whether
    [_is_near_solid(image.crop(box))] holds; [render] stands for cropping,
    drawing and encoding the PNG; a crop has the width and the height of
    its box.  The debug file and the printed log are left out. *)

Module Focus.
Import Py Controller.

Record Image : Type := {
  img_width : Z;
  img_height : Z;
  near_solid : Z * Z * Z * Z -> bool
}.

Record FocusContext : Type := {
  image_b64 : string;
  center_x : Z;
  center_y : Z;
  radius_px : Z;
  box_left : Z;
  box_top : Z;
  box_right : Z;
  box_bottom : Z;
  reason : string
}.

(** [range(lo, hi, step)] for a positive step. *)
Definition range_step (lo hi step : Z) : list Z :=
  map (fun i => lo + i * step) (range 0 ((hi - lo + step - 1) / step)).

(** The segments [_draw_local_grid] draws on a crop of [w] x [h] pixels,
    each as [(x0, y0, x1, y1)]: the vertical and the horizontal grid lines,
    then the two arms of the crosshair. *)
Definition _draw_local_grid (w h center_x center_y left top grid_px : Z)
    : list (Z * Z * Z * Z) :=
  let spacing := Z.max 5 grid_px in
  let vertical := map (fun x => (x, 0, x, h)) (range_step 0 w spacing) in
  let horizontal := map (fun y => (0, y, w, y)) (range_step 0 h spacing) in
  let cx := Z.max 0 (Z.min (w - 1) (center_x - left)) in
  let cy := Z.max 0 (Z.min (h - 1) (center_y - top)) in
  vertical ++ horizontal ++
  [(Z.max 0 (cx - 10), cy, Z.min (w - 1) (cx + 10), cy);
   (cx, Z.max 0 (cy - 10), cx, Z.min (h - 1) (cy + 10))].

(** The crop box of one turn of the radius loop. *)
Definition crop_box (w h center_x center_y radius : Z) : Z * Z * Z * Z :=
  (Z.max 0 (center_x - radius), Z.max 0 (center_y - radius),
   Z.min w (center_x + radius), Z.min h (center_y + radius)).

(** [selected]: the box, the radius and whether the crop was near solid. *)
Definition Selected : Type := (Z * Z * Z * Z) * Z * bool.

(** The [while radius <= max_radius] loop; [fuel] bounds its turns. *)
Fixpoint focus_loop (image : Image) (center_x center_y max_radius expand_step : Z)
    (fuel : nat) (radius : Z) (selected : option Selected) : option Selected :=
  match fuel with
  | O => selected
  | S fuel' =>
      if radius <=? max_radius then
        let box := crop_box (img_width image) (img_height image) center_x center_y radius in
        let left := box.1.1.1 in
        let top := box.1.1.2 in
        let right := box.1.2 in
        let bottom := box.2 in
        if (right <=? left) || (bottom <=? top) then selected
        else if near_solid image box then
          focus_loop image center_x center_y max_radius expand_step fuel'
                     (radius + expand_step) (Some (box, radius, true))
        else Some (box, radius, false)
      else selected
  end.

Section Build.

Variable decode : string -> result Image.
Variable render : Image -> Z * Z * Z * Z -> list (Z * Z * Z * Z) -> string.

Definition build_focus_context (full_image_b64 : string) (center_x center_y : Z)
    (focus_radius_px focus_expand_step_px focus_max_radius_px local_grid_px : Z)
    : option FocusContext :=
  match decode full_image_b64 with
  | Raise _ => None
  | Ok image =>
      let radius := Z.max 10 focus_radius_px in
      let max_radius := Z.max radius focus_max_radius_px in
      let expand_step := Z.max 10 focus_expand_step_px in
      let fuel := S (Z.to_nat (max_radius - radius)) in
      match focus_loop image center_x center_y max_radius expand_step fuel radius None with
      | None => None
      | Some (box, radius_used, was_solid) =>
          let left := box.1.1.1 in
          let top := box.1.1.2 in
          let right := box.1.2 in
          let bottom := box.2 in
          let drawn :=
            _draw_local_grid (right - left) (bottom - top) center_x center_y left top
                             local_grid_px in
          Some {| image_b64 := render image box drawn;
                  center_x := center_x;
                  center_y := center_y;
                  radius_px := radius_used;
                  box_left := left;
                  box_top := top;
                  box_right := right;
                  box_bottom := bottom;
                  reason := if was_solid then "expanded_from_solid" else "direct" |}
      end
  end.

End Build.

End Focus.

(** ** One step of the controller *)

(** The [if] chain of the loop body of [run_controller] on the action of
    the planner: what the step sends to the device, or does itself.  The
    planner of the tap branch is the one after the regions repair;
    [raw_stage2] is the answer to the stage-2 request. *)

Module ControllerStep.
Import Py Re Controller.

Inductive order : Type :=
| Finish (msg : string)
| ImeInput (text enter_action : string) (press_enter : bool)
| SwipeTo (sx sy ex ey duration_ms : Z)
| TapAt (x y : Z)
| WaitFor (sec : Z).

Definition ime_aliases : list string := ["type"; "input"; "text"; "ime"; "imeinput"].

Section Step.

Variable repr_other : pyval -> string.

Definition action_of (planner : gmap string pyval) : string :=
  let action := lower (strip (py_str repr_other (get_or planner "action" (VStr "wait")))) in
  if existsb (String.eqb action) ime_aliases then "ime_input"%string else action.

(** The arguments of [client.input_text] in the [ime_input] branch. *)
Definition ime_command (planner : gmap string pyval) : string * string * bool :=
  let text := strip (py_str repr_other (get_or planner "text" (VStr EmptyString))) in
  let enter_action := lower (py_str repr_other (get_or planner "enterAction" (VStr "none"))) in
  let press_enter :=
    match get planner "pressEnter" with
    | VBool b => b
    | _ => negb (String.eqb enter_action "none")
    end in
  let text := if String.eqb text EmptyString then "app test"%string else text in
  (text, enter_action, press_enter).

(** The seconds of the wait branch. *)
Definition wait_command (planner : gmap string pyval) (default_wait : Z) : Z :=
  _clamp (_safe_int (get_or planner "waitSec" (VInt default_wait)) default_wait) 1 10.

Definition step_order (planner : gmap string pyval)
    (rows cols cells width height : Z) (raw_stage2 : string)
    (click_range : ClickRange) (default_wait : Z) : result order :=
  let action := action_of planner in
  if String.eqb action "finish" then
    Ok (Finish (py_str repr_other (get_or planner "finishMessage" (VStr "done"))))
  else if String.eqb action "ime_input" then
    let '(text, enter_action, press_enter) := ime_command planner in
    Ok (ImeInput text enter_action press_enter)
  else if String.eqb action "swipe" then
    c ← swipe_command repr_other planner rows cols cells width height click_range;
    let '(sx, sy, ex, ey, duration_ms) := c in
    Ok (SwipeTo sx sy ex ey duration_ms)
  else if String.eqb action "tap" then
    p ← tap_command repr_other planner rows cols width height raw_stage2 click_range;
    Ok (TapAt p.1 p.2)
  else Ok (WaitFor (wait_command planner default_wait)).

End Step.

End ControllerStep.

(** * Properties *)

(** ** The matcher is sound for the language of a pattern *)

Module ReFacts.
Import Py Re.

(** The words of a pattern, anchors aside. *)
Inductive lang : regex -> list ascii -> Prop :=
| L_eps : lang Eps []
| L_chr p a : p a = true -> lang (Chr p) [a]
| L_cat r1 r2 w1 w2 : lang r1 w1 -> lang r2 w2 -> lang (Cat r1 r2) (w1 ++ w2)
| L_alt_l r1 r2 w : lang r1 w -> lang (Alt r1 r2) w
| L_alt_r r1 r2 w : lang r2 w -> lang (Alt r1 r2) w
| L_star_nil g r : lang (Star g r) []
| L_star_app g r w1 w2 : lang r w1 -> lang (Star g r) w2 -> lang (Star g r) (w1 ++ w2)
| L_group n r w : lang r w -> lang (Group n r) w
| L_bos : lang Bos []
| L_eos : lang Eos [].

#[local] Hint Constructors lang : core.

(** Every group of [r] captures a word that satisfies [P]. *)
Fixpoint groups_in (P : nat -> list ascii -> Prop) (r : regex) : Prop :=
  match r with
  | Cat r1 r2 | Alt r1 r2 => groups_in P r1 /\ groups_in P r2
  | Star _ r1 => groups_in P r1
  | Group n r1 => (forall w, lang r1 w -> P n w) /\ groups_in P r1
  | Eps | Chr _ | Bos | Eos => True
  end.

(** Group [n] is bound on every way through [r]. *)
Fixpoint binds (n : nat) (r : regex) : bool :=
  match r with
  | Cat r1 r2 => binds n r1 || binds n r2
  | Alt r1 r2 => binds n r1 && binds n r2
  | Group m r1 => Nat.eqb n m || binds n r1
  | Star _ _ | Eps | Chr _ | Bos | Eos => false
  end.

Definition bound (n : nat) (c : caps) : Prop := group n c <> None.

Definition caps_in (P : nat -> list ascii -> Prop) (c : caps) : Prop :=
  forall n w, group n c = Some w -> P n w.

(** What a successful run of a matcher hands to its continuation. *)
Definition sound_step {R : Type} (P : nat -> list ascii -> Prop) (r : regex)
    (run : list ascii -> caps -> (list ascii -> caps -> option R) -> option R) : Prop :=
  forall s c k x,
    caps_in P c -> run s c k = Some x ->
    exists w s' c',
      s = w ++ s' /\ lang r w /\ k s' c' = Some x /\ caps_in P c' /\
      (forall n, bound n c -> bound n c') /\
      (forall n, binds n r = true -> bound n c').

Lemma caps_in_cons P n w c : P n w -> caps_in P c -> caps_in P ((n, w) :: c).
Proof.
  intros Hw Hc m v. simpl. destruct (Nat.eqb m n) eqn:E.
  - apply Nat.eqb_eq in E. subst. intros [= <-]. exact Hw.
  - apply Hc.
Qed.

Lemma bound_cons n m w c : bound n c -> bound n ((m, w) :: c).
Proof. unfold bound. simpl. destruct (Nat.eqb n m); [discriminate | tauto]. Qed.

Lemma bound_here n w c : bound n ((n, w) :: c).
Proof. unfold bound. simpl. rewrite Nat.eqb_refl. discriminate. Qed.

Lemma star_loop_sound {R : Type} P g r
    (body : list ascii -> caps -> (list ascii -> caps -> option R) -> option R) :
  sound_step P r body ->
  forall fuel, sound_step P (Star g r) (fun s c k => star_loop body g k fuel s c).
Proof.
  intros Hbody fuel.
  induction fuel as [| fuel IH]; intros s c k x Hc Hrun; simpl in Hrun.
  - exists [], s, c. repeat split; auto; discriminate.
  - assert (Hagain : forall y,
      body s c (fun s1 c1 =>
        if (length s1 <? length s)%nat then star_loop body g k fuel s1 c1 else None) = Some y ->
      exists w s' c', s = w ++ s' /\ lang (Star g r) w /\ k s' c' = Some y /\ caps_in P c' /\
        (forall n, bound n c -> bound n c') /\
        (forall n, binds n (Star g r) = true -> bound n c')).
    { intros y Hy. apply Hbody in Hy; [| exact Hc].
      destruct Hy as (w1 & s1 & c1 & -> & Hw1 & Hk & Hc1 & Hb1 & _).
      destruct (length s1 <? length (w1 ++ s1))%nat; [| discriminate].
      apply IH in Hk; [| exact Hc1].
      destruct Hk as (w2 & s2 & c2 & -> & Hw2 & Hk & Hc2 & Hb2 & _).
      exists (w1 ++ w2), s2, c2. rewrite <- app_assoc.
      repeat split; eauto; discriminate. }
    assert (Hstop : forall y, k s c = Some y ->
      exists w s' c', s = w ++ s' /\ lang (Star g r) w /\ k s' c' = Some y /\ caps_in P c' /\
        (forall n, bound n c -> bound n c') /\
        (forall n, binds n (Star g r) = true -> bound n c')).
    { intros y Hy. exists [], s, c. repeat split; auto; discriminate. }
    destruct g.
    + destruct (body s c _) eqn:E.
      * injection Hrun as <-. apply Hagain. reflexivity.
      * apply Hstop. exact Hrun.
    + destruct (k s c) eqn:E.
      * injection Hrun as <-. apply Hstop. reflexivity.
      * apply Hagain. exact Hrun.
Qed.

Theorem rmatch_sound {R : Type} total P r :
  groups_in P r -> sound_step P r (@rmatch R total r).
Proof.
  induction r as [| p | r1 IH1 r2 IH2 | r1 IH1 r2 IH2 | g r1 IH1 | n r1 IH1 | |];
    intros Hg s c k x Hc Hrun; simpl in Hrun.
  - exists [], s, c. repeat split; auto; discriminate.
  - destruct s as [| a s']; [discriminate |].
    destruct (p a) eqn:Ea; [| discriminate].
    exists [a], s', c. repeat split; auto; discriminate.
  - destruct Hg as [Hg1 Hg2].
    apply (IH1 Hg1) in Hrun; [| exact Hc].
    destruct Hrun as (w1 & s1 & c1 & -> & Hw1 & Hk & Hc1 & Hb1 & Hs1).
    apply (IH2 Hg2) in Hk; [| exact Hc1].
    destruct Hk as (w2 & s2 & c2 & -> & Hw2 & Hk & Hc2 & Hb2 & Hs2).
    exists (w1 ++ w2), s2, c2. rewrite <- app_assoc.
    repeat split; auto.
    intros n Hn. simpl in Hn. apply orb_true_iff in Hn. destruct Hn; auto.
  - destruct Hg as [Hg1 Hg2].
    destruct (rmatch total r1 s c k) eqn:E.
    + injection Hrun as <-. apply (IH1 Hg1) in E; [| exact Hc].
      destruct E as (w & s' & c' & -> & Hw & Hk & Hc' & Hb & Hs).
      exists w, s', c'. repeat split; auto.
      intros n Hn. simpl in Hn. apply andb_true_iff in Hn. apply Hs, Hn.
    + apply (IH2 Hg2) in Hrun; [| exact Hc].
      destruct Hrun as (w & s' & c' & -> & Hw & Hk & Hc' & Hb & Hs).
      exists w, s', c'. repeat split; auto.
      intros n Hn. simpl in Hn. apply andb_true_iff in Hn. apply Hs, Hn.
  - simpl in Hg.
    exact (star_loop_sound P g r1 _ (IH1 Hg) (length s) s c k x Hc Hrun).
  - destruct Hg as [Hcap Hg].
    apply (IH1 Hg) in Hrun; [| exact Hc].
    destruct Hrun as (w & s' & c' & -> & Hw & Hk & Hc' & Hb & Hs).
    rewrite length_app, Nat.add_sub, firstn_app, Nat.sub_diag, firstn_all in Hk.
    simpl in Hk. rewrite app_nil_r in Hk.
    exists w, s', ((n, w) :: c'). repeat split; auto.
    + apply caps_in_cons; auto.
    + intros m Hm. apply bound_cons. auto.
    + intros m Hm. simpl in Hm. destruct (Nat.eqb m n) eqn:E.
      * apply Nat.eqb_eq in E. subst. apply bound_here.
      * apply bound_cons. apply Hs. exact Hm.
  - destruct (length s =? total)%nat; [| discriminate].
    exists [], s, c. repeat split; auto; discriminate.
  - assert (k s c = Some x) as Hk.
    { destruct s as [| a [| b s']]; [exact Hrun | | discriminate].
      destruct (Ascii.eqb a "010"); [exact Hrun | discriminate]. }
    exists [], s, c. repeat split; auto; discriminate.
Qed.

Lemma match_here_sound total P r s m :
  groups_in P r -> match_here total r s = Some m ->
  exists w s',
    s = w ++ s' /\ lang r w /\ m_whole m = w /\ caps_in P (m_caps m) /\
    (forall n, binds n r = true -> bound n (m_caps m)).
Proof.
  intros Hg Hm. unfold match_here in Hm.
  apply (rmatch_sound total P r Hg) in Hm; [| intros n w; discriminate].
  destruct Hm as (w & s' & c' & -> & Hw & Hk & Hc & _ & Hs).
  injection Hk as <-. simpl.
  rewrite length_app, Nat.add_sub, firstn_app, Nat.sub_diag, firstn_all.
  simpl. rewrite app_nil_r. eauto 10.
Qed.

Lemma search_from_sound total P r s m :
  groups_in P r -> search_from total r s = Some m ->
  exists pre w post,
    s = pre ++ w ++ post /\ lang r w /\ m_whole m = w /\ caps_in P (m_caps m) /\
    (forall n, binds n r = true -> bound n (m_caps m)).
Proof.
  intros Hg. induction s as [| a s IH]; simpl; intros Hm.
  - destruct (match_here total r []) eqn:E; [| discriminate].
    injection Hm as ->.
    apply (match_here_sound _ P) in E; [| exact Hg].
    destruct E as (w & s' & Heq & H). exists [], w, s'. simpl. eauto.
  - destruct (match_here total r (a :: s)) eqn:E.
    + injection Hm as ->.
      apply (match_here_sound _ P) in E; [| exact Hg].
      destruct E as (w & s' & Heq & H). exists [], w, s'. simpl. eauto.
    + destruct (IH Hm) as (pre & w & post & -> & H).
      exists (a :: pre), w, post. simpl. eauto.
Qed.

(** A group that is bound on every way through the pattern reads as a word
    of its language. *)
Lemma m_group_bound P n m :
  n <> 0%nat -> caps_in P (m_caps m) -> bound n (m_caps m) ->
  exists w, m_group n m = str w /\ P n w.
Proof.
  intros Hn Hc Hb. destruct n as [| n]; [congruence |].
  unfold m_group, bound in *.
  destruct (group (S n) (m_caps m)) as [w |] eqn:E; [| congruence].
  exists w. split; [reflexivity | eauto].
Qed.

Lemma matches_from_sound total r : forall s skip m,
  In m (matches_from total r skip s) -> lang r (m_whole m).
Proof.
  induction s as [| a s IH]; simpl; intros skip m Hin; [contradiction |].
  destruct skip as [| n]; [| eauto].
  destruct (match_here total r (a :: s)) as [m0 |] eqn:E; [| eauto].
  destruct Hin as [<- | Hin]; [| eauto].
  apply (match_here_sound _ (fun _ _ => True)) in E.
  - destruct E as (w & s' & _ & Hw & <- & _). exact Hw.
  - clear. induction r; simpl; auto.
Qed.

Lemma re_findall_sound r s x :
  In x (re_findall r s) -> exists w, x = str w /\ lang r w.
Proof.
  unfold re_findall. intros Hin. apply in_map_iff in Hin.
  destruct Hin as (m & <- & Hin). eauto using matches_from_sound.
Qed.

(** *** Words of the patterns in use *)

Lemma lang_chr p w : lang (Chr p) w -> exists a, w = [a] /\ p a = true.
Proof. inversion 1; subst; eauto. Qed.

Lemma lang_cat r1 r2 w :
  lang (Cat r1 r2) w -> exists w1 w2, w = w1 ++ w2 /\ lang r1 w1 /\ lang r2 w2.
Proof. inversion 1; subst; eauto. Qed.

Lemma lang_alt r1 r2 w : lang (Alt r1 r2) w -> lang r1 w \/ lang r2 w.
Proof. inversion 1; subst; auto. Qed.

Lemma lang_eps w : lang Eps w -> w = [].
Proof. inversion 1; reflexivity. Qed.

Lemma lang_group n r w : lang (Group n r) w -> lang r w.
Proof. inversion 1; assumption. Qed.

Lemma lang_star_chr g p w :
  lang (Star g (Chr p)) w -> Forall (fun a => p a = true) w.
Proof.
  intros H. remember (Star g (Chr p)) as r eqn:Er.
  induction H; try discriminate; inversion Er; subst.
  - constructor.
  - apply lang_chr in H. destruct H as (a & -> & Ha).
    simpl. constructor; auto.
Qed.

Lemma lang_plus_chr p w :
  lang (plus (Chr p)) w -> w <> [] /\ Forall (fun a => p a = true) w.
Proof.
  intros H. apply lang_cat in H. destruct H as (w1 & w2 & -> & H1 & H2).
  apply lang_chr in H1. destruct H1 as (a & -> & Ha).
  apply lang_star_chr in H2. split; [discriminate | constructor; auto].
Qed.

Lemma lang_lit_char a w : lang (lit_char a) w -> w = [a].
Proof.
  intros H. apply lang_chr in H. destruct H as (b & -> & Hb).
  apply Ascii.eqb_eq in Hb. congruence.
Qed.

(** An optional minus and at least one digit. *)
Definition int_literal (w : list ascii) : Prop :=
  exists ds, ds <> [] /\ Forall (fun a => is_digit a = true) ds /\
             (w = ds \/ w = "-"%char :: ds).

Lemma lang_signed w :
  lang (Cat (opt (lit_char "-")) (plus digit)) w -> int_literal w.
Proof.
  intros H. apply lang_cat in H. destruct H as (w1 & w2 & -> & H1 & H2).
  apply lang_plus_chr in H2. destruct H2 as [Hne Hd].
  exists w2. repeat split; auto.
  apply lang_alt in H1. destruct H1 as [H1 | H1].
  - apply lang_lit_char in H1. subst. auto.
  - apply lang_eps in H1. subst. auto.
Qed.

(** *** [int] reads every integer literal *)

Lemma digit_not_space a : is_digit a = true -> is_space a = false.
Proof.
  unfold is_digit, is_space, in_range. intros H.
  apply andb_true_iff in H. destruct H as [H1 H2].
  apply N.leb_le in H1, H2.
  apply orb_false_iff. split; apply andb_false_iff.
  - right. apply N.leb_gt. lia.
  - right. apply N.leb_gt. lia.
Qed.

Lemma lstrip_head a l : is_space a = false -> lstrip_chars (a :: l) = a :: l.
Proof. intros H. simpl. rewrite H. reflexivity. Qed.

Lemma strip_chars_id l a b :
  hd_error l = Some a -> hd_error (rev l) = Some b ->
  is_space a = false -> is_space b = false -> strip_chars l = l.
Proof.
  intros Ha Hb Hsa Hsb. unfold strip_chars.
  destruct l as [| a' l']; [discriminate |]. injection Ha as ->.
  rewrite lstrip_head by exact Hsa.
  destruct (rev (a :: l')) as [| b' r'] eqn:Er; [discriminate |].
  injection Hb as ->. rewrite lstrip_head by exact Hsb.
  rewrite <- Er. apply rev_involutive.
Qed.

Lemma literal_digits_all ds : forall b,
  Forall (fun a => is_digit a = true) ds -> ds <> [] \/ b = true ->
  literal_digits b ds = Some ds.
Proof.
  induction ds as [| c ds IH]; intros b Hd Hb; simpl.
  - destruct Hb as [Hb | ->]; [congruence | reflexivity].
  - inversion Hd as [| ? ? Hc Hds]; subst. rewrite Hc.
    rewrite (IH true Hds) by auto. reflexivity.
Qed.

Lemma last_digit ds a0 :
  Forall (fun a => is_digit a = true) ds -> ds <> [] ->
  exists b, hd_error (rev (a0 ++ ds)) = Some b /\ is_digit b = true.
Proof.
  intros Hd Hne. destruct (exists_last Hne) as (ds' & b & ->).
  rewrite app_assoc, rev_app_distr. simpl. exists b. split; [reflexivity |].
  apply Forall_app in Hd. destruct Hd as [_ Hb]. inversion Hb; assumption.
Qed.

(** *** Parts of the subject *)

(** A word that stands somewhere in a text. *)
Definition infix (w text : list ascii) : Prop := exists pre post, text = pre ++ w ++ post.

Lemma infix_refl w : infix w w.
Proof. exists [], []. simpl. rewrite app_nil_r. reflexivity. Qed.

Lemma infix_trans u v w : infix u v -> infix v w -> infix u w.
Proof.
  intros (p1 & q1 & ->) (p2 & q2 & ->). exists (p2 ++ p1), (q1 ++ q2).
  rewrite <- !app_assoc. reflexivity.
Qed.

Lemma infix_nil text : infix [] text.
Proof. exists [], text. reflexivity. Qed.

Lemma infix_app_l u v text : infix (u ++ v) text -> infix u text.
Proof. intros (p & q & ->). exists p, (v ++ q). rewrite <- app_assoc. reflexivity. Qed.

Lemma infix_app_r u v text : infix (u ++ v) text -> infix v text.
Proof. intros (p & q & ->). exists (p ++ u), q. rewrite <- !app_assoc. reflexivity. Qed.

Lemma infix_cons a v text : infix (a :: v) text -> infix v text.
Proof. apply (infix_app_r [a]). Qed.

Lemma infix_length w text : infix w text -> (length w <= length text)%nat.
Proof. intros (p & q & ->). rewrite !length_app. lia. Qed.

Lemma lstrip_infix l : infix (lstrip_chars l) l.
Proof.
  induction l as [| a l IH]; simpl; [apply infix_refl |].
  destruct (is_space a); [| apply infix_refl].
  eapply infix_trans; [exact IH |]. exists [a], []. simpl. rewrite app_nil_r. reflexivity.
Qed.

Lemma infix_rev u v : infix u v -> infix (rev u) (rev v).
Proof.
  intros (p & q & ->). exists (rev q), (rev p).
  rewrite !rev_app_distr, <- app_assoc. reflexivity.
Qed.

Lemma strip_infix l : infix (strip_chars l) l.
Proof.
  unfold strip_chars. apply infix_trans with (lstrip_chars l); [| apply lstrip_infix].
  rewrite <- (rev_involutive (lstrip_chars l)) at 2.
  apply infix_rev, lstrip_infix.
Qed.

(** Every captured word stands in [text]. *)
Definition caps_infix (text : list ascii) (c : caps) : Prop :=
  forall n w, group n c = Some w -> infix w text.

Definition infix_step {R : Type} (text : list ascii)
    (run : list ascii -> caps -> (list ascii -> caps -> option R) -> option R) : Prop :=
  forall s c k x,
    (exists pre, text = pre ++ s) -> caps_infix text c -> run s c k = Some x ->
    exists w s' c', s = w ++ s' /\ k s' c' = Some x /\ caps_infix text c'.

Lemma star_loop_infix {R : Type} text g
    (body : list ascii -> caps -> (list ascii -> caps -> option R) -> option R) :
  infix_step text body ->
  forall fuel, infix_step text (fun s c k => star_loop body g k fuel s c).
Proof.
  intros Hbody fuel.
  induction fuel as [| fuel IH]; intros s c k x Hs Hc Hrun; simpl in Hrun.
  - exists [], s, c. auto.
  - assert (Hagain : forall y,
      body s c (fun s1 c1 =>
        if (length s1 <? length s)%nat then star_loop body g k fuel s1 c1 else None) = Some y ->
      exists w s' c', s = w ++ s' /\ k s' c' = Some y /\ caps_infix text c').
    { intros y Hy. apply Hbody in Hy; [| exact Hs | exact Hc].
      destruct Hy as (w1 & s1 & c1 & -> & Hk & Hc1).
      destruct (length s1 <? length (w1 ++ s1))%nat; [| discriminate].
      apply IH in Hk; [| | exact Hc1].
      - destruct Hk as (w2 & s2 & c2 & -> & Hk & Hc2).
        exists (w1 ++ w2), s2, c2. rewrite <- app_assoc. auto.
      - destruct Hs as (pre & ->). exists (pre ++ w1). rewrite <- app_assoc. reflexivity. }
    assert (Hstop : forall y, k s c = Some y ->
      exists w s' c', s = w ++ s' /\ k s' c' = Some y /\ caps_infix text c').
    { intros y Hy. exists [], s, c. auto. }
    destruct g.
    + destruct (body s c _) eqn:E.
      * injection Hrun as <-. apply Hagain. reflexivity.
      * apply Hstop. exact Hrun.
    + destruct (k s c) eqn:E.
      * injection Hrun as <-. apply Hstop. reflexivity.
      * apply Hagain. exact Hrun.
Qed.

Theorem rmatch_infix {R : Type} total text r : infix_step text (@rmatch R total r).
Proof.
  induction r as [| p | r1 IH1 r2 IH2 | r1 IH1 r2 IH2 | g r1 IH1 | n r1 IH1 | |];
    intros s c k x Hs Hc Hrun; simpl in Hrun.
  - exists [], s, c. auto.
  - destruct s as [| a s']; [discriminate |].
    destruct (p a); [| discriminate]. exists [a], s', c. auto.
  - apply IH1 in Hrun; [| exact Hs | exact Hc].
    destruct Hrun as (w1 & s1 & c1 & -> & Hk & Hc1).
    apply IH2 in Hk; [| | exact Hc1].
    + destruct Hk as (w2 & s2 & c2 & -> & Hk & Hc2).
      exists (w1 ++ w2), s2, c2. rewrite <- app_assoc. auto.
    + destruct Hs as (pre & ->). exists (pre ++ w1). rewrite <- app_assoc. reflexivity.
  - destruct (rmatch total r1 s c k) eqn:E.
    + injection Hrun as <-. exact (IH1 _ _ _ _ Hs Hc E).
    + exact (IH2 _ _ _ _ Hs Hc Hrun).
  - exact (star_loop_infix text g _ IH1 (length s) s c k x Hs Hc Hrun).
  - apply IH1 in Hrun; [| exact Hs | exact Hc].
    destruct Hrun as (w & s' & c' & -> & Hk & Hc').
    rewrite length_app, Nat.add_sub, firstn_app, Nat.sub_diag, firstn_all in Hk.
    simpl in Hk. rewrite app_nil_r in Hk.
    exists w, s', ((n, w) :: c'). repeat split; auto.
    intros m v. simpl. destruct (Nat.eqb m n).
    + intros [= <-]. destruct Hs as (pre & ->). exists pre, s'. reflexivity.
    + apply Hc'.
  - destruct (length s =? total)%nat; [| discriminate]. exists [], s, c. auto.
  - assert (k s c = Some x) as Hk.
    { destruct s as [| a [| b s']]; [exact Hrun | | discriminate].
      destruct (Ascii.eqb a "010"); [exact Hrun | discriminate]. }
    exists [], s, c. auto.
Qed.

Lemma match_here_infix total text r s m :
  (exists pre, text = pre ++ s) -> match_here total r s = Some m ->
  infix (m_whole m) text /\ caps_infix text (m_caps m).
Proof.
  intros Hs Hm. unfold match_here in Hm.
  apply (rmatch_infix total text r) in Hm; [| exact Hs | intros n w; discriminate].
  destruct Hm as (w & s' & c' & -> & Hk & Hc). injection Hk as <-. simpl.
  rewrite length_app, Nat.add_sub, firstn_app, Nat.sub_diag, firstn_all.
  simpl. rewrite app_nil_r. split; [| exact Hc].
  destruct Hs as (pre & ->). exists pre, s'. reflexivity.
Qed.

Lemma search_from_infix total text r : forall s m,
  (exists pre, text = pre ++ s) -> search_from total r s = Some m ->
  infix (m_whole m) text /\ caps_infix text (m_caps m).
Proof.
  induction s as [| a s IH]; simpl; intros m Hs Hm.
  - destruct (match_here total r []) eqn:E; [| discriminate].
    injection Hm as ->. exact (match_here_infix _ _ _ _ _ Hs E).
  - destruct (match_here total r (a :: s)) eqn:E.
    + injection Hm as ->. exact (match_here_infix _ _ _ _ _ Hs E).
    + apply IH; [| exact Hm]. destruct Hs as (pre & ->).
      exists (pre ++ [a]). rewrite <- app_assoc. reflexivity.
Qed.

Lemma chars_of_str l : chars (str l) = l.
Proof. apply list_ascii_of_string_of_list_ascii. Qed.

Lemma m_group_infix text n m :
  infix (m_whole m) text -> caps_infix text (m_caps m) -> infix (chars (m_group n m)) text.
Proof.
  intros Hw Hc. unfold m_group. destruct n as [| n]; rewrite chars_of_str; [exact Hw |].
  destruct (group (S n) (m_caps m)) as [w |] eqn:E; simpl; [eauto | apply infix_nil].
Qed.

(** A group of a match stands in the subject. *)
Lemma re_search_infix r s m n :
  re_search r s = Some m -> infix (chars (m_group n m)) (chars s).
Proof.
  intros Hm. unfold re_search in Hm.
  apply (search_from_infix _ (chars s)) in Hm; [| exists []; reflexivity].
  destruct Hm. apply m_group_infix; assumption.
Qed.

Lemma re_match_infix r s m n :
  re_match r s = Some m -> infix (chars (m_group n m)) (chars s).
Proof.
  intros Hm. unfold re_match in Hm.
  apply (match_here_infix _ (chars s)) in Hm; [| exists []; reflexivity].
  destruct Hm. apply m_group_infix; assumption.
Qed.

Lemma matches_from_infix total text r : forall s skip m,
  (exists pre, text = pre ++ s) ->
  In m (matches_from total r skip s) -> infix (m_whole m) text.
Proof.
  induction s as [| a s IH]; simpl; intros skip m Hs Hin; [contradiction |].
  assert (Hs' : exists pre, text = pre ++ s).
  { destruct Hs as (pre & ->). exists (pre ++ [a]). rewrite <- app_assoc. reflexivity. }
  destruct skip as [| n]; [| eauto].
  destruct (match_here total r (a :: s)) as [m0 |] eqn:E; [| eauto].
  destruct Hin as [<- | Hin]; [| eauto].
  apply (match_here_infix _ text) in E; [tauto | exact Hs].
Qed.

Lemma re_findall_infix r s x : In x (re_findall r s) -> infix (chars x) (chars s).
Proof.
  unfold re_findall. intros Hin. apply in_map_iff in Hin.
  destruct Hin as (m & <- & Hin). rewrite chars_of_str.
  eapply matches_from_infix; [| exact Hin]. exists []. reflexivity.
Qed.

(** *** Runs of digits *)

(** No run of digits of [l] is longer than [int] reads, [run] digits
    standing right before [l]. *)
Fixpoint digit_runs (run : Z) (l : list ascii) : bool :=
  match l with
  | [] => true
  | c :: l' =>
      if is_digit c then (run + 1 <=? max_str_digits) && digit_runs (run + 1) l'
      else digit_runs 0 l'
  end.

(** A text whose numerals [int] can read: none has more than 4300
    digits. *)
Definition short_numerals (s : string) : bool := digit_runs 0 (chars s).

(** Text of the ASCII range. *)
Definition is_ascii (s : string) : bool :=
  forallb (fun c => (code c <? 128)%N) (chars s).

Lemma digit_runs_less l : forall run run',
  run' <= run -> digit_runs run l = true -> digit_runs run' l = true.
Proof.
  induction l as [| c l IH]; simpl; intros run run' Hle H; [reflexivity |].
  destruct (is_digit c); [| exact H].
  apply andb_true_iff in H. destruct H as [H1 H2]. apply Z.leb_le in H1.
  apply andb_true_iff. split; [apply Z.leb_le; lia |].
  apply (IH (run + 1)); [lia | exact H2].
Qed.

Lemma digit_runs_suffix pre l : forall run,
  0 <= run -> digit_runs run (pre ++ l) = true -> digit_runs 0 l = true.
Proof.
  induction pre as [| c pre IH]; simpl; intros run Hrun H.
  - apply (digit_runs_less l run); [lia | exact H].
  - destruct (is_digit c).
    + apply andb_true_iff in H. apply (IH (run + 1)); [lia | tauto].
    + apply (IH 0); [lia | exact H].
Qed.

Lemma digit_runs_prefix l post : forall run,
  digit_runs run (l ++ post) = true -> digit_runs run l = true.
Proof.
  induction l as [| c l IH]; simpl; intros run H; [reflexivity |].
  destruct (is_digit c).
  - apply andb_true_iff in H. apply andb_true_iff. split; [tauto | apply IH; tauto].
  - apply IH, H.
Qed.

Lemma digit_runs_infix w text :
  infix w text -> digit_runs 0 text = true -> digit_runs 0 w = true.
Proof.
  intros (pre & post & ->) H.
  apply (digit_runs_suffix pre _ 0) in H; [| lia].
  apply (digit_runs_prefix w post), H.
Qed.

Lemma digit_runs_length ds : forall run,
  0 <= run -> Forall (fun a => is_digit a = true) ds -> digit_runs run ds = true ->
  ds = [] \/ run + Z.of_nat (length ds) <= max_str_digits.
Proof.
  induction ds as [| c ds IH]; intros run Hrun Hd H; [left; reflexivity |].
  right. inversion Hd as [| ? ? Hc Hds]; subst. simpl in H. rewrite Hc in H.
  apply andb_true_iff in H. destruct H as [H1 H2]. apply Z.leb_le in H1.
  destruct (IH (run + 1) ltac:(lia) Hds H2) as [-> | Hle]; simpl length; lia.
Qed.

Lemma short_digits ds :
  Forall (fun a => is_digit a = true) ds -> digit_runs 0 ds = true -> too_long ds = false.
Proof.
  intros Hd H. unfold too_long. apply Z.ltb_ge.
  destruct (digit_runs_length ds 0 ltac:(lia) Hd H) as [-> | Hle]; simpl; unfold max_str_digits in *; lia.
Qed.

Lemma digit_runs_length_le l : forall run,
  0 <= run -> run + Z.of_nat (length l) <= max_str_digits -> digit_runs run l = true.
Proof.
  induction l as [| c l IH]; simpl length; intros run Hrun Hle; [reflexivity |].
  simpl. destruct (is_digit c).
  - apply andb_true_iff. split; [apply Z.leb_le; lia | apply IH; lia].
  - apply (digit_runs_less l (run + 1)); [lia | apply IH; lia].
Qed.

(** A text of no more than 4300 characters has short numerals. *)
Lemma short_text s :
  Z.of_nat (length (chars s)) <= max_str_digits -> short_numerals s = true.
Proof. intros H. apply digit_runs_length_le; [lia | exact H]. Qed.

(** *** [int] reads every integer literal of no more than 4300 digits *)

Lemma first_digit a ds (A : Type) (x y z : A) :
  is_digit a = true ->
  match a :: ds with
  | "-"%char :: _ => x
  | "+"%char :: _ => y
  | _ => z
  end = z.
Proof.
  intros Ha. destruct a as [[] [] [] [] [] [] [] []]; try reflexivity; discriminate Ha.
Qed.

(** [int] on a run of digits, with a minus before it or not. *)
Theorem int_of_digits (neg : bool) ds :
  ds <> [] -> Forall (fun a => is_digit a = true) ds ->
  int_of_chars (if neg then "-"%char :: ds else ds)
  = if too_long ds then Raise ValueError
    else Ok (if neg then - digits_val ds else digits_val ds).
Proof.
  intros Hne Hd. unfold int_of_chars. destruct neg.
  - destruct (last_digit ds ["-"%char] Hd Hne) as (b & Hb & Hbd).
    rewrite (strip_chars_id ("-"%char :: ds) "-"%char b)
      by auto using digit_not_space.
    rewrite literal_digits_all by auto. reflexivity.
  - destruct (last_digit ds [] Hd Hne) as (b & Hb & Hbd). simpl in Hb.
    destruct ds as [| a ds']; [congruence |].
    assert (Ha : is_digit a = true) by (inversion Hd; assumption).
    rewrite (strip_chars_id (a :: ds') a b) by auto using digit_not_space.
    assert (Hsign : match a :: ds' with
                    | "-"%char :: r => (true, r)
                    | "+"%char :: r => (false, r)
                    | _ => (false, a :: ds')
                    end = (false, a :: ds')).
    { destruct a as [[] [] [] [] [] [] [] []]; try reflexivity; discriminate Ha. }
    rewrite Hsign. rewrite literal_digits_all by auto. reflexivity.
Qed.

Theorem int_of_literal w :
  int_literal w -> digit_runs 0 w = true -> exists z, int_of_chars w = Ok z.
Proof.
  intros (ds & Hne & Hd & Hw) Hshort.
  assert (Hds : too_long ds = false).
  { apply short_digits; [exact Hd |]. apply (digit_runs_infix ds w); [| exact Hshort].
    destruct Hw as [-> | ->]; [apply infix_refl | apply (infix_cons "-"%char), infix_refl]. }
  destruct Hw as [-> | ->].
  - rewrite (int_of_digits false ds Hne Hd), Hds. eauto.
  - rewrite (int_of_digits true ds Hne Hd), Hds. eauto.
Qed.

End ReFacts.

(** ** The function-call parser *)

Module ParserFacts.
Import Py Re Agent ReFacts.

Lemma groups_in_lit P s : groups_in P (lit s).
Proof. unfold lit. induction (chars s); simpl; auto. Qed.

Lemma binds_lit n s : binds n (lit s) = false.
Proof. unfold lit. induction (chars s); simpl; auto. Qed.

Lemma groups_in_arg P key value : groups_in P value -> groups_in P (arg_re key value).
Proof. intros H. unfold arg_re. simpl. repeat split; auto using groups_in_lit. Qed.

Lemma binds_arg n key value : binds n value = true -> binds n (arg_re key value) = true.
Proof. intros H. unfold arg_re. simpl. rewrite H, binds_lit. reflexivity. Qed.

(** Groups 1 and 2 of the argument patterns hold integer literals. *)
Definition int_groups (n : nat) (w : list ascii) : Prop :=
  n = 1%nat \/ n = 2%nat -> int_literal w.

Lemma int_group_reads m n :
  n = 1%nat \/ n = 2%nat ->
  caps_in int_groups (m_caps m) -> bound n (m_caps m) ->
  short_numerals (m_group n m) = true ->
  exists z, int_of_str (m_group n m) = Ok z.
Proof.
  intros Hn Hc Hb Hshort. unfold short_numerals in Hshort.
  destruct (m_group_bound int_groups n m) as (w & Heq & Hw); auto.
  { destruct Hn; subst; discriminate. }
  rewrite Heq in *. unfold int_of_str. rewrite chars_of_str in *.
  apply int_of_literal; auto.
Qed.

(** The parts of a text with short numerals have short numerals. *)
Lemma short_infix s t :
  infix (chars s) (chars t) -> short_numerals t = true -> short_numerals s = true.
Proof. apply digit_runs_infix. Qed.

Lemma short_strip s : short_numerals s = true -> short_numerals (strip s) = true.
Proof.
  apply short_infix. unfold strip. rewrite chars_of_str. apply strip_infix.
Qed.

Lemma short_search r s m n :
  re_search r s = Some m -> short_numerals s = true -> short_numerals (m_group n m) = true.
Proof. intros Hm. apply short_infix. exact (re_search_infix r s m n Hm). Qed.

Lemma short_match r s m n :
  re_match r s = Some m -> short_numerals s = true -> short_numerals (m_group n m) = true.
Proof. intros Hm. apply short_infix. exact (re_match_infix r s m n Hm). Qed.

Lemma _parse_pair_ok arg_text key :
  short_numerals arg_text = true -> exists p, _parse_pair arg_text key = Ok p.
Proof.
  intros Hshort.
  unfold _parse_pair. destruct (re_search (pair_re key) arg_text) as [m |] eqn:E; eauto.
  pose proof (fun n => short_search _ _ _ n E Hshort) as Hg.
  apply (search_from_sound _ int_groups) in E.
  - destruct E as (_ & _ & _ & _ & _ & _ & Hc & Hb).
    destruct (int_group_reads m 1) as (a & ->); auto.
    { apply Hb. apply binds_arg. reflexivity. }
    destruct (int_group_reads m 2) as (b & ->); auto.
    { apply Hb. apply binds_arg. reflexivity. }
    simpl. eauto.
  - apply groups_in_arg. simpl. repeat split; auto; intros w Hw _; apply lang_signed, Hw.
Qed.

Lemma _parse_int_ok arg_text key :
  short_numerals arg_text = true -> exists p, _parse_int arg_text key = Ok p.
Proof.
  intros Hshort.
  unfold _parse_int. destruct (re_search (int_re key) arg_text) as [m |] eqn:E; eauto.
  pose proof (fun n => short_search _ _ _ n E Hshort) as Hg.
  apply (search_from_sound _ int_groups) in E.
  - destruct E as (_ & _ & _ & _ & _ & _ & Hc & Hb).
    destruct (int_group_reads m 1) as (a & ->); auto.
    { apply Hb. apply binds_arg. reflexivity. }
    simpl. eauto.
  - apply groups_in_arg. simpl. repeat split; auto; intros w Hw _; apply lang_signed, Hw.
Qed.

Definition no_digit (s : string) : Prop :=
  Forall (fun a => is_digit a = false) (chars s).

(** The seconds of a wait, as [parse_action] reads them from the duration. *)
Definition wait_seconds (duration : string) : result Z :=
  match re_search digits_group_re duration with
  | Some m_d => int_of_str (m_group 1 m_d)
  | None => Ok 2
  end.

Lemma wait_seconds_ok duration :
  short_numerals duration = true -> exists sec, wait_seconds duration = Ok sec.
Proof.
  intros Hshort. unfold wait_seconds.
  destruct (re_search digits_group_re duration) as [m |] eqn:E; eauto.
  pose proof (short_search _ _ _ 1 E Hshort) as Hg.
  apply (search_from_sound _ int_groups) in E.
  - destruct E as (_ & _ & _ & _ & _ & _ & Hc & Hb).
    apply int_group_reads; auto.
  - simpl. repeat split; auto. intros w Hw _.
    apply lang_plus_chr in Hw. destruct Hw as [Hne Hd].
    exists w. auto.
Qed.

(** *** Unescaping keeps the numerals short *)

Lemma replace_go_skip old new l : forall n,
  replace_go old new n l = replace_go old new 0 (skipn n l).
Proof.
  induction l as [| c l IH]; intros n.
  - destruct n; reflexivity.
  - destruct n as [| n]; [reflexivity |]. simpl. apply IH.
Qed.

Lemma is_prefix_app p : forall l, is_prefix p l = true -> l = p ++ skipn (length p) l.
Proof.
  induction p as [| a p IH]; intros l H; [reflexivity |].
  destruct l as [| b l]; [discriminate |]. simpl in H.
  apply andb_true_iff in H. destruct H as [Hab Hp].
  apply Ascii.eqb_eq in Hab. subst. simpl. f_equal. apply IH, Hp.
Qed.

Lemma digit_runs_after p x : forall run,
  p <> [] -> Forall (fun a => is_digit a = false) p ->
  digit_runs run (p ++ x) = digit_runs 0 x.
Proof.
  induction p as [| a p IH]; intros run Hne Hp; [congruence |].
  inversion Hp as [| ? ? Ha Hp']; subst. simpl. rewrite Ha.
  destruct p as [| b p]; [reflexivity |]. apply IH; [discriminate | exact Hp'].
Qed.

Lemma digit_runs_replace old new :
  old <> [] -> new <> [] ->
  Forall (fun a => is_digit a = false) old -> Forall (fun a => is_digit a = false) new ->
  forall n l run, (length l <= n)%nat ->
    digit_runs run l = true -> digit_runs run (replace_go old new 0 l) = true.
Proof.
  intros Hold Hnew Hdo Hdn. induction n as [| n IH]; intros l run Hlen H.
  { destruct l; [reflexivity | simpl in Hlen; lia]. }
  destruct l as [| c l]; [reflexivity |].
  cbn [replace_go]. destruct (is_prefix old (c :: l)) eqn:Ep.
  - apply is_prefix_app in Ep.
    destruct old as [| a old']; [congruence |].
    cbn [length] in *. rewrite Nat.sub_succ, Nat.sub_0_r, replace_go_skip.
    injection Ep as <- El.
    rewrite (digit_runs_after new _ run) by assumption.
    apply IH.
    + rewrite length_skipn. simpl in Hlen. lia.
    + rewrite El in H at 1.
      change (c :: old' ++ skipn (length old') l) with ((c :: old') ++ skipn (length old') l) in H.
      rewrite (digit_runs_after (c :: old') _ run) in H by assumption. exact H.
  - simpl in H |- *. simpl in Hlen. destruct (is_digit c).
    + apply andb_true_iff in H. apply andb_true_iff.
      split; [tauto | apply IH; [lia | tauto]].
    + apply IH; [lia | exact H].
Qed.

Lemma short_replace s old new :
  chars old <> [] -> chars new <> [] ->
  Forall (fun a => is_digit a = false) (chars old) ->
  Forall (fun a => is_digit a = false) (chars new) ->
  short_numerals s = true -> short_numerals (replace s old new) = true.
Proof.
  intros Ho Hn Hdo Hdn H. unfold short_numerals, replace. rewrite chars_of_str.
  apply (digit_runs_replace _ _ Ho Hn Hdo Hdn (length (chars s))); [lia | exact H].
Qed.

Lemma short_quoted arg_text key v :
  short_numerals arg_text = true -> _parse_quoted arg_text key = Some v ->
  short_numerals v = true.
Proof.
  intros Hshort Hq. unfold _parse_quoted in Hq.
  destruct (re_search (quoted_re key) arg_text) as [m |] eqn:E; [| discriminate].
  injection Hq as <-.
  apply short_replace; try (vm_compute; repeat constructor; discriminate).
  apply short_replace; try (vm_compute; repeat constructor; discriminate).
  exact (short_search _ _ _ 1 E Hshort).
Qed.

Lemma wait_seconds_no_digit duration : no_digit duration -> wait_seconds duration = Ok 2.
Proof.
  intros Hnd. unfold wait_seconds.
  destruct (re_search digits_group_re duration) as [m |] eqn:E; [| reflexivity].
  exfalso. apply (search_from_sound _ (fun _ _ => True)) in E.
  - destruct E as (pre & w & post & Heq & Hw & _).
    apply lang_group, lang_plus_chr in Hw. destruct Hw as [Hne Hd].
    destruct w as [| a w]; [congruence |].
    unfold no_digit in Hnd. rewrite Heq in Hnd.
    apply Forall_app in Hnd. destruct Hnd as [_ Hnd].
    inversion Hnd as [| ? ? Ha _]; subst. inversion Hd as [| ? ? Ha' _]; subst.
    congruence.
  - simpl. auto.
Qed.

Definition kinds : list string :=
  ["tap"; "swipe"; "type"; "wait"; "finish"; "invalid"]%string.

Lemma or_str_no_digit x d :
  (forall s, x = Some s -> no_digit s) -> wait_seconds d = Ok 2 ->
  wait_seconds (or_str x d) = Ok 2.
Proof.
  intros Hx Hd. destruct x as [s |]; simpl; [| exact Hd].
  destruct (String.eqb s EmptyString); [exact Hd |].
  apply wait_seconds_no_digit. auto.
Qed.

Ltac parser_done k :=
  eexists; exists k; split; [reflexivity |];
  split; [reflexivity |];
  split; [unfold kinds; simpl; tauto |];
  intros Hk; discriminate Hk.

(** A tap call whose first coordinate has 4301 digits. *)
Definition long_tap_call : string :=
  dq "do(action='Tap', element=[" +:+ str (repeat "9"%char 4301) +:+ ",1])".




(** The scenario of the function-call grammar. *)
Example parse_tap_300_800 :
  parse_action
    (_extract_answer
       (dq "<think>open it</think><answer>do(action='Tap', element=[300,800])</answer>"))
  = Ok (dict [("kind", VStr "tap"); ("x", VInt 300); ("y", VInt 800)]%string).
Proof. vm_compute. reflexivity. Qed.

End ParserFacts.

(** ** State comparator *)

Module ComparatorFacts.
Import Py Agent.

Lemma _hamming_distance_self a : _hamming_distance a a = 0.
Proof. unfold _hamming_distance. rewrite Z.lxor_nilpotent. reflexivity. Qed.

(** C8: whatever the non-negative threshold, two states with the same source,
    signature and perceptual hash are the same, and two states of different
    sources are different. *)
Theorem states_similar_same_and_mixed (ahash_threshold : Z) (prev curr : UiState) :
  0 <= ahash_threshold ->
  (source prev = source curr -> state_sig prev = state_sig curr ->
   screen_ahash prev = screen_ahash curr ->
   (_states_similar (Some prev) (Some curr) ahash_threshold).1 = true) /\
  (source prev <> source curr ->
   _states_similar (Some prev) (Some curr) ahash_threshold
   = (false, "source_changed"%string)).
Proof.
  intros Hthr. unfold _states_similar. split.
  - intros Hsrc Hsig Hash. rewrite Hsrc, Hsig, Hash, !String.eqb_refl. simpl.
    destruct (String.eqb (source curr) "xml"); [reflexivity |].
    destruct (screen_ahash curr) as [a |]; [| reflexivity].
    rewrite _hamming_distance_self. simpl. apply Z.leb_le. exact Hthr.
  - intros Hsrc. apply String.eqb_neq in Hsrc. rewrite Hsrc. reflexivity.
Qed.

Lemma states_similar_same_and_mixed_witness :
  let s := {| source := "screenshot"; text := EmptyString; image_b64 := EmptyString;
              state_sig := "shot:ab"; screen_ahash := Some 170 |} in
  let x := {| source := "xml"; text := EmptyString; image_b64 := EmptyString;
              state_sig := "shot:ab"; screen_ahash := Some 170 |} in
  (_states_similar (Some s) (Some s) 6).1 = true /\
  _states_similar (Some s) (Some x) 6 = (false, "source_changed"%string).
Proof.
  intros s x. split.
  - apply (states_similar_same_and_mixed 6 s s); [lia | reflexivity ..].
  - apply (states_similar_same_and_mixed 6 s x); [lia | discriminate].
Defined.

End ComparatorFacts.

(** ** Tap executor *)

Module TapFacts.
Import Py Agent AgentLoop.

Definition is_click (e : entry) : bool :=
  match e.1 with
  | Click _ _ => true
  | _ => false
  end.

Definition succeeded (e : entry) : bool :=
  match e.2 with
  | Some true => true
  | _ => false
  end.

(** The state [fetch_ui_state] makes of a screenshot. *)
Definition shot_state (shot : Shot) : UiState :=
  {| source := "screenshot";
     text := EmptyString;
     image_b64 := shot_b64 shot;
     state_sig := "shot:" +:+ shot_sha256 shot;
     screen_ahash := shot_ahash shot |}.

#[local] Arguments _states_similar : simpl never.
#[local] Arguments _clip : simpl never.

Section Ladder.

Context {W : Type}.
Variable env : @Env W.
Variable base_state : UiState.
Variable ahash_threshold : Z.

(** The device answers every click, with whatever status. *)
Definition clicks_answered : Prop :=
  forall x y w, exists ok body w', env_click env x y w = (Ok (ok, body), w').

(** Every screenshot compares equal to the pre-tap state. *)
Definition ui_never_changes : Prop :=
  forall w, exists shot w',
    env_screenshot env w = (Ok shot, w') /\
    (_states_similar (Some base_state) (Some (shot_state shot)) ahash_threshold).1 = true.

Lemma fetch_ui_state_eq w log shot w' :
  env_screenshot env w = (Ok shot, w') ->
  fetch_ui_state env (w, log) = (Ok (shot_state shot), (w', log)).
Proof.
  intros H. unfold fetch_ui_state, mbind', get_ui_screenshot, query. simpl.
  rewrite H. reflexivity.
Qed.

Lemma tap_attempts_exhaust x y xmin ymin xmax ymax :
  clicks_answered -> ui_never_changes ->
  forall todo last_body any_success final_point w log,
  exists any body final w' sent,
    tap_attempts env base_state x y xmin ymin xmax ymax ahash_threshold todo
                 last_body any_success final_point (w, log)
    = (Ok (any, body, false, final), (w', log ++ sent)) /\
    length sent = length todo /\
    forallb is_click sent = true /\
    any = any_success || existsb succeeded sent.
Proof.
  intros Hclick Hshot.
  induction todo as [| [dx dy] todo IH]; intros last_body any_success final_point w log.
  - exists any_success, last_body, final_point, w, []. simpl.
    rewrite app_nil_r, orb_false_r. auto.
  - simpl. unfold mbind', click, control. simpl.
    destruct (Hclick (_clip (x + dx) xmin xmax) (_clip (y + dy) ymin ymax) w)
      as (ok & body & w1 & ->).
    destruct ok; simpl.
    + destruct (Hshot w1) as (shot & w2 & Hs & Hsame).
      rewrite (fetch_ui_state_eq _ _ _ _ Hs).
      destruct (_states_similar (Some base_state) (Some (shot_state shot)) ahash_threshold)
        as [same reason]. simpl in Hsame. subst same. simpl.
      destruct (IH body true (_clip (x + dx) xmin xmax, _clip (y + dy) ymin ymax) w2
                   (log ++ [(Click (_clip (x + dx) xmin xmax) (_clip (y + dy) ymin ymax),
                             Some true)]))
        as (any & body' & final & w' & sent & -> & Hlen & Hcl & Hany).
      eexists any, body', final, w', (_ :: sent).
      rewrite <- app_assoc. simpl. repeat split; auto.
      * rewrite Hany. rewrite orb_true_r. reflexivity.
    + destruct (IH body any_success (_clip (x + dx) xmin xmax, _clip (y + dy) ymin ymax) w1
                   (log ++ [(Click (_clip (x + dx) xmin xmax) (_clip (y + dy) ymin ymax),
                             Some false)]))
        as (any & body' & final & w' & sent & -> & Hlen & Hcl & Hany).
      eexists any, body', final, w', (_ :: sent).
      rewrite <- app_assoc. simpl. repeat split; auto.
Qed.


End Ladder.

(** A simulated device and model: the screen never changes, the clicks
    succeed as [click_ok] says of the number of requests made so far, and
    the model gives the answers of a script, one per request. *)
Record world : Type := {
  tick : nat;
  script : list string
}.

Definition next (w : world) : world := {| tick := S (tick w); script := script w |}.

Definition still_shot : Shot :=
  {| shot_b64 := "iVBORw0KGgo="; shot_sha256 := "e3b0c442"; shot_ahash := Some 170 |}.

Definition sim_env (click_ok : nat -> bool) : @Env world :=
  {| env_screenshot := fun w => (Ok still_shot, next w);
     env_chat := fun w =>
       match script w with
       | answer :: rest => (Ok answer, {| tick := S (tick w); script := rest |})
       | [] => (Raise HttpError, next w)
       end;
     env_click := fun _ _ w => (Ok (click_ok (tick w), "{}"%string), next w);
     env_swipe := fun _ _ _ _ _ w => (Ok (true, "{}"%string), next w);
     env_input := fun _ _ w => (Ok (true, "{}"%string), next w);
     env_crop := fun _ _ _ => None;
     env_repr := fun _ => EmptyString |}.

Definition start (answers : list string) : world * list entry :=
  ({| tick := 0; script := answers |}, []).

Definition range_dict (xmin ymin xmax ymax : Z) : gmap string pyval :=
  dict [("xMin", VInt xmin); ("yMin", VInt ymin);
        ("xMax", VInt xmax); ("yMax", VInt ymax)]%string.


(** A device service that cannot be reached: the screen is as before, and
    every click request raises the [HttpError] of [_request_json]. *)
Definition unreachable_env : @Env world :=
  {| env_screenshot := fun w => (Ok still_shot, next w);
     env_chat := fun w => (Raise HttpError, next w);
     env_click := fun _ _ w => (Raise HttpError, next w);
     env_swipe := fun _ _ _ _ _ w => (Raise HttpError, next w);
     env_input := fun _ _ w => (Raise HttpError, next w);
     env_crop := fun _ _ _ => None;
     env_repr := fun _ => EmptyString |}.


(** The three attempts of that run: the first click fails, the next two
    succeed, and the ladder goes to its end. *)
Example tap_ladder_run :
  _tap_with_retry (sim_env Nat.odd) (shot_state still_shot) 400 900
                  (range_dict 0 0 1079 2339) 2 6 (start [])
  = (Ok (true, "{}"%string, false, (350, 900)),
     ({| tick := 5; script := [] |},
      [(Click 400 900, Some false); (Click 450 900, Some true);
       (Click 350 900, Some true)])).
Proof. vm_compute. reflexivity. Qed.

End TapFacts.

(** ** Episode loop *)

Module EpisodeFacts.
Import Py Agent AgentLoop TapFacts.

#[local] Arguments _states_similar : simpl never.
#[local] Arguments _clip : simpl never.
#[local] Arguments parse_action : simpl never.
#[local] Arguments _extract_answer : simpl never.

(** The condition under which the loop guard moves the target of a tap. *)
Definition guard_fires (cfg : Config) (same_state_streak : Z)
    (last_tap_point : option (Z * Z)) (target_x target_y : Z) : bool :=
  match last_tap_point with
  | Some (lx, ly) =>
      (1 <=? same_state_streak)
      && (Z.abs (target_x - lx) + Z.abs (target_y - ly) <? min_tap_drift_px cfg)
  | None => false
  end.

Lemma loop_guard_idle cfg streak last tx ty :
  guard_fires cfg streak last tx ty = false ->
  loop_guard cfg streak last tx ty = Ok (tx, ty).
Proof.
  unfold guard_fires, loop_guard. destruct last as [[lx ly] |]; [| reflexivity].
  destruct (1 <=? streak); [| reflexivity]. simpl. intros ->. reflexivity.
Qed.

(** The most recent logged command is a click at the stored tap point. *)
Definition tracks (last_tap_point : option (Z * Z)) (log : list entry) : Prop :=
  forall p, last_tap_point = Some p ->
  exists log0 flag, log = log0 ++ [(Click p.1 p.2, flag)].

Section Triples.

Context {W : Type}.
Variable env : @Env W.

#[local] Abbreviation M := (@M W).

(** Partial correctness over the command log. *)
Definition triple {A : Type} (pre : list entry -> Prop) (m : M A)
    (post : A -> list entry -> Prop) : Prop :=
  forall w log a w' log',
    pre log -> m (w, log) = (Ok a, (w', log')) -> post a log'.

(** The computation leaves the log alone. *)
Definition silent {A : Type} (m : M A) : Prop :=
  forall s r s', m s = (r, s') -> s'.2 = s.2.

Lemma triple_bind {A B : Type} pre mid post (m : M A) (f : A -> M B) :
  triple pre m mid -> (forall a, triple (mid a) (f a) post) ->
  triple pre (mbind' m f) post.
Proof.
  intros Hm Hf w log b w' log' Hpre Hrun. unfold mbind' in Hrun.
  destruct (m (w, log)) as [[a | e] [w1 log1]] eqn:E; [| discriminate].
  eapply Hf; [| exact Hrun]. eapply Hm; eauto.
Qed.

Lemma triple_silent {A : Type} pre (m : M A) :
  silent m -> triple pre m (fun _ => pre).
Proof.
  intros Hs w log a w' log' Hpre Hrun. apply Hs in Hrun. simpl in Hrun.
  subst. exact Hpre.
Qed.

Lemma triple_ret {A : Type} (pre : list entry -> Prop) (a : A) post :
  (forall log, pre log -> post a log) -> triple pre (ret a) post.
Proof. intros H w log a' w' log' Hpre [= <- <- <-]. auto. Qed.

Lemma triple_weaken {A : Type} (pre : list entry -> Prop) (m : M A)
    (post post' : A -> list entry -> Prop) :
  triple pre m post -> (forall a log, post a log -> post' a log) -> triple pre m post'.
Proof. intros Hm Hw w log a w' log' Hpre Hrun. eapply Hw, Hm; eauto. Qed.

Lemma silent_ret {A : Type} (a : A) : silent (ret (W := W) a).
Proof. intros s r s' [= <- <-]. reflexivity. Qed.

Lemma silent_lift {A : Type} (r : result A) : silent (lift (W := W) r).
Proof. intros s r' s' [= <- <-]. reflexivity. Qed.

Lemma silent_query {A : Type} (f : W -> result A * W) : silent (query f).
Proof.
  intros s r s'. unfold query. destruct (f s.1) as [r0 w0]. intros [= <- <-].
  reflexivity.
Qed.

Lemma silent_bind {A B : Type} (m : M A) (f : A -> M B) :
  silent m -> (forall a, silent (f a)) -> silent (mbind' m f).
Proof.
  intros Hm Hf s r s'. unfold mbind'.
  destruct (m s) as [[a | e] s1] eqn:E; intros Hrun.
  - apply Hf in Hrun. apply Hm in E. congruence.
  - injection Hrun as <- <-. apply Hm in E. exact E.
Qed.

Lemma silent_fetch : silent (fetch_ui_state env).
Proof.
  apply silent_bind; [apply silent_query | intros; apply silent_ret].
Qed.

Lemma silent_recover n : silent (recover env n).
Proof.
  induction n as [| n IH]; simpl; [apply silent_ret |].
  apply silent_bind; [apply silent_query | intros raw2].
  apply silent_bind; [apply silent_lift | intros action2].
  apply silent_bind; [apply silent_lift | intros is_invalid].
  destruct (negb is_invalid); [apply silent_ret | exact IH].
Qed.

(** The log ends with a click at [p]. *)
Definition ends_at (p : Z * Z) (log : list entry) : Prop :=
  exists log0 flag, log = log0 ++ [(Click p.1 p.2, flag)].

Lemma triple_control pre c f :
  triple pre (control c f) (fun _ log => exists log0 flag, log = log0 ++ [(c, flag)]).
Proof.
  intros w log a w' log' _. unfold control. simpl.
  destruct (f w) as [r w1]. intros [= -> <- <-]. eauto.
Qed.

Lemma triple_lift {A : Type} (pre : list entry -> Prop) (r : result A) :
  triple pre (lift r) (fun a log => pre log /\ r = Ok a).
Proof. intros w log a w' log' Hpre [= -> <- <-]. auto. Qed.

Lemma tap_attempts_ends base_state x y xmin ymin xmax ymax thr :
  forall todo last_body any_success final_point,
    triple (fun log => todo = [] -> ends_at final_point log)
           (tap_attempts env base_state x y xmin ymin xmax ymax thr todo
                         last_body any_success final_point)
           (fun r log => ends_at r.2 log).
Proof.
  induction todo as [| [dx dy] todo IH]; intros last_body any_success final_point; simpl.
  - apply triple_ret. auto.
  - apply triple_bind with (mid := fun _ log =>
      ends_at (_clip (x + dx) xmin xmax, _clip (y + dy) ymin ymax) log).
    { eapply triple_weaken; [apply triple_control |].
      intros a log (log0 & flag & ->). exists log0, flag. reflexivity. }
    intros [ok body]. destruct ok; simpl.
    + eapply triple_bind; [apply triple_silent, silent_fetch |].
      intros after.
      destruct (_states_similar (Some base_state) (Some after) thr) as [same reason].
      destruct same; simpl.
      * intros w log a w' log' Hpre. apply IH. auto.
      * apply triple_ret. auto.
    + intros w log a w' log' Hpre. apply IH. auto.
Qed.

Lemma _tap_with_retry_ends base_state x y click_range max_retry thr pre :
  0 <= max_retry ->
  triple pre (_tap_with_retry env base_state x y click_range max_retry thr)
         (fun r log => ends_at r.2 log).
Proof.
  intros Hretry. unfold _tap_with_retry.
  eapply triple_bind; [apply triple_lift |]. intros xmin.
  eapply triple_bind; [apply triple_lift |]. intros ymin.
  eapply triple_bind; [apply triple_lift |]. intros xmax.
  eapply triple_bind; [apply triple_lift |]. intros ymax.
  intros w log a w' log' _. apply tap_attempts_ends.
  intros Hnil. exfalso.
  assert (Hlen : length (firstn (Z.to_nat (Z.min (max_retry + 1)
                   (Z.of_nat (length offsets)))) offsets) = 0%nat)
    by (rewrite Hnil; reflexivity).
  rewrite length_firstn in Hlen. simpl length in Hlen.
  change (Z.of_nat 7) with 7 in Hlen. lia.
Qed.

Lemma triple_pure {A : Type} (pre : list entry -> Prop) (P : Prop) (m : M A) post :
  (P -> triple pre m post) -> triple (fun log => pre log /\ P) m post.
Proof. intros H w log a w' log' [Hpre HP]. apply H; assumption. Qed.

Tactic Notation "bind_lift" ident(x) ident(H) :=
  eapply triple_bind; [apply triple_lift |]; intros x; apply triple_pure; intros H.

Tactic Notation "bind_silent" ident(x) tactic(tac) :=
  eapply triple_bind; [apply triple_silent; tac |]; intros x.

(** What [dispatch] does to the stored tap point, by the kind of the action:
    a tap stores the point of its last click, a swipe, a type and a wait
    store nothing, and any other kind leaves point and log as they are. *)
Definition dispatched (action : gmap string pyval) (last : option (Z * Z))
    (log0 : list entry) (out : Outcome) (log : list entry) : Prop :=
  match is_kind action "tap" with
  | Ok true =>
      exists p, new_last_tap_point out = Some p /\ final_tap_point out = Some p /\
                ends_at p log
  | _ =>
      if catch (is_kind action "swipe") false
         || catch (is_kind action "type") false
         || catch (is_kind action "wait") false
      then new_last_tap_point out = None
      else new_last_tap_point out = last /\ log = log0
  end.

Lemma dispatch_dispatched cfg state streak last action log0 :
  0 <= tap_retry_on_no_change cfg ->
  triple (fun log => log = log0)
         (dispatch env cfg state streak last action)
         (dispatched action last log0).
Proof.
  intros Hretry. unfold dispatch, dispatched.
  bind_lift is_tap Htap. rewrite Htap. destruct is_tap.
  { bind_lift tx0 Hx. bind_lift ty0 Hy. bind_lift target Hg. destruct target as [tx ty].
    eapply triple_bind; [apply _tap_with_retry_ends; exact Hretry |].
    intros [[[ok body] changed] final]. apply triple_ret.
    intros log Hends. exists final. auto. }
  bind_lift is_swipe Hswipe. rewrite Hswipe. destruct is_swipe; simpl.
  { bind_lift sx Hsx. bind_lift sy Hsy. bind_lift ex Hex. bind_lift ey Hey.
    bind_lift duration_ms Hd.
    eapply triple_bind; [apply triple_control |]. intros [ok body].
    apply triple_ret. reflexivity. }
  bind_lift is_type Htype. rewrite Htype. destruct is_type; simpl.
  { bind_lift text Htext.
    eapply triple_bind; [apply triple_control |]. intros [ok body].
    apply triple_ret. reflexivity. }
  bind_lift is_wait Hwait. rewrite Hwait. destruct is_wait; simpl.
  { bind_lift sec Hsec. eapply triple_bind with (mid := fun _ _ => True).
    { intros w log a w' log' _ _. exact I. }
    intros _. apply triple_ret. reflexivity. }
  apply triple_ret. auto.
Qed.

Lemma dispatched_tracks action last log0 out log :
  tracks last log0 -> dispatched action last log0 out log ->
  tracks (new_last_tap_point out) log.
Proof.
  unfold dispatched. intros Htr Hd p Hp.
  destruct (is_kind action "tap") as [[] |].
  - destruct Hd as (q & Hq & _ & He).
    assert (q = p) by congruence. subst q. exact He.
  - destruct (_ || _); [congruence |]. destruct Hd as [Hl ->]. apply Htr. congruence.
  - destruct (_ || _); [congruence |]. destruct Hd as [Hl ->]. apply Htr. congruence.
Qed.

Lemma silent_shot_b64 : silent (mbind' (get_ui_screenshot env) (fun shot => ret (shot_b64 shot))).
Proof. apply silent_bind; [apply silent_query | intros; apply silent_ret]. Qed.

Lemma perform_tracks cfg state streak last action :
  0 <= tap_retry_on_no_change cfg ->
  triple (tracks last) (perform env cfg state streak last action)
         (fun st' log => tracks (last_tap_point st') log).
Proof.
  intros Hretry w log0 st' w' log' Hpre. revert w log0 st' w' log' Hpre.
  intros w log0. revert w.
  assert (H : triple (fun log => log = log0 /\ tracks last log0)
                     (perform env cfg state streak last action)
                     (fun st' log => tracks (last_tap_point st') log)).
  { apply triple_pure. intros Htr. unfold perform.
    eapply triple_bind; [apply dispatch_dispatched; exact Hretry |].
    intros out.
    eapply triple_bind.
    { apply triple_silent.
      destruct (post_state_check cfg && ok out).
      - apply silent_bind; [apply silent_fetch | intros; apply silent_ret].
      - apply silent_ret. }
    intros [post_state changed].
    bind_silent is_tap (apply silent_lift).
    eapply triple_bind.
    { apply triple_silent.
      destruct (final_tap_point out) as [[cx cy] |]; [| apply silent_ret].
      destruct (is_tap && ok out && negb changed); [| apply silent_ret].
      apply silent_bind; [| intros; apply silent_ret].
      destruct post_state as [post |]; [| apply silent_shot_b64].
      destruct (String.eqb (source post) "screenshot");
        [apply silent_ret | apply silent_shot_b64]. }
    intros pending. apply triple_ret. intros log Hd. simpl.
    eapply dispatched_tracks; eauto. }
  intros w st' w' log' Hpre Hrun. eapply H; [| exact Hrun]. auto.
Qed.

(** One step keeps the stored tap point in line with the log. *)
Lemma step_tracks cfg st :
  0 <= tap_retry_on_no_change cfg ->
  triple (tracks (last_tap_point st)) (step env cfg st)
         (fun r log =>
            match r with
            | inl _ => True
            | inr st' => tracks (last_tap_point st') log
            end).
Proof.
  intros Hretry. unfold step.
  bind_silent state (apply silent_fetch).
  bind_silent raw (apply silent_query).
  bind_silent action (apply silent_lift).
  bind_silent is_finish (apply silent_lift).
  destruct is_finish; [apply triple_ret; auto |].
  bind_silent is_invalid (apply silent_lift).
  destruct is_invalid.
  - bind_silent recovered (apply silent_recover).
    destruct recovered as [action2 |].
    + eapply triple_bind; [apply perform_tracks; exact Hretry |].
      intros st'. apply triple_ret. auto.
    + apply triple_ret. auto.
  - eapply triple_bind; [apply perform_tracks; exact Hretry |].
    intros st'. apply triple_ret. auto.
Qed.

(** The loop states [step] can reach, with the world and the log. *)
Inductive reaches (cfg : Config)
    : Loop * (W * list entry) -> Loop * (W * list entry) -> Prop :=
| reaches_here x : reaches cfg x x
| reaches_step st s st1 s1 x :
    step env cfg st s = (Ok (inr st1), s1) ->
    reaches cfg (st1, s1) x -> reaches cfg (st, s) x.

Lemma reaches_tracks cfg a b :
  0 <= tap_retry_on_no_change cfg ->
  reaches cfg a b -> tracks (last_tap_point a.1) a.2.2 -> tracks (last_tap_point b.1) b.2.2.
Proof.
  intros Hretry Hr. induction Hr as [| st [w log] st1 [w1 log1] x Hstep _ IH]; [auto |].
  intros Htr. apply IH. simpl in *.
  exact (step_tracks cfg st Hretry w log (inr st1) w1 log1 Htr Hstep).
Qed.

Lemma is_kind_other action k k' :
  is_kind action k = Ok true -> String.eqb k k' = false -> is_kind action k' = Ok false.
Proof.
  unfold is_kind, item. destruct (action !! "kind"%string) as [v |]; [| discriminate].
  simpl. destruct v; try discriminate. intros [= Hk] Hne.
  apply String.eqb_eq in Hk. subst. rewrite Hne. reflexivity.
Qed.

(** C10, amended: when a tap makes at least one attempt
    ([tap_retry_on_no_change] not negative), a swipe, a type and a wait
    reset the stored tap point and a tap stores the point of its last
    click; so when the loop guard fires, the most recent command of the run
    is a click at the stored point. *)
Theorem guard_only_after_tap (cfg : Config) :
  0 <= tap_retry_on_no_change cfg ->
  (forall state streak last action w log out w' log',
     dispatch env cfg state streak last action (w, log) = (Ok out, (w', log')) ->
     (is_kind action "tap" = Ok true ->
      exists p, new_last_tap_point out = Some p /\ ends_at p log') /\
     (is_kind action "swipe" = Ok true \/ is_kind action "type" = Ok true \/
      is_kind action "wait" = Ok true ->
      new_last_tap_point out = None)) /\
  (forall w st w' log,
     reaches cfg (initial, (w, [])) (st, (w', log)) ->
     forall streak target_x target_y,
       guard_fires cfg streak (last_tap_point st) target_x target_y = true ->
       exists p, last_tap_point st = Some p /\ ends_at p log).
Proof.
  intros Hretry. split.
  - intros state streak last action w log out w' log' Hrun.
    pose proof (dispatch_dispatched cfg state streak last action log Hretry
                  w log out w' log' eq_refl Hrun) as Hd.
    unfold dispatched in Hd. split.
    + intros Htap. rewrite Htap in Hd. destruct Hd as (p & Hp & _ & He). eauto.
    + intros Hk.
      assert (Htap : is_kind action "tap" = Ok false).
      { destruct Hk as [Hk | [Hk | Hk]]; apply (is_kind_other _ _ _ Hk); reflexivity. }
      rewrite Htap in Hd.
      destruct Hk as [Hk | [Hk | Hk]]; rewrite Hk in Hd; simpl in Hd;
        rewrite ?orb_true_r in Hd; exact Hd.
  - intros w st w' log Hr streak tx ty Hfire.
    unfold guard_fires in Hfire.
    destruct (last_tap_point st) as [p |] eqn:Hp; [| discriminate].
    exists p. split; [reflexivity |].
    pose proof (reaches_tracks cfg _ _ Hretry Hr) as Htr. simpl in Htr.
    unfold tracks in Htr. rewrite Hp in Htr. apply Htr; [| reflexivity].
    intros q Hq. discriminate Hq.
Qed.

End Triples.

End EpisodeFacts.

(** ** Coordinates sent to the device *)

Module CoordFacts.
Import Py Re Agent AgentLoop TapFacts EpisodeFacts.

#[local] Arguments _states_similar : simpl never.

Lemma _clip_in_range v low high : low <= high -> low <= _clip v low high <= high.
Proof. unfold _clip. lia. Qed.

Lemma _clamp_in_range v lo hi : lo <= hi -> lo <= Controller._clamp v lo hi <= hi.
Proof. unfold Controller._clamp. lia. Qed.

(** A logged click lies in the range. *)
Definition click_within (xmin ymin xmax ymax : Z) (e : entry) : Prop :=
  match e.1 with
  | Click x y => xmin <= x <= xmax /\ ymin <= y <= ymax
  | _ => True
  end.

Section TapRange.

Context {W : Type}.
Variable env : @Env W.

Lemma tap_attempts_within base_state x y xmin ymin xmax ymax thr :
  xmin <= xmax -> ymin <= ymax ->
  forall todo last_body any_success final_point s r s',
    tap_attempts env base_state x y xmin ymin xmax ymax thr todo
                 last_body any_success final_point s = (r, s') ->
    exists sent, s'.2 = s.2 ++ sent /\ Forall (click_within xmin ymin xmax ymax) sent.
Proof.
  intros Hx Hy.
  induction todo as [| [dx dy] todo IH]; intros last_body any_success final_point s r s' Hrun;
    simpl in Hrun.
  - injection Hrun as <- <-. exists []. rewrite app_nil_r. auto.
  - unfold mbind', click, control in Hrun. simpl in Hrun.
    destruct s as [w log]. simpl in Hrun.
    destruct (env_click env (_clip (x + dx) xmin xmax) (_clip (y + dy) ymin ymax) w)
      as [[[ok body] | e] w1]; simpl in Hrun.
    2: { injection Hrun as <- <-. simpl. eexists. split; [reflexivity |].
         repeat constructor; simpl; apply _clip_in_range; assumption. }
    assert (Hnext : forall b f r s',
      tap_attempts env base_state x y xmin ymin xmax ymax thr todo body b f
        (w1, log ++ [(Click (_clip (x + dx) xmin xmax) (_clip (y + dy) ymin ymax), Some ok)])
      = (r, s') ->
      exists sent, s'.2 = log ++ sent /\ Forall (click_within xmin ymin xmax ymax) sent).
    { intros b f r0 s0 H0. apply IH in H0. destruct H0 as (sent & Hs & Hf). simpl in Hs.
      eexists. rewrite Hs, <- app_assoc. split; [reflexivity |].
      constructor; [| exact Hf]. simpl. split; apply _clip_in_range; assumption. }
    destruct ok; simpl in Hrun; [| eauto].
    unfold fetch_ui_state, mbind', get_ui_screenshot, query in Hrun. simpl in Hrun.
    destruct (env_screenshot env w1) as [[shot | e] w2]; simpl in Hrun.
    + destruct (_states_similar _ _ _) as [same reason].
      destruct same; simpl in Hrun.
      * apply IH in Hrun. destruct Hrun as (sent & Hs & Hf). simpl in Hs.
        eexists. rewrite Hs, <- app_assoc. split; [reflexivity |].
        constructor; [| exact Hf]. simpl. split; apply _clip_in_range; assumption.
      * injection Hrun as <- <-. simpl. eexists. split; [reflexivity |].
        repeat constructor; simpl; apply _clip_in_range; assumption.
    + injection Hrun as <- <-. simpl. eexists. split; [reflexivity |].
      repeat constructor; simpl; apply _clip_in_range; assumption.
Qed.

(** Every click the tap executor sends lies in the click range it reads. *)
Lemma tap_clicks_within base_state x y click_range max_retry thr
    xmin ymin xmax ymax s r s' :
  bound click_range "xMin" 0 = Ok xmin -> bound click_range "yMin" 0 = Ok ymin ->
  bound click_range "xMax" 1079 = Ok xmax -> bound click_range "yMax" 2339 = Ok ymax ->
  xmin <= xmax -> ymin <= ymax ->
  _tap_with_retry env base_state x y click_range max_retry thr s = (r, s') ->
  exists sent, s'.2 = s.2 ++ sent /\ Forall (click_within xmin ymin xmax ymax) sent.
Proof.
  intros H1 H2 H3 H4 Hx Hy. unfold _tap_with_retry, mbind', lift.
  rewrite H1, H2, H3, H4. apply tap_attempts_within; assumption.
Qed.

End TapRange.

Definition default_cfg (range : gmap string pyval) : Config :=
  {| click_range := range;
     tap_retry_on_no_change := 2;
     invalid_action_retry := 1;
     min_tap_drift_px := 50;
     post_state_check := true;
     screenshot_ahash_threshold := 6 |}.

Definition always (_ : nat) : bool := true.

(** C2, at the failing input: the agent hands the end points of a swipe to
    the device as the model gave them; with the click range
    [0..999] x [0..999] the one step of the run sends a swipe from
    (5000,5000) to (-10,-10). *)
Theorem agent_swipe_not_clamped :
  let cfg := default_cfg (range_dict 0 0 999 999) in
  let answer := dq "do(action='Swipe', start=[5000,5000], end=[-10,-10])" in
  exists w,
    run_agent (sim_env always) cfg 1 (start [answer])
    = (Ok 2, (w, [(Swipe 5000 5000 (-10) (-10) 300, Some true)])) /\
    bound (click_range cfg) "xMax" 1079 = Ok 999 /\
    bound (click_range cfg) "yMin" 0 = Ok 0 /\
    ~ 5000 <= 999 /\ ~ 0 <= -10.
Proof.
  intros cfg answer. eexists.
  split; [vm_compute; reflexivity |].
  split; [reflexivity |]. split; [reflexivity |]. lia.
Qed.

(** C4, at the failing input: the UI never changes and the model asks for
    a tap at (400,900), then for one at (340,900).  The first tap ends its
    ladder at (350,900); in the second step the guard fires (the target is
    10 pixels from there) and moves the target to (390,900), and the tap
    executed there is 40 pixels from the last tap point, the minimum drift
    being 50. *)
Theorem drift_short_of_minimum :
  let cfg := default_cfg (range_dict 0 0 1079 2339) in
  let answers := [dq "do(action='Tap', element=[400,900])";
                  dq "do(action='Tap', element=[340,900])"] in
  exists w,
    run_agent (sim_env always) cfg 1 (start answers)
    = (Ok 2, (w, [(Click 400 900, Some true); (Click 450 900, Some true);
                  (Click 350 900, Some true)])) /\
    guard_fires cfg 1 (Some (350, 900)) 340 900 = true /\
    loop_guard cfg 1 (Some (350, 900)) 340 900 = Ok (390, 900) /\
    (exists w',
       run_agent (sim_env always) cfg 2 (start answers)
       = (Ok 2, (w', [(Click 400 900, Some true); (Click 450 900, Some true);
                      (Click 350 900, Some true); (Click 390 900, Some true);
                      (Click 440 900, Some true); (Click 340 900, Some true)]))) /\
    Z.abs (390 - 350) + Z.abs (900 - 900) < min_tap_drift_px cfg.
Proof.
  intros cfg answers. eexists.
  split; [vm_compute; reflexivity |].
  split; [vm_compute; reflexivity |].
  split; [vm_compute; reflexivity |].
  split; [eexists; vm_compute; reflexivity |].
  vm_compute. reflexivity.
Qed.

(** A configuration that grants a tap no attempt at all. *)
Definition no_attempt_cfg (range : gmap string pyval) : Config :=
  {| click_range := range;
     tap_retry_on_no_change := -1;
     invalid_action_retry := 1;
     min_tap_drift_px := 50;
     post_state_check := true;
     screenshot_ahash_threshold := 6 |}.

(** C10 as stated fails with [tap_retry_on_no_change = -1]: a tap sends no
    click and still stores its target, so after a swipe and such a tap the
    guard fires on the next tap at that point, and the last command of the
    run is the swipe. *)
Theorem guard_fires_after_swipe :
  let cfg := no_attempt_cfg (range_dict 0 0 1079 2339) in
  let answers := [dq "do(action='Swipe', start=[500,1600], end=[500,700])";
                  dq "do(action='Tap', element=[400,900])"] in
  exists st w,
    reaches (sim_env always) cfg (initial, start answers)
            (st, (w, [(Swipe 500 1600 500 700 300, Some true)])) /\
    last_tap_point st = Some (400, 900) /\
    guard_fires cfg 2 (last_tap_point st) 400 900 = true /\
    loop_guard cfg 2 (last_tap_point st) 400 900 = Ok (450, 900).
Proof.
  intros cfg answers. eexists. eexists. split.
  - eapply reaches_step; [vm_compute; reflexivity |].
    eapply reaches_step; [vm_compute; reflexivity |].
    apply reaches_here.
  - split; [reflexivity |]. split; vm_compute; reflexivity.
Qed.

Lemma guard_only_after_tap_witness :
  let cfg := default_cfg (range_dict 0 0 1079 2339) in
  let action :=
    dict [("kind", VStr "swipe"); ("sx", VInt 500); ("sy", VInt 1600);
          ("ex", VInt 500); ("ey", VInt 700); ("durationMs", VInt 300)]%string in
  0 <= tap_retry_on_no_change cfg /\
  exists out s',
    dispatch (sim_env always) cfg (shot_state still_shot) 1 (Some (400, 900)) action
             (start [])
    = (Ok out, s') /\
    new_last_tap_point out = None.
Proof.
  intros cfg action.
  assert (Hretry : 0 <= tap_retry_on_no_change cfg) by (simpl; lia).
  split; [exact Hretry |].
  destruct (dispatch (sim_env always) cfg (shot_state still_shot) 1 (Some (400, 900))
                     action (start [])) as [[out | e] [w' log']] eqn:E.
  - exists out, (w', log'). split; [reflexivity |].
    apply (proj1 (guard_only_after_tap (sim_env always) cfg Hretry)
             _ _ _ _ _ _ _ _ _ E).
    left. reflexivity.
  - vm_compute in E. discriminate E.
Defined.

End CoordFacts.

(** ** Planner answer extraction *)

Module PlannerFacts.
Import Py Re Controller.

(** The planner answer cut off inside its [regions] array. *)
Definition truncated : string := dq "{'action':'tap','region':5,'regions':[5,6".

Definition tap_region_5 : gmap string pyval :=
  dict [("action", VStr "tap"); ("region", VInt 5)]%string.

(** C1 as stated fails: the fallback finds no [regions] in the truncated
    text. *)
Lemma truncated_fallback_without_regions :
  ~ (exists d,
       _extract_planner_fallback truncated = Ok d /\
       d !! "action"%string = Some (VStr "tap") /\
       d !! "region"%string = Some (VInt 5) /\
       d !! "regions"%string = Some (VList [VInt 5; VInt 6])).
Proof.
  intros (d & Hd & _ & _ & Hr).
  assert (Hf : _extract_planner_fallback truncated = Ok tap_region_5)
    by (vm_compute; reflexivity).
  rewrite Hf in Hd. injection Hd as <-.
  vm_compute in Hr. discriminate Hr.
Qed.

(** C1, amended: strict extraction fails on the truncated text, the fallback
    gives the action and the region and no [regions], and the open array
    sends the tap branch to the repair request, whose answer brings the
    regions in. *)
Theorem truncated_planner_repaired :
  _extract_json truncated = None /\
  _extract_planner_fallback truncated = Ok tap_region_5 /\
  tap_region_5 !! "regions"%string = None /\
  _has_unclosed_regions_array truncated = true /\
  need_regions_repair EmptyString truncated tap_region_5 = Ok true /\
  repair_regions tap_region_5 (dq "{'regions':[5,6]}")
  = Ok (dict [("action", VStr "tap"); ("region", VInt 5);
              ("regions", VList [VInt 5; VInt 6])]%string).
Proof. repeat split; vm_compute; reflexivity. Qed.

End PlannerFacts.

(** ** Grid partitioner *)

Module GridFacts.
Import Py Controller.

Lemma range_spec x lo hi : In x (range lo hi) <-> lo <= x < hi.
Proof.
  unfold range. rewrite in_map_iff. split.
  - intros (i & <- & Hi). apply in_seq in Hi. lia.
  - intros H. exists (Z.to_nat (x - lo)). split; [lia |]. apply in_seq. lia.
Qed.

Lemma cell_le_1 (size n : Z) :
  0 < n -> Qle_bool (inject_Z size / inject_Z n) 1 = true <-> size <= n.
Proof.
  intros Hn. rewrite Qle_bool_iff.
  destruct n as [| n | n]; try lia.
  unfold Qle, Qdiv, Qmult, Qinv, inject_Z. simpl. lia.
Qed.

Lemma cell_gt_1 (size n : Z) :
  0 < n -> Qle_bool (inject_Z size / inject_Z n) 1 = false ->
  (1 < inject_Z size / inject_Z n)%Q.
Proof.
  intros Hn H. apply Qnot_le_lt. intros Hle.
  apply Qle_bool_iff in Hle. congruence.
Qed.

Lemma min_by_in {A K : Type} (lt : K -> K -> bool) (key : A -> K) l x :
  min_by lt key l = Some x -> In x l.
Proof.
  destruct l as [| a l]; [discriminate |]. simpl. intros [= <-].
  set (pick := fun best y => if lt (key y) (key best) then y else best).
  assert (H : forall l b, fold_left pick l b = b \/ In (fold_left pick l b) l).
  { subst pick. clear. induction l as [| y l IH]; intros b; simpl; [auto |].
    destruct (IH (if lt (key y) (key b) then y else b)) as [-> | H]; [| auto].
    destruct (lt (key y) (key b)); auto. }
  destruct (H l a) as [-> | Hin]; auto.
Qed.

Section Choice.

Context {F : Type}.
Variable log_error_of : Q -> F.
Variable F_lt F_le F_eq : F -> F -> bool.

Lemma candidate_in width height lo hi c :
  0 < lo ->
  In c (grid_candidates log_error_of width height lo hi) ->
  lo <= c_rows c <= hi /\ lo <= c_cols c <= hi /\
  (1 < inject_Z width / inject_Z (c_cols c))%Q /\
  (1 < inject_Z height / inject_Z (c_rows c))%Q.
Proof.
  intros Hlo Hin. unfold grid_candidates in Hin.
  apply in_flat_map in Hin. destruct Hin as (rows & Hrows & Hin).
  apply in_flat_map in Hin. destruct Hin as (cols & Hcols & Hin).
  apply range_spec in Hrows, Hcols. unfold grid_candidate in Hin.
  destruct (Qle_bool (inject_Z width / inject_Z cols) 1) eqn:Ew; [contradiction |].
  destruct (Qle_bool (inject_Z height / inject_Z rows) 1) eqn:Eh; [contradiction |].
  destruct Hin as [<- | []]. unfold c_rows, c_cols. simpl.
  repeat split; try lia; apply cell_gt_1; auto; lia.
Qed.

Lemma candidate_3x3 width height :
  3 < width -> 3 < height ->
  grid_candidates log_error_of width height 3 12 <> [].
Proof.
  intros Hw Hh Hnil.
  set (aspect := ((inject_Z width / inject_Z 3) / (inject_Z height / inject_Z 3))%Q).
  assert (Hin : In (3, 3, 9, aspect, log_error_of aspect)
                   (grid_candidates log_error_of width height 3 12)).
  { unfold grid_candidates. apply in_flat_map. exists 3. split; [apply range_spec; lia |].
    apply in_flat_map. exists 3. split; [apply range_spec; lia |].
    unfold grid_candidate.
    destruct (Qle_bool (inject_Z width / inject_Z 3) 1) eqn:Ew.
    { apply cell_le_1 in Ew; lia. }
    destruct (Qle_bool (inject_Z height / inject_Z 3) 1) eqn:Eh.
    { apply cell_le_1 in Eh; lia. }
    left. reflexivity. }
  rewrite Hnil in Hin. contradiction.
Qed.

Lemma no_candidate width height :
  width <= 3 \/ height <= 3 -> grid_candidates log_error_of width height 3 12 = [].
Proof.
  intros H. destruct (grid_candidates log_error_of width height 3 12) as [| c l] eqn:E;
    [reflexivity | exfalso].
  assert (Hin : In c (grid_candidates log_error_of width height 3 12))
    by (rewrite E; left; reflexivity).
  clear E. unfold grid_candidates in Hin.
  apply in_flat_map in Hin. destruct Hin as (rows & Hrows & Hin).
  apply in_flat_map in Hin. destruct Hin as (cols & Hcols & Hin).
  apply range_spec in Hrows, Hcols. unfold grid_candidate in Hin.
  destruct (Qle_bool (inject_Z width / inject_Z cols) 1) eqn:Ew; [contradiction |].
  destruct (Qle_bool (inject_Z height / inject_Z rows) 1) eqn:Eh; [contradiction |].
  destruct H as [H | H].
  - assert (Qle_bool (inject_Z width / inject_Z cols) 1 = true)
      by (apply cell_le_1; lia). congruence.
  - assert (Qle_bool (inject_Z height / inject_Z rows) 1 = true)
      by (apply cell_le_1; lia). congruence.
Qed.

(** The choice is a candidate whenever there is one. *)
Lemma choice_is_candidate width height lo hi target :
  grid_candidates log_error_of width height lo hi <> [] ->
  In (_choose_adaptive_grid log_error_of F_lt F_le F_eq width height lo hi target)
     (grid_candidates log_error_of width height lo hi).
Proof.
  intros Hne. unfold _choose_adaptive_grid.
  set (cands := grid_candidates log_error_of width height lo hi) in *.
  destruct cands as [| c0 l0] eqn:E; [congruence |]. rewrite <- E.
  destruct (List.filter (fun c => F_le (c_log_error c) target) cands) as [| n0 near] eqn:En.
  - destruct (min_by _ _ cands) as [x |] eqn:Em.
    + simpl. eapply min_by_in. exact Em.
    + rewrite E in Em. discriminate Em.
  - rewrite <- En.
    destruct (min_by _ _ (List.filter _ cands)) as [x |] eqn:Em.
    + simpl. apply min_by_in in Em. apply filter_In in Em. tauto.
    + rewrite En in Em. discriminate Em.
Qed.

(** C3, amended: with the default bounds the partitioner returns rows and
    cols in [3,12]; the cells are more than one pixel wide and high when the
    frame is more than 3 pixels wide and high, and the grid is the 3x3
    default otherwise. *)
Theorem grid_within_bounds (width height : Z) (target : F) :
  let c := _choose_adaptive_grid log_error_of F_lt F_le F_eq width height 3 12 target in
  (3 <= c_rows c <= 12 /\ 3 <= c_cols c <= 12) /\
  (3 < width /\ 3 < height ->
   (1 < inject_Z width / inject_Z (c_cols c))%Q /\
   (1 < inject_Z height / inject_Z (c_rows c))%Q) /\
  (width <= 3 \/ height <= 3 -> c_rows c = 3 /\ c_cols c = 3).
Proof.
  intros c.
  assert (Hsmall : width <= 3 \/ height <= 3 -> c_rows c = 3 /\ c_cols c = 3).
  { intros H. subst c. unfold _choose_adaptive_grid.
    rewrite (no_candidate width height H). split; reflexivity. }
  assert (Hbig : 3 < width /\ 3 < height ->
    3 <= c_rows c <= 12 /\ 3 <= c_cols c <= 12 /\
    (1 < inject_Z width / inject_Z (c_cols c))%Q /\
    (1 < inject_Z height / inject_Z (c_rows c))%Q).
  { intros [Hw Hh]. apply (candidate_in width height 3 12); [lia |].
    apply choice_is_candidate. apply candidate_3x3; assumption. }
  split; [| split; [| exact Hsmall]].
  - destruct (Z_lt_le_dec 3 width) as [Hw | Hw];
      [destruct (Z_lt_le_dec 3 height) as [Hh | Hh] |].
    + destruct Hbig as (Hr & Hc & _); auto.
    + destruct Hsmall as [-> ->]; [auto | lia].
    + destruct Hsmall as [-> ->]; [auto | lia].
  - intros H. destruct (Hbig H) as (_ & _ & Hcw & Hch). auto.
Qed.

End Choice.

(** C3 as stated fails on a 3x3 frame: no pair of the range leaves a cell
    wider than a pixel, and the 3x3 default has cells of exactly one. *)
Lemma grid_3x3_cell_not_above_1 :
  let c := ExactLog.choose 3 3 in
  0 < 3 /\
  ~ ((3 <= c_rows c <= 12 /\ 3 <= c_cols c <= 12) /\
     (1 < inject_Z 3 / inject_Z (c_cols c))%Q /\
     (1 < inject_Z 3 / inject_Z (c_rows c))%Q).
Proof.
  intros c. split; [lia |]. intros (_ & Hw & _).
  vm_compute in Hw. discriminate Hw.
Qed.

Lemma grid_within_bounds_witness :
  let c := ExactLog.choose 1080 2340 in
  (3 < 1080 /\ 3 < 2340) /\
  (1 < inject_Z 1080 / inject_Z (c_cols c))%Q /\
  (1 < inject_Z 2340 / inject_Z (c_rows c))%Q.
Proof.
  intros c. split; [lia |].
  apply (grid_within_bounds ExactLog.log_error_of ExactLog.F_lt ExactLog.F_le
           ExactLog.F_eq 1080 2340 ExactLog.default_target).
  lia.
Defined.

(** The 1080x2340 frame in exact arithmetic: 6 rows of 3 columns, the
    fewest cells within the target log-error. *)
Example grid_1080_2340 :
  let c := ExactLog.choose 1080 2340 in
  c_rows c = 6 /\ c_cols c = 3 /\ c_cells c = 18.
Proof. vm_compute. repeat split. Qed.

End GridFacts.

(** ** Region mapper *)

Module RegionFacts.
Import Py Re Controller ReFacts.

Lemma map_result_ok {A B : Type} (f : A -> result B) l :
  (forall x, In x l -> exists y, f x = Ok y) -> exists ys, map_result f l = Ok ys.
Proof.
  induction l as [| x l IH]; intros H; simpl; [eauto |].
  destruct (H x) as (y & ->); [left; reflexivity |].
  destruct IH as (ys & ->); [intros; apply H; right; assumption |].
  simpl. eauto.
Qed.

(** A [regions] value that is read without an exception: anything but a
    text, or a text in ASCII with no numeral of more than 4300 digits. *)
Definition readable (value : pyval) : bool :=
  match value with
  | VStr s => is_ascii s && short_numerals s
  | _ => true
  end.

Lemma _parse_regions_value_ok value :
  readable value = true -> exists l, _parse_regions_value value = Ok l.
Proof.
  destruct value; simpl; eauto. intros Hshort.
  apply andb_true_iff in Hshort. destruct Hshort as [_ Hshort].
  apply map_result_ok. intros x Hx.
  pose proof (re_findall_infix _ _ _ Hx) as Hin.
  apply re_findall_sound in Hx. destruct Hx as (w & -> & Hw).
  unfold int_of_str. rewrite chars_of_str in *.
  apply int_of_literal.
  - apply lang_plus_chr in Hw. destruct Hw as [Hne Hd]. exists w. auto.
  - exact (digit_runs_infix _ _ Hin Hshort).
Qed.

Lemma nonzero_ok rows cols : 0 < rows -> 0 < cols -> nonzero rows cols = Ok tt.
Proof.
  intros Hr Hc. unfold nonzero.
  destruct (rows =? 0) eqn:E1; [apply Z.eqb_eq in E1; lia |].
  destruct (cols =? 0) eqn:E2; [apply Z.eqb_eq in E2; lia | reflexivity].
Qed.

Lemma insert_uniq_in x y l : In y (insert_uniq x l) <-> y = x \/ In y l.
Proof.
  induction l as [| z l IH]; simpl; [intuition |].
  destruct (x <? z) eqn:E1; simpl; [intuition |].
  destruct (x =? z) eqn:E2; simpl.
  - apply Z.eqb_eq in E2. subst. intuition.
  - rewrite IH. intuition.
Qed.

Lemma sorted_set_in y l : In y (sorted_set l) <-> In y l.
Proof.
  unfold sorted_set. induction l as [| x l IH]; simpl; [reflexivity |].
  rewrite insert_uniq_in, IH. intuition.
Qed.

Lemma fold_min_le l : forall x y,
  In y (x :: l) -> fold_left Z.min l x <= y.
Proof.
  induction l as [| z l IH]; simpl; intros x y Hin.
  - destruct Hin as [<- | []]. lia.
  - destruct Hin as [<- | [<- | Hin]].
    + specialize (IH (Z.min x z) (Z.min x z) (or_introl eq_refl)). lia.
    + specialize (IH (Z.min x z) (Z.min x z) (or_introl eq_refl)). lia.
    + apply IH. right. assumption.
Qed.

Lemma fold_max_ge l : forall x y,
  In y (x :: l) -> y <= fold_left Z.max l x.
Proof.
  induction l as [| z l IH]; simpl; intros x y Hin.
  - destruct Hin as [<- | []]. lia.
  - destruct Hin as [<- | [<- | Hin]].
    + specialize (IH (Z.max x z) (Z.max x z) (or_introl eq_refl)). lia.
    + specialize (IH (Z.max x z) (Z.max x z) (or_introl eq_refl)). lia.
    + apply IH. right. assumption.
Qed.

Lemma py_min_spec l :
  l <> [] -> exists m, py_min l = Ok m /\ forall y, In y l -> m <= y.
Proof.
  destruct l as [| x l]; [congruence |]. intros _. simpl.
  eexists. split; [reflexivity |]. apply fold_min_le.
Qed.

Lemma py_max_spec l :
  l <> [] -> exists m, py_max l = Ok m /\ forall y, In y l -> y <= m.
Proof.
  destruct l as [| x l]; [congruence |]. intros _. simpl.
  eexists. split; [reflexivity |]. apply fold_max_ge.
Qed.

Lemma _clamp_within v hi : 1 <= hi -> 1 <= _clamp v 1 hi <= hi.
Proof. unfold _clamp. lia. Qed.

Lemma _clamp_id v hi : 1 <= v <= hi -> _clamp v 1 hi = v.
Proof. unfold _clamp. lia. Qed.

(** Row and column of a region of the grid, and the region back from them. *)
Lemma row_col_of_region region rows cols :
  0 < rows -> 0 < cols -> 1 <= region <= rows * cols ->
  let rc := _region_row_col region rows cols in
  0 <= rc.1 < rows /\ 0 <= rc.2 < cols /\ region = rc.1 * cols + rc.2 + 1.
Proof.
  intros Hr Hc Hreg. unfold _region_row_col. rewrite _clamp_id by assumption. simpl.
  pose proof (Z.div_mod (region - 1) cols ltac:(lia)) as Hdm.
  pose proof (Z.mod_pos_bound (region - 1) cols Hc) as Hm.
  assert (0 <= (region - 1) / cols) by (apply Z.div_pos; lia).
  assert ((region - 1) / cols < rows).
  { apply Z.div_lt_upper_bound; lia. }
  repeat split; lia.
Qed.

#[local] Arguments _region_row_col : simpl never.
#[local] Arguments _clamp : simpl never.
#[local] Arguments sorted_set : simpl never.
#[local] Arguments _safe_int : simpl never.
#[local] Arguments _looks_like_horizontal_span_target : simpl never.
#[local] Arguments py_str : simpl never.
#[local] Arguments range : simpl never.
#[local] Arguments py_min : simpl never.
#[local] Arguments py_max : simpl never.

Section Cover.

Variable repr_other : pyval -> string.

(** The regions [_rect_cover_from_regions] works on are never none, and
    each lies in the grid. *)
Definition in_grid (rows cols : Z) (l : list Z) : Prop :=
  l <> [] /\ forall region, In region l -> 1 <= region <= rows * cols.

Lemma in_grid_row region rows cols :
  0 < rows -> 0 < cols -> 1 <= region <= rows * cols ->
  in_grid rows cols
    (map (fun c => (_region_row_col region rows cols).1 * cols + c + 1) (range 0 cols)).
Proof.
  intros Hr Hc Hreg.
  destruct (row_col_of_region region rows cols Hr Hc Hreg) as (Hrow & _ & _).
  split.
  - intros Hnil. assert (Hin : In 0 (range 0 cols)) by (apply GridFacts.range_spec; lia).
    apply (in_map (fun c => (_region_row_col region rows cols).1 * cols + c + 1)) in Hin.
    rewrite Hnil in Hin. contradiction.
  - intros x Hx. apply in_map_iff in Hx. destruct Hx as (c & <- & Hin).
    apply GridFacts.range_spec in Hin. nia.
Qed.

(** The regions a planner answer names: those of its [regions], then its
    [region] when that is positive. *)
Definition named_regions (planner : gmap string pyval) (regions : list Z) : list Z :=
  let single := _safe_int (get_or planner "region" (VInt 0)) 0 in
  if 0 <? single then regions ++ [single] else regions.

(** C6: when the [regions] of a planner answer are read as [regions], the
    cover works on every region of the grid the answer names, its row and
    column ranges hold the row and the column of each region it works on,
    and its cells hold each of them; its pixel box ends at the frame edge
    when it ends in the last column or row. *)
Theorem cover_contains_regions (planner : gmap string pyval)
    (rows cols width height : Z) (regions : list Z) :
  0 < rows -> 0 < cols ->
  _parse_regions_value (get planner "regions") = Ok regions ->
  exists normalized rect_regions left top right bottom min_row max_row min_col max_col,
    _rect_cover_from_regions repr_other planner rows cols width height
    = Ok (normalized, rect_regions, (left, top, right, bottom),
          (min_row, max_row, min_col, max_col)) /\
    normalized <> [] /\
    (forall region, In region (named_regions planner regions) ->
       1 <= region <= rows * cols -> In region normalized) /\
    (forall region, In region normalized ->
       min_row <= (_region_row_col region rows cols).1 <= max_row /\
       min_col <= (_region_row_col region rows cols).2 <= max_col /\
       In region rect_regions) /\
    (max_col = cols - 1 -> right = width) /\
    (max_row = rows - 1 -> bottom = height).
Proof.
  intros Hr Hc Hparse. unfold _rect_cover_from_regions. rewrite Hparse.
  rewrite (nonzero_ok rows cols Hr Hc).
  cbn beta iota zeta delta [mbind result_bind bind].
  fold (named_regions planner regions).
  assert (Hcells : 1 <= rows * cols) by nia.
  match goal with
  | |- context [py_min (map fst (map _ ?n))] => set (normalized := n)
  end.
  assert (Hgrid : in_grid rows cols normalized /\
                  forall region, In region (named_regions planner regions) ->
                    1 <= region <= rows * cols -> In region normalized).
  { subst normalized.
    match goal with
    | |- in_grid _ _ (if _ then _ else ?n) /\ _ =>
        assert (Hn : in_grid rows cols n /\
                     forall region, In region (named_regions planner regions) ->
                       1 <= region <= rows * cols -> In region n); [| set (n0 := n) in *]
    end.
    { assert (Hin : forall region, In region (named_regions planner regions) ->
                1 <= region <= rows * cols ->
                In region (sorted_set (map (fun r => _clamp r 1 (rows * cols))
                             (List.filter (fun r => 0 <? r) (named_regions planner regions))))).
      { intros region Hin Hreg. apply sorted_set_in, in_map_iff. exists region.
        split; [apply _clamp_id, Hreg |].
        apply filter_In. split; [exact Hin | apply Z.ltb_lt; lia]. }
      destruct (sorted_set _) as [| r0 l0] eqn:E.
      - split.
        + split; [discriminate |]. intros x [<- | []]. apply _clamp_within, Hcells.
        + intros region Hreg Hb. destruct (Hin region Hreg Hb).
      - rewrite <- E in Hin |- *. split; [| exact Hin]. split; [rewrite E; discriminate |].
        intros x Hx. apply sorted_set_in, in_map_iff in Hx.
        destruct Hx as (r & <- & _). apply _clamp_within, Hcells. }
    destruct Hn as [[Hne Hall] Hnamed].
    destruct (_ && _) eqn:Ebar; [| split; [split |]; assumption].
    apply andb_true_iff in Ebar. destruct Ebar as [Elen _].
    apply Nat.eqb_eq in Elen.
    destruct n0 as [| r0 [| r1 l0]]; try discriminate Elen.
    assert (Hr0 : 1 <= r0 <= rows * cols) by (apply Hall; left; reflexivity).
    split; [apply in_grid_row; auto |].
    intros region Hreg Hb. destruct (Hnamed region Hreg Hb) as [<- | []].
    cbn [List.hd].
    destruct (row_col_of_region r0 rows cols Hr Hc Hr0) as (_ & Hcol & Heq).
    apply in_map_iff. exists (_region_row_col r0 rows cols).2.
    split; [lia | apply GridFacts.range_spec; lia]. }
  destruct Hgrid as [[Hne Hall] Hnamed].
  set (row_cols := map (fun r => _region_row_col r rows cols) normalized).
  assert (Hrc : forall l : list Z, l = map fst row_cols \/ l = map snd row_cols -> l <> []).
  { intros l [-> | ->] Hnil; apply map_eq_nil in Hnil; apply map_eq_nil in Hnil;
      contradiction. }
  destruct (py_min_spec (map fst row_cols)) as (min_row & -> & Hmin_row); [auto |].
  destruct (py_max_spec (map fst row_cols)) as (max_row & -> & Hmax_row); [auto |].
  destruct (py_min_spec (map snd row_cols)) as (min_col & -> & Hmin_col); [auto |].
  destruct (py_max_spec (map snd row_cols)) as (max_col & -> & Hmax_col); [auto |].
  cbn beta iota zeta delta [mbind result_bind bind]. do 10 eexists.
  split; [reflexivity |]. split; [exact Hne |]. split; [exact Hnamed |].
  split; [| split].
  - intros region Hin.
    assert (Hfst : In (_region_row_col region rows cols).1 (map fst row_cols)).
    { apply in_map. subst row_cols.
      apply (in_map (fun r => _region_row_col r rows cols)). exact Hin. }
    assert (Hsnd : In (_region_row_col region rows cols).2 (map snd row_cols)).
    { apply in_map. subst row_cols.
      apply (in_map (fun r => _region_row_col r rows cols)). exact Hin. }
    pose proof (Hmin_row _ Hfst). pose proof (Hmax_row _ Hfst).
    pose proof (Hmin_col _ Hsnd). pose proof (Hmax_col _ Hsnd).
    repeat split; try lia.
    destruct (row_col_of_region region rows cols Hr Hc (Hall _ Hin)) as (_ & _ & Heq).
    apply in_flat_map. exists (_region_row_col region rows cols).1.
    split; [apply GridFacts.range_spec; lia |].
    apply in_map_iff. exists (_region_row_col region rows cols).2.
    split; [lia | apply GridFacts.range_spec; lia].
  - intros ->. rewrite Z.eqb_refl. reflexivity.
  - intros ->. rewrite Z.eqb_refl. reflexivity.
Qed.

End Cover.

Lemma cover_contains_regions_witness :
  exists normalized rect_regions left top right bottom min_row max_row min_col max_col,
    _rect_cover_from_regions (fun _ => EmptyString)
      (dict [("regions", VList [VInt 5; VInt 9]); ("region", VInt 6)]%string)
      3 3 1080 2340
    = Ok (normalized, rect_regions, (left, top, right, bottom),
          (min_row, max_row, min_col, max_col)) /\
    In 5 normalized /\ In 9 normalized /\ In 6 normalized /\
    In 5 rect_regions /\ In 9 rect_regions /\ In 6 rect_regions.
Proof.
  destruct (cover_contains_regions (fun _ => EmptyString)
              (dict [("regions", VList [VInt 5; VInt 9]); ("region", VInt 6)]%string)
              3 3 1080 2340 [5; 9] ltac:(lia) ltac:(lia) eq_refl)
    as (normalized & rect_regions & left & top & right & bottom & min_row & max_row
        & min_col & max_col & Hrun & _ & Hnamed & Hin & _).
  exists normalized, rect_regions, left, top, right, bottom, min_row, max_row,
    min_col, max_col.
  assert (H5 : In 5 normalized) by (apply Hnamed; [vm_compute; tauto | lia]).
  assert (H9 : In 9 normalized) by (apply Hnamed; [vm_compute; tauto | lia]).
  assert (H6 : In 6 normalized) by (apply Hnamed; [vm_compute; tauto | lia]).
  repeat split; try assumption; apply Hin; assumption.
Defined.

End RegionFacts.

(** ** Rounding keeps integer bounds *)

Module FloatFacts.
Import Py.

Lemma pow2_neg (k : Z) : 0 <= k -> (pow2 (- k) == 1 / inject_Z (2 ^ k))%Q.
Proof.
  intros Hk. unfold pow2. destruct (0 <=? - k) eqn:E.
  - apply Z.leb_le in E. assert (k = 0) by lia. subst. reflexivity.
  - rewrite Z.opp_involutive. unfold Qdiv. rewrite Qmult_1_l. reflexivity.
Qed.

Lemma pow2_nonneg (e : Z) : 0 <= e -> pow2 e = inject_Z (2 ^ e).
Proof. intros He. unfold pow2. apply Z.leb_le in He. rewrite He. reflexivity. Qed.

Lemma inject_Z_le (a b : Z) : a <= b -> (inject_Z a <= inject_Z b)%Q.
Proof. intros H. unfold Qle. simpl. lia. Qed.

Lemma inject_Z_lt (a b : Z) : a < b -> (inject_Z a < inject_Z b)%Q.
Proof. intros H. unfold Qlt. simpl. lia. Qed.

(** The binade of a positive number below [2^53] is at most 52. *)
Lemma binade_small (q : Q) :
  (0 < q)%Q -> (q < inject_Z (2 ^ 53))%Q -> binade q <= 52.
Proof.
  intros Hpos Hlt. unfold binade.
  destruct q as [n d]. unfold Qlt in Hpos, Hlt. cbn [Qnum Qden inject_Z] in *.
  rewrite Z.mul_1_r in Hpos, Hlt.
  set (e := Z.log2 n - Z.log2 (Z.pos d)).
  assert (He : e <= 53).
  { pose proof (Z.log2_spec (Z.pos d) ltac:(lia)) as [_ Hd].
    assert (Hn : n < 2 ^ (53 + Z.succ (Z.log2 (Z.pos d)))).
    { rewrite Z.pow_add_r by (pose proof (Z.log2_nonneg (Z.pos d)); lia). nia. }
    apply Z.log2_lt_pow2 in Hn; [| lia]. subst e. lia. }
  destruct (Qle_bool (pow2 e) (n # d)) eqn:E; [| lia].
  destruct (Z.eq_dec e 53) as [E53 | ]; [| lia]. exfalso.
  rewrite E53 in E. apply Qle_bool_iff in E. rewrite pow2_nonneg in E by lia.
  unfold Qle in E. cbn [Qnum Qden inject_Z] in E. lia.
Qed.

(** [round_half_even] stays between the integers around its argument. *)
Lemma round_half_even_between (a b : Z) (x : Q) :
  (inject_Z a <= x)%Q -> (x <= inject_Z b)%Q -> a <= round_half_even x <= b.
Proof.
  intros Ha Hb. unfold round_half_even.
  pose proof (Qfloor_resp_le _ _ Ha) as Hfa. pose proof (Qfloor_resp_le _ _ Hb) as Hfb.
  rewrite Qfloor_Z in Hfa, Hfb.
  assert (Hup : (inject_Z (Qfloor x) < x)%Q -> Qfloor x + 1 <= b).
  { intros Hlt. assert (Hfx : (inject_Z (Qfloor x) < inject_Z b)%Q)
      by (eapply Qlt_le_trans; eassumption).
    unfold Qlt in Hfx. simpl in Hfx. lia. }
  destruct (Qcompare (x - inject_Z (Qfloor x)) (1 # 2)) eqn:E.
  - apply Qeq_alt in E. destruct (Z.even (Qfloor x)); [lia |].
    assert ((inject_Z (Qfloor x) < x)%Q) by lra. specialize (Hup H). lia.
  - lia.
  - apply Qgt_alt in E. assert ((inject_Z (Qfloor x) < x)%Q) by lra.
    specialize (Hup H). lia.
Qed.

Lemma binade_53 (q : Q) : (q == inject_Z (2 ^ 53))%Q -> binade q = 53.
Proof.
  intros Hq. unfold binade.
  assert (E : Qle_bool (pow2 53) q = true).
  { apply Qle_bool_iff. rewrite pow2_nonneg by lia. rewrite Hq. apply Qle_refl. }
  destruct q as [n d]. unfold Qeq in Hq. cbn [Qnum Qden inject_Z] in *.
  rewrite Z.mul_1_r in Hq. subst n.
  rewrite Z.mul_comm, Z.log2_mul_pow2 by lia.
  replace (53 + Z.log2 (Z.pos d) - Z.log2 (Z.pos d)) with 53 by lia.
  rewrite Z.mul_comm in E. rewrite E. reflexivity.
Qed.

(** A number between two integers of [0 .. 2^53] rounds to a double
    between them. *)
Theorem round_double_between (a b : Z) (q : Q) :
  0 <= a -> b <= 2 ^ 53 -> (inject_Z a <= q)%Q -> (q <= inject_Z b)%Q ->
  exists r, round_double q = Fin r /\ (inject_Z a <= r)%Q /\ (r <= inject_Z b)%Q.
Proof.
  intros Ha Hb Hlo Hhi. unfold round_double.
  assert (Ha0 : (0 <= inject_Z a)%Q) by (apply (inject_Z_le 0 a); exact Ha).
  assert (Hb53 : (inject_Z b <= inject_Z (2 ^ 53))%Q) by (apply inject_Z_le, Hb).
  assert (Hbig : (inject_Z (2 ^ 53) < inject_Z (2 ^ 1024))%Q).
  { apply inject_Z_lt. apply Z.pow_lt_mono_r; lia. }
  destruct (Qcompare q 0) eqn:Ec.
  - apply Qeq_alt in Ec. exists 0%Q. split; [reflexivity |]. split; lra.
  - apply Qlt_alt in Ec. lra.
  - apply Qgt_alt in Ec.
    assert (Hend : forall k m,
      0 <= k -> (pow2 (52 - k - 52) == 1 / inject_Z (2 ^ k))%Q ->
      a * 2 ^ k <= m <= b * 2 ^ k ->
      exists r,
        (if Qle_bool (pow2 1024) (Qred (inject_Z m * pow2 (52 - k - 52)))
         then PosInf else Fin (Qred (inject_Z m * pow2 (52 - k - 52)))) = Fin r /\
        (inject_Z a <= r)%Q /\ (r <= inject_Z b)%Q).
    { intros k m Hk Hulp [Hma Hmb].
      assert (Hp : (0 < inject_Z (2 ^ k))%Q).
      { apply (inject_Z_lt 0). apply Z.pow_pos_nonneg; lia. }
      assert (Hr : (Qred (inject_Z m * pow2 (52 - k - 52))
                    == inject_Z m / inject_Z (2 ^ k))%Q).
      { rewrite Qred_correct, Hulp. field. lra. }
      assert (Hra : (inject_Z a <= Qred (inject_Z m * pow2 (52 - k - 52)))%Q).
      { rewrite Hr. apply Qle_shift_div_l; [exact Hp |].
        rewrite <- inject_Z_mult. apply inject_Z_le, Hma. }
      assert (Hrb : (Qred (inject_Z m * pow2 (52 - k - 52)) <= inject_Z b)%Q).
      { rewrite Hr. apply Qle_shift_div_r; [exact Hp |].
        rewrite <- inject_Z_mult. apply inject_Z_le, Hmb. }
      destruct (Qle_bool (pow2 1024) _) eqn:Eo; [| eauto].
      exfalso. apply Qle_bool_iff in Eo. rewrite pow2_nonneg in Eo by lia. lra. }
    destruct (Qlt_le_dec q (inject_Z (2 ^ 53))) as [Hq53 | Hq53].
    + pose proof (binade_small q Ec Hq53) as He.
      set (k := 52 - Z.max (binade q) (-1022)).
      assert (Hk : 0 <= k) by (subst k; lia).
      replace (Z.max (binade q) (-1022)) with (52 - k) by (subst k; lia).
      assert (Hulp : (pow2 (52 - k - 52) == 1 / inject_Z (2 ^ k))%Q).
      { replace (52 - k - 52) with (- k) by lia. apply pow2_neg, Hk. }
      apply (Hend k _ Hk Hulp).
      assert (Hp : (0 < inject_Z (2 ^ k))%Q).
      { apply (inject_Z_lt 0). apply Z.pow_pos_nonneg; lia. }
      assert (Hx : (q / pow2 (52 - k - 52) == q * inject_Z (2 ^ k))%Q).
      { rewrite Hulp. field. lra. }
      apply round_half_even_between.
      * rewrite Hx, inject_Z_mult. apply Qmult_le_compat_r; lra.
      * rewrite Hx, inject_Z_mult. apply Qmult_le_compat_r; lra.
    + assert (Hq : (q == inject_Z (2 ^ 53))%Q) by (apply Qle_antisym; lra).
      rewrite (binade_53 q Hq).
      change (Z.max 53 (-1022) - 52) with 1. change (pow2 1) with (inject_Z 2).
      assert (Hm : 2 ^ 52 <= round_half_even (q / inject_Z 2) <= 2 ^ 52).
      { apply round_half_even_between.
        - rewrite Hq. apply Qle_shift_div_l; [reflexivity |]. apply Qle_refl.
        - rewrite Hq. apply Qle_shift_div_r; [reflexivity |]. apply Qle_refl. }
      assert (Em : round_half_even (q / inject_Z 2) = 2 ^ 52) by lia.
      rewrite Em. exists (inject_Z (2 ^ 53)). split; [reflexivity |]. split; lra.
Qed.

(** An integer of [0 .. 2^53] is a double. *)
Lemma float_of_int_exact (z : Z) :
  0 <= z <= 2 ^ 53 -> exists r, float_of_int z = Ok (Fin r) /\ (r == inject_Z z)%Q.
Proof.
  intros Hz. unfold float_of_int.
  destruct (round_double_between z z (inject_Z z)) as (r & -> & H1 & H2);
    try lia; try apply Qle_refl.
  exists r. split; [reflexivity | apply Qle_antisym; assumption].
Qed.

Lemma trunc_floor (q : Q) : (0 <= q)%Q -> trunc q = Qfloor q.
Proof.
  destruct q as [n d]. unfold Qle, trunc, Qfloor. simpl. intros Hn.
  apply Z.quot_div_nonneg; lia.
Qed.

Lemma trunc_between (a b : Z) (q : Q) :
  0 <= a -> (inject_Z a <= q)%Q -> (q <= inject_Z b)%Q -> a <= trunc q <= b.
Proof.
  intros Ha Hlo Hhi. rewrite trunc_floor.
  - apply Qfloor_resp_le in Hlo, Hhi. rewrite Qfloor_Z in Hlo, Hhi. lia.
  - assert (H : (0 <= inject_Z a)%Q) by (apply (inject_Z_le 0 a); exact Ha). lra.
Qed.

(** [int(base + ratio * span)] lies between [base] and [base + span] for a
    ratio of [0, 1], as long as the integers are doubles. *)
Theorem ratio_point_between (base span : Z) (ratio : Q) :
  0 <= base -> 0 <= span -> base + span <= 2 ^ 53 ->
  (0 <= ratio)%Q -> (ratio <= 1)%Q ->
  exists x, Controller.ratio_point base (Fin ratio) span = Ok x /\ base <= x <= base + span.
Proof.
  intros Hb Hs Hsum Hr0 Hr1. unfold Controller.ratio_point.
  destruct (float_of_int_exact span ltac:(lia)) as (s & -> & Hs').
  destruct (float_of_int_exact base ltac:(lia)) as (b & -> & Hb').
  cbn beta iota zeta delta [mbind result_bind bind fmul].
  assert (Hs0 : (0 <= inject_Z span)%Q) by (apply (inject_Z_le 0 span); exact Hs).
  assert (Hb0 : (0 <= inject_Z base)%Q) by (apply (inject_Z_le 0 base); exact Hb).
  destruct (round_double_between 0 span (ratio * s)) as (p & -> & Hp0 & Hp1); try lia.
  { rewrite Hs'. apply Qmult_le_0_compat; assumption. }
  { rewrite Hs'. rewrite <- (Qmult_1_l (inject_Z span)) at 2.
    apply Qmult_le_compat_r; assumption. }
  cbn [fadd]. change (inject_Z 0) with 0%Q in Hp0.
  destruct (round_double_between base (base + span) (b + p)) as (x & -> & Hx0 & Hx1);
    try lia.
  { rewrite Hb'. lra. }
  { rewrite Hb', inject_Z_plus. lra. }
  cbn [int_of_float]. eexists. split; [reflexivity |].
  apply trunc_between; assumption.
Qed.

(** Rounding gives a number: a double or an infinity. *)
Lemma round_double_number q : round_double q <> NaN.
Proof.
  unfold round_double. destruct (Qcompare q 0); [discriminate | |];
    cbv zeta; match goal with |- context [if ?c then _ else _] => destruct c end;
    discriminate.
Qed.

End FloatFacts.

(** ** Point inside a region *)

Module PointFacts.
Import Py Controller RegionFacts FloatFacts.

Lemma clamp_ratio_bounds (f : pyfloat) : (0 <= clamp_ratio f)%Q /\ (clamp_ratio f <= 1)%Q.
Proof.
  unfold clamp_ratio, fmax, fmin.
  destruct f as [q | | |]; simpl; try (split; discriminate).
  destruct (Qle_bool 1 q) eqn:E1; simpl.
  - split; discriminate.
  - destruct (Qle_bool q 0) eqn:E0; simpl.
    + split; discriminate.
    + split.
      * apply Qlt_le_weak, Qnot_le_lt. intros H. apply Qle_bool_iff in H. congruence.
      * apply Qlt_le_weak, Qnot_le_lt. intros H. apply Qle_bool_iff in H. congruence.
Qed.

(** The box of a region of a frame with at least two pixels per cell is at
    least two pixels wide and high and lies in the frame. *)
Lemma _region_box_wide region rows cols width height :
  0 < rows -> 0 < cols -> 2 * cols <= width -> 2 * rows <= height ->
  let box := _region_box region rows cols width height in
  0 <= box.1.1.1 /\ box.1.1.1 + 2 <= box.1.2 /\ box.1.2 <= width /\
  0 <= box.1.1.2 /\ box.1.1.2 + 2 <= box.2 /\ box.2 <= height.
Proof.
  intros Hr Hc Hw Hh. unfold _region_box.
  set (r := _clamp region 1 (rows * cols) - 1).
  assert (Hcells : 1 <= rows * cols) by nia.
  pose proof (_clamp_within region (rows * cols) Hcells) as Hcl.
  assert (Hr0 : 0 <= r < rows * cols) by (subst r; lia).
  pose proof (Z.mod_pos_bound r cols Hc) as Hcol.
  assert (Hrow : 0 <= r / cols < rows).
  { split; [apply Z.div_pos; lia | apply Z.div_lt_upper_bound; lia]. }
  assert (Hcw : 2 <= width / cols) by (apply Z.div_le_lower_bound; lia).
  assert (Hch : 2 <= height / rows) by (apply Z.div_le_lower_bound; lia).
  pose proof (Z.mul_div_le width cols Hc) as Hwl.
  pose proof (Z.mul_div_le height rows Hr) as Hhl.
  simpl.
  destruct (r mod cols =? cols - 1) eqn:Ec; destruct (r / cols =? rows - 1) eqn:Er;
    rewrite ?Z.eqb_eq, ?Z.eqb_neq in *; repeat split; nia.
Qed.

(** C7, amended: on a frame with at least two pixels per cell on each axis
    and sides below [2^53], the point of a region and two ratios, which the
    function clamps into [0,1], is computed without an exception and lies
    inside the box of the region. *)
Theorem point_inside_box (region rows cols width height : Z) (xr yr : pyfloat) :
  0 < rows -> 0 < cols -> 1 <= region <= rows * cols ->
  2 * cols <= width -> 2 * rows <= height ->
  width < 2 ^ 53 -> height < 2 ^ 53 ->
  exists x y,
    _point_from_region_ratio region rows cols width height xr yr = Ok (x, y) /\
    let box := _region_box region rows cols width height in
    box.1.1.1 <= x < box.1.2 /\ box.1.1.2 <= y < box.2.
Proof.
  intros Hr Hc Hreg Hw Hh Hwmax Hhmax.
  destruct (_region_box_wide region rows cols width height Hr Hc Hw Hh)
    as (Hl & Hlr & Hrw & Ht & Htb & Hbh).
  unfold _point_from_region_ratio. rewrite (nonzero_ok rows cols Hr Hc).
  cbn beta iota zeta delta [mbind result_bind bind].
  set (box := _region_box region rows cols width height) in *.
  destruct (clamp_ratio_bounds xr) as [Hx0 Hx1].
  destruct (clamp_ratio_bounds yr) as [Hy0 Hy1].
  destruct (ratio_point_between box.1.1.1 (Z.max 1 (box.1.2 - box.1.1.1 - 1))
              (clamp_ratio xr) Hl ltac:(lia) ltac:(lia) Hx0 Hx1) as (x & -> & Hx).
  destruct (ratio_point_between box.1.1.2 (Z.max 1 (box.2 - box.1.1.2 - 1))
              (clamp_ratio yr) Ht ltac:(lia) ltac:(lia) Hy0 Hy1) as (y & -> & Hy).
  cbn beta iota zeta delta [mbind result_bind bind].
  exists x, y. split; [reflexivity |]. lia.
Qed.

Lemma point_inside_box_witness :
  exists x y,
    _point_from_region_ratio 5 3 3 1080 2340 (Fin (1 # 2)) (Fin 1) = Ok (x, y) /\
    let box := _region_box 5 3 3 1080 2340 in
    box.1.1.1 <= x < box.1.2 /\ box.1.1.2 <= y < box.2.
Proof.
  apply (point_inside_box 5 3 3 1080 2340 (Fin (1 # 2)) (Fin 1)); lia.
Defined.

(** C7 as stated fails where a cell is one pixel wide: on a 5x5 frame cut
    3x3, region 1 is the box (0,0)-(1,1) and the ratios (1,1) give the
    point (1,1), on its right and lower edge. *)
Lemma point_on_box_edge :
  1 <= 1 <= 3 * 3 /\ (0 <= 1)%Q /\ (1 <= 1)%Q /\
  _region_box 1 3 3 5 5 = (0, 0, 1, 1) /\
  _point_from_region_ratio 1 3 3 5 5 (Fin 1) (Fin 1) = Ok (1, 1) /\
  ~ (0 <= 1 < 1).
Proof.
  split; [lia |]. split; [discriminate |]. split; [discriminate |].
  split; [reflexivity |]. split; [vm_compute; reflexivity | lia].
Qed.

(** Rounding shows in the point: with the ratio just below 1 that is
    [1 - 2^-53], the sum [360 + 358.99..] of region 2 of the 3x3 grid of a
    1080x2340 frame lies halfway between two doubles and rounds up to 719,
    where the exact value truncates to 718. *)
Example point_rounds_to_even :
  _point_from_region_ratio 2 3 3 1080 2340
    (Fin (9007199254740991 # 9007199254740992)) (Fin 0) = Ok (719, 0) /\
  trunc (360 + (9007199254740991 # 9007199254740992) * 359)%Q = 718.
Proof. split; vm_compute; reflexivity. Qed.

End PointFacts.

(** ** What the controller sends *)

Module ControllerRangeFacts.
Import Py Controller RegionFacts FloatFacts PointFacts.

(** The controller clamps both ends of a swipe into the click range. *)
Lemma swipe_command_in_range repr_other planner rows cols cells width height cr
    sx sy ex ey duration_ms :
  x_min cr <= x_max cr -> y_min cr <= y_max cr ->
  swipe_command repr_other planner rows cols cells width height cr
  = Ok (sx, sy, ex, ey, duration_ms) ->
  x_min cr <= sx <= x_max cr /\ y_min cr <= sy <= y_max cr /\
  x_min cr <= ex <= x_max cr /\ y_min cr <= ey <= y_max cr /\
  50 <= duration_ms <= 5000.
Proof.
  intros Hx Hy. unfold swipe_command.
  destruct (swipe_points repr_other planner rows cols cells width height)
    as [[[[sx0 sy0] ex0] ey0] |];
    cbn beta iota zeta delta [mbind result_bind bind]; [| discriminate].
  intros [= <- <- <- <- <-]. unfold _clamp. lia.
Qed.

(** The controller clamps the point of a tap into the click range. *)
Lemma tap_command_in_range repr_other planner rows cols width height raw_stage2 cr x y :
  x_min cr <= x_max cr -> y_min cr <= y_max cr ->
  tap_command repr_other planner rows cols width height raw_stage2 cr = Ok (x, y) ->
  x_min cr <= x <= x_max cr /\ y_min cr <= y <= y_max cr.
Proof.
  intros Hx Hy. unfold tap_command.
  destruct (_rect_cover_from_regions repr_other planner rows cols width height)
    as [cover |]; [| discriminate].
  cbn beta iota zeta delta [mbind result_bind bind].
  destruct (ratio_point _ _ _) as [y0 |]; destruct (ratio_point _ _ _) as [x0 |];
    cbn beta iota zeta delta [mbind result_bind bind]; try discriminate.
  intros [= <- <-]. unfold _clamp. lia.
Qed.

(** *** No overflow on a frame of doubles *)

(** The four constants of the swipe directions are doubles of [0, 1]. *)
Definition fraction (f : Q) : Prop :=
  exists c, round_double f = Fin c /\ (0 <= c)%Q /\ (c <= 1)%Q.

Lemma fraction_72 : fraction (72 # 100).
Proof. eexists. split; [vm_compute; reflexivity |]. split; discriminate. Qed.

Lemma fraction_32 : fraction (32 # 100).
Proof. eexists. split; [vm_compute; reflexivity |]. split; discriminate. Qed.

Lemma fraction_75 : fraction (75 # 100).
Proof. eexists. split; [vm_compute; reflexivity |]. split; discriminate. Qed.

Lemma fraction_25 : fraction (25 # 100).
Proof. eexists. split; [vm_compute; reflexivity |]. split; discriminate. Qed.

Lemma scaled_ok (n : Z) (f : Q) :
  0 <= n <= 2 ^ 53 -> fraction f -> exists z, scaled n f = Ok z.
Proof.
  intros Hn (c & Hc & Hc0 & Hc1). unfold scaled.
  destruct (float_of_int_exact n Hn) as (x & -> & Hx).
  cbn beta iota zeta delta [mbind result_bind bind]. rewrite Hc. cbn [fmul].
  assert (Hn0 : (0 <= inject_Z n)%Q) by (apply (inject_Z_le 0 n); lia).
  destruct (round_double_between 0 n (x * c)) as (p & -> & _); try lia.
  - rewrite Hx. apply Qmult_le_0_compat; assumption.
  - rewrite Hx. rewrite <- (Qmult_1_r (inject_Z n)) at 2.
    rewrite (Qmult_comm (inject_Z n) c), (Qmult_comm (inject_Z n) 1).
    apply Qmult_le_compat_r; assumption.
  - cbn [int_of_float]. eauto.
Qed.

(** The box of a region lies in the frame. *)
Lemma _region_box_in_frame region rows cols width height :
  0 < rows -> 0 < cols -> 0 <= width -> 0 <= height ->
  let box := _region_box region rows cols width height in
  0 <= box.1.1.1 <= width /\ box.1.2 <= width /\
  0 <= box.1.1.2 <= height /\ box.2 <= height.
Proof.
  intros Hr Hc Hw Hh. unfold _region_box.
  set (r := _clamp region 1 (rows * cols) - 1).
  assert (Hcells : 1 <= rows * cols) by nia.
  pose proof (_clamp_within region (rows * cols) Hcells) as Hcl.
  assert (Hr0 : 0 <= r < rows * cols) by (subst r; lia).
  pose proof (Z.mod_pos_bound r cols Hc) as Hcol.
  assert (Hrow : 0 <= r / cols < rows).
  { split; [apply Z.div_pos; lia | apply Z.div_lt_upper_bound; lia]. }
  assert (Hcw : 0 <= width / cols) by (apply Z.div_pos; lia).
  assert (Hch : 0 <= height / rows) by (apply Z.div_pos; lia).
  pose proof (Z.mul_div_le width cols Hc) as Hwl.
  pose proof (Z.mul_div_le height rows Hr) as Hhl.
  simpl.
  destruct (r mod cols =? cols - 1) eqn:Ec; destruct (r / cols =? rows - 1) eqn:Er;
    rewrite ?Z.eqb_eq, ?Z.eqb_neq in *; repeat split; nia.
Qed.

(** The point of a box that lies in a frame of doubles. *)
Lemma box_point_ok (left right width : Z) (ratio : pyfloat) :
  0 <= left <= width -> right <= width -> width < 2 ^ 53 ->
  exists x, ratio_point left (Fin (clamp_ratio ratio)) (Z.max 1 (right - left - 1)) = Ok x.
Proof.
  intros Hl Hr Hw. destruct (clamp_ratio_bounds ratio) as [H0 H1].
  destruct (ratio_point_between left (Z.max 1 (right - left - 1)) (clamp_ratio ratio))
    as (x & -> & _); try assumption; try lia.
  eauto.
Qed.

Lemma _point_from_region_ratio_ok region rows cols width height xr yr :
  0 < rows -> 0 < cols -> 0 <= width < 2 ^ 53 -> 0 <= height < 2 ^ 53 ->
  exists p, _point_from_region_ratio region rows cols width height xr yr = Ok p.
Proof.
  intros Hr Hc Hw Hh. unfold _point_from_region_ratio.
  rewrite (nonzero_ok rows cols Hr Hc).
  cbn beta iota zeta delta [mbind result_bind bind].
  destruct (_region_box_in_frame region rows cols width height Hr Hc ltac:(lia) ltac:(lia))
    as (Hl & Hrw & Ht & Hb).
  set (box := _region_box region rows cols width height) in *.
  destruct (box_point_ok box.1.1.1 box.1.2 width xr Hl Hrw ltac:(lia)) as (x & ->).
  destruct (box_point_ok box.1.1.2 box.2 height yr Ht Hb ltac:(lia)) as (y & ->).
  cbn beta iota zeta delta [mbind result_bind bind]. eauto.
Qed.

(** On a frame of doubles the swipe branch computes its command. *)
Lemma swipe_command_ok repr_other planner rows cols cells width height cr :
  0 < rows -> 0 < cols -> 0 <= width < 2 ^ 53 -> 0 <= height < 2 ^ 53 ->
  exists c, swipe_command repr_other planner rows cols cells width height cr = Ok c.
Proof.
  intros Hr Hc Hw Hh.
  destruct (scaled_ok height (72 # 100) ltac:(lia) fraction_72) as (y72 & E72).
  destruct (scaled_ok height (32 # 100) ltac:(lia) fraction_32) as (y32 & E32).
  destruct (scaled_ok width (75 # 100) ltac:(lia) fraction_75) as (x75 & E75).
  destruct (scaled_ok width (25 # 100) ltac:(lia) fraction_25) as (x25 & E25).
  assert (Hp : exists p, swipe_points repr_other planner rows cols cells width height = Ok p).
  { unfold swipe_points. rewrite E72, E32, E75, E25.
    cbn beta iota zeta delta [mbind result_bind bind].
    destruct (forallb _ _); [eauto |].
    destruct (String.eqb _ "up"); [eauto |].
    destruct (String.eqb _ "down"); [eauto |].
    destruct (String.eqb _ "left"); [eauto |].
    destruct (String.eqb _ "right"); [eauto |].
    match goal with
    | |- context [_point_from_region_ratio ?r _ _ _ _ ?x ?y] =>
        destruct (_point_from_region_ratio_ok r rows cols width height x y Hr Hc Hw Hh)
          as (s & ->)
    end.
    cbn beta iota zeta delta [mbind result_bind bind].
    match goal with
    | |- context [_point_from_region_ratio ?r _ _ _ _ ?x ?y] =>
        destruct (_point_from_region_ratio_ok r rows cols width height x y Hr Hc Hw Hh)
          as (e & ->)
    end.
    cbn beta iota zeta delta [mbind result_bind bind]. eauto. }
  destruct Hp as ([[[sx sy] ex] ey] & Hp). unfold swipe_command. rewrite Hp.
  cbn beta iota zeta delta [mbind result_bind bind]. eauto.
Qed.

End ControllerRangeFacts.

(** ** The grid of regions and the covering rectangle *)

Module GridCellFacts.
Import Py Re Controller ReFacts RegionFacts.

(** Whether the pixel [(x, y)] lies in a box [(left, top, right, bottom)]. *)
Definition in_box (x y : Z) (box : Z * Z * Z * Z) : Prop :=
  box.1.1.1 <= x < box.1.2 /\ box.1.1.2 <= y < box.2.

Lemma mul_add_div row col cols :
  0 < cols -> 0 <= col < cols -> (row * cols + col) / cols = row.
Proof.
  intros Hc Hcol. rewrite Z.add_comm, Z.div_add by lia. rewrite Z.div_small by lia. lia.
Qed.

Lemma mul_add_mod row col cols :
  0 < cols -> 0 <= col < cols -> (row * cols + col) mod cols = col.
Proof.
  intros Hc Hcol. rewrite Z.add_comm, Z.mod_add by lia. apply Z.mod_small. lia.
Qed.

Lemma region_of_row_col rows cols row col :
  0 < rows -> 0 < cols -> 0 <= row < rows -> 0 <= col < cols ->
  1 <= row * cols + col + 1 <= rows * cols /\
  _region_row_col (row * cols + col + 1) rows cols = (row, col).
Proof.
  intros Hr Hc Hrow Hcol.
  assert (Hreg : 1 <= row * cols + col + 1 <= rows * cols) by nia.
  split; [exact Hreg |].
  unfold _region_row_col. rewrite _clamp_id by exact Hreg.
  replace (row * cols + col + 1 - 1) with (row * cols + col) by lia.
  rewrite mul_add_div, mul_add_mod by assumption. reflexivity.
Qed.

(** X1: rows and columns number the regions of a grid one to one: a region
    of the grid is read back from its row and column, and the region built
    from a row and a column of the grid has that row and that column. *)
Theorem region_row_col_round_trip (rows cols : Z) :
  0 < rows -> 0 < cols ->
  (forall region, 1 <= region <= rows * cols ->
     let rc := _region_row_col region rows cols in
     0 <= rc.1 < rows /\ 0 <= rc.2 < cols /\ rc.1 * cols + rc.2 + 1 = region) /\
  (forall row col, 0 <= row < rows -> 0 <= col < cols ->
     1 <= row * cols + col + 1 <= rows * cols /\
     _region_row_col (row * cols + col + 1) rows cols = (row, col)).
Proof.
  intros Hr Hc. split.
  - intros region Hreg.
    destruct (row_col_of_region region rows cols Hr Hc Hreg) as (H1 & H2 & H3).
    cbv zeta. lia.
  - intros row col Hrow Hcol. apply region_of_row_col; assumption.
Qed.

Lemma region_row_col_round_trip_witness :
  (forall region, 1 <= region <= 3 * 4 ->
     let rc := _region_row_col region 3 4 in
     0 <= rc.1 < 3 /\ 0 <= rc.2 < 4 /\ rc.1 * 4 + rc.2 + 1 = region) /\
  (forall row col, 0 <= row < 3 -> 0 <= col < 4 ->
     1 <= row * 4 + col + 1 <= 3 * 4 /\
     _region_row_col (row * 4 + col + 1) 3 4 = (row, col)).
Proof. apply (region_row_col_round_trip 3 4); lia. Defined.

(** The cell of a coordinate along one axis cut in [n] cells: the last cell
    takes the remainder of the division. *)
Lemma axis_cell (x size n : Z) :
  0 < n -> n <= size -> 0 <= x < size ->
  let cell := size / n in
  let i := Z.min (x / cell) (n - 1) in
  0 <= i < n /\
  i * cell <= x < (if i =? n - 1 then size else (i + 1) * cell).
Proof.
  intros Hn Hsize Hx cell i.
  assert (Hcell : 1 <= cell) by (apply Z.div_le_lower_bound; lia).
  assert (Hq : 0 <= x / cell) by (apply Z.div_pos; lia).
  pose proof (Z.mul_div_le x cell ltac:(lia)) as Hlo.
  pose proof (Z.mul_succ_div_gt x cell ltac:(lia)) as Hhi.
  split; [subst i; lia |].
  destruct (i =? n - 1) eqn:E; rewrite ?Z.eqb_eq, ?Z.eqb_neq in E; subst i; nia.
Qed.

Lemma axis_cell_unique (x size n j : Z) :
  0 < n -> n <= size -> 0 <= x < size -> 0 <= j < n ->
  let cell := size / n in
  j * cell <= x < (if j =? n - 1 then size else (j + 1) * cell) ->
  j = Z.min (x / cell) (n - 1).
Proof.
  intros Hn Hsize Hx Hj cell Hin.
  assert (Hcell : 1 <= cell) by (apply Z.div_le_lower_bound; lia).
  destruct (j =? n - 1) eqn:E; rewrite ?Z.eqb_eq, ?Z.eqb_neq in E.
  - assert (n - 1 <= x / cell) by (apply Z.div_le_lower_bound; nia). lia.
  - assert (x / cell = j).
    { symmetry. apply Z.div_unique with (r := x - j * cell); lia. }
    lia.
Qed.

(** X2: on a frame with at least one pixel per cell on each axis the boxes
    of the regions tile the frame: every pixel of the frame lies in the box
    of exactly one region of the grid. *)
Theorem region_boxes_tile_frame (rows cols width height x y : Z) :
  0 < rows -> 0 < cols -> cols <= width -> rows <= height ->
  0 <= x < width -> 0 <= y < height ->
  exists region,
    1 <= region <= rows * cols /\
    in_box x y (_region_box region rows cols width height) /\
    forall other, 1 <= other <= rows * cols ->
      in_box x y (_region_box other rows cols width height) -> other = region.
Proof.
  intros Hr Hc Hw Hh Hx Hy.
  set (col := Z.min (x / (width / cols)) (cols - 1)).
  set (row := Z.min (y / (height / rows)) (rows - 1)).
  destruct (axis_cell x width cols Hc Hw Hx) as [Hcol Hxin]. fold col in Hcol, Hxin.
  destruct (axis_cell y height rows Hr Hh Hy) as [Hrow Hyin]. fold row in Hrow, Hyin.
  exists (row * cols + col + 1).
  assert (Hreg : 1 <= row * cols + col + 1 <= rows * cols) by nia.
  split; [exact Hreg |]. split.
  - unfold in_box, _region_box. rewrite _clamp_id by exact Hreg.
    replace (row * cols + col + 1 - 1) with (row * cols + col) by lia.
    rewrite mul_add_div, mul_add_mod by assumption. cbn [fst snd]. lia.
  - intros other Hother Hin.
    unfold in_box, _region_box in Hin. rewrite _clamp_id in Hin by exact Hother.
    cbn [fst snd] in Hin.
    pose proof (Z.div_mod (other - 1) cols ltac:(lia)) as Hdm.
    pose proof (Z.mod_pos_bound (other - 1) cols Hc) as Hm.
    assert (Hd : 0 <= (other - 1) / cols < rows).
    { split; [apply Z.div_pos; lia | apply Z.div_lt_upper_bound; lia]. }
    destruct Hin as [Hxo Hyo].
    apply (axis_cell_unique x width cols _ Hc Hw Hx Hm) in Hxo.
    apply (axis_cell_unique y height rows _ Hr Hh Hy Hd) in Hyo.
    fold col in Hxo. fold row in Hyo. nia.
Qed.

Lemma region_boxes_tile_frame_witness :
  exists region,
    1 <= region <= 3 * 3 /\
    in_box 1079 2339 (_region_box region 3 3 1080 2340) /\
    forall other, 1 <= other <= 3 * 3 ->
      in_box 1079 2339 (_region_box other 3 3 1080 2340) -> other = region.
Proof. apply (region_boxes_tile_frame 3 3 1080 2340 1079 2339); lia. Defined.

(** *** The covering rectangle *)

Lemma insert_uniq_sorted x l :
  StronglySorted Z.lt l -> StronglySorted Z.lt (insert_uniq x l).
Proof.
  induction 1 as [| y l Hs IH Hall]; simpl.
  - constructor; constructor.
  - destruct (x <? y) eqn:E1.
    + apply Z.ltb_lt in E1. constructor; [constructor; assumption |].
      constructor; [exact E1 |].
      rewrite List.Forall_forall in Hall. apply List.Forall_forall. intros z Hz.
      specialize (Hall z Hz). lia.
    + destruct (x =? y) eqn:E2; [constructor; assumption |].
      apply Z.ltb_ge in E1. apply Z.eqb_neq in E2.
      constructor; [exact IH |].
      apply List.Forall_forall. intros z Hz. apply insert_uniq_in in Hz.
      destruct Hz as [-> | Hz]; [lia |].
      rewrite List.Forall_forall in Hall. apply Hall, Hz.
Qed.

Lemma sorted_set_sorted l : StronglySorted Z.lt (sorted_set l).
Proof.
  unfold sorted_set. induction l as [| x l IH]; simpl; [constructor |].
  apply insert_uniq_sorted, IH.
Qed.

Lemma seq_map_sorted (f : nat -> Z) n : forall a,
  (forall i j, (i < j)%nat -> f i < f j) ->
  StronglySorted Z.lt (map f (seq a n)).
Proof.
  induction n as [| n IH]; intros a Hf; simpl; constructor.
  - apply IH, Hf.
  - apply List.Forall_forall. intros z Hz. apply in_map_iff in Hz.
    destruct Hz as (i & <- & Hi). apply in_seq in Hi. apply Hf. lia.
Qed.

Lemma range_map_sorted (f : Z -> Z) lo hi :
  (forall i j, i < j -> f i < f j) ->
  StronglySorted Z.lt (map f (range lo hi)).
Proof.
  intros Hf. unfold range. rewrite map_map. apply seq_map_sorted.
  intros i j Hij. apply Hf. lia.
Qed.

Lemma app_sorted (l1 l2 : list Z) :
  StronglySorted Z.lt l1 -> StronglySorted Z.lt l2 ->
  (forall x y, In x l1 -> In y l2 -> x < y) ->
  StronglySorted Z.lt (l1 ++ l2).
Proof.
  induction 1 as [| x l1 Hs IH Hall]; intros H2 Hlt; simpl; [exact H2 |].
  constructor.
  - apply IH; [exact H2 |]. intros a b Ha Hb. apply Hlt; [right |]; assumption.
  - apply List.Forall_forall. intros z Hz. apply in_app_iff in Hz.
    destruct Hz as [Hz | Hz].
    + rewrite List.Forall_forall in Hall. apply Hall, Hz.
    + apply Hlt; [left; reflexivity | exact Hz].
Qed.

Lemma flat_map_sorted (f : Z -> list Z) (l : list Z) :
  StronglySorted Z.lt l ->
  (forall a, In a l -> StronglySorted Z.lt (f a)) ->
  (forall a b x y, In a l -> In b l -> a < b -> In x (f a) -> In y (f b) -> x < y) ->
  StronglySorted Z.lt (flat_map f l).
Proof.
  induction 1 as [| a l Hs IH Hall]; intros Hin Hlt; simpl; [constructor |].
  apply app_sorted.
  - apply Hin. left. reflexivity.
  - apply IH.
    + intros b Hb. apply Hin. right. exact Hb.
    + intros b c x y Hb Hc. apply Hlt; right; assumption.
  - intros x y Hx Hy. apply in_flat_map in Hy. destruct Hy as (b & Hb & Hy).
    rewrite List.Forall_forall in Hall.
    apply (Hlt a b); auto; [left; reflexivity | right; exact Hb].
Qed.

Lemma range_sorted lo hi : StronglySorted Z.lt (range lo hi).
Proof.
  rewrite <- (map_id (range lo hi)). apply range_map_sorted. intros i j Hij. exact Hij.
Qed.

Lemma range_one lo : range lo (lo + 1) = [lo].
Proof.
  unfold range. replace (lo + 1 - lo) with 1 by lia. simpl. f_equal. lia.
Qed.

Lemma fold_min_in l : forall x, In (fold_left Z.min l x) (x :: l).
Proof.
  induction l as [| z l IH]; intros x; simpl; [left; reflexivity |].
  destruct (IH (Z.min x z)) as [H | H]; [| right; right; exact H].
  destruct (Z.min_spec x z) as [[_ E] | [_ E]]; [left | right; left]; congruence.
Qed.

Lemma fold_max_in l : forall x, In (fold_left Z.max l x) (x :: l).
Proof.
  induction l as [| z l IH]; intros x; simpl; [left; reflexivity |].
  destruct (IH (Z.max x z)) as [H | H]; [| right; right; exact H].
  destruct (Z.max_spec x z) as [[_ E] | [_ E]]; [right; left | left]; congruence.
Qed.

Lemma py_min_least l :
  l <> [] -> exists m, py_min l = Ok m /\ In m l /\ forall y, In y l -> m <= y.
Proof.
  destruct l as [| x l]; [congruence |]. intros _. simpl.
  eexists. split; [reflexivity |]. split; [apply fold_min_in | apply fold_min_le].
Qed.

Lemma py_max_greatest l :
  l <> [] -> exists m, py_max l = Ok m /\ In m l /\ forall y, In y l -> y <= m.
Proof.
  destruct l as [| x l]; [congruence |]. intros _. simpl.
  eexists. split; [reflexivity |]. split; [apply fold_max_in | apply fold_max_ge].
Qed.

#[local] Arguments _region_row_col : simpl never.
#[local] Arguments _clamp : simpl never.
#[local] Arguments sorted_set : simpl never.
#[local] Arguments _safe_int : simpl never.
#[local] Arguments _looks_like_horizontal_span_target : simpl never.
#[local] Arguments py_str : simpl never.
#[local] Arguments range : simpl never.
#[local] Arguments py_min : simpl never.
#[local] Arguments py_max : simpl never.

(** The regions of a cover: in the grid, in increasing order, none twice. *)
Definition region_set (rows cols : Z) (l : list Z) : Prop :=
  in_grid rows cols l /\ StronglySorted Z.lt l.

(** The rectangle of rows [min_row..max_row] and columns
    [min_col..max_col] is the least one that holds the regions [l]. *)
Definition least_rectangle (rows cols : Z) (l : list Z)
    (min_row max_row min_col max_col : Z) : Prop :=
  (forall region, In region l ->
     min_row <= (_region_row_col region rows cols).1 <= max_row /\
     min_col <= (_region_row_col region rows cols).2 <= max_col) /\
  (exists region, In region l /\ (_region_row_col region rows cols).1 = min_row) /\
  (exists region, In region l /\ (_region_row_col region rows cols).1 = max_row) /\
  (exists region, In region l /\ (_region_row_col region rows cols).2 = min_col) /\
  (exists region, In region l /\ (_region_row_col region rows cols).2 = max_col).

(** The cells and the pixel box that [_rect_cover_from_regions] builds from
    the rectangle. *)
Definition rect_cells (cols min_row max_row min_col max_col : Z) : list Z :=
  flat_map (fun rr => map (fun cc => rr * cols + cc + 1) (range min_col (max_col + 1)))
           (range min_row (max_row + 1)).

Definition rect_box (rows cols width height min_row max_row min_col max_col : Z)
    : Z * Z * Z * Z :=
  (min_col * (width / cols), min_row * (height / rows),
   (if max_col =? cols - 1 then width else (max_col + 1) * (width / cols)),
   (if max_row =? rows - 1 then height else (max_row + 1) * (height / rows))).

Section Cover.

Variable repr_other : pyval -> string.

Lemma in_map_row_col (pr : Z * Z -> Z) rows cols l v :
  In v (map pr (map (fun r => _region_row_col r rows cols) l)) ->
  exists region, In region l /\ pr (_region_row_col region rows cols) = v.
Proof.
  rewrite map_map. intros H. apply in_map_iff in H. destruct H as (r & <- & Hin). eauto.
Qed.

Lemma row_region_set region rows cols :
  0 < rows -> 0 < cols -> 1 <= region <= rows * cols ->
  region_set rows cols
    (map (fun c => (_region_row_col region rows cols).1 * cols + c + 1) (range 0 cols)).
Proof.
  intros Hr Hc Hreg. split; [apply in_grid_row; assumption |].
  apply range_map_sorted. intros i j Hij. lia.
Qed.

(** What [_rect_cover_from_regions] returns on a grid: a non-empty set of
    regions and the least rectangle of cells around it. *)
Lemma cover_spec (planner : gmap string pyval) (rows cols width height : Z)
    (regions : list Z) :
  0 < rows -> 0 < cols ->
  _parse_regions_value (get planner "regions") = Ok regions ->
  exists normalized min_row max_row min_col max_col,
    _rect_cover_from_regions repr_other planner rows cols width height
    = Ok (normalized, rect_cells cols min_row max_row min_col max_col,
          rect_box rows cols width height min_row max_row min_col max_col,
          (min_row, max_row, min_col, max_col)) /\
    region_set rows cols normalized /\
    least_rectangle rows cols normalized min_row max_row min_col max_col.
Proof.
  intros Hr Hc Hparse. unfold _rect_cover_from_regions.
  rewrite Hparse, (nonzero_ok rows cols Hr Hc).
  cbn beta iota zeta delta [mbind result_bind bind].
  assert (Hcells : 1 <= rows * cols) by nia.
  match goal with
  | |- context [py_min (map fst (map _ ?n))] => set (normalized := n)
  end.
  assert (Hset : region_set rows cols normalized).
  { subst normalized.
    match goal with
    | |- region_set _ _ (if _ then _ else ?n) =>
        assert (Hn : region_set rows cols n); [| set (n0 := n) in *]
    end.
    { destruct (sorted_set _) as [| r0 l0] eqn:E.
      - split; [split; [discriminate |] | repeat constructor].
        intros x [<- | []]. apply _clamp_within, Hcells.
      - rewrite <- E. split; [| apply sorted_set_sorted].
        split; [rewrite E; discriminate |].
        intros x Hx. apply sorted_set_in, in_map_iff in Hx.
        destruct Hx as (r & <- & _). apply _clamp_within, Hcells. }
    destruct (_ && _); [| exact Hn].
    apply row_region_set; auto. destruct Hn as [[Hne Hall] _].
    destruct n0 as [| r0 l0]; [congruence |]. apply Hall. left. reflexivity. }
  destruct Hset as [[Hne Hall] Hsorted].
  set (row_cols := map (fun r => _region_row_col r rows cols) normalized).
  assert (Hrc : forall l : list Z, l = map fst row_cols \/ l = map snd row_cols -> l <> []).
  { intros l [-> | ->] Hnil; apply map_eq_nil in Hnil; apply map_eq_nil in Hnil;
      contradiction. }
  destruct (py_min_least (map fst row_cols)) as (min_row & -> & Hin1 & Hmin_row); [auto |].
  destruct (py_max_greatest (map fst row_cols)) as (max_row & -> & Hin2 & Hmax_row); [auto |].
  destruct (py_min_least (map snd row_cols)) as (min_col & -> & Hin3 & Hmin_col); [auto |].
  destruct (py_max_greatest (map snd row_cols)) as (max_col & -> & Hin4 & Hmax_col); [auto |].
  cbn beta iota zeta delta [mbind result_bind bind].
  exists normalized, min_row, max_row, min_col, max_col.
  split; [reflexivity |]. split; [split; [split |]; assumption |].
  split; [| repeat split; apply in_map_row_col; assumption].
  intros region Hin.
  assert (Hfst : In (_region_row_col region rows cols).1 (map fst row_cols)).
  { apply in_map. subst row_cols.
    apply (in_map (fun r => _region_row_col r rows cols)). exact Hin. }
  assert (Hsnd : In (_region_row_col region rows cols).2 (map snd row_cols)).
  { apply in_map. subst row_cols.
    apply (in_map (fun r => _region_row_col r rows cols)). exact Hin. }
  pose proof (Hmin_row _ Hfst). pose proof (Hmax_row _ Hfst).
  pose proof (Hmin_col _ Hsnd). pose proof (Hmax_col _ Hsnd). lia.
Qed.

(** The bounds of the least rectangle around regions of the grid. *)
Lemma least_rectangle_bounds rows cols l min_row max_row min_col max_col :
  0 < rows -> 0 < cols -> in_grid rows cols l ->
  least_rectangle rows cols l min_row max_row min_col max_col ->
  0 <= min_row <= max_row /\ max_row < rows /\ 0 <= min_col <= max_col /\ max_col < cols.
Proof.
  intros Hr Hc [Hne Hall] (Hin & (r1 & H1 & E1) & (r2 & H2 & E2) & (r3 & H3 & E3)
                              & (r4 & H4 & E4)).
  pose proof (row_col_of_region r1 rows cols Hr Hc (Hall _ H1)) as B1.
  pose proof (row_col_of_region r2 rows cols Hr Hc (Hall _ H2)) as B2.
  pose proof (row_col_of_region r3 rows cols Hr Hc (Hall _ H3)) as B3.
  pose proof (row_col_of_region r4 rows cols Hr Hc (Hall _ H4)) as B4.
  pose proof (Hin _ H1) as I1. cbv zeta in *. lia.
Qed.

(** X3: once the [regions] of the planner answer are read, the cover is
    computed, and the regions it works on are a set, as the planner
    protocol wants it: never empty, each one a region of the grid, in
    increasing order and none twice, whatever the answer names. *)
Theorem cover_regions_normalized (planner : gmap string pyval)
    (rows cols width height : Z) (regions : list Z) :
  0 < rows -> 0 < cols ->
  _parse_regions_value (get planner "regions") = Ok regions ->
  exists normalized rect_regions box meta,
    _rect_cover_from_regions repr_other planner rows cols width height
    = Ok (normalized, rect_regions, box, meta) /\
    normalized <> [] /\
    StronglySorted Z.lt normalized /\
    forall region, In region normalized -> 1 <= region <= rows * cols.
Proof.
  intros Hr Hc Hparse.
  destruct (cover_spec planner rows cols width height regions Hr Hc Hparse)
    as (normalized & min_row & max_row & min_col & max_col & -> & [[Hne Hall] Hs] & _).
  do 4 eexists. split; [reflexivity |]. auto.
Qed.

(** X4: once the [regions] of the planner answer are read, the cells of
    the cover are exactly the cells of the least rectangle of rows and
    columns that holds the regions: a region of the grid is listed if and
    only if its row and its column lie between the extreme rows and
    columns, each of which is the row or column of some region; the cells
    are listed in increasing order. *)
Theorem cover_is_least_rectangle (planner : gmap string pyval)
    (rows cols width height : Z) (regions : list Z) :
  0 < rows -> 0 < cols ->
  _parse_regions_value (get planner "regions") = Ok regions ->
  exists normalized rect_regions box min_row max_row min_col max_col,
    _rect_cover_from_regions repr_other planner rows cols width height
    = Ok (normalized, rect_regions, box, (min_row, max_row, min_col, max_col)) /\
    least_rectangle rows cols normalized min_row max_row min_col max_col /\
    StronglySorted Z.lt rect_regions /\
    forall region,
      In region rect_regions <->
      1 <= region <= rows * cols /\
      min_row <= (_region_row_col region rows cols).1 <= max_row /\
      min_col <= (_region_row_col region rows cols).2 <= max_col.
Proof.
  intros Hr Hc Hparse.
  destruct (cover_spec planner rows cols width height regions Hr Hc Hparse)
    as (normalized & min_row & max_row & min_col & max_col & -> & [Hgrid Hs] & Hleast).
  pose proof (least_rectangle_bounds _ _ _ _ _ _ _ Hr Hc Hgrid Hleast) as Hbd.
  do 7 eexists. split; [reflexivity |]. split; [exact Hleast |]. split.
  - unfold rect_cells. apply flat_map_sorted; [apply range_sorted | |].
    + intros rr _. apply range_map_sorted. intros i j Hij. lia.
    + intros a b x y Ha Hb Hab Hx Hy.
      apply in_map_iff in Hx, Hy.
      destruct Hx as (ca & <- & Hca). destruct Hy as (cb & <- & Hcb).
      clear Ha Hb.
      apply GridFacts.range_spec in Hca, Hcb. nia.
  - intros region. unfold rect_cells. rewrite in_flat_map. split.
    + intros (rr & Hrr & Hin). apply in_map_iff in Hin. destruct Hin as (cc & <- & Hcc).
      apply GridFacts.range_spec in Hrr, Hcc.
      destruct (region_of_row_col rows cols rr cc Hr Hc ltac:(lia) ltac:(lia))
        as [Hreg ->]. simpl. lia.
    + intros (Hreg & Hrow & Hcol).
      destruct (row_col_of_region region rows cols Hr Hc Hreg) as (_ & _ & Heq).
      exists (_region_row_col region rows cols).1.
      split; [apply GridFacts.range_spec; lia |].
      apply in_map_iff. exists (_region_row_col region rows cols).2.
      split; [lia | apply GridFacts.range_spec; lia].
Qed.

(** X5: once the [regions] of the planner answer are read, on a frame with
    at least one pixel per cell on each axis the pixel box of the cover
    lies in the frame, is not empty, and holds the box of every cell of the
    cover. *)
Theorem cover_box_in_frame (planner : gmap string pyval)
    (rows cols width height : Z) (regions : list Z) :
  0 < rows -> 0 < cols -> cols <= width -> rows <= height ->
  _parse_regions_value (get planner "regions") = Ok regions ->
  exists normalized rect_regions left top right bottom meta,
    _rect_cover_from_regions repr_other planner rows cols width height
    = Ok (normalized, rect_regions, (left, top, right, bottom), meta) /\
    0 <= left < right /\ right <= width /\
    0 <= top < bottom /\ bottom <= height /\
    forall region, In region normalized \/ In region rect_regions ->
      let box := _region_box region rows cols width height in
      left <= box.1.1.1 /\ box.1.2 <= right /\ top <= box.1.1.2 /\ box.2 <= bottom.
Proof.
  intros Hr Hc Hw Hh Hparse.
  destruct (cover_spec planner rows cols width height regions Hr Hc Hparse)
    as (normalized & min_row & max_row & min_col & max_col & -> & [Hgrid Hs] & Hleast).
  pose proof (least_rectangle_bounds _ _ _ _ _ _ _ Hr Hc Hgrid Hleast) as Hb.
  assert (Hcw : 1 <= width / cols) by (apply Z.div_le_lower_bound; lia).
  assert (Hch : 1 <= height / rows) by (apply Z.div_le_lower_bound; lia).
  pose proof (Z.mul_div_le width cols Hc) as Hwl.
  pose proof (Z.mul_div_le height rows Hr) as Hhl.
  unfold rect_box. do 7 eexists. split; [reflexivity |].
  assert (Hbox : forall region, 1 <= region <= rows * cols ->
            min_row <= (_region_row_col region rows cols).1 <= max_row ->
            min_col <= (_region_row_col region rows cols).2 <= max_col ->
            let box := _region_box region rows cols width height in
            min_col * (width / cols) <= box.1.1.1 /\
            box.1.2 <= (if max_col =? cols - 1 then width else (max_col + 1) * (width / cols)) /\
            min_row * (height / rows) <= box.1.1.2 /\
            box.2 <= (if max_row =? rows - 1 then height else (max_row + 1) * (height / rows))).
  { intros region Hreg. unfold _region_row_col, _region_box.
    rewrite _clamp_id by exact Hreg. cbn [fst snd]. intros Hrow Hcol.
    destruct (max_col =? cols - 1) eqn:E1; destruct (max_row =? rows - 1) eqn:E2;
      destruct ((region - 1) mod cols =? cols - 1) eqn:E3;
      destruct ((region - 1) / cols =? rows - 1) eqn:E4;
      rewrite ?Z.eqb_eq, ?Z.eqb_neq in *; repeat split; nia. }
  assert (Hedge_x : min_col * (width / cols)
                    < (if max_col =? cols - 1 then width else (max_col + 1) * (width / cols))
                    <= width).
  { destruct (max_col =? cols - 1) eqn:E; rewrite ?Z.eqb_eq, ?Z.eqb_neq in E; nia. }
  assert (Hedge_y : min_row * (height / rows)
                    < (if max_row =? rows - 1 then height else (max_row + 1) * (height / rows))
                    <= height).
  { destruct (max_row =? rows - 1) eqn:E; rewrite ?Z.eqb_eq, ?Z.eqb_neq in E; nia. }
  split; [nia |]. split; [lia |]. split; [nia |]. split; [lia |].
  intros region [Hin | Hin].
  - destruct Hgrid as [_ Hall]. destruct Hleast as [Hin' _].
    destruct (Hin' _ Hin). apply (Hbox region); auto.
  - unfold rect_cells in Hin. apply in_flat_map in Hin.
    destruct Hin as (rr & Hrr & Hin). apply in_map_iff in Hin.
    destruct Hin as (cc & <- & Hcc). apply GridFacts.range_spec in Hrr, Hcc.
    destruct (region_of_row_col rows cols rr cc Hr Hc ltac:(lia) ltac:(lia)) as [Hreg E].
    apply (Hbox _ Hreg); rewrite E; simpl; lia.
Qed.

(** X6: a planner that names one region of the grid and a target that reads
    like an input or search bar gets the whole row of that region: every
    column of the row, and a pixel box from the left to the right edge of
    the frame. *)
Theorem bar_target_spans_row (planner : gmap string pyval)
    (rows cols width height region : Z) (target : string) :
  0 < rows -> 0 < cols -> 1 <= region <= rows * cols ->
  planner !! "regions" = None ->
  planner !! "region" = Some (VInt region) ->
  planner !! "target" = Some (VStr target) ->
  _looks_like_horizontal_span_target target = true ->
  let row := (_region_row_col region rows cols).1 in
  let cells := map (fun c => row * cols + c + 1) (range 0 cols) in
  _rect_cover_from_regions repr_other planner rows cols width height
  = Ok (cells, cells,
        (0, row * (height / rows), width,
         if row =? rows - 1 then height else (row + 1) * (height / rows)),
        (row, row, 0, cols - 1)).
Proof.
  intros Hr Hc Hreg Hregions Hregion Htarget Hbar row cells.
  destruct (row_col_of_region region rows cols Hr Hc Hreg) as (Hrow & _ & _).
  fold row in Hrow.
  unfold _rect_cover_from_regions, get, get_or.
  rewrite Hregions, Hregion, Htarget. cbn [default from_option id _parse_regions_value].
  rewrite (nonzero_ok rows cols Hr Hc).
  cbn beta iota zeta delta [mbind result_bind bind].
  change (_safe_int (VInt region) 0) with region.
  replace (0 <? region) with true by (symmetry; apply Z.ltb_lt; lia).
  cbn [app List.filter map]. replace (0 <? region) with true by (symmetry; apply Z.ltb_lt; lia).
  cbn [map]. rewrite (_clamp_id region) by exact Hreg.
  replace (sorted_set [region]) with [region] by reflexivity.
  cbn [length Nat.eqb andb py_str List.hd]. unfold py_str. rewrite Hbar.
  fold row. fold cells.
  assert (Hrc : map (fun r => _region_row_col r rows cols) cells
                = map (fun c => (row, c)) (range 0 cols)).
  { subst cells. rewrite map_map. apply map_ext_in. intros c Hin.
    apply GridFacts.range_spec in Hin.
    apply (region_of_row_col rows cols row c); auto. }
  rewrite Hrc, !map_map. cbn [fst snd].
  assert (Hne : forall f : Z -> Z, map f (range 0 cols) <> []).
  { intros f Hnil. assert (Hin : In 0 (range 0 cols)) by (apply GridFacts.range_spec; lia).
    apply (in_map f) in Hin. rewrite Hnil in Hin. contradiction. }
  destruct (py_min_least (map (fun _ => row) (range 0 cols)) (Hne _))
    as (min_row & -> & Hin1 & _).
  destruct (py_max_greatest (map (fun _ => row) (range 0 cols)) (Hne _))
    as (max_row & -> & Hin2 & _).
  destruct (py_min_least (map (fun c => c) (range 0 cols)) (Hne _))
    as (min_col & -> & Hin3 & Hmin).
  destruct (py_max_greatest (map (fun c => c) (range 0 cols)) (Hne _))
    as (max_col & -> & Hin4 & Hmax).
  apply in_map_iff in Hin1, Hin2. destruct Hin1 as (? & <- & _). destruct Hin2 as (? & <- & _).
  rewrite map_id in *. 
  assert (min_col = 0).
  { apply GridFacts.range_spec in Hin3.
    specialize (Hmin 0 ltac:(apply GridFacts.range_spec; lia)). lia. }
  assert (max_col = cols - 1).
  { apply GridFacts.range_spec in Hin4.
    specialize (Hmax (cols - 1) ltac:(apply GridFacts.range_spec; lia)). lia. }
  subst min_col max_col.
  cbn beta iota zeta delta [mbind result_bind bind].
  rewrite Z.eqb_refl. replace (cols - 1 + 1) with cols by lia.
  assert (Hcells : flat_map (fun rr => map (fun cc => rr * cols + cc + 1) (range 0 cols))
                     (range row (row + 1)) = cells).
  { rewrite range_one. cbn [flat_map]. apply app_nil_r. }
  rewrite Hcells. reflexivity.
Qed.

(** X7: a planner without a usable region gets the centre cell of the
    grid, unless its target reads like a bar. *)
Theorem cover_defaults_to_centre (planner : gmap string pyval)
    (rows cols width height : Z) (regions_raw : list Z) :
  0 < rows -> 0 < cols ->
  _parse_regions_value (get planner "regions") = Ok regions_raw ->
  Forall (fun r => r <= 0) regions_raw ->
  _safe_int (get_or planner "region" (VInt 0)) 0 <= 0 ->
  _looks_like_horizontal_span_target
    (py_str repr_other (get_or planner "target" (VStr EmptyString))) = false ->
  let centre := (rows / 2) * cols + cols / 2 + 1 in
  1 <= centre <= rows * cols /\
  _region_row_col centre rows cols = (rows / 2, cols / 2) /\
  _rect_cover_from_regions repr_other planner rows cols width height
  = Ok ([centre], [centre],
        _region_box centre rows cols width height,
        (rows / 2, rows / 2, cols / 2, cols / 2)).
Proof.
  intros Hr Hc Hparse Hall Hsingle Hbar centre.
  assert (Hrow : 0 <= rows / 2 < rows).
  { split; [apply Z.div_pos; lia | apply Z.div_lt_upper_bound; lia]. }
  assert (Hcol : 0 <= cols / 2 < cols).
  { split; [apply Z.div_pos; lia | apply Z.div_lt_upper_bound; lia]. }
  destruct (region_of_row_col rows cols (rows / 2) (cols / 2) Hr Hc Hrow Hcol)
    as [Hreg Hrc].
  fold centre in Hreg, Hrc.
  split; [exact Hreg |]. split; [exact Hrc |].
  unfold _rect_cover_from_regions. rewrite Hparse, (nonzero_ok rows cols Hr Hc).
  cbn beta iota zeta delta [mbind result_bind bind].
  replace (0 <? _safe_int _ 0) with false by (symmetry; apply Z.ltb_ge; lia).
  assert (Hnone : List.filter (fun r => 0 <? r) regions_raw = []).
  { clear Hparse. induction Hall as [| r l Hle _ IH]; simpl; [reflexivity |].
    replace (0 <? r) with false by (symmetry; apply Z.ltb_ge; lia). exact IH. }
  rewrite Hnone. cbn [map]. replace (sorted_set []) with (@nil Z) by reflexivity.
  fold centre. rewrite _clamp_id by exact Hreg.
  cbn [length Nat.eqb andb]. rewrite Hbar. cbn [map]. rewrite Hrc. cbn [fst snd].
  unfold py_min, py_max. cbn [fold_left].
  cbn beta iota zeta delta [mbind result_bind bind].
  unfold _region_box. rewrite _clamp_id by exact Hreg.
  unfold _region_row_col in Hrc. rewrite _clamp_id in Hrc by exact Hreg.
  injection Hrc as -> ->.
  rewrite !range_one. reflexivity.
Qed.

End Cover.

Lemma cover_regions_normalized_witness :
  exists normalized rect_regions box meta,
    _rect_cover_from_regions (fun _ => EmptyString)
      (dict [("regions", VList [VInt 9; VInt 5; VInt 40; VInt 5; VInt (-1)])]%string)
      3 3 1080 2340
    = Ok (normalized, rect_regions, box, meta) /\
    normalized <> [] /\
    StronglySorted Z.lt normalized /\
    forall region, In region normalized -> 1 <= region <= 3 * 3.
Proof.
  apply (cover_regions_normalized (fun _ => EmptyString)
           (dict [("regions", VList [VInt 9; VInt 5; VInt 40; VInt 5; VInt (-1)])]%string)
           3 3 1080 2340 [9; 5; 40; 5; -1]); try lia; reflexivity.
Defined.

Lemma cover_is_least_rectangle_witness :
  exists normalized rect_regions box min_row max_row min_col max_col,
    _rect_cover_from_regions (fun _ => EmptyString)
      (dict [("regions", VList [VInt 2; VInt 6])]%string) 3 3 1080 2340
    = Ok (normalized, rect_regions, box, (min_row, max_row, min_col, max_col)) /\
    least_rectangle 3 3 normalized min_row max_row min_col max_col /\
    StronglySorted Z.lt rect_regions /\
    forall region,
      In region rect_regions <->
      1 <= region <= 3 * 3 /\
      min_row <= (_region_row_col region 3 3).1 <= max_row /\
      min_col <= (_region_row_col region 3 3).2 <= max_col.
Proof.
  apply (cover_is_least_rectangle (fun _ => EmptyString)
           (dict [("regions", VList [VInt 2; VInt 6])]%string) 3 3 1080 2340 [2; 6]);
    try lia; reflexivity.
Defined.

Lemma cover_box_in_frame_witness :
  exists normalized rect_regions left top right bottom meta,
    _rect_cover_from_regions (fun _ => EmptyString)
      (dict [("regions", VList [VInt 2; VInt 6])]%string) 3 3 1080 2340
    = Ok (normalized, rect_regions, (left, top, right, bottom), meta) /\
    0 <= left < right /\ right <= 1080 /\
    0 <= top < bottom /\ bottom <= 2340 /\
    forall region, In region normalized \/ In region rect_regions ->
      let box := _region_box region 3 3 1080 2340 in
      left <= box.1.1.1 /\ box.1.2 <= right /\ top <= box.1.1.2 /\ box.2 <= bottom.
Proof.
  apply (cover_box_in_frame (fun _ => EmptyString)
           (dict [("regions", VList [VInt 2; VInt 6])]%string) 3 3 1080 2340 [2; 6]);
    try lia; reflexivity.
Defined.

Lemma bar_target_spans_row_witness :
  let row := (_region_row_col 8 3 3).1 in
  let cells := map (fun c => row * 3 + c + 1) (range 0 3) in
  _rect_cover_from_regions (fun _ => EmptyString)
    (dict [("region", VInt 8); ("target", VStr "Search bar")]%string) 3 3 1080 2340
  = Ok (cells, cells,
        (0, row * (2340 / 3), 1080,
         if row =? 3 - 1 then 2340 else (row + 1) * (2340 / 3)),
        (row, row, 0, 3 - 1)).
Proof.
  apply (bar_target_spans_row (fun _ => EmptyString)
           (dict [("region", VInt 8); ("target", VStr "Search bar")]%string)
           3 3 1080 2340 8 "Search bar"); try lia; reflexivity.
Defined.

Lemma cover_defaults_to_centre_witness :
  let centre := (3 / 2) * 3 + 3 / 2 + 1 in
  1 <= centre <= 3 * 3 /\
  _region_row_col centre 3 3 = (3 / 2, 3 / 2) /\
  _rect_cover_from_regions (fun _ => EmptyString)
    (dict [("regions", VList [VInt 0]); ("target", VStr "OK button")]%string)
    3 3 1080 2340
  = Ok ([centre], [centre], _region_box centre 3 3 1080 2340,
        (3 / 2, 3 / 2, 3 / 2, 3 / 2)).
Proof.
  apply (cover_defaults_to_centre (fun _ => EmptyString)
           (dict [("regions", VList [VInt 0]); ("target", VStr "OK button")]%string)
           3 3 1080 2340 [0]); try lia; try reflexivity.
  repeat constructor. lia.
Defined.

End GridCellFacts.

(** ** Screen fingerprints compared *)

Module FingerprintFacts.
Import Py Agent Fingerprint.

Lemma popcount_pos p : 1 <= popcount p.
Proof. induction p; simpl; lia. Qed.

Lemma bit_count_nonneg n : 0 <= bit_count n.
Proof. destruct n; simpl; [lia | |]; pose proof (popcount_pos p); lia. Qed.

Lemma bit_count_zero n : bit_count n = 0 <-> n = 0.
Proof.
  split; [| intros ->; reflexivity].
  destruct n; simpl; [reflexivity | |]; pose proof (popcount_pos p); lia.
Qed.

Lemma popcount_le p : forall n, 0 <= n -> Z.pos p < 2 ^ n -> popcount p <= n.
Proof.
  induction p as [p IH | p IH |]; intros n Hn Hlt; simpl.
  - assert (n <> 0) by (intros ->; simpl in Hlt; lia).
    replace n with (Z.succ (n - 1)) in Hlt by lia.
    rewrite Z.pow_succ_r in Hlt by lia.
    specialize (IH (n - 1) ltac:(lia) ltac:(lia)). lia.
  - assert (n <> 0) by (intros ->; simpl in Hlt; lia).
    replace n with (Z.succ (n - 1)) in Hlt by lia.
    rewrite Z.pow_succ_r in Hlt by lia.
    specialize (IH (n - 1) ltac:(lia) ltac:(lia)). lia.
  - assert (n <> 0) by (intros ->; simpl in Hlt; lia). lia.
Qed.

Lemma lxor_below a b n :
  0 <= n -> 0 <= a < 2 ^ n -> 0 <= b < 2 ^ n -> 0 <= Z.lxor a b < 2 ^ n.
Proof.
  intros Hn Ha Hb.
  assert (H0 : 0 <= Z.lxor a b) by (apply Z.lxor_nonneg; lia).
  split; [exact H0 |].
  destruct (Z.eq_dec (Z.lxor a b) 0) as [-> | Hne]; [apply Z.pow_pos_nonneg; lia |].
  assert (Hn0 : 0 < n).
  { destruct (Z.eq_dec n 0) as [-> | ?]; [| lia]. exfalso. apply Hne.
    change (2 ^ 0) with 1 in *. replace a with 0 by lia. replace b with 0 by lia.
    reflexivity. }
  apply Z.log2_lt_pow2; [lia |].
  pose proof (Z.log2_lxor a b ltac:(lia) ltac:(lia)) as Hl.
  assert (Z.log2 a < n).
  { destruct (Z.eq_dec a 0) as [-> | ?]; [simpl; lia | apply Z.log2_lt_pow2; lia]. }
  assert (Z.log2 b < n).
  { destruct (Z.eq_dec b 0) as [-> | ?]; [simpl; lia | apply Z.log2_lt_pow2; lia]. }
  lia.
Qed.

Lemma _hamming_distance_comm a b : _hamming_distance a b = _hamming_distance b a.
Proof. unfold _hamming_distance. rewrite Z.lxor_comm. reflexivity. Qed.

(** X8: the distance between two fingerprints does not depend on their
    order, is never negative, is zero for equal fingerprints only, and is
    at most [n] between fingerprints of [n] bits. *)
Theorem _hamming_distance_metric (a b : Z) :
  _hamming_distance a b = _hamming_distance b a /\
  0 <= _hamming_distance a b /\
  (_hamming_distance a b = 0 <-> a = b) /\
  (forall n, 0 <= n -> 0 <= a < 2 ^ n -> 0 <= b < 2 ^ n -> _hamming_distance a b <= n).
Proof.
  split; [apply _hamming_distance_comm |].
  unfold _hamming_distance. repeat split.
  - apply bit_count_nonneg.
  - intros H. apply (proj1 (bit_count_zero _)) in H. apply Z.lxor_eq in H. exact H.
  - intros ->. rewrite Z.lxor_nilpotent. reflexivity.
  - intros n Hn Ha Hb. pose proof (lxor_below a b n Hn Ha Hb) as Hx.
    destruct (Z.lxor a b) as [| p | p]; simpl; [lia | | lia].
    apply popcount_le; lia.
Qed.

Lemma _hamming_distance_metric_witness :
  _hamming_distance 170 85 = _hamming_distance 85 170 /\
  0 <= _hamming_distance 170 85 /\
  (_hamming_distance 170 170 = 0 <-> 170 = 170) /\
  _hamming_distance 170 85 <= 8.
Proof.
  destruct (_hamming_distance_metric 170 85) as (Hsym & Hpos & _ & Hmax).
  destruct (_hamming_distance_metric 170 170) as (_ & _ & Hzero & _).
  split; [exact Hsym |]. split; [exact Hpos |]. split; [exact Hzero |].
  apply (Hmax 8); lia.
Defined.

#[local] Arguments _hamming_distance : simpl never.

Lemma eqb_sym_string (s t : string) : String.eqb s t = String.eqb t s.
Proof.
  destruct (String.eqb s t) eqn:E.
  - apply String.eqb_eq in E. subst. symmetry. apply String.eqb_refl.
  - destruct (String.eqb t s) eqn:E'; [| reflexivity].
    apply String.eqb_eq in E'. subst. rewrite String.eqb_refl in E. discriminate.
Qed.

(** X9: the comparison of two states does not depend on their order, verdict
    and reason alike; without one of the two states the verdict is
    "changed"; and a larger threshold never turns "same" into "changed". *)
Theorem _states_similar_symmetric_monotone (prev curr : option UiState)
    (ahash_threshold : Z) :
  _states_similar prev curr ahash_threshold = _states_similar curr prev ahash_threshold /\
  (prev = None \/ curr = None ->
   _states_similar prev curr ahash_threshold = (false, "missing_state"%string)) /\
  (forall larger, ahash_threshold <= larger ->
     (_states_similar prev curr ahash_threshold).1 = true ->
     (_states_similar prev curr larger).1 = true).
Proof.
  split; [| split].
  - destruct prev as [p |], curr as [c |]; try reflexivity. unfold _states_similar.
    rewrite (eqb_sym_string (source c) (source p)).
    destruct (String.eqb (source p) (source c)) eqn:Es; [| reflexivity].
    apply String.eqb_eq in Es. rewrite Es. simpl.
    rewrite (eqb_sym_string (state_sig c) (state_sig p)).
    destruct (String.eqb (source c) "xml"); [reflexivity |].
    destruct (screen_ahash p) as [a |], (screen_ahash c) as [b |]; try reflexivity.
    rewrite (_hamming_distance_comm a b). reflexivity.
  - intros [-> | ->]; [reflexivity | destruct prev; reflexivity].
  - intros larger Hle. destruct prev as [p |], curr as [c |]; try discriminate.
    unfold _states_similar.
    destruct (negb (String.eqb (source p) (source c))); [discriminate |].
    destruct (String.eqb (source c) "xml"); [auto |].
    destruct (screen_ahash p) as [a |], (screen_ahash c) as [b |]; auto.
    simpl. rewrite !Z.leb_le. lia.
Qed.

Lemma _states_similar_symmetric_monotone_witness :
  let a := {| source := "screenshot"; text := EmptyString; image_b64 := EmptyString;
              state_sig := "shot:ab"; screen_ahash := Some 170 |} in
  let b := {| source := "screenshot"; text := EmptyString; image_b64 := EmptyString;
              state_sig := "shot:cd"; screen_ahash := Some 171 |} in
  _states_similar (Some a) (Some b) 1 = _states_similar (Some b) (Some a) 1 /\
  _states_similar None (Some b) 1 = (false, "missing_state"%string) /\
  (_states_similar (Some a) (Some b) 6).1 = true.
Proof.
  intros a b.
  destruct (_states_similar_symmetric_monotone (Some a) (Some b) 1) as (Hsym & _ & Hmono).
  destruct (_states_similar_symmetric_monotone None (Some b) 1) as (_ & Hnone & _).
  split; [exact Hsym |]. split; [apply Hnone; left; reflexivity |].
  apply (Hmono 6); [lia | reflexivity].
Defined.

(** *** The average hash *)

Definition hash_step (avg : Q) (bits p : Z) : Z :=
  Z.lor (Z.shiftl bits 1) (if Qle_bool avg (inject_Z p) then 1 else 0).

Lemma step_arith avg bits p :
  0 <= bits -> hash_step avg bits p = 2 * bits + Z.b2z (Qle_bool avg (inject_Z p)).
Proof.
  intros Hb. unfold hash_step. rewrite Z.shiftl_mul_pow2 by lia.
  change (2 ^ 1) with 2. rewrite Z.mul_comm.
  destruct (Qle_bool avg (inject_Z p)); simpl Z.b2z.
  - destruct bits as [| q | q]; try lia; reflexivity.
  - rewrite Z.lor_0_r. lia.
Qed.

(** The bits of the hash: the buffer is read from the most significant bit
    down. *)
Lemma ahash_bits_app avg l p :
  ahash_bits avg (l ++ [p]) = hash_step avg (ahash_bits avg l) p.
Proof. unfold ahash_bits. rewrite fold_left_app. reflexivity. Qed.

Lemma ahash_bits_range avg l :
  0 <= ahash_bits avg l < 2 ^ Z.of_nat (length l).
Proof.
  induction l as [| p l IH] using rev_ind; [simpl; unfold ahash_bits; simpl; lia |].
  rewrite ahash_bits_app, length_app, step_arith by lia. simpl length.
  rewrite Nat2Z.inj_add, Z.pow_add_r by lia. change (2 ^ Z.of_nat 1) with 2.
  destruct (Qle_bool avg (inject_Z p)); simpl Z.b2z; lia.
Qed.

Lemma ahash_bits_testbit avg l : forall i,
  (i < length l)%nat ->
  Z.testbit (ahash_bits avg l) (Z.of_nat (length l - 1 - i))
  = Qle_bool avg (inject_Z (nth i l 0)).
Proof.
  induction l as [| p l IH] using rev_ind; intros i Hi; [simpl in Hi; lia |].
  pose proof (ahash_bits_range avg l) as Hr.
  rewrite ahash_bits_app, step_arith by lia.
  rewrite length_app in *. simpl length in *.
  destruct (Nat.eq_dec i (length l)) as [-> | Hne].
  - replace (length l + 1 - 1 - length l)%nat with 0%nat by lia.
    rewrite Z.testbit_0_r. rewrite app_nth2 by lia.
    replace (length l - length l)%nat with 0%nat by lia. reflexivity.
  - replace (Z.of_nat (length l + 1 - 1 - i)) with (Z.succ (Z.of_nat (length l - 1 - i)))
      by lia.
    rewrite Z.testbit_succ_r by lia. rewrite app_nth1 by lia. apply IH. lia.
Qed.

Lemma ahash_bits_uniform avg l :
  Forall (fun p => Qle_bool avg (inject_Z p) = true) l ->
  ahash_bits avg l = 2 ^ Z.of_nat (length l) - 1.
Proof.
  induction l as [| p l IH] using rev_ind; intros Hall; [reflexivity |].
  apply Forall_app in Hall. destruct Hall as [Hl Hp].
  inversion Hp as [| ? ? Hp' _]; subst.
  pose proof (ahash_bits_range avg l) as Hr.
  rewrite ahash_bits_app, step_arith, Hp', IH by (auto; lia).
  rewrite length_app, Nat2Z.inj_add, Z.pow_add_r by lia. simpl. lia.
Qed.

Lemma sum_acc l : forall acc, fold_left Z.add l acc = acc + sum l.
Proof.
  unfold sum. induction l as [| p l IH]; intros acc; cbn [fold_left]; [lia |].
  rewrite (IH (acc + p)), (IH (0 + p)). lia.
Qed.

Lemma sum_repeat v n : sum (repeat v n) = Z.of_nat n * v.
Proof.
  induction n as [| n IH]; [reflexivity |].
  unfold sum in *. cbn [repeat fold_left]. rewrite sum_acc. unfold sum. rewrite IH. lia.
Qed.

(** X10: a fingerprint, when there is one, has one bit per pixel of the
    buffer, the first pixel in the most significant bit; a bit is set
    exactly when its pixel is not below the average. *)
Theorem ahash_one_bit_per_pixel gray_pixels image_bytes size pixels bits :
  gray_pixels image_bytes size = Ok pixels ->
  _compute_screen_ahash gray_pixels image_bytes size = Some bits ->
  let n := length pixels in
  let avg := (inject_Z (sum pixels) / inject_Z (Z.of_nat n))%Q in
  n <> 0%nat /\
  0 <= bits < 2 ^ Z.of_nat n /\
  forall i, (i < n)%nat ->
    Z.testbit bits (Z.of_nat (n - 1 - i)) = Qle_bool avg (inject_Z (nth i pixels 0)).
Proof.
  intros Hpx. unfold _compute_screen_ahash. rewrite Hpx.
  destruct pixels as [| p l] eqn:E; [discriminate |]. rewrite <- E.
  intros [= <-]. cbv zeta. split; [subst; discriminate |].
  split; [apply ahash_bits_range | apply ahash_bits_testbit].
Qed.

Lemma ahash_one_bit_per_pixel_witness :
  let pixels := [10; 200; 30; 220] in
  let n := length pixels in
  let avg := (inject_Z (sum pixels) / inject_Z (Z.of_nat n))%Q in
  n <> 0%nat /\
  0 <= 5 < 2 ^ Z.of_nat n /\
  forall i, (i < n)%nat ->
    Z.testbit 5 (Z.of_nat (n - 1 - i)) = Qle_bool avg (inject_Z (nth i pixels 0)).
Proof.
  apply (ahash_one_bit_per_pixel (fun _ _ => Ok [10; 200; 30; 220]) EmptyString 2
           [10; 200; 30; 220] 5); reflexivity.
Defined.

(** X11: a frame of one grey level has every bit of its fingerprint set,
    whatever the level: two such frames of the same size are at distance 0,
    and the comparator takes them for the same screen at every threshold
    that is not negative. *)
Theorem solid_frames_look_alike gray_pixels size bytes1 bytes2 n v1 v2
    (s1 s2 : UiState) (ahash_threshold : Z) :
  n <> 0%nat ->
  gray_pixels bytes1 size = Ok (repeat v1 n) ->
  gray_pixels bytes2 size = Ok (repeat v2 n) ->
  source s1 = "screenshot"%string -> source s2 = "screenshot"%string ->
  screen_ahash s1 = _compute_screen_ahash gray_pixels bytes1 size ->
  screen_ahash s2 = _compute_screen_ahash gray_pixels bytes2 size ->
  0 <= ahash_threshold ->
  screen_ahash s1 = Some (2 ^ Z.of_nat n - 1) /\
  screen_ahash s2 = Some (2 ^ Z.of_nat n - 1) /\
  _states_similar (Some s1) (Some s2) ahash_threshold = (true, "ahash_dist=0"%string).
Proof.
  intros Hn H1 H2 Hs1 Hs2 Ha1 Ha2 Hthr.
  assert (Hsolid : forall bytes v, gray_pixels bytes size = Ok (repeat v n) ->
            _compute_screen_ahash gray_pixels bytes size = Some (2 ^ Z.of_nat n - 1)).
  { intros bytes v Hpx. unfold _compute_screen_ahash. rewrite Hpx.
    destruct (repeat v n) as [| p l] eqn:E.
    { destruct n; [congruence | discriminate E]. }
    rewrite <- E. f_equal. rewrite ahash_bits_uniform.
    - rewrite repeat_length. reflexivity.
    - rewrite sum_repeat, repeat_length. apply List.Forall_forall. intros p' Hin.
      apply repeat_spec in Hin. subst p'. apply Qle_bool_iff.
      unfold Qle, Qdiv, Qmult, Qinv, inject_Z. simpl.
      destruct (Z.of_nat n) as [| q | q] eqn:En; try lia. simpl. nia. }
  rewrite (Hsolid _ _ H1) in Ha1. rewrite (Hsolid _ _ H2) in Ha2.
  split; [exact Ha1 |]. split; [exact Ha2 |].
  unfold _states_similar. rewrite Hs1, Hs2, Ha1, Ha2. simpl.
  rewrite ComparatorFacts._hamming_distance_self.
  apply Z.leb_le in Hthr. rewrite Hthr. reflexivity.
Qed.

Lemma solid_frames_look_alike_witness :
  let black := {| source := "screenshot"; text := EmptyString; image_b64 := "AA==";
                  state_sig := "shot:00"; screen_ahash := Some (2 ^ 64 - 1) |} in
  let white := {| source := "screenshot"; text := EmptyString; image_b64 := "/w==";
                  state_sig := "shot:ff"; screen_ahash := Some (2 ^ 64 - 1) |} in
  _states_similar (Some black) (Some white) 6 = (true, "ahash_dist=0"%string).
Proof.
  intros black white.
  apply (solid_frames_look_alike
           (fun bytes _ => Ok (repeat (if String.eqb bytes "black" then 0 else 255) 64))
           8 "black" "white" 64 0 255 black white 6); try reflexivity; lia.
Defined.

End FingerprintFacts.

(** ** The agent run as a whole *)

Module AgentRunFacts.
Import Py Re ReFacts ParserFacts Agent AgentLoop TapFacts EpisodeFacts CoordFacts.

#[local] Arguments _states_similar : simpl never.
#[local] Arguments _clip : simpl never.
#[local] Arguments parse_action : simpl never.
#[local] Arguments _extract_answer : simpl never.

(** *** What a parsed action carries *)

(** The fields of an action by its kind, as [dispatch] reads them. *)
Definition shaped (action : gmap string pyval) : Prop :=
  exists kind,
    action !! "kind"%string = Some (VStr kind) /\
    (kind = "tap"%string ->
     exists x y, action !! "x"%string = Some (VInt x) /\ action !! "y"%string = Some (VInt y)) /\
    (kind = "swipe"%string ->
     exists sx sy ex ey d,
       action !! "sx"%string = Some (VInt sx) /\ action !! "sy"%string = Some (VInt sy) /\
       action !! "ex"%string = Some (VInt ex) /\ action !! "ey"%string = Some (VInt ey) /\
       action !! "durationMs"%string = Some (VInt d) /\ d <> 0) /\
    (kind = "type"%string ->
     exists text,
       action !! "text"%string = Some (VStr text) /\
       (get action "enterAction" = VNone \/ exists e, get action "enterAction" = VStr e)) /\
    (kind = "wait"%string ->
     exists sec, action !! "seconds"%string = Some (VInt sec) /\ 1 <= sec <= 15).

Ltac shaped_leaf k :=
  intros [= <-]; exists k; split; [reflexivity |];
  repeat split; intros Hk; try discriminate Hk.

Ltac result_step := cbn beta iota zeta delta [mbind result_bind bind].

Lemma parse_action_shaped answer action :
  parse_action answer = Ok action -> shaped action.
Proof.
  unfold parse_action.
  destruct (startswith (strip answer) "finish(").
  { shaped_leaf "finish"%string. }
  destruct (re_match do_re (strip answer)) as [m |] eqn:Em.
  2: { shaped_leaf "invalid"%string. }
  destruct (String.eqb (strip (m_group 1 m)) "Tap").
  { destruct (_parse_pair (m_group 2 m) "element") as [[[x y] |] | e]; result_step.
    - shaped_leaf "tap"%string. exists x, y. split; reflexivity.
    - shaped_leaf "invalid"%string.
    - discriminate. }
  destruct (String.eqb (strip (m_group 1 m)) "Swipe").
  { destruct (_parse_pair (m_group 2 m) "start") as [s | e1]; result_step; [| discriminate].
    destruct (_parse_pair (m_group 2 m) "end") as [e | e2]; result_step; [| discriminate].
    destruct (_parse_int (m_group 2 m) "durationMs") as [d | e3]; result_step; [| discriminate].
    destruct s as [[sx sy] |]; [| shaped_leaf "invalid"%string].
    destruct e as [[ex ey] |]; [| shaped_leaf "invalid"%string].
    shaped_leaf "swipe"%string. do 5 eexists. repeat split; try reflexivity.
    destruct d as [n |]; [| discriminate].
    destruct (n =? 0) eqn:En; [discriminate | apply Z.eqb_neq in En; exact En]. }
  destruct (String.eqb (strip (m_group 1 m)) "Type"
            || String.eqb (strip (m_group 1 m)) "Type_Name").
  { destruct (_parse_quoted (m_group 2 m) "text") as [text_v |].
    - destruct (_parse_quoted (m_group 2 m) "enterAction") as [e |];
        shaped_leaf "type"%string; exists text_v; (split; [reflexivity |]).
      + right. exists e. reflexivity.
      + left. reflexivity.
    - shaped_leaf "invalid"%string. }
  destruct (String.eqb (strip (m_group 1 m)) "Wait").
  2: { shaped_leaf "invalid"%string. }
  change (match re_search digits_group_re ?d with
          | Some m_d => int_of_str (m_group 1 m_d)
          | None => Ok 2
          end) with (wait_seconds d).
  destruct (wait_seconds (or_str (_parse_quoted (m_group 2 m) "duration") "2 seconds"))
    as [sec | e]; result_step; [| discriminate].
  shaped_leaf "wait"%string. exists (Z.max 1 (Z.min sec 15)). split; [reflexivity | lia].
Qed.

Lemma parse_action_returns answer :
  short_numerals answer = true -> exists action, parse_action answer = Ok action.
Proof.
  intros Hshort. apply short_strip in Hshort.
  unfold parse_action.
  destruct (startswith (strip answer) "finish("); [eauto |].
  destruct (re_match do_re (strip answer)) as [m |] eqn:Em; [| eauto].
  pose proof (short_match _ _ _ 2 Em Hshort) as Hargs.
  destruct (String.eqb (strip (m_group 1 m)) "Tap").
  { destruct (_parse_pair_ok (m_group 2 m) "element" Hargs) as ([[x y] |] & ->);
      simpl; eauto. }
  destruct (String.eqb (strip (m_group 1 m)) "Swipe").
  { destruct (_parse_pair_ok (m_group 2 m) "start" Hargs) as (s & ->).
    destruct (_parse_pair_ok (m_group 2 m) "end" Hargs) as (e & ->).
    destruct (_parse_int_ok (m_group 2 m) "durationMs" Hargs) as (d & ->). simpl.
    destruct s as [[sx sy] |]; [| eauto].
    destruct e as [[ex ey] |]; eauto. }
  destruct (String.eqb (strip (m_group 1 m)) "Type"
            || String.eqb (strip (m_group 1 m)) "Type_Name").
  { destruct (_parse_quoted (m_group 2 m) "text"); eauto. }
  destruct (String.eqb (strip (m_group 1 m)) "Wait"); [| eauto].
  change (match re_search digits_group_re ?d with
          | Some m_d => int_of_str (m_group 1 m_d)
          | None => Ok 2
          end) with (wait_seconds d).
  set (duration := or_str (_parse_quoted (m_group 2 m) "duration") "2 seconds").
  assert (Hduration : short_numerals duration = true).
  { subst duration. destruct (_parse_quoted (m_group 2 m) "duration") as [v |] eqn:Eq;
      simpl; [| reflexivity].
    destruct (String.eqb v EmptyString); [reflexivity |].
    exact (short_quoted _ _ _ Hargs Eq). }
  destruct (wait_seconds_ok duration Hduration) as (sec & ->). simpl. eauto.
Qed.

Lemma shaped_is_kind action kind k :
  action !! "kind"%string = Some (VStr kind) -> is_kind action k = Ok (String.eqb kind k).
Proof. intros H. unfold is_kind, item. rewrite H. reflexivity. Qed.

Lemma lookup_int_item action k z :
  action !! k = Some (VInt z) -> int_item action k = Ok z.
Proof. intros H. unfold int_item, item. rewrite H. reflexivity. Qed.

(** X12: every answer in ASCII whose numerals have at most 4300 digits
    parses to an action that [dispatch] can read: its kind is a text, a tap
    has its two coordinates, a swipe its four and a duration other than 0,
    a type its text, a wait between 1 and 15 seconds. *)
Theorem parsed_action_fits_dispatch (answer : string) :
  is_ascii answer = true -> short_numerals answer = true ->
  exists action kind,
    parse_action answer = Ok action /\
    (forall k, is_kind action k = Ok (String.eqb kind k)) /\
    (kind = "tap"%string ->
     exists x y, int_item action "x" = Ok x /\ int_item action "y" = Ok y) /\
    (kind = "swipe"%string ->
     exists sx sy ex ey d,
       int_item action "sx" = Ok sx /\ int_item action "sy" = Ok sy /\
       int_item action "ex" = Ok ex /\ int_item action "ey" = Ok ey /\
       int_item action "durationMs" = Ok d /\ d <> 0) /\
    (kind = "type"%string -> exists text, item action "text" = Ok (VStr text)) /\
    (kind = "wait"%string ->
     exists sec, int_item action "seconds" = Ok sec /\ 1 <= sec <= 15).
Proof.
  intros _ Hshort.
  destruct (parse_action_returns answer Hshort) as (action & Hparse).
  destruct (parse_action_shaped answer action Hparse)
    as (kind & Hkind & Htap & Hswipe & Htype & Hwait).
  exists action, kind. split; [exact Hparse |].
  split; [intros k; apply shaped_is_kind, Hkind |].
  split; [| split; [| split]].
  - intros Hk. destruct (Htap Hk) as (x & y & Hx & Hy).
    exists x, y. split; apply lookup_int_item; assumption.
  - intros Hk. destruct (Hswipe Hk) as (sx & sy & ex & ey & d & H1 & H2 & H3 & H4 & H5 & Hd).
    exists sx, sy, ex, ey, d. repeat split; try (apply lookup_int_item; assumption).
    exact Hd.
  - intros Hk. destruct (Htype Hk) as (text & Ht & _). exists text.
    unfold item. rewrite Ht. reflexivity.
  - intros Hk. destruct (Hwait Hk) as (sec & Hs & Hr). exists sec.
    split; [apply lookup_int_item; assumption | exact Hr].
Qed.

Lemma parsed_action_fits_dispatch_witness :
  exists action x y,
    parse_action (dq "do(action='Tap', element=[300,800])") = Ok action /\
    int_item action "x" = Ok x /\ int_item action "y" = Ok y.
Proof.
  destruct (parsed_action_fits_dispatch (dq "do(action='Tap', element=[300,800])")
              eq_refl eq_refl)
    as (action & kind & Hparse & Hkind & Htap & _).
  assert (Hk : kind = "tap"%string).
  { specialize (Hkind "tap"%string).
    assert (Hp : parse_action (dq "do(action='Tap', element=[300,800])")
                 = Ok (dict [("kind", VStr "tap"); ("x", VInt 300); ("y", VInt 800)]%string))
      by (vm_compute; reflexivity).
    rewrite Hp in Hparse. injection Hparse as <-.
    vm_compute in Hkind. injection Hkind as Hk.
    apply String.eqb_eq. symmetry. exact Hk. }
  destruct (Htap Hk) as (x & y & Hx & Hy). exists action, x, y. auto.
Defined.

(** *** What a run sends *)

(** A command as the agent may send it: a click inside the click range, a
    swipe over a duration other than 0, a text with a textual enter action
    or none, a pause of 1 to 15 seconds. *)
Definition sane (xmin ymin xmax ymax : Z) (e : entry) : Prop :=
  match e.1 with
  | Click x y => xmin <= x <= xmax /\ ymin <= y <= ymax
  | Swipe _ _ _ _ duration_ms => duration_ms <> 0
  | InputText _ enter_action => enter_action = VNone \/ exists s, enter_action = VStr s
  | Sleep sec => 1 <= sec <= 15
  end.

Definition click_in (xmin ymin xmax ymax : Z) (e : entry) : Prop :=
  exists x y, e.1 = Click x y /\ xmin <= x <= xmax /\ ymin <= y <= ymax.

Section Run.

Context {W : Type}.
Variable env : @Env W.

#[local] Abbreviation M := (@M W).

(** Whatever the outcome, the computation adds to the log only entries
    that satisfy [P]. *)
Definition emits (P : entry -> Prop) {A : Type} (m : M A) : Prop :=
  forall s r s', m s = (r, s') -> exists sent, s'.2 = s.2 ++ sent /\ Forall P sent.

Lemma emits_silent P {A : Type} (m : M A) : silent m -> emits P m.
Proof.
  intros Hs s r s' Hrun. apply Hs in Hrun. exists []. rewrite app_nil_r. auto.
Qed.

Lemma emits_ret P {A : Type} (a : A) : emits P (ret (W := W) a).
Proof. apply emits_silent, silent_ret. Qed.

Lemma emits_bind_val P {A B : Type} (Q : A -> Prop) (m : M A) (f : A -> M B) :
  emits P m -> (forall s a s', m s = (Ok a, s') -> Q a) ->
  (forall a, Q a -> emits P (f a)) -> emits P (mbind' m f).
Proof.
  intros Hm HQ Hf s r s'. unfold mbind'.
  destruct (m s) as [[a | e] s1] eqn:E; intros Hrun.
  - destruct (Hm _ _ _ E) as (sent1 & H1 & F1).
    destruct (Hf a (HQ _ _ _ E) _ _ _ Hrun) as (sent2 & H2 & F2).
    exists (sent1 ++ sent2). rewrite H2, H1, app_assoc. split; [reflexivity |].
    apply Forall_app. auto.
  - injection Hrun as <- <-. eapply Hm, E.
Qed.

Lemma emits_bind P {A B : Type} (m : M A) (f : A -> M B) :
  emits P m -> (forall a, emits P (f a)) -> emits P (mbind' m f).
Proof. intros Hm Hf. apply (emits_bind_val P (fun _ => True)); auto. Qed.

Lemma emits_lift_bind P {A B : Type} (r : result A) (f : A -> M B) :
  (forall a, r = Ok a -> emits P (f a)) -> emits P (mbind' (lift r) f).
Proof.
  intros Hf. apply (emits_bind_val P (fun a => r = Ok a)).
  - apply emits_silent, silent_lift.
  - intros s a s' [= -> _]. reflexivity.
  - exact Hf.
Qed.

Lemma emits_control P c f : (forall flag, P (c, flag)) -> emits P (control c f).
Proof.
  intros HP s r s'. unfold control. destruct (f s.1) as [r0 w0].
  intros [= <- <-]. simpl. eexists. split; [reflexivity |]. repeat constructor. apply HP.
Qed.

Lemma emits_sleep P sec : P (Sleep sec, Some true) -> emits P (sleep (W := W) sec).
Proof.
  intros HP s r s' [= <- <-]. simpl. eexists. split; [reflexivity |].
  repeat constructor. exact HP.
Qed.

Lemma emits_impl (P Q : entry -> Prop) {A : Type} (m : M A) :
  (forall e, P e -> Q e) -> emits P m -> emits Q m.
Proof.
  intros HPQ Hm s r s' Hrun. destruct (Hm _ _ _ Hrun) as (sent & Hs & Hf).
  exists sent. split; [exact Hs |]. eapply List.Forall_impl; [| exact Hf]. exact HPQ.
Qed.

(** The tap executor: clicks only, each in the range, no more than there
    are offsets to try. *)
Lemma tap_attempts_clicks base_state x y xmin ymin xmax ymax thr :
  xmin <= xmax -> ymin <= ymax ->
  forall todo last_body any_success final_point s r s',
    tap_attempts env base_state x y xmin ymin xmax ymax thr todo
                 last_body any_success final_point s = (r, s') ->
    exists sent,
      s'.2 = s.2 ++ sent /\ Forall (click_in xmin ymin xmax ymax) sent /\
      (length sent <= length todo)%nat.
Proof.
  intros Hx Hy.
  induction todo as [| [dx dy] todo IH]; intros last_body any_success final_point s r s' Hrun;
    simpl in Hrun.
  - injection Hrun as <- <-. exists []. rewrite app_nil_r. auto.
  - unfold mbind', click, control in Hrun. simpl in Hrun.
    destruct s as [w log]. simpl in Hrun.
    set (tx := _clip (x + dx) xmin xmax) in *. set (ty := _clip (y + dy) ymin ymax) in *.
    assert (Hin : forall flag, click_in xmin ymin xmax ymax (Click tx ty, flag)).
    { intros flag. exists tx, ty. split; [reflexivity |].
      split; apply _clip_in_range; assumption. }
    assert (Hone : forall flag,
      exists sent, log ++ [(Click tx ty, flag)] = log ++ sent /\
                   Forall (click_in xmin ymin xmax ymax) sent /\
                   (length sent <= S (length todo))%nat).
    { intros flag. exists [(Click tx ty, flag)]. repeat split; [| simpl; lia].
      constructor; [apply Hin | constructor]. }
    assert (Hnext : forall flag b f0 r0 (w0 : W),
      tap_attempts env base_state x y xmin ymin xmax ymax thr todo b f0 (tx, ty)
        (w0, log ++ [(Click tx ty, flag)]) = (r0, s') ->
      exists sent, s'.2 = log ++ sent /\ Forall (click_in xmin ymin xmax ymax) sent /\
                   (length sent <= S (length todo))%nat).
    { intros flag b f0 r0 w0 H0. apply IH in H0. destruct H0 as (sent & Hs & Hf & Hl).
      simpl in Hs. exists ((Click tx ty, flag) :: sent).
      rewrite Hs, <- app_assoc. split; [reflexivity |].
      split; [constructor; [apply Hin | exact Hf] | simpl; lia]. }
    destruct (env_click env tx ty w) as [[[ok body] | e] w1]; simpl in Hrun.
    2: { injection Hrun as <- <-. apply Hone. }
    destruct ok; simpl in Hrun.
    2: { apply (Hnext _ _ _ _ _ Hrun). }
    unfold fetch_ui_state, mbind', get_ui_screenshot, query in Hrun. simpl in Hrun.
    destruct (env_screenshot env w1) as [[shot | e] w2]; simpl in Hrun.
    + destruct (_states_similar _ _ _) as [same reason].
      destruct same; simpl in Hrun.
      * apply (Hnext _ _ _ _ _ Hrun).
      * injection Hrun as <- <-. apply Hone.
    + injection Hrun as <- <-. apply Hone.
Qed.

(** X13: whatever the device does, the tap executor sends clicks only, each
    inside the click range, and no more of them than
    [min(max_retry + 1, 7)]. *)
Theorem tap_sends_bounded_clicks base_state x y click_range max_retry thr
    xmin ymin xmax ymax s r s' :
  bound click_range "xMin" 0 = Ok xmin -> bound click_range "yMin" 0 = Ok ymin ->
  bound click_range "xMax" 1079 = Ok xmax -> bound click_range "yMax" 2339 = Ok ymax ->
  xmin <= xmax -> ymin <= ymax ->
  _tap_with_retry env base_state x y click_range max_retry thr s = (r, s') ->
  exists sent,
    s'.2 = s.2 ++ sent /\
    Forall (click_in xmin ymin xmax ymax) sent /\
    Z.of_nat (length sent) <= Z.max 0 (Z.min (max_retry + 1) 7).
Proof.
  intros H1 H2 H3 H4 Hx Hy. unfold _tap_with_retry, mbind', lift.
  rewrite H1, H2, H3, H4. intros Hrun.
  destruct (tap_attempts_clicks _ _ _ _ _ _ _ _ Hx Hy _ _ _ _ _ _ _ Hrun)
    as (sent & Hs & Hf & Hl).
  exists sent. split; [exact Hs |]. split; [exact Hf |].
  rewrite length_firstn in Hl. simpl length in Hl.
  change (Z.of_nat 7) with 7 in Hl. lia.
Qed.

(** What the tap executor reports, against what it sent. *)
Lemma tap_attempts_report base_state x y xmin ymin xmax ymax thr :
  forall todo last_body any_success final_point s ok body changed point s',
    tap_attempts env base_state x y xmin ymin xmax ymax thr todo
                 last_body any_success final_point s
    = (Ok (ok, body, changed, point), s') ->
    exists sent,
      s'.2 = s.2 ++ sent /\
      ok = any_success || existsb succeeded sent /\
      (changed = true ->
       exists sent0, sent = sent0 ++ [(Click point.1 point.2, Some true)]) /\
      (sent = [] -> point = final_point /\ changed = false) /\
      (sent <> [] -> exists sent0 flag, sent = sent0 ++ [(Click point.1 point.2, flag)]).
Proof.
  induction todo as [| [dx dy] todo IH];
    intros last_body any_success final_point s ok body changed point s' Hrun;
    simpl in Hrun.
  - injection Hrun as <- <- <- <- <-. exists []. rewrite app_nil_r, orb_false_r.
    repeat split; auto; try discriminate. congruence.
  - unfold mbind', click, control in Hrun. simpl in Hrun.
    destruct s as [w log]. simpl in Hrun.
    set (tx := _clip (x + dx) xmin xmax) in *. set (ty := _clip (y + dy) ymin ymax) in *.
    assert (Hnext : forall (flag : bool) b (w0 : W),
      tap_attempts env base_state x y xmin ymin xmax ymax thr todo b
        (any_success || flag) (tx, ty) (w0, log ++ [(Click tx ty, Some flag)])
      = (Ok (ok, body, changed, point), s') ->
      exists sent,
        s'.2 = log ++ sent /\
        ok = any_success || existsb succeeded sent /\
        (changed = true ->
         exists sent0, sent = sent0 ++ [(Click point.1 point.2, Some true)]) /\
        (sent = [] -> point = final_point /\ changed = false) /\
        (sent <> [] -> exists sent0 flag, sent = sent0 ++ [(Click point.1 point.2, flag)])).
    { intros flag b w0 H0. apply IH in H0.
      destruct H0 as (sent & Hs & Hok & Hch & Hnil & Hne). simpl in Hs.
      exists ((Click tx ty, Some flag) :: sent). rewrite Hs, <- app_assoc.
      split; [reflexivity |]. split.
      { rewrite Hok. simpl. unfold succeeded at 1. simpl.
        destruct flag; rewrite ?orb_true_r, ?orb_false_r; reflexivity. }
      split.
      { intros Hc. destruct (Hch Hc) as (sent0 & ->).
        exists ((Click tx ty, Some flag) :: sent0). reflexivity. }
      split; [discriminate |]. intros _.
      destruct sent as [| e sent1].
      - destruct (Hnil eq_refl) as [-> _]. exists [], (Some flag). reflexivity.
      - destruct (Hne ltac:(discriminate)) as (sent0 & fl & ->).
        exists ((Click tx ty, Some flag) :: sent0), fl. reflexivity. }
    destruct (env_click env tx ty w) as [[[ok1 body1] | e] w1]; simpl in Hrun;
      [| discriminate].
    destruct ok1; simpl in Hrun.
    2: { apply (Hnext false body1 w1). rewrite orb_false_r. exact Hrun. }
    unfold fetch_ui_state, mbind', get_ui_screenshot, query in Hrun. simpl in Hrun.
    destruct (env_screenshot env w1) as [[shot | e] w2]; simpl in Hrun; [| discriminate].
    destruct (_states_similar _ _ _) as [same reason].
    destruct same; simpl in Hrun.
    + apply (Hnext true body1 w2). rewrite orb_true_r. exact Hrun.
    + injection Hrun as <- <- <- <- <-. exists [(Click tx ty, Some true)].
      split; [reflexivity |]. split; [simpl; rewrite orb_true_r; reflexivity |].
      split; [intros _; exists []; reflexivity |].
      split; [discriminate |]. intros _. exists [], (Some true). reflexivity.
Qed.

(** X14: the report of the tap executor is true to what it sent: it reports
    success exactly when the device accepted one of the clicks, it reports a
    UI change only right after an accepted click, and the point it reports
    is that of its last click, or the target itself when it never
    clicked. *)
Theorem tap_report_matches_log base_state x y click_range max_retry thr
    s ok body changed point s' :
  _tap_with_retry env base_state x y click_range max_retry thr s
  = (Ok (ok, body, changed, point), s') ->
  exists sent,
    s'.2 = s.2 ++ sent /\
    ok = existsb succeeded sent /\
    (changed = true ->
     exists sent0, sent = sent0 ++ [(Click point.1 point.2, Some true)]) /\
    (sent = [] -> point = (x, y) /\ changed = false) /\
    (sent <> [] -> exists sent0 flag, sent = sent0 ++ [(Click point.1 point.2, flag)]).
Proof.
  unfold _tap_with_retry, mbind', lift.
  destruct (bound click_range "xMin" 0) as [xmin |]; [| discriminate].
  destruct (bound click_range "yMin" 0) as [ymin |]; [| discriminate].
  destruct (bound click_range "xMax" 1079) as [xmax |]; [| discriminate].
  destruct (bound click_range "yMax" 2339) as [ymax |]; [| discriminate].
  intros Hrun. apply tap_attempts_report in Hrun. exact Hrun.
Qed.

Lemma tap_attempts_grows base_state x y xmin ymin xmax ymax thr :
  forall todo last_body any_success final_point s r s',
    tap_attempts env base_state x y xmin ymin xmax ymax thr todo
                 last_body any_success final_point s = (r, s') ->
    exists sent, s'.2 = s.2 ++ sent.
Proof.
  induction todo as [| [dx dy] todo IH]; intros last_body any_success final_point s r s' Hrun;
    simpl in Hrun.
  - injection Hrun as <- <-. exists []. rewrite app_nil_r. reflexivity.
  - unfold mbind', click, control in Hrun. simpl in Hrun.
    destruct s as [w log]. simpl in Hrun.
    assert (Hnext : forall c b f0 a r0 (w0 : W),
      tap_attempts env base_state x y xmin ymin xmax ymax thr todo b a f0
        (w0, log ++ [c]) = (r0, s') ->
      exists sent, s'.2 = log ++ sent).
    { intros c b f0 a r0 w0 H0. apply IH in H0. destruct H0 as (sent & Hs).
      simpl in Hs. exists (c :: sent). rewrite Hs, <- app_assoc. reflexivity. }
    destruct (env_click env _ _ w) as [[[ok body] | e] w1]; simpl in Hrun.
    2: { injection Hrun as <- <-. simpl. eauto. }
    destruct ok; simpl in Hrun.
    2: { eapply Hnext, Hrun. }
    unfold fetch_ui_state, mbind', get_ui_screenshot, query in Hrun. simpl in Hrun.
    destruct (env_screenshot env w1) as [[shot | e] w2]; simpl in Hrun.
    + destruct (_states_similar _ _ _) as [same reason].
      destruct same; simpl in Hrun.
      * eapply Hnext, Hrun.
      * injection Hrun as <- <-. simpl. eauto.
    + injection Hrun as <- <-. simpl. eauto.
Qed.

(** X15: the tap executor clicks the target first: as long as it may try at
    all, its first click goes to the target clipped into the click range,
    which is the target itself when that lies in the range. *)
Theorem tap_clicks_target_first base_state x y click_range max_retry thr
    xmin ymin xmax ymax s r s' :
  bound click_range "xMin" 0 = Ok xmin -> bound click_range "yMin" 0 = Ok ymin ->
  bound click_range "xMax" 1079 = Ok xmax -> bound click_range "yMax" 2339 = Ok ymax ->
  0 <= max_retry ->
  _tap_with_retry env base_state x y click_range max_retry thr s = (r, s') ->
  (exists flag later,
     s'.2 = s.2 ++ (Click (_clip x xmin xmax) (_clip y ymin ymax), flag) :: later) /\
  (xmin <= x <= xmax -> ymin <= y <= ymax ->
   _clip x xmin xmax = x /\ _clip y ymin ymax = y).
Proof.
  intros H1 H2 H3 H4 Hretry. unfold _tap_with_retry, mbind', lift.
  rewrite H1, H2, H3, H4. intros Hrun. split; [| unfold _clip; lia].
  destruct (Z.to_nat (Z.min (max_retry + 1) (Z.of_nat (length offsets)))) as [| n] eqn:En.
  { simpl length in En. change (Z.of_nat 7) with 7 in En. lia. }
  unfold offsets in Hrun. cbn [firstn] in Hrun.
  cbn [tap_attempts] in Hrun. unfold mbind' at 1, click, control in Hrun.
  rewrite !Z.add_0_r in Hrun. destruct s as [w log]. cbn [fst snd] in Hrun.
  set (first := Click (_clip x xmin xmax) (_clip y ymin ymax)) in *.
  assert (Hgrow : forall todo b any f (w0 : W) flag r0,
    tap_attempts env base_state x y xmin ymin xmax ymax thr todo b any f
      (w0, log ++ [(first, flag)]) = (r0, s') ->
    exists later, s'.2 = log ++ (first, flag) :: later).
  { intros todo b any f w0 flag r0 H0.
    destruct (tap_attempts_grows _ _ _ _ _ _ _ _ _ _ _ _ _ _ _ H0) as (sent & Hs).
    exists sent. rewrite Hs. cbn [snd]. rewrite <- app_assoc. reflexivity. }
  destruct (env_click env (_clip x xmin xmax) (_clip y ymin ymax) w)
    as [[[ok1 body1] | e] w1].
  2: { injection Hrun as <- <-. exists None, []. reflexivity. }
  exists (Some ok1). cbn beta iota in Hrun.
  destruct ok1; cbn [negb] in Hrun; cbv iota in Hrun.
  2: { eapply Hgrow, Hrun. }
  unfold mbind' at 1 in Hrun.
  unfold fetch_ui_state, mbind', get_ui_screenshot, query, ret in Hrun.
  cbn [fst snd] in Hrun.
  destruct (env_screenshot env w1) as [[shot | e] w2].
  2: { injection Hrun as <- <-. exists []. reflexivity. }
  cbn beta iota in Hrun.
  destruct (_states_similar _ _ _) as [same reason]. destruct same; cbn [negb] in Hrun.
  - eapply Hgrow, Hrun.
  - injection Hrun as <- <-. exists []. reflexivity.
Qed.

End Run.

Lemma tap_clicks_target_first_witness :
  (exists flag later,
     [(Click 400 900, Some false); (Click 450 900, Some true); (Click 350 900, Some true)]
     = [] ++ (Click (_clip 400 0 1079) (_clip 900 0 2339), flag) :: later) /\
  (0 <= 400 <= 1079 -> 0 <= 900 <= 2339 ->
   _clip 400 0 1079 = 400 /\ _clip 900 0 2339 = 900).
Proof.
  apply (tap_clicks_target_first (sim_env Nat.odd) (shot_state still_shot) 400 900
           (range_dict 0 0 1079 2339) 2 6 0 0 1079 2339 (start [])
           (Ok (true, "{}"%string, false, (350, 900)))
           ({| tick := 5; script := [] |},
            [(Click 400 900, Some false); (Click 450 900, Some true);
             (Click 350 900, Some true)]));
    try reflexivity; lia.
Defined.

Lemma tap_sends_bounded_clicks_witness :
  exists sent,
    [] ++ [(Click 400 900, Some false); (Click 450 900, Some true);
           (Click 350 900, Some true)] = [] ++ sent /\
    Forall (click_in 0 0 1079 2339) sent /\
    Z.of_nat (length sent) <= Z.max 0 (Z.min (2 + 1) 7).
Proof.
  apply (tap_sends_bounded_clicks (sim_env Nat.odd) (shot_state still_shot) 400 900
           (range_dict 0 0 1079 2339) 2 6 0 0 1079 2339 (start [])
           (Ok (true, "{}"%string, false, (350, 900)))
           ({| tick := 5; script := [] |},
            [(Click 400 900, Some false); (Click 450 900, Some true);
             (Click 350 900, Some true)]));
    try reflexivity; lia.
Defined.

Lemma tap_report_matches_log_witness :
  exists sent,
    [(Click 400 900, Some false); (Click 450 900, Some true);
     (Click 350 900, Some true)] = [] ++ sent /\
    true = existsb succeeded sent /\
    (false = true ->
     exists sent0, sent = sent0 ++ [(Click 350 900, Some true)]) /\
    (sent = [] -> (350, 900) = (400, 900) /\ false = false) /\
    (sent <> [] -> exists sent0 flag, sent = sent0 ++ [(Click 350 900, flag)]).
Proof.
  apply (tap_report_matches_log (sim_env Nat.odd) (shot_state still_shot) 400 900
           (range_dict 0 0 1079 2339) 2 6 (start [])
           true "{}"%string false (350, 900)
           ({| tick := 5; script := [] |},
            [(Click 400 900, Some false); (Click 450 900, Some true);
             (Click 350 900, Some true)])).
  vm_compute. reflexivity.
Defined.

(** *** The loop guard *)

Section Guard.

Variable cfg : Config.
Variables xmin ymin xmax ymax : Z.
Hypothesis Hxmin : bound (click_range cfg) "xMin" 0 = Ok xmin.
Hypothesis Hymin : bound (click_range cfg) "yMin" 0 = Ok ymin.
Hypothesis Hxmax : bound (click_range cfg) "xMax" 1079 = Ok xmax.
Hypothesis Hymax : bound (click_range cfg) "yMax" 2339 = Ok ymax.

Lemma loop_guard_cases streak last tx ty :
  let d := min_tap_drift_px cfg in
  loop_guard cfg streak last tx ty
  = Ok (if guard_fires cfg streak last tx ty then
          if tx + d <=? xmax then (tx + d, ty)
          else if xmin <=? tx - d then (tx - d, ty)
          else if ty + d <=? ymax then (tx, ty + d)
          else (tx, Z.max ymin (ty - d))
        else (tx, ty)).
Proof.
  intros d. unfold loop_guard, guard_fires.
  destruct last as [[lx ly] |]; [| reflexivity].
  destruct (1 <=? streak); [| reflexivity]. simpl andb.
  destruct (Z.abs (tx - lx) + Z.abs (ty - ly) <? min_tap_drift_px cfg); [| reflexivity].
  rewrite Hxmin, Hymin, Hxmax, Hymax. cbn beta iota zeta delta [mbind result_bind bind].
  fold d.
  destruct (tx + d <=? xmax); [reflexivity |].
  destruct (xmin <=? tx - d); [reflexivity |].
  destruct (ty + d <=? ymax); reflexivity.
Qed.

Lemma guard_fires_drift streak last tx ty :
  guard_fires cfg streak last tx ty = true -> 0 < min_tap_drift_px cfg.
Proof.
  unfold guard_fires. destruct last as [[lx ly] |]; [| discriminate].
  intros H. apply andb_true_iff in H. destruct H as [_ H]. apply Z.ltb_lt in H. lia.
Qed.

(** X16: the loop guard never takes a target out of the click range: a
    target inside the range is still inside after the forced drift. *)
Theorem loop_guard_stays_in_range streak last tx ty :
  xmin <= tx <= xmax -> ymin <= ty <= ymax ->
  exists p,
    loop_guard cfg streak last tx ty = Ok p /\
    xmin <= p.1 <= xmax /\ ymin <= p.2 <= ymax.
Proof.
  intros Hx Hy. rewrite loop_guard_cases. eexists. split; [reflexivity |].
  destruct (guard_fires cfg streak last tx ty) eqn:Ef; [| simpl; lia].
  apply guard_fires_drift in Ef.
  destruct (tx + min_tap_drift_px cfg <=? xmax) eqn:E1; [apply Z.leb_le in E1; simpl; lia |].
  destruct (xmin <=? tx - min_tap_drift_px cfg) eqn:E2; [apply Z.leb_le in E2; simpl; lia |].
  destruct (ty + min_tap_drift_px cfg <=? ymax) eqn:E3; [apply Z.leb_le in E3; simpl; lia |].
  simpl. lia.
Qed.

(** X17: when the model repeats the last tap point on an unchanged screen,
    the guard moves the target by exactly the minimum drift, provided the
    click range has that much room on one side of the point; a target at
    the minimum drift or more from the last tap point is left alone. *)
Theorem loop_guard_repeat_drifts streak lx ly :
  let d := min_tap_drift_px cfg in
  1 <= streak -> 0 < d ->
  (lx + d <= xmax \/ xmin <= lx - d \/ ly + d <= ymax \/ ymin <= ly - d) ->
  (exists p,
     loop_guard cfg streak (Some (lx, ly)) lx ly = Ok p /\
     Z.abs (p.1 - lx) + Z.abs (p.2 - ly) = d) /\
  (forall tx ty,
     d <= Z.abs (tx - lx) + Z.abs (ty - ly) ->
     loop_guard cfg streak (Some (lx, ly)) tx ty = Ok (tx, ty)).
Proof.
  intros d Hstreak Hd Hroom. split.
  - rewrite loop_guard_cases. eexists. split; [reflexivity |].
    assert (Ef : guard_fires cfg streak (Some (lx, ly)) lx ly = true).
    { unfold guard_fires. apply andb_true_iff. split; [apply Z.leb_le; lia |].
      apply Z.ltb_lt. fold d. lia. }
    rewrite Ef. fold d.
    destruct (lx + d <=? xmax) eqn:E1; [simpl; lia |]. apply Z.leb_gt in E1.
    destruct (xmin <=? lx - d) eqn:E2; [simpl; lia |]. apply Z.leb_gt in E2.
    destruct (ly + d <=? ymax) eqn:E3; [simpl; lia |]. apply Z.leb_gt in E3.
    simpl. lia.
  - intros tx ty Hfar. apply loop_guard_idle. unfold guard_fires.
    apply andb_false_iff. right. apply Z.ltb_ge. exact Hfar.
Qed.

End Guard.

Lemma loop_guard_stays_in_range_witness :
  exists p,
    loop_guard (default_cfg (range_dict 0 0 1079 2339)) 1 (Some (1070, 900)) 1075 900
    = Ok p /\
    0 <= p.1 <= 1079 /\ 0 <= p.2 <= 2339.
Proof.
  apply (loop_guard_stays_in_range (default_cfg (range_dict 0 0 1079 2339))
           0 0 1079 2339); try reflexivity; lia.
Defined.

Lemma loop_guard_repeat_drifts_witness :
  let cfg := default_cfg (range_dict 0 0 1079 2339) in
  (exists p,
     loop_guard cfg 1 (Some (1070, 900)) 1070 900 = Ok p /\
     Z.abs (p.1 - 1070) + Z.abs (p.2 - 900) = 50) /\
  (forall tx ty,
     50 <= Z.abs (tx - 1070) + Z.abs (ty - 900) ->
     loop_guard cfg 1 (Some (1070, 900)) tx ty = Ok (tx, ty)).
Proof.
  apply (loop_guard_repeat_drifts (default_cfg (range_dict 0 0 1079 2339))
           0 0 1079 2339); try reflexivity; simpl; lia.
Defined.

(** *** Every command of a run *)

Section Episode.

Context {W : Type}.
Variable env : @Env W.
Variable cfg : Config.
Variables xmin ymin xmax ymax : Z.
Hypothesis Hxmin : bound (click_range cfg) "xMin" 0 = Ok xmin.
Hypothesis Hymin : bound (click_range cfg) "yMin" 0 = Ok ymin.
Hypothesis Hxmax : bound (click_range cfg) "xMax" 1079 = Ok xmax.
Hypothesis Hymax : bound (click_range cfg) "yMax" 2339 = Ok ymax.

#[local] Abbreviation M := (@M W).

Section Sane.

Hypothesis Hx : xmin <= xmax.
Hypothesis Hy : ymin <= ymax.

#[local] Abbreviation ok_entry := (sane xmin ymin xmax ymax).

Lemma click_in_sane e : click_in xmin ymin xmax ymax e -> ok_entry e.
Proof. intros (x & y & He & Hr). unfold sane. rewrite He. exact Hr. Qed.

Lemma emits_tap state x y :
  emits ok_entry
    (_tap_with_retry env state x y (click_range cfg) (tap_retry_on_no_change cfg)
                     (screenshot_ahash_threshold cfg)).
Proof.
  intros s r s' Hrun. unfold _tap_with_retry, mbind', lift in Hrun.
  rewrite Hxmin, Hymin, Hxmax, Hymax in Hrun.
  destruct (tap_attempts_clicks _ _ _ _ _ _ _ _ _ Hx Hy _ _ _ _ _ _ _ Hrun)
    as (sent & Hs & Hf & _).
  exists sent. split; [exact Hs |].
  eapply List.Forall_impl; [| exact Hf]. apply click_in_sane.
Qed.

Lemma emits_dispatch state streak last action :
  shaped action -> emits ok_entry (dispatch env cfg state streak last action).
Proof.
  intros (kind & Hkind & Htap & Hswipe & Htype & Hwait). unfold dispatch.
  apply emits_lift_bind. intros is_tap Eis_tap. destruct is_tap.
  { apply emits_lift_bind. intros tx _. apply emits_lift_bind. intros ty _.
    apply emits_lift_bind. intros [tx' ty'] _.
    apply emits_bind; [apply emits_tap |]. intros [[[ok body] changed] final].
    apply emits_ret. }
  apply emits_lift_bind. intros is_swipe Eis_swipe. destruct is_swipe.
  { rewrite (shaped_is_kind _ _ _ Hkind) in Eis_swipe. injection Eis_swipe as E.
    apply String.eqb_eq in E.
    destruct (Hswipe E) as (sx0 & sy0 & ex0 & ey0 & d0 & _ & _ & _ & _ & Hd & Hnz).
    apply emits_lift_bind. intros sx _. apply emits_lift_bind. intros sy _.
    apply emits_lift_bind. intros ex _. apply emits_lift_bind. intros ey _.
    apply emits_lift_bind. intros d Ed.
    rewrite (lookup_int_item _ _ _ Hd) in Ed. injection Ed as <-.
    apply emits_bind; [apply emits_control; intros flag; exact Hnz |].
    intros [ok body]. apply emits_ret. }
  apply emits_lift_bind. intros is_type Eis_type. destruct is_type.
  { rewrite (shaped_is_kind _ _ _ Hkind) in Eis_type. injection Eis_type as E.
    apply String.eqb_eq in E. destruct (Htype E) as (text0 & _ & Hea).
    apply emits_lift_bind. intros text _.
    apply emits_bind; [apply emits_control; intros flag; exact Hea |].
    intros [ok body]. apply emits_ret. }
  apply emits_lift_bind. intros is_wait Eis_wait. destruct is_wait.
  { rewrite (shaped_is_kind _ _ _ Hkind) in Eis_wait. injection Eis_wait as E.
    apply String.eqb_eq in E. destruct (Hwait E) as (sec0 & Hsec & Hr).
    apply emits_lift_bind. intros sec Esec.
    rewrite (lookup_int_item _ _ _ Hsec) in Esec. injection Esec as <-.
    apply emits_bind; [apply emits_sleep; exact Hr |]. intros _. apply emits_ret. }
  apply emits_ret.
Qed.

Lemma emits_perform state streak last action :
  shaped action -> emits ok_entry (perform env cfg state streak last action).
Proof.
  intros Hshape. unfold perform.
  apply emits_bind; [apply emits_dispatch, Hshape |]. intros out.
  apply emits_silent.
  apply silent_bind.
  { destruct (post_state_check cfg && ok out).
    - apply silent_bind; [apply silent_fetch | intros; apply silent_ret].
    - apply silent_ret. }
  intros [post_state changed].
  apply silent_bind; [apply silent_lift |]. intros is_tap.
  apply silent_bind; [| intros; apply silent_ret].
  destruct (final_tap_point out) as [[cx cy] |]; [| apply silent_ret].
  destruct (is_tap && ok out && negb changed); [| apply silent_ret].
  apply silent_bind; [| intros; apply silent_ret].
  destruct post_state as [post |]; [| apply silent_shot_b64].
  destruct (String.eqb (source post) "screenshot");
    [apply silent_ret | apply silent_shot_b64].
Qed.

Lemma recover_shaped n : forall s action s',
  recover env n s = (Ok (Some action), s') -> shaped action.
Proof.
  induction n as [| n IH]; intros s action s' Hrun; simpl in Hrun; [discriminate |].
  unfold mbind', chat, query, lift in Hrun.
  destruct (env_chat env s.1) as [[raw | e] w1]; [| discriminate].
  destruct (parse_action (_extract_answer raw)) as [a | e] eqn:Ha; [| discriminate].
  pose proof (parse_action_shaped _ _ Ha) as Hs.
  destruct (is_kind a "invalid") as [inv |]; [| discriminate].
  destruct inv; simpl in Hrun.
  - apply IH in Hrun. exact Hrun.
  - injection Hrun as <- _. exact Hs.
Qed.

Lemma emits_step st : emits ok_entry (step env cfg st).
Proof.
  unfold step.
  apply emits_bind; [apply emits_silent, silent_fetch |]. intros state.
  apply emits_bind; [apply emits_silent, silent_query |]. intros raw.
  apply emits_lift_bind. intros action Haction.
  assert (Hshape : shaped action).
  { exact (parse_action_shaped _ _ Haction). }
  apply emits_lift_bind. intros is_finish _.
  destruct is_finish; [apply emits_ret |].
  apply emits_lift_bind. intros is_invalid _. destruct is_invalid.
  - apply (emits_bind_val _ (fun o => forall a, o = Some a -> shaped a)).
    + apply emits_silent, silent_recover.
    + intros s o s' Hrun a ->. eapply recover_shaped, Hrun.
    + intros [action2 |] Hrec; [| apply emits_ret].
      apply emits_bind; [apply emits_perform; auto |]. intros st'. apply emits_ret.
  - apply emits_bind; [apply emits_perform, Hshape |]. intros st'. apply emits_ret.
Qed.

Lemma emits_run_steps steps : forall st, emits ok_entry (run_steps env cfg steps st).
Proof.
  induction steps as [| steps IH]; intros st; simpl; [apply emits_ret |].
  apply emits_bind; [apply emits_step |]. intros [code | st']; [apply emits_ret | apply IH].
Qed.

End Sane.

(** X18: whatever the model answers and whatever the device does, every
    command of a run is well formed: each click lies inside the click
    range, each pause lasts between 1 and 15 seconds, each swipe has a
    duration other than 0, and each text goes with a textual enter action
    or none.  This holds however the run ends, with an exit code or with
    an exception. *)
Theorem run_agent_commands_sane (max_steps : Z) s r s' :
  xmin <= xmax -> ymin <= ymax ->
  run_agent env cfg max_steps s = (r, s') ->
  exists sent, s'.2 = s.2 ++ sent /\ Forall (sane xmin ymin xmax ymax) sent.
Proof.
  intros Hx Hy Hrun. unfold run_agent in Hrun.
  exact (emits_run_steps Hx Hy _ _ _ _ _ Hrun).
Qed.

(** *** A run that never raises *)

(** The device and the model answer every request. *)
Definition responsive : Prop :=
  (forall w, exists shot w', env_screenshot env w = (Ok shot, w')) /\
  (forall w, exists raw w', env_chat env w = (Ok raw, w')) /\
  (forall x y w, exists r w', env_click env x y w = (Ok r, w')) /\
  (forall sx sy ex ey d w, exists r w', env_swipe env sx sy ex ey d w = (Ok r, w')) /\
  (forall text enter w, exists r w', env_input env text enter w = (Ok r, w')).

(** The model answers in ASCII, with no numeral of more than 4300 digits. *)
Definition plain_answers : Prop :=
  forall w raw w',
    env_chat env w = (Ok raw, w') -> is_ascii raw = true /\ short_numerals raw = true.

(** The computation returns a value that satisfies [Q], from every state. *)
Definition returns {A : Type} (m : M A) (Q : A -> Prop) : Prop :=
  forall s, exists a s', m s = (Ok a, s') /\ Q a.

Lemma returns_ret {A : Type} (a : A) (Q : A -> Prop) : Q a -> returns (ret a) Q.
Proof. intros HQ s. exists a, s. auto. Qed.

Lemma returns_bind {A B : Type} (m : M A) (f : A -> M B) Q R :
  returns m Q -> (forall a, Q a -> returns (f a) R) -> returns (mbind' m f) R.
Proof.
  intros Hm Hf s. destruct (Hm s) as (a & s1 & E & HQ).
  destruct (Hf a HQ s1) as (b & s2 & E2 & HR).
  exists b, s2. unfold mbind'. rewrite E. auto.
Qed.

Lemma returns_lift {A : Type} (r : result A) (a : A) (Q : A -> Prop) :
  r = Ok a -> Q a -> returns (lift r) Q.
Proof. intros -> HQ s. exists a, s. auto. Qed.

Lemma returns_query {A : Type} (f : W -> result A * W) :
  (forall w, exists a w', f w = (Ok a, w')) -> returns (query f) (fun _ => True).
Proof.
  intros Hf s. destruct (Hf s.1) as (a & w' & E).
  exists a, (w', s.2). unfold query. rewrite E. auto.
Qed.

Lemma returns_query_val {A : Type} (f : W -> result A * W) (Q : A -> Prop) :
  (forall w, exists a w', f w = (Ok a, w')) ->
  (forall w a w', f w = (Ok a, w') -> Q a) -> returns (query f) Q.
Proof.
  intros Hf HQ s. destruct (Hf s.1) as (a & w' & E).
  exists a, (w', s.2). unfold query. rewrite E. split; [reflexivity |].
  exact (HQ _ _ _ E).
Qed.

Lemma returns_control c (f : W -> result (bool * string) * W) :
  (forall w, exists r w', f w = (Ok r, w')) -> returns (control c f) (fun _ => True).
Proof.
  intros Hf s. destruct (Hf s.1) as ([ok body] & w' & E).
  eexists (ok, body), _. unfold control. rewrite E. auto.
Qed.

Lemma returns_weaken {A : Type} (m : M A) (Q R : A -> Prop) :
  returns m Q -> (forall a, Q a -> R a) -> returns m R.
Proof.
  intros Hm HQR s. destruct (Hm s) as (a & s' & E & HQ). exists a, s'. auto.
Qed.

Section Responsive.

Hypothesis Hresp : responsive.
Hypothesis Hplain : plain_answers.

Lemma short_extract raw : short_numerals raw = true -> short_numerals (_extract_answer raw) = true.
Proof.
  intros Hraw. unfold _extract_answer.
  destruct (re_search answer_re raw) as [m |] eqn:Em.
  { apply short_strip. exact (short_search _ _ _ 1 Em Hraw). }
  destruct (re_search line_re raw) as [m |] eqn:El.
  { apply short_strip. exact (short_search _ _ _ 1 El Hraw). }
  apply short_strip. exact Hraw.
Qed.

Lemma returns_chat : returns (chat env) (fun raw => short_numerals raw = true).
Proof.
  apply returns_query_val; [apply Hresp |].
  intros w raw w' E. exact (proj2 (Hplain _ _ _ E)).
Qed.

Lemma returns_parsed raw :
  short_numerals raw = true ->
  exists a, parse_action (_extract_answer raw) = Ok a /\ shaped a.
Proof.
  intros Hraw.
  destruct (parse_action_returns _ (short_extract raw Hraw)) as (a & Ha).
  exists a. split; [exact Ha | exact (parse_action_shaped _ _ Ha)].
Qed.

Lemma returns_fetch : returns (fetch_ui_state env) (fun _ => True).
Proof.
  unfold fetch_ui_state.
  eapply returns_bind; [apply returns_query, Hresp |].
  intros shot _. apply returns_ret. exact I.
Qed.

Lemma returns_tap_attempts base_state x y thr :
  forall todo last_body any_success final_point,
    returns (tap_attempts env base_state x y xmin ymin xmax ymax thr todo
                          last_body any_success final_point) (fun _ => True).
Proof.
  induction todo as [| [dx dy] todo IH]; intros last_body any_success final_point; simpl.
  - apply returns_ret. exact I.
  - eapply returns_bind; [apply returns_control, Hresp |].
    intros [ok body] _. destruct ok; simpl; [| apply IH].
    eapply returns_bind; [apply returns_fetch |]. intros after _.
    destruct (_states_similar (Some base_state) (Some after) thr) as [same reason].
    destruct same; simpl; [apply IH | apply returns_ret; exact I].
Qed.

Lemma returns_tap state x y :
  returns (_tap_with_retry env state x y (click_range cfg) (tap_retry_on_no_change cfg)
                           (screenshot_ahash_threshold cfg)) (fun _ => True).
Proof.
  unfold _tap_with_retry.
  eapply returns_bind; [apply (returns_lift _ _ (fun v => v = xmin) Hxmin eq_refl) |].
  intros ? ->.
  eapply returns_bind; [apply (returns_lift _ _ (fun v => v = ymin) Hymin eq_refl) |].
  intros ? ->.
  eapply returns_bind; [apply (returns_lift _ _ (fun v => v = xmax) Hxmax eq_refl) |].
  intros ? ->.
  eapply returns_bind; [apply (returns_lift _ _ (fun v => v = ymax) Hymax eq_refl) |].
  intros ? ->. apply returns_tap_attempts.
Qed.

Lemma returns_dispatch state streak last action :
  shaped action -> returns (dispatch env cfg state streak last action) (fun _ => True).
Proof.
  intros (kind & Hkind & Htap & Hswipe & Htype & Hwait). unfold dispatch.
  eapply returns_bind.
  { apply (returns_lift _ _ (fun b => b = String.eqb kind "tap")
             (shaped_is_kind _ _ _ Hkind) eq_refl). }
  intros ? ->. destruct (String.eqb kind "tap") eqn:Ek.
  { apply String.eqb_eq in Ek. destruct (Htap Ek) as (x & y & Hx & Hy).
    eapply returns_bind;
      [apply (returns_lift _ _ (fun _ => True) (lookup_int_item _ _ _ Hx) I) |].
    intros tx _.
    eapply returns_bind;
      [apply (returns_lift _ _ (fun _ => True) (lookup_int_item _ _ _ Hy) I) |].
    intros ty _.
    eapply returns_bind.
    { apply (returns_lift _ _ (fun _ => True)
               (loop_guard_cases cfg xmin ymin xmax ymax Hxmin Hymin Hxmax Hymax
                  streak last tx ty) I). }
    intros [tx' ty'] _.
    eapply returns_bind; [apply returns_tap |].
    intros [[[ok body] changed] final] _. apply returns_ret. exact I. }
  eapply returns_bind.
  { apply (returns_lift _ _ (fun b => b = String.eqb kind "swipe")
             (shaped_is_kind _ _ _ Hkind) eq_refl). }
  intros ? ->. destruct (String.eqb kind "swipe") eqn:Es.
  { apply String.eqb_eq in Es.
    destruct (Hswipe Es) as (sx & sy & ex & ey & d & H1 & H2 & H3 & H4 & H5 & _).
    eapply returns_bind;
      [apply (returns_lift _ _ (fun _ => True) (lookup_int_item _ _ _ H1) I) |].
    intros ? _.
    eapply returns_bind;
      [apply (returns_lift _ _ (fun _ => True) (lookup_int_item _ _ _ H2) I) |].
    intros ? _.
    eapply returns_bind;
      [apply (returns_lift _ _ (fun _ => True) (lookup_int_item _ _ _ H3) I) |].
    intros ? _.
    eapply returns_bind;
      [apply (returns_lift _ _ (fun _ => True) (lookup_int_item _ _ _ H4) I) |].
    intros ? _.
    eapply returns_bind;
      [apply (returns_lift _ _ (fun _ => True) (lookup_int_item _ _ _ H5) I) |].
    intros ? _.
    eapply returns_bind; [apply returns_control, Hresp |].
    intros [ok body] _. apply returns_ret. exact I. }
  eapply returns_bind.
  { apply (returns_lift _ _ (fun b => b = String.eqb kind "type")
             (shaped_is_kind _ _ _ Hkind) eq_refl). }
  intros ? ->. destruct (String.eqb kind "type") eqn:Et.
  { apply String.eqb_eq in Et. destruct (Htype Et) as (text & Htext & _).
    eapply returns_bind.
    { apply (returns_lift _ (VStr text) (fun _ => True)); [| exact I].
      unfold item. rewrite Htext. reflexivity. }
    intros ? _.
    eapply returns_bind; [apply returns_control, Hresp |].
    intros [ok body] _. apply returns_ret. exact I. }
  eapply returns_bind.
  { apply (returns_lift _ _ (fun b => b = String.eqb kind "wait")
             (shaped_is_kind _ _ _ Hkind) eq_refl). }
  intros ? ->. destruct (String.eqb kind "wait") eqn:Ew.
  { apply String.eqb_eq in Ew. destruct (Hwait Ew) as (sec & Hsec & _).
    eapply returns_bind;
      [apply (returns_lift _ _ (fun _ => True) (lookup_int_item _ _ _ Hsec) I) |].
    intros ? _.
    eapply returns_bind with (Q := fun _ => True).
    { intros s. eexists tt, _. split; [reflexivity | exact I]. }
    intros _ _. apply returns_ret. exact I. }
  apply returns_ret. exact I.
Qed.

Lemma returns_shot_b64 :
  returns (mbind' (get_ui_screenshot env) (fun shot => ret (shot_b64 shot))) (fun _ => True).
Proof.
  eapply returns_bind; [apply returns_query, Hresp |].
  intros shot _. apply returns_ret. exact I.
Qed.

Lemma returns_perform state streak last action :
  shaped action -> returns (perform env cfg state streak last action) (fun _ => True).
Proof.
  intros Hshape. unfold perform.
  eapply returns_bind; [apply returns_dispatch, Hshape |]. intros out _.
  eapply returns_bind with (Q := fun _ => True).
  { destruct (post_state_check cfg && ok out).
    - eapply returns_bind; [apply returns_fetch |]. intros post _.
      apply returns_ret. exact I.
    - apply returns_ret. exact I. }
  intros [post_state changed] _.
  destruct Hshape as (kind & Hkind & _).
  eapply returns_bind.
  { apply (returns_lift _ _ (fun _ => True) (shaped_is_kind _ _ "tap" Hkind) I). }
  intros is_tap _.
  eapply returns_bind with (Q := fun _ => True); [| intros; apply returns_ret; exact I].
  destruct (final_tap_point out) as [[cx cy] |]; [| apply returns_ret; exact I].
  destruct (is_tap && ok out && negb changed); [| apply returns_ret; exact I].
  eapply returns_bind with (Q := fun _ => True); [| intros; apply returns_ret; exact I].
  destruct post_state as [post |]; [| apply returns_shot_b64].
  destruct (String.eqb (source post) "screenshot");
    [apply returns_ret; exact I | apply returns_shot_b64].
Qed.

Lemma returns_parse :
  returns (mbind' (chat env) (fun raw => lift (parse_action (_extract_answer raw)))) shaped.
Proof.
  eapply returns_bind; [apply returns_chat |]. intros raw Hraw.
  destruct (returns_parsed raw Hraw) as (a & Ha & Hs).
  apply (returns_lift _ a); assumption.
Qed.

Lemma returns_recover n :
  returns (recover env n) (fun o => forall a, o = Some a -> shaped a).
Proof.
  induction n as [| n IH]; simpl; [apply returns_ret; discriminate |].
  eapply returns_bind; [apply returns_chat |]. intros raw Hraw.
  destruct (returns_parsed raw Hraw) as (a & Ha & Hs).
  eapply returns_bind; [apply (returns_lift _ a (fun v => v = a) Ha eq_refl) |].
  intros ? ->.
  destruct Hs as (kind & Hkind & Hrest).
  eapply returns_bind.
  { apply (returns_lift _ _ (fun _ => True) (shaped_is_kind _ _ "invalid" Hkind) I). }
  intros inv _. destruct inv; simpl; [exact IH |].
  apply returns_ret. intros a' [= <-]. exists kind. auto.
Qed.

Lemma returns_step st : returns (step env cfg st) (fun r => r = inl 0 \/ exists st', r = inr st').
Proof.
  unfold step.
  eapply returns_bind; [apply returns_fetch |]. intros state _.
  eapply returns_bind; [apply returns_chat |]. intros raw Hraw.
  destruct (returns_parsed raw Hraw) as (a & Ha & Hs).
  eapply returns_bind; [apply (returns_lift _ a (fun v => v = a) Ha eq_refl) |].
  intros ? ->.
  pose proof Hs as (kind & Hkind & _).
  eapply returns_bind.
  { apply (returns_lift _ _ (fun _ => True) (shaped_is_kind _ _ "finish" Hkind) I). }
  intros is_finish _. destruct is_finish; [apply returns_ret; auto |].
  eapply returns_bind.
  { apply (returns_lift _ _ (fun _ => True) (shaped_is_kind _ _ "invalid" Hkind) I). }
  intros is_invalid _. destruct is_invalid.
  - eapply returns_bind; [apply returns_recover |].
    intros [action2 |] Hrec.
    + eapply returns_bind; [apply returns_perform; auto |].
      intros st' _. apply returns_ret. eauto.
    + apply returns_ret. eauto.
  - eapply returns_bind; [apply returns_perform, Hs |].
    intros st' _. apply returns_ret. eauto.
Qed.

Lemma returns_run_steps steps : forall st,
  returns (run_steps env cfg steps st) (fun code => code = 0 \/ code = 2).
Proof.
  induction steps as [| steps IH]; intros st; simpl; [apply returns_ret; auto |].
  eapply returns_bind; [apply returns_step |].
  intros r [-> | (st' & ->)]; [apply returns_ret; auto | apply IH].
Qed.

End Responsive.


End Episode.

(** A device on which nothing ever changes and a model that gives the same
    answer to every request. *)
Definition steady_env (answer : string) : @Env nat :=
  {| env_screenshot := fun w => (Ok still_shot, S w);
     env_chat := fun w => (Ok answer, S w);
     env_click := fun _ _ w => (Ok (true, "{}"%string), S w);
     env_swipe := fun _ _ _ _ _ w => (Ok (true, "{}"%string), S w);
     env_input := fun _ _ w => (Ok (true, "{}"%string), S w);
     env_crop := fun _ _ _ => None;
     env_repr := fun _ => EmptyString |}.

Lemma run_agent_commands_sane_witness :
  exists r s' sent,
    run_agent (sim_env always) (default_cfg (range_dict 0 0 999 999)) 2
      (start [dq "do(action='Tap', element=[5000,-3])"; dq "do(action='Wait', duration='90s')"])
    = (r, s') /\
    s'.2 = [] ++ sent /\ sent <> [] /\ Forall (sane 0 0 999 999) sent.
Proof.
  destruct (run_agent (sim_env always) (default_cfg (range_dict 0 0 999 999)) 2
      (start [dq "do(action='Tap', element=[5000,-3])"; dq "do(action='Wait', duration='90s')"]))
    as [r s'] eqn:E.
  destruct (run_agent_commands_sane (sim_env always) (default_cfg (range_dict 0 0 999 999))
              0 0 999 999 eq_refl eq_refl eq_refl eq_refl 2 _ r s'
              ltac:(lia) ltac:(lia) E) as (sent & Hs & Hf).
  exists r, s', sent. split; [reflexivity |]. split; [exact Hs |]. split; [| exact Hf].
  vm_compute in E. injection E as _ <-. simpl in Hs. subst sent. discriminate.
Defined.


End AgentRunFacts.

(** ** The focus crop stays on the screen *)

Module FocusFacts.
Import Py Controller Focus.

(** A box that is not empty. *)
Definition proper (box : Z * Z * Z * Z) : Prop :=
  box.1.1.1 < box.1.2 /\ box.1.1.2 < box.2.

Lemma crop_box_grows w h cx cy r r' :
  r <= r' -> proper (crop_box w h cx cy r) -> proper (crop_box w h cx cy r').
Proof. unfold proper, crop_box. simpl. lia. Qed.

Lemma crop_box_test w h cx cy r :
  let box := crop_box w h cx cy r in
  (box.1.2 <=? box.1.1.1) || (box.2 <=? box.1.1.2) = false <-> proper box.
Proof.
  cbv zeta. unfold proper. rewrite orb_false_iff, !Z.leb_gt. reflexivity.
Qed.

Section Loop.

Variable image : Image.
Variables center_x center_y max_radius expand_step : Z.
Hypothesis Hstep : 1 <= expand_step.

#[local] Abbreviation box_at :=
  (crop_box (img_width image) (img_height image) center_x center_y).

(** The loop with fuel to spare: the fuel does not matter. *)
Lemma focus_loop_fuel : forall fuel radius selected extra,
  (Z.to_nat (max_radius + 1 - radius) <= fuel)%nat ->
  focus_loop image center_x center_y max_radius expand_step (fuel + extra) radius selected
  = focus_loop image center_x center_y max_radius expand_step fuel radius selected.
Proof.
  induction fuel as [| fuel IH]; intros radius selected extra Hfuel.
  { destruct extra as [| extra]; [reflexivity |]. cbn [Nat.add focus_loop].
    replace (radius <=? max_radius) with false by (symmetry; apply Z.leb_gt; lia).
    reflexivity. }
  cbn [Nat.add focus_loop].
  destruct (radius <=? max_radius) eqn:E; [| reflexivity]. apply Z.leb_le in E.
  destruct (_ || _); [reflexivity |].
  destruct (near_solid image _); [| reflexivity].
  apply IH. lia.
Qed.

(** What the loop has selected when it stops. *)
Definition selects (radius0 : Z) (sel : Selected) : Prop :=
  let '(box, radius_used, was_solid) := sel in
  box = box_at radius_used /\ proper box /\
  radius0 <= radius_used <= max_radius /\
  near_solid image box = was_solid /\
  (was_solid = true -> max_radius < radius_used + expand_step).

Lemma focus_loop_selects radius0 : forall fuel radius selected sel,
  (Z.to_nat (max_radius + 1 - radius) <= fuel)%nat ->
  radius0 <= radius ->
  match selected with
  | None => True
  | Some (box, prev, was_solid) =>
      box = box_at prev /\ proper box /\ radius0 <= prev <= max_radius /\
      near_solid image box = true /\ was_solid = true /\
      prev < radius <= prev + expand_step
  end ->
  focus_loop image center_x center_y max_radius expand_step fuel radius selected = Some sel ->
  selects radius0 sel.
Proof.
  assert (Hstop : forall radius selected sel,
            max_radius < radius -> radius0 <= radius ->
            match selected with
            | None => True
            | Some (box, prev, was_solid) =>
                box = box_at prev /\ proper box /\ radius0 <= prev <= max_radius /\
                near_solid image box = true /\ was_solid = true /\
                prev < radius <= prev + expand_step
            end ->
            selected = Some sel -> selects radius0 sel).
  { intros radius selected sel E Hr0 Hsel.
    destruct selected as [[[box prev] was_solid] |]; [| discriminate].
    destruct Hsel as (Hb & Hp & Hprev & Hns & -> & Hnext).
    intros [= <-]. repeat split; auto; try lia; apply Hp. }
  induction fuel as [| fuel IH]; intros radius selected sel Hfuel Hr0 Hsel.
  { cbn [focus_loop]. apply (Hstop radius); auto. lia. }
  cbn [focus_loop].
  destruct (radius <=? max_radius) eqn:E.
  - apply Z.leb_le in E.
    destruct (_ || _) eqn:Ebox.
    + destruct selected as [[[box prev] was_solid] |]; [| discriminate].
      destruct Hsel as (Hb & Hp & Hprev & Hns & -> & Hnext). exfalso.
      rewrite Hb in Hp.
      apply (crop_box_grows _ _ _ _ prev radius ltac:(lia)) in Hp.
      apply crop_box_test in Hp. cbv zeta in Hp. congruence.
    + apply crop_box_test in Ebox.
      destruct (near_solid image (box_at radius)) eqn:Ens.
      * apply IH; [lia | lia |]. repeat split; auto; try lia; apply Ebox.
      * intros [= <-]. repeat split; auto; try lia; try apply Ebox; discriminate.
  - apply Z.leb_gt in E. apply (Hstop radius); auto.
Qed.

Lemma focus_loop_keeps : forall fuel radius selected,
  selected <> None ->
  focus_loop image center_x center_y max_radius expand_step fuel radius selected <> None.
Proof.
  induction fuel as [| fuel IH]; intros radius selected Hs; simpl; [exact Hs |].
  destruct (radius <=? max_radius); [| exact Hs].
  destruct (_ || _); [exact Hs |].
  destruct (near_solid image _); [| discriminate].
  apply IH. discriminate.
Qed.

Lemma focus_loop_starts : forall fuel radius,
  (0 < fuel)%nat -> radius <= max_radius -> proper (box_at radius) ->
  focus_loop image center_x center_y max_radius expand_step fuel radius None <> None.
Proof.
  intros [| fuel] radius Hfuel Hr Hp; [lia |]. cbn [focus_loop].
  apply Z.leb_le in Hr. rewrite Hr.
  apply crop_box_test in Hp. cbv zeta in Hp. rewrite Hp.
  destruct (near_solid image (box_at radius)); [| discriminate].
  apply focus_loop_keeps. discriminate.
Qed.

End Loop.

Section Build.

Variable decode : string -> result Image.
Variable render : Image -> Z * Z * Z * Z -> list (Z * Z * Z * Z) -> string.

(** X20: a focus context describes a real crop: its box is the square of
    its radius around the tap point cut to the frame and is not empty, its
    radius lies between the two configured radii (the first at least 10),
    it is tagged direct exactly when the crop is not near solid, and a near
    solid crop is kept only when the next larger radius is over the
    maximum. *)
Theorem focus_context_well_formed full_image_b64 cx cy
    focus_radius_px focus_expand_step_px focus_max_radius_px local_grid_px image ctx :
  decode full_image_b64 = Ok image ->
  build_focus_context decode render full_image_b64 cx cy
    focus_radius_px focus_expand_step_px focus_max_radius_px local_grid_px = Some ctx ->
  let box := (box_left ctx, box_top ctx, box_right ctx, box_bottom ctx) in
  let radius := Z.max 10 focus_radius_px in
  let max_radius := Z.max radius focus_max_radius_px in
  center_x ctx = cx /\ center_y ctx = cy /\
  box = crop_box (img_width image) (img_height image) cx cy (radius_px ctx) /\
  0 <= box_left ctx < box_right ctx /\ box_right ctx <= img_width image /\
  0 <= box_top ctx < box_bottom ctx /\ box_bottom ctx <= img_height image /\
  radius <= radius_px ctx <= max_radius /\
  (reason ctx = "direct"%string /\ near_solid image box = false \/
   reason ctx = "expanded_from_solid"%string /\ near_solid image box = true /\
   max_radius < radius_px ctx + Z.max 10 focus_expand_step_px).
Proof.
  intros Hdec. unfold build_focus_context. rewrite Hdec.
  set (radius := Z.max 10 focus_radius_px).
  set (max_radius := Z.max radius focus_max_radius_px).
  set (expand_step := Z.max 10 focus_expand_step_px).
  destruct (focus_loop image cx cy max_radius expand_step _ radius None)
    as [[[box radius_used] was_solid] |] eqn:E; [| discriminate].
  intros [= <-]. cbn [center_x center_y box_left box_top box_right box_bottom radius_px reason].
  apply (focus_loop_selects image cx cy max_radius expand_step ltac:(lia) radius) in E;
    [| lia | lia | exact I].
  destruct E as (Hb & Hp & Hr & Hns & Hmax).
  destruct box as [[[left top] right] bottom]. cbn [fst snd] in *.
  split; [reflexivity |]. split; [reflexivity |]. split; [exact Hb |].
  unfold proper in Hp. unfold crop_box in Hb. injection Hb as Hl Ht Hri Hbo.
  cbn [fst snd] in Hp.
  split; [lia |]. split; [lia |]. split; [lia |]. split; [lia |]. split; [lia |].
  destruct was_solid; [right | left]; auto.
Qed.

(** X21: a tap point on the screen always gets its focus crop, with the tap
    point inside the crop: the function gives nothing only when the image
    cannot be decoded or the tap point is so far off the frame that the
    first crop is empty. *)
Theorem focus_context_for_point_on_screen full_image_b64 cx cy
    focus_radius_px focus_expand_step_px focus_max_radius_px local_grid_px image :
  decode full_image_b64 = Ok image ->
  0 <= cx < img_width image -> 0 <= cy < img_height image ->
  exists ctx,
    build_focus_context decode render full_image_b64 cx cy
      focus_radius_px focus_expand_step_px focus_max_radius_px local_grid_px = Some ctx /\
    box_left ctx <= cx < box_right ctx /\ box_top ctx <= cy < box_bottom ctx.
Proof.
  intros Hdec Hx Hy.
  destruct (build_focus_context decode render full_image_b64 cx cy
              focus_radius_px focus_expand_step_px focus_max_radius_px local_grid_px)
    as [ctx |] eqn:E.
  - exists ctx. split; [reflexivity |].
    unfold build_focus_context in E. rewrite Hdec in E.
    set (radius := Z.max 10 focus_radius_px) in *.
    set (max_radius := Z.max radius focus_max_radius_px) in *.
    set (expand_step := Z.max 10 focus_expand_step_px) in *.
    destruct (focus_loop image cx cy max_radius expand_step _ radius None)
      as [[[box radius_used] was_solid] |] eqn:El; [| discriminate].
    injection E as <-. cbn [box_left box_top box_right box_bottom].
    apply (focus_loop_selects image cx cy max_radius expand_step ltac:(lia) radius) in El;
      [| lia | lia | exact I].
    destruct El as (-> & _ & Hr & _). unfold crop_box. cbn [fst snd]. lia.
  - exfalso. unfold build_focus_context in E. rewrite Hdec in E.
    set (radius := Z.max 10 focus_radius_px) in *.
    set (max_radius := Z.max radius focus_max_radius_px) in *.
    set (expand_step := Z.max 10 focus_expand_step_px) in *.
    destruct (focus_loop image cx cy max_radius expand_step _ radius None)
      as [[[box radius_used] was_solid] |] eqn:El; [discriminate |].
    revert El. apply focus_loop_starts; [lia | lia |].
    unfold proper, crop_box. cbn [fst snd]. lia.
Qed.

End Build.

Lemma range_step_spec x lo hi step :
  0 < step -> In x (range_step lo hi step) -> lo <= x < hi.
Proof.
  intros Hs Hin. unfold range_step in Hin. apply in_map_iff in Hin.
  destruct Hin as (i & <- & Hi). apply GridFacts.range_spec in Hi.
  pose proof (Z.mul_div_le (hi - lo + step - 1) step Hs) as Hq.
  assert (Hlt : (i + 1) * step <= step * ((hi - lo + step - 1) / step)).
  { rewrite (Z.mul_comm step). apply Z.mul_le_mono_nonneg_r; lia. }
  assert (0 <= i * step) by (apply Z.mul_nonneg_nonneg; lia).
  lia.
Qed.

(** X22: every segment drawn on a crop lies on the crop, and the crosshair
    is centred on the tap point whenever the tap point is inside the crop
    box: its two arms cross at the tap point in crop coordinates. *)
Theorem local_grid_on_crop (w h cx cy left top grid_px : Z) :
  0 < w -> 0 < h ->
  (forall seg, In seg (_draw_local_grid w h cx cy left top grid_px) ->
     0 <= seg.1.1.1 <= seg.1.2 /\ seg.1.2 <= w /\
     0 <= seg.1.1.2 <= seg.2 /\ seg.2 <= h) /\
  (left <= cx < left + w -> top <= cy < top + h ->
   exists x0 x1 y0 y1,
     skipn (length (_draw_local_grid w h cx cy left top grid_px) - 2)
           (_draw_local_grid w h cx cy left top grid_px)
     = [(x0, cy - top, x1, cy - top); (cx - left, y0, cx - left, y1)] /\
     x0 <= cx - left <= x1 /\ y0 <= cy - top <= y1).
Proof.
  intros Hw Hh. split.
  - intros seg Hin. unfold _draw_local_grid in Hin.
    apply in_app_iff in Hin. destruct Hin as [Hin | Hin].
    { apply in_map_iff in Hin. destruct Hin as (x & <- & Hx).
      apply range_step_spec in Hx; [| lia]. cbn [fst snd]. lia. }
    apply in_app_iff in Hin. destruct Hin as [Hin | Hin].
    { apply in_map_iff in Hin. destruct Hin as (y & <- & Hy).
      apply range_step_spec in Hy; [| lia]. cbn [fst snd]. lia. }
    destruct Hin as [<- | [<- | []]]; cbn [fst snd]; lia.
  - intros Hx Hy. unfold _draw_local_grid.
    rewrite !length_app, !length_map. cbn [length].
    match goal with
    | |- context [skipn ?n (?a ++ ?b ++ ?c)] =>
        replace n with (length (a ++ b)) by (rewrite length_app, !length_map; lia);
        rewrite (app_assoc a b c), skipn_app, skipn_all, Nat.sub_diag
    end.
    cbn [app skipn].
    replace (Z.max 0 (Z.min (w - 1) (cx - left))) with (cx - left) by lia.
    replace (Z.max 0 (Z.min (h - 1) (cy - top))) with (cy - top) by lia.
    do 4 eexists. split; [reflexivity |]. lia.
Qed.

Definition sample_image : Image :=
  {| img_width := 1080; img_height := 2340;
     near_solid := fun box => box.1.2 - box.1.1.1 <? 450 |}.

Definition sample_ctx : FocusContext :=
  {| image_b64 := "crop"; center_x := 1000; center_y := 100; radius_px := 250;
     box_left := 750; box_top := 0; box_right := 1080; box_bottom := 350;
     reason := "expanded_from_solid" |}.

Lemma focus_context_well_formed_witness :
  let box := (750, 0, 1080, 350) in
  center_x sample_ctx = 1000 /\ center_y sample_ctx = 100 /\
  box = crop_box 1080 2340 1000 100 250 /\
  0 <= 750 < 1080 /\ 1080 <= 1080 /\ 0 <= 0 < 350 /\ 350 <= 2340 /\
  200 <= 250 <= 250 /\
  (reason sample_ctx = "direct"%string /\ near_solid sample_image box = false \/
   reason sample_ctx = "expanded_from_solid"%string /\ near_solid sample_image box = true /\
   250 < 250 + 50).
Proof.
  apply (focus_context_well_formed (fun _ => Ok sample_image)
           (fun _ _ _ => "crop"%string) "full" 1000 100 200 50 250 10
           sample_image sample_ctx); [reflexivity | vm_compute; reflexivity].
Defined.

Lemma focus_context_for_point_on_screen_witness :
  exists ctx,
    build_focus_context (fun _ => Ok sample_image) (fun _ _ _ => "crop"%string)
      "full" 1000 100 200 50 250 10 = Some ctx /\
    box_left ctx <= 1000 < box_right ctx /\ box_top ctx <= 100 < box_bottom ctx.
Proof.
  apply (focus_context_for_point_on_screen (fun _ => Ok sample_image)
           (fun _ _ _ => "crop"%string) "full" 1000 100 200 50 250 10 sample_image);
    [reflexivity | simpl; lia | simpl; lia].
Defined.

Lemma local_grid_on_crop_witness :
  List.Forall (fun seg => 0 <= seg.1.1.1 <= seg.1.2 /\ seg.1.2 <= 330 /\
                          0 <= seg.1.1.2 <= seg.2 /\ seg.2 <= 350)
              (_draw_local_grid 330 350 1000 100 750 0 10) /\
  exists x0 x1 y0 y1,
    skipn (length (_draw_local_grid 330 350 1000 100 750 0 10) - 2)
          (_draw_local_grid 330 350 1000 100 750 0 10)
    = [(x0, 100 - 0, x1, 100 - 0); (1000 - 750, y0, 1000 - 750, y1)] /\
    x0 <= 1000 - 750 <= x1 /\ y0 <= 100 - 0 <= y1.
Proof.
  destruct (local_grid_on_crop 330 350 1000 100 750 0 10) as [Hall Hcross]; [lia | lia |].
  split; [apply List.Forall_forall; exact Hall | apply Hcross; lia].
Defined.

End FocusFacts.

(** ** The field-by-field fallback *)

Module FallbackFacts.
Import Py Re ReFacts ParserFacts Controller RegionFacts FloatFacts.

(** A run of digits that is not empty. *)
Definition digits (w : list ascii) : Prop :=
  w <> [] /\ Forall (fun a => is_digit a = true) w.

Lemma digit_val_nonneg a : is_digit a = true -> 0 <= digit_val a <= 9.
Proof.
  unfold is_digit, in_range, digit_val. intros H.
  apply andb_true_iff in H. destruct H as [H1 H2]. apply N.leb_le in H1, H2. lia.
Qed.

Lemma fold_digits_nonneg w : forall acc,
  0 <= acc -> Forall (fun a => is_digit a = true) w ->
  0 <= fold_left (fun acc c => 10 * acc + digit_val c) w acc.
Proof.
  induction w as [| a w IH]; intros acc Hacc Hd; simpl; [exact Hacc |].
  inversion Hd as [| ? ? Ha Hw]; subst. apply IH; [| exact Hw].
  pose proof (digit_val_nonneg a Ha). lia.
Qed.

Lemma digits_val_nonneg w : Forall (fun a => is_digit a = true) w -> 0 <= digits_val w.
Proof. apply fold_digits_nonneg. lia. Qed.

Lemma digit_sign a (r : list ascii) :
  is_digit a = true ->
  match a :: r with
  | "-"%char :: r' => (true, r')
  | "+"%char :: r' => (false, r')
  | _ => (false, a :: r)
  end = (false, a :: r).
Proof.
  intros Ha. destruct a as [[] [] [] [] [] [] [] []]; try reflexivity; discriminate Ha.
Qed.

(** [int] of a run of no more than 4300 digits is its value, which is not
    negative. *)
Lemma int_of_run w :
  digits w -> digit_runs 0 w = true ->
  int_of_chars w = Ok (digits_val w) /\ 0 <= digits_val w.
Proof.
  intros [Hne Hd] Hs. split; [| apply digits_val_nonneg, Hd].
  rewrite (int_of_digits false w Hne Hd), (short_digits w Hd Hs). reflexivity.
Qed.

Lemma int_of_run_str w :
  digits w -> digit_runs 0 w = true -> exists z, as_int (str w) = Ok (VInt z) /\ 0 <= z.
Proof.
  intros Hw Hs. destruct (int_of_run w Hw Hs) as [E Hz].
  exists (digits_val w). unfold as_int, int_of_str, chars, str.
  rewrite list_ascii_of_string_of_list_ascii, E. auto.
Qed.

Lemma group_short r raw m w :
  short_numerals raw = true -> re_search r raw = Some m -> m_group 1 m = str w ->
  digit_runs 0 w = true.
Proof.
  intros Hs E Hw. pose proof (short_search r raw m 1 E Hs) as Hg.
  rewrite Hw in Hg. unfold short_numerals in Hg. rewrite chars_of_str in Hg. exact Hg.
Qed.

(** *** Decimal literals *)

Lemma span_digits_app ds rest :
  Forall (fun a => is_digit a = true) ds ->
  match rest with
  | [] => True
  | c :: _ => is_digit c = false
  end ->
  span_digits (ds ++ rest) = (ds, rest).
Proof.
  intros Hd Hrest. induction Hd as [| a ds Ha _ IH]; cbn [app span_digits].
  - destruct rest as [| c rest]; [reflexivity |]. cbn [span_digits].
    rewrite Hrest. reflexivity.
  - rewrite Ha, IH. reflexivity.
Qed.

Lemma digit_word a (r : list ascii) (word : string) :
  is_digit a = true ->
  match word with
  | String c _ => is_digit c = false
  | EmptyString => True
  end ->
  String.eqb (str (map lower_char (a :: r))) word = false.
Proof.
  intros Ha Hw. destruct word as [| c word]; [reflexivity |].
  simpl. destruct (Ascii.eqb (lower_char a) c) eqn:E; [| reflexivity].
  apply Ascii.eqb_eq in E. subst c. exfalso.
  unfold lower_char in Hw.
  destruct a as [[] [] [] [] [] [] [] []]; try discriminate Ha; discriminate Hw.
Qed.

Lemma lang_decimal w :
  lang decimal_re w ->
  exists sign ip frac,
    w = sign ++ ip ++ frac /\ (sign = [] \/ sign = ["-"%char]) /\ digits ip /\
    (frac = [] \/ exists fp, frac = "."%char :: fp /\ digits fp).
Proof.
  intros H. unfold decimal_re in H. simpl in H.
  apply lang_cat in H. destruct H as (sign & w1 & -> & Hs & H).
  apply lang_cat in H. destruct H as (ip & w2 & -> & Hip & H).
  apply lang_cat in H. destruct H as (frac & w3 & -> & Hf & H).
  apply lang_eps in H. subst w3. rewrite app_nil_r.
  exists sign, ip, frac. split; [reflexivity |]. split; [| split].
  - apply lang_alt in Hs. destruct Hs as [Hs | Hs].
    + apply lang_lit_char in Hs. auto.
    + apply lang_eps in Hs. auto.
  - apply lang_plus_chr in Hip. exact Hip.
  - apply lang_alt in Hf. destruct Hf as [Hf | Hf].
    + right. apply lang_cat in Hf. destruct Hf as (dot & fp & -> & Hdot & Hfp).
      apply lang_lit_char in Hdot. subst dot. exists fp. split; [reflexivity |].
      apply lang_plus_chr in Hfp. exact Hfp.
    + left. apply lang_eps in Hf. exact Hf.
Qed.

(** [float] reads every decimal literal, as a number: the nearest double,
    or an infinity when the literal is beyond the doubles. *)
Lemma float_of_decimal w :
  lang decimal_re w -> exists f, float_of_chars w = Ok f /\ f <> NaN.
Proof.
  intros H. apply lang_decimal in H.
  destruct H as (sign & ip & frac & -> & Hsign & [Hne Hd] & Hfrac).
  destruct ip as [| a ip']; [congruence |].
  assert (Ha : is_digit a = true) by (inversion Hd; assumption).
  assert (Hlast : exists b, hd_error (rev (sign ++ (a :: ip') ++ frac)) = Some b /\
                            is_digit b = true).
  { destruct Hfrac as [-> | (fp & -> & Hfne & Hfd)].
    - rewrite app_nil_r. apply last_digit; [exact Hd | discriminate].
    - replace (sign ++ (a :: ip') ++ "."%char :: fp)
        with ((sign ++ (a :: ip') ++ ["."%char]) ++ fp)
        by (rewrite <- !app_assoc; reflexivity).
      apply last_digit; assumption. }
  destruct Hlast as (b & Hb & Hbd).
  unfold float_of_chars.
  assert (Hbody : exists neg,
            strip_chars (sign ++ (a :: ip') ++ frac) = sign ++ (a :: ip') ++ frac /\
            match sign ++ (a :: ip') ++ frac with
            | "-"%char :: r => (true, r)
            | "+"%char :: r => (false, r)
            | _ => (false, sign ++ (a :: ip') ++ frac)
            end = (neg, (a :: ip') ++ frac)).
  { destruct Hsign as [-> | ->].
    - exists false. split.
      + apply (strip_chars_id _ a b); auto using digit_not_space.
      + apply (digit_sign a (ip' ++ frac) Ha).
    - exists true. split; [| reflexivity].
      apply (strip_chars_id _ "-"%char b); auto using digit_not_space. }
  destruct Hbody as (neg & -> & ->).
  change ((a :: ip') ++ frac) with (a :: ip' ++ frac).
  rewrite !(digit_word a (ip' ++ frac)) by (exact Ha || reflexivity).
  cbn [orb].
  change (a :: ip' ++ frac) with ((a :: ip') ++ frac).
  destruct Hfrac as [-> | (fp & -> & Hfne & Hfd)].
  - rewrite (span_digits_app (a :: ip') []) by auto.
    cbn [app]. eexists. split; [reflexivity | apply round_double_number].
  - rewrite (span_digits_app (a :: ip') ("."%char :: fp)) by auto.
    assert (Hfp : span_digits fp = (fp, [])).
    { rewrite <- (app_nil_r fp) at 1. apply span_digits_app; auto. }
    cbv beta iota. rewrite Hfp. cbn [app].
    eexists. split; [reflexivity | apply round_double_number].
Qed.

Lemma float_of_decimal_str w :
  lang decimal_re w -> exists f, as_float (str w) = Ok (VFloat f) /\ f <> NaN.
Proof.
  intros Hw. destruct (float_of_decimal w Hw) as (f & E & Hf). exists f.
  unfold as_float, float_of_str, chars, str.
  rewrite list_ascii_of_string_of_list_ascii, E. auto.
Qed.

(** *** Words without regard to case *)

Lemma groups_in_lit_i P s : groups_in P (lit_i s).
Proof. unfold lit_i. induction (chars s); simpl; auto. Qed.

Lemma binds_lit_i n s : binds n (lit_i s) = false.
Proof. unfold lit_i. induction (chars s); simpl; auto. Qed.

Lemma lower_char_idem a : lower_char (lower_char a) = lower_char a.
Proof. destruct a as [[] [] [] [] [] [] [] []]; reflexivity. Qed.

Lemma lang_lit_i s w : lang (lit_i s) w -> map lower_char w = map lower_char (chars s).
Proof.
  unfold lit_i. revert w. induction (chars s) as [| a l IH]; intros w H; simpl in H.
  - apply lang_eps in H. subst. reflexivity.
  - apply lang_cat in H. destruct H as (w1 & w2 & -> & H1 & H2).
    apply lang_chr in H1. destruct H1 as (b & -> & Hb). apply Ascii.eqb_eq in Hb.
    simpl. rewrite (IH _ H2), Hb. reflexivity.
Qed.

Lemma lower_lit_i s w : lang (lit_i s) w -> lower (str w) = lower s.
Proof.
  intros H. unfold lower, chars, str. rewrite list_ascii_of_string_of_list_ascii.
  rewrite (lang_lit_i s w H). reflexivity.
Qed.

(** *** The fields *)

Definition text_keys : list string :=
  ["action"; "target"; "text"; "enterAction"; "finishMessage"; "swipeTarget"].
Definition count_keys : list string :=
  ["region"; "waitSec"; "durationMs"; "startRegion"; "endRegion"].
Definition coordinate_keys : list string := ["startX"; "startY"; "endX"; "endY"].
Definition ratio_keys : list string :=
  ["startXRatio"; "startYRatio"; "endXRatio"; "endYRatio"].
Definition directions : list string := ["up"; "down"; "left"; "right"].

(** The fields of a planner answer and the values the fallback gives
    them. *)
Inductive planner_field : string -> pyval -> Prop :=
| F_text key s : In key text_keys -> planner_field key (VStr s)
| F_direction s : In s directions -> planner_field "direction" (VStr s)
| F_count key z : In key count_keys -> 0 <= z -> planner_field key (VInt z)
| F_coordinate key z : In key coordinate_keys -> planner_field key (VInt z)
| F_ratio key f : In key ratio_keys -> f <> NaN -> planner_field key (VFloat f)
| F_regions zs :
    zs <> [] -> Forall (fun z => 0 <= z) zs -> planner_field "regions" (VList (map VInt zs))
| F_press_enter b : planner_field "pressEnter" (VBool b).

Definition well_typed (out : gmap string pyval) : Prop :=
  forall key v, out !! key = Some v -> planner_field key v.

Lemma well_typed_insert out key v :
  well_typed out -> planner_field key v -> well_typed (<[key := v]> out).
Proof.
  intros Hout Hv k v' Hk. destruct (decide (k = key)) as [-> | Hne].
  - rewrite lookup_insert_eq in Hk. injection Hk as <-. exact Hv.
  - rewrite lookup_insert_ne in Hk by congruence. apply Hout, Hk.
Qed.

Lemma fill_typed raw r key f out :
  well_typed out ->
  (forall m, re_search r raw = Some m ->
     exists v, f (m_group 1 m) = Ok v /\ planner_field key v) ->
  exists out', fill raw r key f out = Ok out' /\ well_typed out'.
Proof.
  intros Hout Hf. unfold fill.
  destruct (re_search r raw) as [m |] eqn:E; [| eauto].
  destruct (Hf m eq_refl) as (v & -> & Hv). simpl.
  eexists. split; [reflexivity |]. apply well_typed_insert; assumption.
Qed.

(** Group 1 of a field pattern holds a word of the value pattern. *)
Lemma field_group (P : list ascii -> Prop) key value raw m :
  groups_in (fun n w => n = 1%nat -> P w) value -> binds 1 value = true ->
  re_search (field_re key value) raw = Some m ->
  exists w, m_group 1 m = str w /\ P w.
Proof.
  intros Hg Hb E. unfold re_search in E.
  apply (search_from_sound _ (fun n w => n = 1%nat -> P w)) in E.
  - destruct E as (_ & _ & _ & _ & _ & _ & Hc & Hbound).
    destruct (m_group_bound _ 1 m ltac:(discriminate) Hc) as (w & Hw & HP).
    { apply Hbound. unfold field_re. simpl. rewrite Hb, binds_lit_i. reflexivity. }
    exists w. auto.
  - unfold field_re. simpl. repeat split; auto using groups_in_lit_i.
Qed.

Lemma count_field key raw m :
  short_numerals raw = true ->
  re_search (nat_field_re key) raw = Some m ->
  exists z, as_int (m_group 1 m) = Ok (VInt z) /\ 0 <= z.
Proof.
  intros Hs E. pose proof E as E0. apply (field_group digits) in E; [| | reflexivity].
  - destruct E as (w & Hg & Hw). pose proof (group_short _ _ _ _ Hs E0 Hg) as Hshort.
    rewrite Hg. apply int_of_run_str; assumption.
  - simpl. split; [| auto]. intros w Hw _. apply lang_plus_chr in Hw. exact Hw.
Qed.

Lemma coordinate_field key raw m :
  short_numerals raw = true ->
  re_search (int_field_re key) raw = Some m ->
  exists z, as_int (m_group 1 m) = Ok (VInt z).
Proof.
  intros Hs E. pose proof E as E0. apply (field_group int_literal) in E; [| | reflexivity].
  - destruct E as (w & Hg & Hw). pose proof (group_short _ _ _ _ Hs E0 Hg) as Hshort.
    rewrite Hg. destruct (int_of_literal w Hw Hshort) as (z & Hz).
    exists z. unfold as_int, int_of_str, chars, str.
    rewrite list_ascii_of_string_of_list_ascii, Hz. reflexivity.
  - simpl. repeat split; auto. intros w Hw _. apply lang_signed, Hw.
Qed.

Lemma ratio_field key raw m :
  re_search (float_field_re key) raw = Some m ->
  exists f, as_float (m_group 1 m) = Ok (VFloat f) /\ f <> NaN.
Proof.
  intros E. apply (field_group (lang decimal_re)) in E; [| | reflexivity].
  - destruct E as (w & -> & Hw). apply float_of_decimal_str, Hw.
  - simpl. repeat split; auto.
Qed.

Lemma direction_field raw m :
  re_search direction_field_re raw = Some m -> In (lower (m_group 1 m)) directions.
Proof.
  intros E. unfold direction_field_re in E.
  apply (field_group (fun w => In (lower (str w)) directions)) in E; [| | reflexivity].
  - destruct E as (w & -> & Hw). exact Hw.
  - simpl. repeat split; auto using groups_in_lit_i. intros w Hw _.
    apply lang_alt in Hw. destruct Hw as [Hw | Hw];
      [apply lang_alt in Hw; destruct Hw as [Hw | Hw];
       [apply lang_alt in Hw; destruct Hw as [Hw | Hw] |] |];
      apply lower_lit_i in Hw; rewrite Hw; unfold directions; simpl; tauto.
Qed.

Lemma regions_numbers s :
  short_numerals s = true ->
  exists zs, map_result int_of_str (re_findall digits_re s) = Ok zs /\
             length zs = length (re_findall digits_re s) /\ Forall (fun z => 0 <= z) zs.
Proof.
  intros Hs.
  assert (H : forall x, In x (re_findall digits_re s) ->
            exists z, int_of_str x = Ok z /\ 0 <= z).
  { intros x Hx. pose proof (re_findall_infix _ _ _ Hx) as Hin.
    apply re_findall_sound in Hx. destruct Hx as (w & -> & Hw).
    rewrite chars_of_str in Hin.
    apply lang_plus_chr in Hw.
    destruct (int_of_run w Hw (digit_runs_infix _ _ Hin Hs)) as [E Hz].
    exists (digits_val w). unfold int_of_str, chars, str.
    rewrite list_ascii_of_string_of_list_ascii. auto. }
  induction (re_findall digits_re s) as [| x l IH]; simpl.
  - exists []. auto.
  - destruct (H x (or_introl eq_refl)) as (z & -> & Hz).
    destruct IH as (zs & -> & Hlen & Hall); [intros; apply H; right; assumption |].
    simpl. exists (z :: zs). simpl. auto.
Qed.

#[local] Arguments fill : simpl never.
#[local] Arguments re_search : simpl never.
#[local] Arguments re_findall : simpl never.

Ltac next_field :=
  match goal with
  | |- context [fill ?raw ?r ?key ?f ?out] =>
      let out' := fresh "out" in
      let E := fresh "E" in
      let H := fresh "Htyped" in
      destruct (fill_typed raw r key f out) as (out' & E & H);
      [assumption | | rewrite E; cbn beta iota zeta delta [mbind result_bind bind]]
  end.

Lemma fallback_typed (raw : string) :
  short_numerals raw = true ->
  exists out, _extract_planner_fallback raw = Ok out /\ well_typed out.
Proof.
  intros Hshort. unfold _extract_planner_fallback.
  assert (Htyped0 : well_typed ∅) by (intros k v Hk; rewrite lookup_empty in Hk; discriminate).
  next_field.
  { intros m _. eexists. split; [reflexivity |]. apply F_text. unfold text_keys. simpl. tauto. }
  next_field.
  { intros m _. eexists. split; [reflexivity |]. apply F_text. unfold text_keys. simpl. tauto. }
  next_field.
  { intros m Hm. destruct (count_field _ _ _ Hshort Hm) as (z & -> & Hz).
    eexists. split; [reflexivity |]. apply F_count; [unfold count_keys; simpl; tauto | exact Hz]. }
  match goal with
  | |- context [mbind _ ?step] =>
      assert (Hregions : exists out', step = Ok out' /\ well_typed out')
  end.
  { destruct (re_search regions_field_re raw) as [m |] eqn:Em; [| eauto].
    destruct (regions_numbers (m_group 1 m) (short_search _ _ _ 1 Em Hshort))
      as (zs & Hzs & Hlen & Hall).
    destruct (re_findall digits_re (m_group 1 m)) as [| x l] eqn:El; [eauto |].
    rewrite <- El in *. rewrite Hzs. simpl. eexists. split; [reflexivity |].
    apply well_typed_insert; [assumption |]. apply F_regions; [| exact Hall].
    intros ->. rewrite El in Hlen. discriminate Hlen. }
  destruct Hregions as (out_r & -> & Hr_typed).
  cbn beta iota zeta delta [mbind result_bind bind].
  next_field.
  { intros m _. eexists. split; [reflexivity |]. apply F_text. unfold text_keys. simpl. tauto. }
  next_field.
  { intros m _. eexists. split; [reflexivity |]. apply F_text. unfold text_keys. simpl. tauto. }
  next_field.
  { intros m Hm. destruct (count_field _ _ _ Hshort Hm) as (z & -> & Hz).
    eexists. split; [reflexivity |]. apply F_count; [unfold count_keys; simpl; tauto | exact Hz]. }
  next_field.
  { intros m _. eexists. split; [reflexivity |]. apply F_text. unfold text_keys. simpl. tauto. }
  next_field.
  { intros m _. eexists. split; [reflexivity |]. apply F_text. unfold text_keys. simpl. tauto. }
  next_field.
  { intros m Hm. eexists. split; [reflexivity |]. apply F_direction. apply (direction_field raw m Hm). }
  next_field.
  { intros m Hm. destruct (count_field _ _ _ Hshort Hm) as (z & -> & Hz).
    eexists. split; [reflexivity |]. apply F_count; [unfold count_keys; simpl; tauto | exact Hz]. }
  next_field.
  { intros m Hm. destruct (count_field _ _ _ Hshort Hm) as (z & -> & Hz).
    eexists. split; [reflexivity |]. apply F_count; [unfold count_keys; simpl; tauto | exact Hz]. }
  next_field.
  { intros m Hm. destruct (count_field _ _ _ Hshort Hm) as (z & -> & Hz).
    eexists. split; [reflexivity |]. apply F_count; [unfold count_keys; simpl; tauto | exact Hz]. }
  unfold fill_all. cbn [foldl]. cbn beta iota zeta delta [mbind result_bind bind].
  do 4 (next_field;
        [intros m Hm; destruct (coordinate_field _ _ _ Hshort Hm) as (z & ->);
         eexists; split; [reflexivity |]; apply F_coordinate;
         unfold coordinate_keys; simpl; tauto |]).
  do 4 (next_field;
        [intros m Hm; destruct (ratio_field _ _ _ Hm) as (f & -> & Hf);
         eexists; split; [reflexivity |]; apply F_ratio;
         [unfold ratio_keys; simpl; tauto | exact Hf] |]).
  next_field.
  { intros m _. eexists. split; [reflexivity |]. apply F_press_enter. }
  eauto.
Qed.

Lemma planner_of_ok (raw : string) :
  short_numerals raw = true -> exists planner, planner_of raw = Ok planner.
Proof.
  intros Hshort. unfold planner_of. destruct (fallback_typed raw Hshort) as (out & -> & _).
  destruct (_extract_json raw) as [d |]; [| eauto].
  destruct (map_to_list d); eauto.
Qed.

(** X23: on an ASCII text that holds no numeral of more than 4300 digits,
    the fallback extraction returns, and gives every field it finds the
    type the planner protocol has for it: texts for the six text fields,
    one of the four directions, integers that are not negative for the
    region, the regions and the counts, integers for the swipe coordinates,
    numbers for the ratios (an infinity included, for a literal beyond the
    doubles) and a boolean for [pressEnter]; it names no other field.  So
    reading such a planner answer, strictly or by the fallback, returns as
    well. *)
Theorem fallback_total_and_typed (raw : string) :
  is_ascii raw = true -> short_numerals raw = true ->
  (exists out,
     _extract_planner_fallback raw = Ok out /\
     forall key v, out !! key = Some v -> planner_field key v) /\
  (exists planner, planner_of raw = Ok planner).
Proof.
  intros _ Hshort. split; [exact (fallback_typed raw Hshort) | exact (planner_of_ok raw Hshort)].
Qed.

Lemma fallback_total_and_typed_witness :
  exists out,
    _extract_planner_fallback (dq "{'action':'tap','region':5,'regions':[5,") = Ok out /\
    planner_field "region" (VInt 5).
Proof.
  destruct (proj1 (fallback_total_and_typed (dq "{'action':'tap','region':5,'regions':[5,")
                     eq_refl eq_refl))
    as (out & Hout & Htyped).
  exists out. split; [exact Hout |]. apply Htyped.
  assert (Hc : _extract_planner_fallback (dq "{'action':'tap','region':5,'regions':[5,")
               = Ok (dict [("action", VStr "tap"); ("region", VInt 5)]%string))
    by (vm_compute; reflexivity).
  rewrite Hc in Hout. injection Hout as <-. vm_compute. reflexivity.
Defined.

End FallbackFacts.

(** ** What one step of the controller sends *)

Module ControllerStepFacts.
Import Py Re ReFacts Controller ControllerStep RegionFacts FloatFacts ControllerRangeFacts GridCellFacts.

(** An order the device can take: a text that is not empty, a swipe or a
    tap inside the click range, a swipe of 50 to 5000 ms, a wait of 1 to 10
    seconds. *)
Definition sane (cr : ClickRange) (o : order) : Prop :=
  match o with
  | Finish _ => True
  | ImeInput text _ _ => text <> EmptyString
  | SwipeTo sx sy ex ey duration_ms =>
      x_min cr <= sx <= x_max cr /\ y_min cr <= sy <= y_max cr /\
      x_min cr <= ex <= x_max cr /\ y_min cr <= ey <= y_max cr /\
      50 <= duration_ms <= 5000
  | TapAt x y => x_min cr <= x <= x_max cr /\ y_min cr <= y <= y_max cr
  | WaitFor sec => 1 <= sec <= 10
  end.

Definition kind (o : order) : string :=
  match o with
  | Finish _ => "finish"
  | ImeInput _ _ _ => "ime_input"
  | SwipeTo _ _ _ _ _ => "swipe"
  | TapAt _ _ => "tap"
  | WaitFor _ => "wait"
  end.

Definition known_actions : list string := ["finish"; "ime_input"; "swipe"; "tap"].

(** A planner answer as the controller reads one: no integer of more than
    4300 digits, and [regions], when a text, in ASCII with no numeral of
    more than 4300 digits. *)
Definition plain_answer (planner : gmap string pyval) : bool :=
  forallb (fun kv => match kv.2 with
                     | VInt z => Z.abs z <? 10 ^ max_str_digits
                     | _ => true
                     end) (map_to_list planner)
  && readable (get planner "regions").

Section Step.

Variable repr_other : pyval -> string.

(** The tap branch returns a point once the regions are read. *)
Lemma tap_command_ok (planner : gmap string pyval) (rows cols width height : Z)
    (raw_stage2 : string) (cr : ClickRange) :
  0 < rows -> 0 < cols -> 0 <= width < 2 ^ 53 -> 0 <= height < 2 ^ 53 ->
  readable (get planner "regions") = true ->
  exists p, tap_command repr_other planner rows cols width height raw_stage2 cr = Ok p.
Proof.
  intros Hr Hc Hw Hh Hread.
  destruct (_parse_regions_value_ok _ Hread) as (regions & Hparse).
  destruct (cover_spec repr_other planner rows cols width height regions Hr Hc Hparse)
    as (normalized & min_row & max_row & min_col & max_col & Hcover & [Hgrid _] & Hleast).
  pose proof (least_rectangle_bounds _ _ _ _ _ _ _ Hr Hc Hgrid Hleast) as Hb.
  unfold tap_command. rewrite Hcover.
  cbn beta iota zeta delta [mbind result_bind bind]. unfold rect_box. cbn [fst snd].
  pose proof (Z.mul_div_le width cols Hc) as Hwl.
  pose proof (Z.mul_div_le height rows Hr) as Hhl.
  assert (Hcw : 0 <= width / cols) by (apply Z.div_pos; lia).
  assert (Hch : 0 <= height / rows) by (apply Z.div_pos; lia).
  match goal with
  | |- context [ratio_point ?left (Fin (clamp_ratio ?xr)) (Z.max 1 (?right - _ - 1))] =>
      destruct (box_point_ok left right width xr) as (x & ->);
        [nia | destruct (max_col =? cols - 1); nia | lia |]
  end.
  cbn beta iota zeta delta [mbind result_bind bind].
  match goal with
  | |- context [ratio_point ?top (Fin (clamp_ratio ?yr)) (Z.max 1 (?bottom - _ - 1))] =>
      destruct (box_point_ok top bottom height yr) as (y & ->);
        [nia | destruct (max_row =? rows - 1); nia | lia |]
  end.
  cbn beta iota zeta delta [mbind result_bind bind]. eauto.
Qed.

(** X24: the order of a step of the controller, computed from the planner
    answer (in the tap branch the one after the regions repair) and the
    stage-2 answer.  On a frame of less than 2^53 pixels a side and for a
    planner answer as the controller reads one (no integer of more than
    4300 digits, [regions] not a text with such a numeral or outside
    ASCII) the computation returns one order and raises no exception, the
    order is the one of the planner's action when that is finish, a text
    input, a swipe or a tap and a wait otherwise, and it is one the device
    can take: taps and both ends of a swipe inside the click range, a
    swipe of 50 to 5000 ms, a wait of 1 to 10 seconds, a text that is not
    empty. *)
Theorem step_order_sane (planner : gmap string pyval)
    (rows cols cells width height : Z) (raw_stage2 : string)
    (cr : ClickRange) (default_wait : Z) :
  0 < rows -> 0 < cols -> 0 <= width < 2 ^ 53 -> 0 <= height < 2 ^ 53 ->
  x_min cr <= x_max cr -> y_min cr <= y_max cr ->
  plain_answer planner = true ->
  exists o,
    step_order repr_other planner rows cols cells width height raw_stage2 cr default_wait
    = Ok o /\
    sane cr o /\
    kind o = (if existsb (String.eqb (action_of repr_other planner)) known_actions
              then action_of repr_other planner else "wait"%string).
Proof.
  intros Hr Hc Hw Hh Hx Hy Hplain.
  apply andb_true_iff in Hplain. destruct Hplain as [_ Hread].
  unfold step_order.
  destruct (String.eqb (action_of repr_other planner) "finish") eqn:E1.
  { apply String.eqb_eq in E1. rewrite E1. eexists. repeat split. }
  destruct (String.eqb (action_of repr_other planner) "ime_input") eqn:E2.
  { apply String.eqb_eq in E2. rewrite E2. unfold ime_command.
    eexists. split; [reflexivity |]. split; [| reflexivity]. simpl.
    destruct (String.eqb (strip _) EmptyString) eqn:Et; [discriminate |].
    apply String.eqb_neq in Et. exact Et. }
  destruct (String.eqb (action_of repr_other planner) "swipe") eqn:E3.
  { apply String.eqb_eq in E3. rewrite E3.
    destruct (swipe_command_ok repr_other planner rows cols cells width height cr
                Hr Hc Hw Hh) as ([[[[sx sy] ex] ey] duration_ms] & Hswipe).
    rewrite Hswipe. cbn beta iota zeta delta [mbind result_bind bind].
    eexists. split; [reflexivity |]. split; [| reflexivity].
    exact (swipe_command_in_range _ _ _ _ _ _ _ _ _ _ _ _ _ Hx Hy Hswipe). }
  destruct (String.eqb (action_of repr_other planner) "tap") eqn:E4.
  { apply String.eqb_eq in E4. rewrite E4.
    destruct (tap_command_ok planner rows cols width height raw_stage2 cr
                Hr Hc Hw Hh Hread) as ([x y] & Htap).
    rewrite Htap. cbn beta iota zeta delta [mbind result_bind bind].
    eexists. split; [reflexivity |]. split; [| reflexivity].
    exact (tap_command_in_range _ _ _ _ _ _ _ _ _ _ Hx Hy Htap). }
  eexists. split; [reflexivity |]. split.
  - unfold sane, wait_command, _clamp. lia.
  - unfold known_actions. cbn [existsb]. rewrite E1, E2, E3, E4. reflexivity.
Qed.

End Step.

Lemma step_order_sane_witness :
  let cr := {| x_min := 0; y_min := 0; x_max := 1079; y_max := 2339 |} in
  let planner := dict [("action", VStr " Swipe "); ("durationMs", VInt 9);
                       ("startX", VInt 5000); ("startY", VInt 5000);
                       ("endX", VInt (-10)); ("endY", VInt (-10))]%string in
  exists o,
    step_order (fun _ => EmptyString) planner 3 3 9 1080 2340 EmptyString cr 2 = Ok o /\
    sane cr o /\ kind o = "swipe"%string.
Proof.
  intros cr planner.
  destruct (step_order_sane (fun _ => EmptyString) planner 3 3 9 1080 2340 EmptyString cr 2)
    as (o & Ho & Hs & Hk);
    [lia | lia | lia | lia | simpl; lia | simpl; lia | vm_compute; reflexivity |].
  exists o. split; [exact Ho |]. split; [exact Hs |]. rewrite Hk. reflexivity.
Defined.

End ControllerStepFacts.

(** ** The regions repair *)

Module RepairFacts.
Import Py Re Controller RegionFacts GridCellFacts FallbackFacts.

Lemma parse_int_list zs : _parse_regions_value (VList (map VInt zs)) = Ok zs.
Proof.
  simpl. f_equal. induction zs as [| z zs IH]; simpl; [reflexivity |]. rewrite IH. reflexivity.
Qed.

#[local] Arguments _parse_regions_value : simpl never.
#[local] Arguments sorted_set : simpl never.

(** X25: the regions repair, once the regions of the planner and the
    repair answer with its regions are read.  An answer without regions
    leaves the planner as it is.  Otherwise the planner gets the regions of
    both answers, each once and in increasing order, which is what the
    cover then reads; its [region] is kept when it has one and is the
    smallest of the merged regions when it has none; no other field
    changes. *)
Theorem repair_regions_merges (planner : gmap string pyval) (repair_raw : string)
    (parsed : list Z) (repair_obj : gmap string pyval) (repair : list Z) :
  _parse_regions_value (get planner "regions") = Ok parsed ->
  planner_of repair_raw = Ok repair_obj ->
  _parse_regions_value (get repair_obj "regions") = Ok repair ->
  exists planner',
    repair_regions planner repair_raw = Ok planner' /\
    (repair = [] -> planner' = planner) /\
    (repair <> [] ->
     exists merged,
       planner' !! "regions"%string = Some (VList (map VInt merged)) /\
       _parse_regions_value (get planner' "regions") = Ok merged /\
       StronglySorted Z.lt merged /\
       (forall r, In r merged <-> In r parsed \/ In r repair) /\
       planner' !! "region"%string
       = match planner !! "region"%string with
         | Some v => Some v
         | None => Some (VInt (List.hd 0 merged))
         end /\
       forall key, key <> "regions"%string -> key <> "region"%string ->
                   planner' !! key = planner !! key).
Proof.
  intros Hparsed Hobj Hrepair.
  assert (Hin : forall r, In r (sorted_set (parsed ++ repair)) <-> In r parsed \/ In r repair).
  { intros r. rewrite sorted_set_in, in_app_iff. reflexivity. }
  pose proof (sorted_set_sorted (parsed ++ repair)) as Hsorted.
  assert (Hrun : exists planner',
    repair_regions planner repair_raw = Ok planner' /\
    (repair = [] -> planner' = planner) /\
    (repair <> [] ->
     planner' !! "regions"%string = Some (VList (map VInt (sorted_set (parsed ++ repair)))) /\
     planner' !! "region"%string
     = match planner !! "region"%string with
       | Some v => Some v
       | None => Some (VInt (List.hd 0 (sorted_set (parsed ++ repair))))
       end /\
     forall key, key <> "regions"%string -> key <> "region"%string ->
                 planner' !! key = planner !! key)).
  { unfold repair_regions. rewrite Hparsed, Hobj.
    cbn beta iota zeta delta [mbind result_bind bind]. rewrite Hrepair.
    cbn beta iota zeta delta [mbind result_bind bind].
    destruct repair as [| r0 repair'] eqn:Er.
    { exists planner. split; [reflexivity |]. split; [reflexivity | congruence]. }
    rewrite <- Er in *.
    destruct (sorted_set (parsed ++ repair)) as [| m0 merged'] eqn:Em.
    { exfalso. apply (Hin r0). right. rewrite Er. left. reflexivity. }
    rewrite <- Em.
    assert (Hhd : List.hd 0 (sorted_set (parsed ++ repair)) = m0) by (rewrite Em; reflexivity).
    rewrite (lookup_insert_ne planner "regions"%string "region"%string) by discriminate.
    destruct (planner !! "region"%string) as [v |] eqn:Eregion.
    - eexists. split; [reflexivity |]. split; [rewrite Er; discriminate |].
      intros _. split; [apply lookup_insert_eq |].
      split; [rewrite lookup_insert_ne by discriminate; exact Eregion |].
      intros key Hk1 Hk2. apply lookup_insert_ne. congruence.
    - eexists. split; [reflexivity |]. split; [rewrite Er; discriminate |].
      intros _. split; [rewrite lookup_insert_ne by discriminate; apply lookup_insert_eq |].
      split; [rewrite lookup_insert_eq, Hhd; reflexivity |].
      intros key Hk1 Hk2. rewrite !lookup_insert_ne by congruence. reflexivity. }
  destruct Hrun as (planner' & Hrun & Hsame & Hmerged).
  exists planner'. split; [exact Hrun |]. split; [exact Hsame |].
  intros Hne. destruct (Hmerged Hne) as (Hregions & Hregion & Hother).
  exists (sorted_set (parsed ++ repair)).
  split; [exact Hregions |].
  split; [unfold get; rewrite Hregions; apply parse_int_list |].
  auto.
Qed.

Lemma repair_regions_merges_witness :
  exists planner',
    repair_regions (dict [("action", VStr "tap"); ("regions", VList [VInt 5])]%string)
                   (dq "{'regions':[6,5,4]}") = Ok planner' /\
    _parse_regions_value (get planner' "regions") = Ok [4; 5; 6] /\
    planner' !! "region"%string = Some (VInt 4).
Proof.
  destruct (repair_regions_merges
              (dict [("action", VStr "tap"); ("regions", VList [VInt 5])]%string)
              (dq "{'regions':[6,5,4]}") [5]
              (dict [("regions", VList [VInt 6; VInt 5; VInt 4])]%string) [6; 5; 4])
    as (planner' & Hrun & _ & Hmerge); [vm_compute; reflexivity .. |].
  exists planner'. split; [exact Hrun |].
  destruct (Hmerge ltac:(discriminate))
    as (merged & _ & Hread & Hsorted & Hin & Hregion & _).
  assert (Hm : merged = [4; 5; 6]).
  { assert (H4 : In 4 merged) by (apply Hin; right; simpl; tauto).
    assert (H5 : In 5 merged) by (apply Hin; left; simpl; tauto).
    assert (H6 : In 6 merged) by (apply Hin; right; simpl; tauto).
    assert (Honly : forall r, In r merged -> r = 4 \/ r = 5 \/ r = 6).
    { intros r Hr. apply Hin in Hr. simpl in Hr. lia. }
    clear Hin Hread Hregion.
    destruct merged as [| a merged]; [contradiction |].
    apply StronglySorted_inv in Hsorted. destruct Hsorted as [Hs1 Ha].
    rewrite List.Forall_forall in Ha.
    destruct merged as [| b merged].
    { exfalso. simpl in H4, H5. lia. }
    apply StronglySorted_inv in Hs1. destruct Hs1 as [Hs2 Hb].
    rewrite List.Forall_forall in Hb.
    destruct merged as [| c merged].
    { exfalso. simpl in H4, H5, H6. lia. }
    apply StronglySorted_inv in Hs2. destruct Hs2 as [Hs3 Hc].
    rewrite List.Forall_forall in Hc.
    destruct merged as [| e merged].
    - pose proof (Ha b ltac:(simpl; tauto)). pose proof (Ha c ltac:(simpl; tauto)).
      pose proof (Hb c ltac:(simpl; tauto)).
      pose proof (Honly a ltac:(simpl; tauto)). pose proof (Honly b ltac:(simpl; tauto)).
      pose proof (Honly c ltac:(simpl; tauto)).
      assert (a = 4) by lia. assert (b = 5) by lia. assert (c = 6) by lia. congruence.
    - exfalso.
      pose proof (Ha b ltac:(simpl; tauto)). pose proof (Hb c ltac:(simpl; tauto)).
      pose proof (Hc e ltac:(simpl; tauto)).
      pose proof (Honly a ltac:(simpl; tauto)). pose proof (Honly b ltac:(simpl; tauto)).
      pose proof (Honly c ltac:(simpl; tauto)). pose proof (Honly e ltac:(simpl; tauto)).
      lia. }
  subst merged. split; [exact Hread |]. rewrite Hregion. reflexivity.
Defined.

End RepairFacts.

(** ** The policy of the grid partitioner *)

Module GridPolicyFacts.
Import Py Controller GridFacts.

Section Policy.

Context {F : Type}.
Variable log_error_of : Q -> F.
Variable F_lt F_le F_eq : F -> F -> bool.

#[local] Abbreviation candidate := (@candidate F).

Lemma fold_fewest_cells (l : list candidate) : forall best,
  let pick := fun best y : candidate =>
    if lt_cells_error F_lt F_eq (c_cells y, c_log_error y) (c_cells best, c_log_error best)
    then y else best in
  c_cells (fold_left pick l best) <= c_cells best /\
  forall y, In y l -> c_cells (fold_left pick l best) <= c_cells y.
Proof.
  induction l as [| x l IH]; intros best pick; simpl; [split; [lia | contradiction] |].
  destruct (IH (pick best x)) as [Hb Hl]. fold pick in Hb, Hl.
  assert (Hpick : c_cells (pick best x) <= c_cells best /\ c_cells (pick best x) <= c_cells x).
  { subst pick. cbv beta. unfold lt_cells_error. cbn [fst snd].
    destruct (c_cells x =? c_cells best) eqn:E.
    - apply Z.eqb_eq in E. destruct (F_eq _ _); [lia |]. destruct (F_lt _ _); lia.
    - destruct (c_cells x <? c_cells best) eqn:E'.
      + apply Z.ltb_lt in E'. lia.
      + apply Z.ltb_ge in E'. lia. }
  split; [lia |]. intros y [<- | Hy]; [lia | auto].
Qed.

Lemma min_by_fewest_cells (l : list candidate) x :
  min_by (lt_cells_error F_lt F_eq) (fun c => (c_cells c, c_log_error c)) l = Some x ->
  forall y, In y l -> c_cells x <= c_cells y.
Proof.
  destruct l as [| a l]; [discriminate |]. simpl. intros [= <-] y Hy.
  destruct (fold_fewest_cells l a) as [Ha Hl]. cbv zeta in Ha, Hl.
  destruct Hy as [<- | Hy]; [exact Ha | apply Hl, Hy].
Qed.

(** X26: the grid the partitioner returns has [rows * cols] cells; and
    when some candidate is within the target log-error, so is the grid
    returned, with no more cells than any candidate within the target. *)
Theorem grid_fewest_cells_within_target (width height lo hi : Z) (target : F) :
  let c := _choose_adaptive_grid log_error_of F_lt F_le F_eq width height lo hi target in
  let candidates := grid_candidates log_error_of width height lo hi in
  c_cells c = c_rows c * c_cols c /\
  (forall near, In near candidates -> F_le (c_log_error near) target = true ->
     F_le (c_log_error c) target = true /\ c_cells c <= c_cells near).
Proof.
  intros c candidates.
  assert (Hcand : forall x, In x candidates -> c_cells x = c_rows x * c_cols x).
  { intros x Hx. subst candidates. unfold grid_candidates in Hx.
    apply in_flat_map in Hx. destruct Hx as (rows & _ & Hx).
    apply in_flat_map in Hx. destruct Hx as (cols & _ & Hx).
    unfold grid_candidate in Hx. destruct (_ || _); [contradiction |].
    destruct Hx as [<- | []]. reflexivity. }
  assert (Hin : candidates <> [] -> In c candidates).
  { intros Hne. apply choice_is_candidate. exact Hne. }
  split.
  - destruct candidates as [| c0 l0] eqn:E.
    + subst c. unfold _choose_adaptive_grid. fold candidates. rewrite E. reflexivity.
    + apply Hcand, Hin. discriminate.
  - intros near Hnear Hle. subst c. unfold _choose_adaptive_grid. fold candidates.
    destruct candidates as [| c0 l0] eqn:E; [contradiction |]. rewrite <- E in *.
    assert (Hfilter : In near (List.filter (fun c => F_le (c_log_error c) target) candidates))
      by (apply filter_In; auto).
    destruct (List.filter (fun c => F_le (c_log_error c) target) candidates)
      as [| n0 l1] eqn:En; [contradiction |]. rewrite <- En in *.
    destruct (min_by _ _ (List.filter _ candidates)) as [x |] eqn:Em.
    + simpl. split.
      * apply min_by_in in Em. apply filter_In in Em. tauto.
      * eapply min_by_fewest_cells; eauto.
    + rewrite En in Em. discriminate Em.
Qed.

End Policy.

Lemma grid_fewest_cells_within_target_witness :
  let c := ExactLog.choose 1080 2340 in
  c_cells c = c_rows c * c_cols c /\
  ExactLog.F_le (c_log_error c) ExactLog.default_target = true /\
  c_cells c <= 18.
Proof.
  intros c.
  destruct (grid_fewest_cells_within_target ExactLog.log_error_of ExactLog.F_lt
              ExactLog.F_le ExactLog.F_eq 1080 2340 3 12 ExactLog.default_target)
    as (Hcells & Hnear).
  split; [exact Hcells |].
  set (aspect := ((inject_Z 1080 / inject_Z 3) / (inject_Z 2340 / inject_Z 6))%Q).
  apply (Hnear (6, 3, 18, aspect, ExactLog.log_error_of aspect)).
  - unfold grid_candidates. apply in_flat_map. exists 6. split; [apply range_spec; lia |].
    apply in_flat_map. exists 3. split; [apply range_spec; lia |].
    left. reflexivity.
  - vm_compute. reflexivity.
Defined.

(** *** In exact arithmetic *)

Lemma fold_least_error (l : list (@candidate Q)) : forall best,
  let pick := fun best y : @candidate Q =>
    if lt_error_cells ExactLog.F_lt ExactLog.F_eq
         (c_log_error y, c_cells y) (c_log_error best, c_cells best)
    then y else best in
  let r := fold_left pick l best in
  forall y, y = best \/ In y l ->
    (c_log_error r < c_log_error y)%Q \/
    (c_log_error r == c_log_error y /\ c_cells r <= c_cells y).
Proof.
  induction l as [| x l IH]; intros best pick r y Hy.
  - destruct Hy as [-> | []]. right. split; [reflexivity | subst r; simpl; lia].
  - subst r. simpl.
    assert (Hpick : forall z, z = best \/ z = x ->
      (c_log_error (pick best x) < c_log_error z)%Q \/
      (c_log_error (pick best x) == c_log_error z /\ c_cells (pick best x) <= c_cells z)).
    { intros z Hz. subst pick. cbv beta.
      unfold lt_error_cells, ExactLog.F_lt, ExactLog.F_eq. cbn [fst snd].
      destruct (Qeq_bool (c_log_error x) (c_log_error best)) eqn:Eq.
      - apply Qeq_bool_iff in Eq.
        destruct (c_cells x <? c_cells best) eqn:Ec;
          [apply Z.ltb_lt in Ec | apply Z.ltb_ge in Ec];
          destruct Hz as [-> | ->]; right; split; try lia; try reflexivity;
          try (symmetry; exact Eq); exact Eq.
      - apply Qeq_bool_neq in Eq.
        destruct (Qle_bool (c_log_error best) (c_log_error x)) eqn:El; simpl.
        + apply Qle_bool_iff in El.
          destruct Hz as [-> | ->]; [right; split; [reflexivity | lia] |].
          left. apply Qle_lteq in El. destruct El as [El | El]; [exact El |].
          exfalso. apply Eq. symmetry. exact El.
        + assert (Hlt : (c_log_error x < c_log_error best)%Q).
          { apply Qnot_le_lt. intros H. apply Qle_bool_iff in H. congruence. }
          destruct Hz as [-> | ->]; [left; exact Hlt | right; split; [reflexivity | lia]]. }
    assert (Hrest := IH (pick best x)). cbv zeta in Hrest. fold pick in Hrest.
    assert (Hvia : forall z,
      (c_log_error (pick best x) < c_log_error z)%Q \/
      (c_log_error (pick best x) == c_log_error z /\ c_cells (pick best x) <= c_cells z) ->
      (c_log_error (fold_left pick l (pick best x)) < c_log_error z)%Q \/
      (c_log_error (fold_left pick l (pick best x)) == c_log_error z /\
       c_cells (fold_left pick l (pick best x)) <= c_cells z)).
    { intros z Hz. destruct (Hrest (pick best x) (or_introl eq_refl)) as [H1 | [H1 H1']];
        destruct Hz as [H2 | [H2 H2']].
      - left. lra.
      - left. lra.
      - left. lra.
      - right. split; [lra | lia]. }
    destruct Hy as [-> | [<- | Hy]].
    + apply Hvia, Hpick. auto.
    + apply Hvia, Hpick. auto.
    + apply Hrest. auto.
Qed.



End GridPolicyFacts.

(** ** A well-formed call parses to what it says *)

Module RoundTripFacts.
Import Py Re ReFacts Agent.

(** *** The matcher finds what is there *)

Section Complete.

Context {R : Type}.
Variable total : nat.
Implicit Types (k : list ascii -> caps -> option R) (c : caps) (s w : list ascii).

Lemma found_chr p a s c k x :
  p a = true -> k s c = Some x -> rmatch total (Chr p) (a :: s) c k = Some x.
Proof. intros Hp Hk. simpl. rewrite Hp. exact Hk. Qed.

Lemma found_lit_chars l rest c k x :
  k rest c = Some x ->
  rmatch total (cats (map lit_char l)) (l ++ rest) c k = Some x.
Proof.
  intros Hk. induction l as [| a l IH]; simpl; [exact Hk |].
  rewrite Ascii.eqb_refl. exact IH.
Qed.

Lemma found_lit t rest c k x :
  k rest c = Some x -> rmatch total (lit t) (chars t ++ rest) c k = Some x.
Proof. apply found_lit_chars. Qed.

Lemma rmatch_star g r s c k :
  rmatch total (Star g r) s c k = star_loop (rmatch total r) g k (length s) s c.
Proof. reflexivity. Qed.

Lemma rmatch_chr p a s c k :
  rmatch total (Chr p) (a :: s) c k = if p a then k s c else None.
Proof. reflexivity. Qed.

Lemma star_loop_step body g k fuel s c :
  star_loop body g k (S fuel) s c
  = let again :=
      body s c (fun s1 c1 =>
        if (length s1 <? length s)%nat then star_loop body g k fuel s1 c1 else None) in
    if g then match again with Some x => Some x | None => k s c end
    else match k s c with Some x => Some x | None => again end.
Proof. reflexivity. Qed.

(** A repetition of one-character steps stops where the next character
    does not fit. *)
Definition stops (p : ascii -> bool) (rest : list ascii) : Prop :=
  match rest with
  | [] => True
  | a :: _ => p a = false
  end.

Lemma star_chr_none p g k fuel rest c :
  stops p rest ->
  star_loop (rmatch total (Chr p)) g k fuel rest c = k rest c.
Proof.
  intros Hstop. destruct fuel as [| fuel]; [reflexivity |]. rewrite star_loop_step.
  cbv zeta.
  assert (Hnone : forall kk : list ascii -> caps -> option R,
            rmatch total (Chr p) rest c kk = None).
  { intros kk. destruct rest as [| a rest]; [reflexivity |]. simpl in *.
    rewrite Hstop. reflexivity. }
  rewrite Hnone. destruct g; [reflexivity |]. destruct (k rest c); reflexivity.
Qed.

Lemma found_star_stop p g rest c k x :
  stops p rest -> k rest c = Some x ->
  rmatch total (Star g (Chr p)) rest c k = Some x.
Proof.
  intros Hstop Hk. rewrite rmatch_star, star_chr_none by exact Hstop. exact Hk.
Qed.

Lemma star_greedy_run p k w rest c x : forall fuel,
  Forall (fun a => p a = true) w -> stops p rest -> (length w <= fuel)%nat ->
  k rest c = Some x ->
  star_loop (rmatch total (Chr p)) true k fuel (w ++ rest) c = Some x.
Proof.
  induction w as [| a w IH]; intros fuel Hw Hstop Hfuel Hk.
  - cbn [app]. rewrite star_chr_none by exact Hstop. exact Hk.
  - destruct fuel as [| fuel]; [simpl in Hfuel; lia |].
    inversion Hw as [| ? ? Ha Hw']; subst.
    rewrite star_loop_step. cbv zeta. cbn [app]. rewrite rmatch_chr, Ha.
    replace (length (w ++ rest) <? length (a :: w ++ rest))%nat with true
      by (symmetry; apply Nat.ltb_lt; simpl; lia).
    rewrite (IH fuel) by (auto; simpl in Hfuel; lia). reflexivity.
Qed.

Lemma found_star_run p w rest c k x :
  Forall (fun a => p a = true) w -> stops p rest -> k rest c = Some x ->
  rmatch total (Star true (Chr p)) (w ++ rest) c k = Some x.
Proof.
  intros Hw Hstop Hk. rewrite rmatch_star. apply star_greedy_run; auto.
  rewrite length_app. lia.
Qed.

Lemma found_plus_run p a w rest c k x :
  p a = true -> Forall (fun a => p a = true) w -> stops p rest -> k rest c = Some x ->
  rmatch total (plus (Chr p)) (a :: w ++ rest) c k = Some x.
Proof.
  intros Ha Hw Hstop Hk. unfold plus.
  change (rmatch total (Cat (Chr p) (Star true (Chr p))) (a :: w ++ rest) c k)
    with (rmatch total (Chr p) (a :: w ++ rest) c
            (fun s1 c1 => rmatch total (Star true (Chr p)) s1 c1 k)).
  rewrite rmatch_chr, Ha.
  apply (found_star_run p w rest c k x); assumption.
Qed.

(** A greedy run of any character that has to give back its last one. *)
Lemma star_any_gives_back k w a c x : forall fuel,
  (length w < fuel)%nat -> k [] c = None -> k [a] c = Some x ->
  star_loop (rmatch total any) true k fuel (w ++ [a]) c = Some x.
Proof.
  induction w as [| b w IH]; intros fuel Hfuel Hnil Hk.
  - destruct fuel as [| fuel]; [lia |]. rewrite star_loop_step. cbv zeta. cbn [app].
    unfold any at 1. rewrite rmatch_chr. cbn [length Nat.ltb Nat.leb].
    unfold any. rewrite star_chr_none by exact I. rewrite Hnil. exact Hk.
  - destruct fuel as [| fuel]; [simpl in Hfuel; lia |].
    rewrite star_loop_step. cbv zeta. cbn [app].
    unfold any at 1. rewrite rmatch_chr.
    replace (length (w ++ [a]) <? length (b :: w ++ [a]))%nat with true
      by (symmetry; apply Nat.ltb_lt; simpl; lia).
    rewrite (IH fuel) by (auto; simpl in Hfuel; lia). reflexivity.
Qed.

Lemma found_star_any w a c k x :
  k [] c = None -> k [a] c = Some x ->
  rmatch total (Star true any) (w ++ [a]) c k = Some x.
Proof.
  intros Hnil Hk. rewrite rmatch_star. apply star_any_gives_back; auto.
  rewrite length_app. simpl. lia.
Qed.

Lemma found_cat r1 r2 s c k x :
  rmatch total r1 s c (fun s1 c1 => rmatch total r2 s1 c1 k) = Some x ->
  rmatch total (Cat r1 r2) s c k = Some x.
Proof. intros H. exact H. Qed.

Lemma found_group n r s c k x :
  rmatch total r s c (fun s1 c1 => k s1 ((n, firstn (length s - length s1) s) :: c1)) = Some x ->
  rmatch total (Group n r) s c k = Some x.
Proof. intros H. exact H. Qed.

Lemma found_eps s c k x : k s c = Some x -> rmatch total Eps s c k = Some x.
Proof. intros H. exact H. Qed.

Lemma found_eos c k x : k [] c = Some x -> rmatch total Eos [] c k = Some x.
Proof. intros H. exact H. Qed.

Lemma found_alt_l r1 r2 s c k x :
  rmatch total r1 s c k = Some x -> rmatch total (Alt r1 r2) s c k = Some x.
Proof. intros H. cbn [rmatch]. rewrite H. reflexivity. Qed.

Lemma found_alt_r r1 r2 s c k x :
  rmatch total r1 s c k = None -> rmatch total r2 s c k = Some x ->
  rmatch total (Alt r1 r2) s c k = Some x.
Proof. intros H1 H2. cbn [rmatch]. rewrite H1. exact H2. Qed.

Lemma chr_none p s c k : stops p s -> rmatch total (Chr p) s c k = None.
Proof.
  intros Hs. destruct s as [| a s]; [reflexivity |]. rewrite rmatch_chr.
  simpl in Hs. rewrite Hs. reflexivity.
Qed.

End Complete.

Lemma firstn_prefix (w rest : list ascii) :
  firstn (length (w ++ rest) - length rest) (w ++ rest) = w.
Proof.
  rewrite length_app, Nat.add_sub, firstn_app, Nat.sub_diag, firstn_all. simpl.
  apply app_nil_r.
Qed.

Lemma chars_str l : chars (str l) = l.
Proof. apply list_ascii_of_string_of_list_ascii. Qed.

Lemma str_chars t : str (chars t) = t.
Proof. apply string_of_list_ascii_of_string. Qed.

Lemma chars_append t u : chars (t +:+ u) = chars t ++ chars u.
Proof. induction t as [| a t IH]; simpl; [reflexivity |]. f_equal. exact IH. Qed.

Ltac found_next := cbv beta; first [apply found_cat | apply found_group].

(** The text of a call of [do] with the action [name] and the rest of the
    arguments [args]. *)
Definition call (name args : list ascii) : list ascii :=
  chars "do(" ++ chars "action" ++ "="%char :: dquote :: name ++ dquote :: args ++ [")"%char].

Lemma space_stops_at a rest : is_space a = false -> stops is_space (a :: rest).
Proof. intros H. exact H. Qed.

Lemma do_re_reads name0 name args :
  Forall (fun a => negb (Ascii.eqb dquote a) = true) (name0 :: name) ->
  exists m,
    re_match do_re (str (call (name0 :: name) args)) = Some m /\
    m_group 1 m = str (name0 :: name) /\ m_group 2 m = str args.
Proof.
  intros Hname. inversion Hname as [| ? ? Hn0 Hn]; subst.
  unfold re_match, match_here. rewrite chars_str.
  set (total := length (call (name0 :: name) args)).
  eexists. split.
  - unfold do_re, call. cbn [cats fold_right].
    apply found_cat. apply found_lit. cbv beta.
    apply found_cat. apply found_star_stop; [reflexivity |]. cbv beta.
    apply found_cat. apply found_lit. cbv beta.
    apply found_cat. apply found_star_stop; [reflexivity |]. cbv beta.
    apply found_cat. apply found_chr; [reflexivity |]. cbv beta.
    apply found_cat. apply found_star_stop; [reflexivity |]. cbv beta.
    apply found_cat. apply found_chr; [reflexivity |]. cbv beta.
    apply found_cat. apply found_group.
    change (name0 :: name ++ dquote :: args ++ [")"%char])
      with (name0 :: name ++ (dquote :: args ++ [")"%char])).
    apply found_plus_run; [exact Hn0 | exact Hn | reflexivity |]. cbv beta.
    apply found_cat. apply found_chr; [reflexivity |]. cbv beta.
    apply found_cat. apply found_group.
    apply found_star_any; [reflexivity |]. cbv beta.
    apply found_cat. apply found_chr; [reflexivity |]. cbv beta.
    apply found_cat. apply found_star_stop; [exact I |]. cbv beta.
    apply found_cat. apply found_eos. cbv beta.
    apply found_eps. reflexivity.
  - unfold m_group. cbn [m_caps group Nat.eqb default from_option id].
    split; f_equal.
    + apply (firstn_prefix (name0 :: name) (dquote :: args ++ [")"%char])).
    + apply (firstn_prefix args [")"%char]).
Qed.

(** *** Integer literals *)

Lemma literal_head w :
  int_literal w ->
  exists a w', w = a :: w' /\ is_space a = false /\
               Ascii.eqb dquote a = false /\ Ascii.eqb "'" a = false.
Proof.
  intros (ds & Hne & Hd & [-> | ->]).
  - destruct ds as [| a ds]; [congruence |]. exists a, ds.
    inversion Hd as [| ? ? Ha _]; subst. split; [reflexivity |].
    split; [apply digit_not_space, Ha |].
    destruct a as [[] [] [] [] [] [] [] []]; try discriminate Ha; split; reflexivity.
  - exists "-"%char, ds. repeat split.
Qed.

Lemma digit_not_minus a : is_digit a = true -> Ascii.eqb "-" a = false.
Proof. destruct a as [[] [] [] [] [] [] [] []]; intros H; try discriminate H; reflexivity. Qed.

Lemma found_signed {R : Type} total w rest c (k : list ascii -> caps -> option R) x :
  int_literal w -> stops is_digit rest -> k rest c = Some x ->
  rmatch total signed_re (w ++ rest) c k = Some x.
Proof.
  intros (ds & Hne & Hd & Hw) Hstop Hk.
  destruct ds as [| d0 ds]; [congruence |].
  inversion Hd as [| ? ? Hd0 Hds]; subst.
  unfold signed_re, opt. apply found_cat.
  destruct Hw as [-> | ->].
  - apply found_alt_r.
    + apply chr_none. simpl. apply digit_not_minus. assumption.
    + apply found_eps. cbv beta. cbn [app]. apply found_plus_run; assumption.
  - apply found_alt_l. cbn [app]. apply found_chr; [reflexivity |]. cbv beta.
    apply found_plus_run; assumption.
Qed.

Lemma found_any_quote {R : Type} total s c (k : list ascii -> caps -> option R) x :
  stops (fun a => Ascii.eqb dquote a || Ascii.eqb "'" a) s -> k s c = Some x ->
  rmatch total any_quote s c k = Some x.
Proof.
  intros Hs Hk. unfold any_quote, opt. apply found_alt_r; [| exact Hk].
  cbn [rmatch]. unfold lit_char. rewrite !chr_none; [reflexivity | |];
    destruct s as [| a s]; try exact I; simpl in *; apply orb_false_iff in Hs; tauto.
Qed.

(** The value of an integer literal. *)
Definition literal_value (w : list ascii) : Z :=
  match w with
  | "-"%char :: ds => - digits_val ds
  | _ => digits_val w
  end.

Lemma int_of_literal_value w :
  int_literal w -> digit_runs 0 w = true -> int_of_chars w = Ok (literal_value w).
Proof.
  intros (ds & Hne & Hd & Hw) Hshort.
  assert (Hds : too_long ds = false).
  { apply short_digits; [exact Hd |]. apply (digit_runs_infix ds w); [| exact Hshort].
    destruct Hw as [-> | ->]; [apply infix_refl | apply (infix_cons "-"%char), infix_refl]. }
  destruct Hw as [-> | ->].
  - rewrite (int_of_digits false ds Hne Hd), Hds. f_equal. unfold literal_value.
    destruct ds as [| a ds']; [congruence |].
    assert (Ha : is_digit a = true) by (inversion Hd; assumption).
    destruct a as [[] [] [] [] [] [] [] []]; try discriminate Ha; reflexivity.
  - rewrite (int_of_digits true ds Hne Hd), Hds. reflexivity.
Qed.

(** *** The arguments of a tap *)

Definition element_arg (w1 w2 : list ascii) : list ascii :=
  chars ", " ++ chars "element" ++ "="%char :: "["%char :: w1 ++ ","%char :: w2 ++ ["]"%char].

Lemma pair_reads {R : Type} total key w1 w2 rest c (k : list ascii -> caps -> option R) x :
  int_literal w1 -> int_literal w2 ->
  stops (fun a => Ascii.eqb dquote a || Ascii.eqb "'" a) rest ->
  k rest ((2%nat, firstn (length (w2 ++ "]"%char :: rest) - length ("]"%char :: rest))
                         (w2 ++ "]"%char :: rest))
          :: (1%nat, firstn (length (w1 ++ ","%char :: w2 ++ "]"%char :: rest)
                             - length (","%char :: w2 ++ "]"%char :: rest))
                            (w1 ++ ","%char :: w2 ++ "]"%char :: rest)) :: c) = Some x ->
  rmatch total (pair_re key)
    (chars key ++ "="%char :: "["%char :: w1 ++ ","%char :: w2 ++ "]"%char :: rest) c k
  = Some x.
Proof.
  intros H1 H2 Hrest Hk.
  destruct (literal_head w1 H1) as (a1 & w1' & E1 & Hs1 & _).
  destruct (literal_head w2 H2) as (a2 & w2' & E2 & Hs2 & _).
  unfold pair_re, arg_re. cbn [cats fold_right].
  apply found_cat. apply found_lit. cbv beta.
  apply found_cat. apply found_star_stop; [reflexivity |]. cbv beta.
  apply found_cat. apply found_chr; [reflexivity |]. cbv beta.
  apply found_cat. apply found_star_stop; [reflexivity |]. cbv beta.
  apply found_cat. apply found_cat. apply found_any_quote; [reflexivity |]. cbv beta.
  apply found_cat. apply found_chr; [reflexivity |]. cbv beta.
  apply found_cat. apply found_star_stop; [rewrite E1; exact Hs1 |]. cbv beta.
  apply found_cat. apply found_group.
  apply found_signed; [exact H1 | reflexivity |]. cbv beta.
  apply found_cat. apply found_star_stop; [reflexivity |]. cbv beta.
  apply found_cat. apply found_chr; [reflexivity |]. cbv beta.
  apply found_cat. apply found_star_stop; [rewrite E2; exact Hs2 |]. cbv beta.
  apply found_cat. apply found_group.
  apply found_signed; [exact H2 | reflexivity |]. cbv beta.
  apply found_cat. apply found_star_stop; [reflexivity |]. cbv beta.
  apply found_cat. apply found_chr; [reflexivity |]. cbv beta.
  apply found_cat. apply found_any_quote; [exact Hrest |]. cbv beta.
  apply found_eps. apply found_eps. apply Hk.
Qed.

Lemma search_here total r s m :
  match_here total r s = Some m -> search_from total r s = Some m.
Proof. intros H. destruct s; simpl; rewrite H; reflexivity. Qed.

Lemma search_skip total r a s :
  match_here total r (a :: s) = None ->
  search_from total r (a :: s) = search_from total r s.
Proof. intros H. simpl. rewrite H. reflexivity. Qed.

Lemma element_reads w1 w2 :
  int_literal w1 -> int_literal w2 ->
  digit_runs 0 w1 = true -> digit_runs 0 w2 = true ->
  _parse_pair (str (element_arg w1 w2)) "element"
  = Ok (Some (literal_value w1, literal_value w2)).
Proof.
  intros H1 H2 S1 S2. unfold _parse_pair, re_search. rewrite chars_str.
  set (total := length (element_arg w1 w2)).
  assert (Hm : exists m,
    search_from total (pair_re "element") (element_arg w1 w2) = Some m /\
    m_group 1 m = str w1 /\ m_group 2 m = str w2).
  { eexists. split.
    - unfold element_arg. cbn [chars list_ascii_of_string app].
      rewrite search_skip by reflexivity. rewrite search_skip by reflexivity.
      apply search_here. unfold match_here.
      apply (pair_reads total "element" w1 w2 []); [assumption | assumption | exact I |].
      reflexivity.
    - unfold m_group. cbn [m_caps group Nat.eqb default from_option id].
      split; f_equal.
      + apply (firstn_prefix w1 (","%char :: w2 ++ ["]"%char])).
      + apply (firstn_prefix w2 ["]"%char]). }
  destruct Hm as (m & -> & -> & ->).
  unfold int_of_str. rewrite !chars_str.
  rewrite (int_of_literal_value w1 H1 S1), (int_of_literal_value w2 H2 S2). reflexivity.
Qed.

Lemma strip_call name args : strip (str (call name args)) = str (call name args).
Proof.
  unfold strip. rewrite chars_str. f_equal.
  apply (strip_chars_id _ "d"%char ")"%char); try reflexivity.
  replace (call name args)
    with ((chars "do(action=" ++ dquote :: name ++ dquote :: args) ++ [")"%char]).
  - rewrite rev_app_distr. reflexivity.
  - unfold call. cbn [chars list_ascii_of_string app]. rewrite <- app_assoc. reflexivity.
Qed.

#[local] Arguments call : simpl never.
#[local] Arguments element_arg : simpl never.

Lemma tap_call_reads w1 w2 :
  int_literal w1 -> int_literal w2 ->
  digit_runs 0 w1 = true -> digit_runs 0 w2 = true ->
  parse_action (str (call (chars "Tap") (element_arg w1 w2)))
  = Ok (dict [("kind", VStr "tap"); ("x", VInt (literal_value w1));
              ("y", VInt (literal_value w2))]%string).
Proof.
  intros H1 H2 S1 S2. unfold parse_action. rewrite strip_call.
  replace (startswith (str (call (chars "Tap") (element_arg w1 w2))) "finish(") with false
    by (unfold startswith; rewrite chars_str; reflexivity).
  destruct (do_re_reads "T"%char (chars "ap") (element_arg w1 w2)) as (m & Hm & Hg1 & Hg2).
  { repeat constructor. }
  change ("T"%char :: chars "ap") with (chars "Tap") in Hm, Hg1.
  rewrite Hm, Hg1, Hg2.
  replace (strip (str (chars "Tap"))) with "Tap"%string by reflexivity.
  cbn [String.eqb Ascii.eqb Bool.eqb].
  rewrite (element_reads w1 w2 H1 H2 S1 S2). reflexivity.
Qed.

(** *** The arguments of a swipe *)

Lemma search_skip_run total k0 key r pre s :
  Forall (fun a => Ascii.eqb k0 a = false) pre ->
  search_from total (Cat (lit (String k0 key)) r) (pre ++ s)
  = search_from total (Cat (lit (String k0 key)) r) s.
Proof.
  induction 1 as [| a pre Ha _ IH]; [reflexivity |].
  cbn [app]. rewrite search_skip; [exact IH |].
  unfold match_here, lit. cbn [chars list_ascii_of_string map cats fold_right].
  change (rmatch total (Cat (Cat (lit_char k0) ?r1) ?r2) ?s0 ?c ?k)
    with (rmatch total (lit_char k0) s0 c
            (fun s1 c1 => rmatch total r1 s1 c1 (fun s2 c2 => rmatch total r2 s2 c2 k))).
  unfold lit_char. rewrite rmatch_chr, Ha. reflexivity.
Qed.

Lemma literal_chars w :
  int_literal w -> Forall (fun a => is_digit a = true \/ a = "-"%char) w.
Proof.
  intros (ds & _ & Hd & [-> | ->]).
  - eapply List.Forall_impl; [| exact Hd]. auto.
  - constructor; [auto |]. eapply List.Forall_impl; [| exact Hd]. auto.
Qed.

Lemma literal_no_letter (k0 : ascii) w :
  is_lower k0 = true -> int_literal w -> Forall (fun a => Ascii.eqb k0 a = false) w.
Proof.
  intros Hk Hw. apply literal_chars in Hw.
  eapply List.Forall_impl; [| exact Hw]. intros a [Ha | ->].
  - destruct (Ascii.eqb k0 a) eqn:E; [| reflexivity]. apply Ascii.eqb_eq in E. subst a.
    destruct k0 as [[] [] [] [] [] [] [] []]; try discriminate Hk; discriminate Ha.
  - destruct (Ascii.eqb k0 "-") eqn:E; [| reflexivity]. apply Ascii.eqb_eq in E. subst k0.
    discriminate Hk.
Qed.

Lemma int_reads {R : Type} total key w rest c (k : list ascii -> caps -> option R) x :
  int_literal w -> stops is_digit rest ->
  k rest ((1%nat, firstn (length (w ++ rest) - length rest) (w ++ rest)) :: c) = Some x ->
  rmatch total (int_re key) (chars key ++ "="%char :: w ++ rest) c k = Some x.
Proof.
  intros Hw Hrest Hk.
  destruct (literal_head w Hw) as (a & w' & E & Hs & _).
  unfold int_re, arg_re. cbn [cats fold_right].
  apply found_cat. apply found_lit. cbv beta.
  apply found_cat. apply found_star_stop; [reflexivity |]. cbv beta.
  apply found_cat. apply found_chr; [reflexivity |]. cbv beta.
  apply found_cat. apply found_star_stop; [rewrite E; exact Hs |]. cbv beta.
  apply found_cat. apply found_group.
  apply found_signed; [exact Hw | exact Hrest |]. cbv beta.
  apply found_eps. exact Hk.
Qed.

Definition swipe_arg (w1 w2 w3 w4 wd : list ascii) : list ascii :=
  chars ", " ++ chars "start" ++ "="%char :: "["%char :: w1 ++ ","%char :: w2 ++ "]"%char
  :: chars ", " ++ chars "end" ++ "="%char :: "["%char :: w3 ++ ","%char :: w4 ++ "]"%char
  :: chars ", " ++ chars "durationMs" ++ "="%char :: wd.

Section Swipe.

Variables w1 w2 w3 w4 wd : list ascii.
Hypothesis H1 : int_literal w1.
Hypothesis H2 : int_literal w2.
Hypothesis H3 : int_literal w3.
Hypothesis H4 : int_literal w4.
Hypothesis Hd : int_literal wd.
Hypothesis S1 : digit_runs 0 w1 = true.
Hypothesis S2 : digit_runs 0 w2 = true.
Hypothesis S3 : digit_runs 0 w3 = true.
Hypothesis S4 : digit_runs 0 w4 = true.
Hypothesis Sd : digit_runs 0 wd = true.

Lemma start_reads :
  _parse_pair (str (swipe_arg w1 w2 w3 w4 wd)) "start"
  = Ok (Some (literal_value w1, literal_value w2)).
Proof.
  unfold _parse_pair, re_search. rewrite chars_str.
  set (total := length (swipe_arg w1 w2 w3 w4 wd)).
  assert (Hm : exists m,
    search_from total (pair_re "start") (swipe_arg w1 w2 w3 w4 wd) = Some m /\
    m_group 1 m = str w1 /\ m_group 2 m = str w2).
  { eexists. split.
    - unfold swipe_arg. cbn [chars list_ascii_of_string app].
      rewrite search_skip by reflexivity. rewrite search_skip by reflexivity.
      apply search_here. unfold match_here.
      apply (pair_reads total "start" w1 w2); [assumption | assumption | reflexivity |].
      reflexivity.
    - unfold m_group. cbn [m_caps group Nat.eqb default from_option id].
      split; f_equal; apply firstn_prefix. }
  destruct Hm as (m & -> & -> & ->).
  unfold int_of_str. rewrite !chars_str.
  rewrite (int_of_literal_value w1 H1 S1), (int_of_literal_value w2 H2 S2). reflexivity.
Qed.

Lemma end_reads :
  _parse_pair (str (swipe_arg w1 w2 w3 w4 wd)) "end"
  = Ok (Some (literal_value w3, literal_value w4)).
Proof.
  unfold _parse_pair, re_search. rewrite chars_str.
  set (total := length (swipe_arg w1 w2 w3 w4 wd)).
  assert (Hm : exists m,
    search_from total (pair_re "end") (swipe_arg w1 w2 w3 w4 wd) = Some m /\
    m_group 1 m = str w3 /\ m_group 2 m = str w4).
  { eexists. split.
    - replace (swipe_arg w1 w2 w3 w4 wd)
        with ((chars ", start=[" ++ w1 ++ ","%char :: w2 ++ chars "], ")
              ++ chars "end" ++ "="%char :: "["%char :: w3 ++ ","%char :: w4 ++ "]"%char
                 :: chars ", " ++ chars "durationMs" ++ "="%char :: wd)
        by (unfold swipe_arg; cbn [chars list_ascii_of_string app];
            rewrite <- ?app_assoc; cbn [app]; rewrite <- ?app_assoc; reflexivity).
      unfold pair_re, arg_re. cbn [cats fold_right].
      rewrite search_skip_run.
      2: { repeat (apply Forall_app; split); try (repeat constructor; fail);
           try (apply literal_no_letter; [reflexivity | assumption]).
           constructor; [reflexivity |]. apply Forall_app. split;
             [apply literal_no_letter; [reflexivity | assumption] | repeat constructor]. }
      apply search_here. unfold match_here.
      apply (pair_reads total "end" w3 w4); [assumption | assumption | reflexivity |].
      reflexivity.
    - unfold m_group. cbn [m_caps group Nat.eqb default from_option id].
      split; f_equal; apply firstn_prefix. }
  destruct Hm as (m & -> & -> & ->).
  unfold int_of_str. rewrite !chars_str.
  rewrite (int_of_literal_value w3 H3 S3), (int_of_literal_value w4 H4 S4). reflexivity.
Qed.

Lemma duration_reads :
  _parse_int (str (swipe_arg w1 w2 w3 w4 wd)) "durationMs" = Ok (Some (literal_value wd)).
Proof.
  unfold _parse_int, re_search. rewrite chars_str.
  set (total := length (swipe_arg w1 w2 w3 w4 wd)).
  assert (Hm : exists m,
    search_from total (int_re "durationMs") (swipe_arg w1 w2 w3 w4 wd) = Some m /\
    m_group 1 m = str wd).
  { eexists. split.
    - replace (swipe_arg w1 w2 w3 w4 wd)
        with ((chars ", start=[" ++ w1 ++ ","%char :: w2 ++ chars "], en")
              ++ "d"%char :: "="%char
                 :: (("["%char :: w3 ++ ","%char :: w4 ++ chars "], ")
                     ++ chars "durationMs" ++ "="%char :: wd ++ []))
        by (unfold swipe_arg; cbn [chars list_ascii_of_string app];
            rewrite <- ?app_assoc; cbn [app]; rewrite <- ?app_assoc;
            rewrite ?app_nil_r; reflexivity).
      unfold int_re, arg_re. cbn [cats fold_right].
      rewrite search_skip_run.
      2: { repeat (apply Forall_app; split); try (repeat constructor; fail);
           try (apply literal_no_letter; [reflexivity | assumption]).
           constructor; [reflexivity |]. apply Forall_app. split;
             [apply literal_no_letter; [reflexivity | assumption] | repeat constructor]. }
      rewrite search_skip by reflexivity.
      rewrite search_skip by reflexivity.
      rewrite search_skip_run.
      2: { constructor; [reflexivity |]. apply Forall_app. split;
             [apply literal_no_letter; [reflexivity | assumption] |].
           constructor; [reflexivity |]. apply Forall_app. split;
             [apply literal_no_letter; [reflexivity | assumption] | repeat constructor]. }
      apply search_here. unfold match_here.
      apply (int_reads total "durationMs" wd []); [assumption | exact I |].
      reflexivity.
    - unfold m_group. cbn [m_caps group Nat.eqb default from_option id].
      f_equal. apply firstn_prefix. }
  destruct Hm as (m & -> & ->).
  unfold int_of_str. rewrite !chars_str.
  rewrite (int_of_literal_value wd Hd Sd). reflexivity.
Qed.

Lemma swipe_call_reads :
  parse_action (str (call (chars "Swipe") (swipe_arg w1 w2 w3 w4 wd)))
  = Ok (dict [("kind", VStr "swipe");
              ("sx", VInt (literal_value w1)); ("sy", VInt (literal_value w2));
              ("ex", VInt (literal_value w3)); ("ey", VInt (literal_value w4));
              ("durationMs",
               VInt (if (literal_value wd =? 0)%Z then 300 else literal_value wd))]%string).
Proof.
  unfold parse_action. rewrite strip_call.
  replace (startswith (str (call (chars "Swipe") (swipe_arg w1 w2 w3 w4 wd))) "finish(")
    with false by (unfold startswith; rewrite chars_str; reflexivity).
  destruct (do_re_reads "S"%char (chars "wipe") (swipe_arg w1 w2 w3 w4 wd))
    as (m & Hm & Hg1 & Hg2).
  { repeat constructor. }
  change ("S"%char :: chars "wipe") with (chars "Swipe") in Hm, Hg1.
  rewrite Hm, Hg1, Hg2.
  replace (strip (str (chars "Swipe"))) with "Swipe"%string by reflexivity.
  cbn [String.eqb Ascii.eqb Bool.eqb].
  rewrite start_reads, end_reads, duration_reads. reflexivity.
Qed.

End Swipe.

(** *** Integers as text *)

Lemma pretty_N_char_digit d :
  (d < 10)%N ->
  is_digit (pretty_N_char d) = true /\ digit_val (pretty_N_char d) = Z.of_N d.
Proof.
  intros Hd.
  assert (H : (d = 0 \/ d = 1 \/ d = 2 \/ d = 3 \/ d = 4 \/ d = 5 \/ d = 6 \/ d = 7 \/
               d = 8 \/ d = 9)%N) by lia.
  repeat (destruct H as [-> | H]; [split; reflexivity |]). subst. split; reflexivity.
Qed.

Lemma pretty_N_go_digits (n : N) : forall s,
  exists ds,
    chars (pretty_N_go n s) = ds ++ chars s /\
    Forall (fun a => is_digit a = true) ds /\
    ((0 < n)%N -> ds <> []) /\
    forall acc,
      fold_left (fun acc c => 10 * acc + digit_val c) ds acc
      = acc * 10 ^ Z.of_nat (length ds) + Z.of_N n.
Proof.
  induction (N.lt_wf_0 n) as [n _ IH]. intros s.
  destruct (N.eq_dec n 0%N) as [-> | Hn].
  { exists []. rewrite pretty_N_go_0. split; [reflexivity |]. split; [constructor |].
    split; [lia |]. intros acc. simpl. lia. }
  rewrite pretty_N_go_step by lia.
  destruct (IH (n / 10)%N ltac:(apply N.div_lt; lia)
               (String (pretty_N_char (n mod 10)) s)) as (ds & Hds & Hall & _ & Hval).
  destruct (pretty_N_char_digit (n mod 10)%N) as [Hd Hv]; [apply N.mod_lt; lia |].
  exists (ds ++ [pretty_N_char (n mod 10)]). split; [| split; [| split]].
  - rewrite Hds, <- app_assoc. reflexivity.
  - apply Forall_app. split; [exact Hall | repeat constructor; exact Hd].
  - intros _. destruct ds; discriminate.
  - intros acc. rewrite fold_left_app, Hval. cbn [fold_left]. rewrite Hv.
    rewrite length_app, Nat2Z.inj_add, Z.pow_add_r by lia. cbn [length].
    change (10 ^ Z.of_nat 1) with 10.
    pose proof (N.div_mod n 10%N ltac:(lia)) as Hdm. lia.
Qed.

Lemma pretty_N_go_length (n : N) : forall s (k : nat),
  (n < 10 ^ N.of_nat k)%N ->
  (length (chars (pretty_N_go n s)) <= k + length (chars s))%nat.
Proof.
  induction (N.lt_wf_0 n) as [n _ IH]. intros s k Hk.
  destruct (N.eq_dec n 0%N) as [-> | Hn].
  { rewrite pretty_N_go_0. lia. }
  rewrite pretty_N_go_step by lia.
  destruct k as [| k]; [simpl in Hk; lia |].
  assert (Hq : (n / 10 < 10 ^ N.of_nat k)%N).
  { apply N.Div0.div_lt_upper_bound.
    rewrite Nat2N.inj_succ, N.pow_succ_r' in Hk. exact Hk. }
  pose proof (IH (n / 10)%N ltac:(apply N.div_lt; lia)
                 (String (pretty_N_char (n mod 10)) s) k Hq) as Hlen.
  cbn [chars list_ascii_of_string length] in Hlen.
  change (list_ascii_of_string s) with (chars s) in Hlen. lia.
Qed.

(** An integer of no more than 4300 digits. *)
Definition small (z : Z) : Prop := Z.abs z < 10 ^ max_str_digits.

(** The text of such an integer has no numeral [int] refuses. *)
Lemma pretty_short (z : Z) : small z -> digit_runs 0 (chars (pretty z)) = true.
Proof.
  unfold small. intros Hz.
  assert (Hpos : forall p : positive,
            Z.pos p < 10 ^ max_str_digits -> digit_runs 0 (chars (pretty p)) = true).
  { intros p Hp. apply digit_runs_length_le; [lia |].
    unfold pretty, pretty_positive, pretty, pretty_N.
    destruct (decide (N.pos p = 0%N)) as [H | _]; [discriminate |].
    pose proof (pretty_N_go_length (N.pos p) EmptyString 4300) as Hlen.
    cbn [chars list_ascii_of_string length] in Hlen.
    change (list_ascii_of_string ?t) with (chars t) in Hlen.
    unfold max_str_digits in *.
    assert (Hn : (N.pos p < 10 ^ N.of_nat 4300)%N).
    { apply N2Z.inj_lt. rewrite N2Z.inj_pow, nat_N_Z.
      change (Z.of_N 10) with 10. change (Z.of_nat 4300) with 4300.
      change (Z.of_N (N.pos p)) with (Z.pos p). exact Hp. }
    specialize (Hlen Hn). lia. }
  destruct z as [| p | p].
  - reflexivity.
  - change (pretty (Z.pos p)) with (pretty p). apply Hpos. exact Hz.
  - change (pretty (Z.neg p)) with ("-" +:+ pretty p).
    rewrite chars_append. change (chars "-") with ["-"%char]. cbn [app].
    change (digit_runs 0 ("-"%char :: chars (pretty p)))
      with (digit_runs 0 (chars (pretty p))).
    apply Hpos. exact Hz.
Qed.

Lemma pretty_positive_digits (p : positive) :
  exists ds, chars (pretty p) = ds /\ ds <> [] /\
             Forall (fun a => is_digit a = true) ds /\ digits_val ds = Z.pos p.
Proof.
  unfold pretty, pretty_positive, pretty, pretty_N.
  destruct (decide (N.pos p = 0%N)) as [H | _]; [discriminate |].
  destruct (pretty_N_go_digits (N.pos p) EmptyString) as (ds & Hds & Hall & Hne & Hval).
  exists ds. rewrite Hds. split; [apply app_nil_r |]. split; [apply Hne; lia |].
  split; [exact Hall |]. unfold digits_val. rewrite Hval. lia.
Qed.

Lemma digits_literal_value ds :
  ds <> [] -> Forall (fun a => is_digit a = true) ds -> literal_value ds = digits_val ds.
Proof.
  intros Hne Hd. destruct ds as [| a ds]; [congruence |].
  inversion Hd as [| ? ? Ha _]; subst. unfold literal_value.
  destruct a as [[] [] [] [] [] [] [] []]; try discriminate Ha; reflexivity.
Qed.

(** [int(str(z)) == z]: the text of an integer is a literal with its
    value. *)
Lemma pretty_literal (z : Z) :
  int_literal (chars (pretty z)) /\ literal_value (chars (pretty z)) = z.
Proof.
  destruct z as [| p | p].
  - split; [| reflexivity]. exists ["0"%char].
    split; [discriminate |]. split; [repeat constructor | left; reflexivity].
  - change (pretty (Z.pos p)) with (pretty p).
    destruct (pretty_positive_digits p) as (ds & -> & Hne & Hd & Hv). split.
    + exists ds. auto.
    + rewrite digits_literal_value by assumption. exact Hv.
  - change (pretty (Z.neg p)) with ("-" +:+ pretty p).
    rewrite chars_append. change (chars "-") with ["-"%char]. cbn [app].
    destruct (pretty_positive_digits p) as (ds & -> & Hne & Hd & Hv). split.
    + exists ds. auto.
    + unfold literal_value. rewrite Hv. reflexivity.
Qed.

Ltac flatten_text :=
  cbn [chars list_ascii_of_string app];
  repeat (progress (rewrite <- ?app_assoc; cbn [app])); reflexivity.

Lemma tap_text (x y : Z) :
  dq "do(action='Tap', element=[" +:+ pretty x +:+ "," +:+ pretty y +:+ "])"
  = str (call (chars "Tap") (element_arg (chars (pretty x)) (chars (pretty y)))).
Proof.
  rewrite <- (str_chars (_ +:+ _)). f_equal.
  rewrite !chars_append. unfold call, element_arg.
  replace (chars (dq "do(action='Tap', element=["))
    with (chars "do(" ++ chars "action" ++ "="%char :: dquote :: chars "Tap"
          ++ dquote :: chars ", " ++ chars "element" ++ ["="%char; "["%char])
    by reflexivity.
  flatten_text.
Qed.

Lemma swipe_text (x1 y1 x2 y2 d : Z) :
  dq "do(action='Swipe', start=[" +:+ pretty x1 +:+ "," +:+ pretty y1
  +:+ "], end=[" +:+ pretty x2 +:+ "," +:+ pretty y2
  +:+ "], durationMs=" +:+ pretty d +:+ ")"
  = str (call (chars "Swipe")
           (swipe_arg (chars (pretty x1)) (chars (pretty y1)) (chars (pretty x2))
                      (chars (pretty y2)) (chars (pretty d)))).
Proof.
  rewrite <- (str_chars (_ +:+ _)). f_equal.
  rewrite !chars_append. unfold call, swipe_arg.
  replace (chars (dq "do(action='Swipe', start=["))
    with (chars "do(" ++ chars "action" ++ "="%char :: dquote :: chars "Swipe"
          ++ dquote :: chars ", " ++ chars "start" ++ ["="%char; "["%char])
    by reflexivity.
  flatten_text.
Qed.

Lemma swipe_call_value (x1 y1 x2 y2 d : Z) :
  small x1 -> small y1 -> small x2 -> small y2 -> small d ->
  parse_action
    (dq "do(action='Swipe', start=[" +:+ pretty x1 +:+ "," +:+ pretty y1
     +:+ "], end=[" +:+ pretty x2 +:+ "," +:+ pretty y2
     +:+ "], durationMs=" +:+ pretty d +:+ ")")
  = Ok (dict [("kind", VStr "swipe"); ("sx", VInt x1); ("sy", VInt y1);
              ("ex", VInt x2); ("ey", VInt y2);
              ("durationMs", VInt (if (d =? 0)%Z then 300 else d))]%string).
Proof.
  intros Sx1 Sy1 Sx2 Sy2 Sd.
  destruct (pretty_literal x1) as [Hx1 Vx1]. destruct (pretty_literal y1) as [Hy1 Vy1].
  destruct (pretty_literal x2) as [Hx2 Vx2]. destruct (pretty_literal y2) as [Hy2 Vy2].
  destruct (pretty_literal d) as [Hd Vd].
  rewrite swipe_text,
    (swipe_call_reads _ _ _ _ _ Hx1 Hy1 Hx2 Hy2 Hd
       (pretty_short _ Sx1) (pretty_short _ Sy1) (pretty_short _ Sx2) (pretty_short _ Sy2)
       (pretty_short _ Sd)).
  rewrite Vx1, Vy1, Vx2, Vy2, Vd. reflexivity.
Qed.

(** X28: the tap call the prompt asks for parses to a tap at the point it
    names, whatever the two integers of no more than 4300 digits. *)
Theorem tap_call_round_trip (x y : Z) :
  Z.abs x < 10 ^ max_str_digits -> Z.abs y < 10 ^ max_str_digits ->
  parse_action (dq "do(action='Tap', element=[" +:+ pretty x +:+ "," +:+ pretty y +:+ "])")
  = Ok (dict [("kind", VStr "tap"); ("x", VInt x); ("y", VInt y)]%string).
Proof.
  intros Sx Sy.
  destruct (pretty_literal x) as [Hx Vx]. destruct (pretty_literal y) as [Hy Vy].
  rewrite tap_text, (tap_call_reads _ _ Hx Hy (pretty_short _ Sx) (pretty_short _ Sy)), Vx, Vy.
  reflexivity.
Qed.

Lemma tap_call_round_trip_witness :
  parse_action (dq "do(action='Tap', element=[" +:+ pretty 300 +:+ "," +:+ pretty (-800) +:+ "])")
  = Ok (dict [("kind", VStr "tap"); ("x", VInt 300); ("y", VInt (-800))]%string).
Proof. apply (tap_call_round_trip 300 (-800)); reflexivity. Defined.

(** X29: the swipe call the prompt asks for parses to a swipe between the
    two points it names, whatever the integers of no more than 4300
    digits, inside the screen or not; the duration is the one it names,
    and 300 ms when it names 0. *)
Theorem swipe_call_round_trip (x1 y1 x2 y2 d : Z) :
  Z.abs x1 < 10 ^ max_str_digits -> Z.abs y1 < 10 ^ max_str_digits ->
  Z.abs x2 < 10 ^ max_str_digits -> Z.abs y2 < 10 ^ max_str_digits ->
  Z.abs d < 10 ^ max_str_digits ->
  parse_action
    (dq "do(action='Swipe', start=[" +:+ pretty x1 +:+ "," +:+ pretty y1
     +:+ "], end=[" +:+ pretty x2 +:+ "," +:+ pretty y2
     +:+ "], durationMs=" +:+ pretty d +:+ ")")
  = Ok (dict [("kind", VStr "swipe"); ("sx", VInt x1); ("sy", VInt y1);
              ("ex", VInt x2); ("ey", VInt y2);
              ("durationMs", VInt (if (d =? 0)%Z then 300 else d))]%string).
Proof. apply swipe_call_value. Qed.

Lemma swipe_call_round_trip_witness :
  parse_action
    (dq "do(action='Swipe', start=[" +:+ pretty 500 +:+ "," +:+ pretty 99999
     +:+ "], end=[" +:+ pretty (-20) +:+ "," +:+ pretty 700
     +:+ "], durationMs=" +:+ pretty 0 +:+ ")")
  = Ok (dict [("kind", VStr "swipe"); ("sx", VInt 500); ("sy", VInt 99999);
              ("ex", VInt (-20)); ("ey", VInt 700); ("durationMs", VInt 300)]%string).
Proof. apply (swipe_call_round_trip 500 99999 (-20) 700 0); reflexivity. Defined.

End RoundTripFacts.

(** ** A swipe goes out as the model wrote it *)

Module SwipeFacts.
Import Py Re Agent AgentLoop TapFacts CoordFacts RoundTripFacts.

(** X30: the agent sends a swipe exactly as the model wrote it: for the
    swipe call of the prompt, whatever its integers of no more than 4300
    digits and whatever the click range, the dispatch sends the one swipe
    between those two points, with no clamping. *)
Theorem swipe_sent_as_written {W : Type} (env : @Env W) (cfg : Config) (state : UiState)
    (streak : Z) (last : option (Z * Z)) (x1 y1 x2 y2 d : Z) (w : W) (log : list entry) :
  Z.abs x1 < 10 ^ max_str_digits -> Z.abs y1 < 10 ^ max_str_digits ->
  Z.abs x2 < 10 ^ max_str_digits -> Z.abs y2 < 10 ^ max_str_digits ->
  Z.abs d < 10 ^ max_str_digits ->
  exists action r w' flag,
    parse_action
      (dq "do(action='Swipe', start=[" +:+ pretty x1 +:+ "," +:+ pretty y1
       +:+ "], end=[" +:+ pretty x2 +:+ "," +:+ pretty y2
       +:+ "], durationMs=" +:+ pretty d +:+ ")")
    = Ok action /\
    dispatch env cfg state streak last action (w, log)
    = (r, (w', log ++ [(Swipe x1 y1 x2 y2 (if d =? 0 then 300 else d), flag)])).
Proof.
  intros Sx1 Sy1 Sx2 Sy2 Sd.
  set (action := dict [("kind", VStr "swipe"); ("sx", VInt x1); ("sy", VInt y1);
                       ("ex", VInt x2); ("ey", VInt y2);
                       ("durationMs", VInt (if (d =? 0)%Z then 300 else d))]%string).
  exists action. rewrite (swipe_call_value x1 y1 x2 y2 d Sx1 Sy1 Sx2 Sy2 Sd). fold action.
  assert (Htap : is_kind action "tap" = Ok false) by (vm_compute; reflexivity).
  assert (Hswipe : is_kind action "swipe" = Ok true) by (vm_compute; reflexivity).
  assert (Hsx : int_item action "sx" = Ok x1) by (vm_compute; reflexivity).
  assert (Hsy : int_item action "sy" = Ok y1) by (vm_compute; reflexivity).
  assert (Hex : int_item action "ex" = Ok x2) by (vm_compute; reflexivity).
  assert (Hey : int_item action "ey" = Ok y2) by (vm_compute; reflexivity).
  assert (Hdur : int_item action "durationMs" = Ok (if d =? 0 then 300 else d))
    by (vm_compute; reflexivity).
  assert (Hstep : forall (A B : Type) (a : A) (f : A -> @M W B) s,
            mbind' (lift (Ok a)) f s = f a s) by reflexivity.
  unfold dispatch.
  rewrite Htap, Hstep. cbv beta iota.
  rewrite Hswipe, Hstep. cbv beta iota.
  rewrite Hsx, Hstep, Hsy, Hstep, Hex, Hstep, Hey, Hstep, Hdur, Hstep.
  unfold mbind', swipe, control, ret. cbn [fst snd].
  destruct (env_swipe env x1 y1 x2 y2 (if d =? 0 then 300 else d) w)
    as [[[ok body] | e] w1]; do 3 eexists; split; reflexivity.
Qed.

Lemma swipe_sent_as_written_witness :
  exists action r w' flag,
    parse_action
      (dq "do(action='Swipe', start=[" +:+ pretty 500 +:+ "," +:+ pretty 99999
       +:+ "], end=[" +:+ pretty (-20) +:+ "," +:+ pretty 700
       +:+ "], durationMs=" +:+ pretty 0 +:+ ")")
    = Ok action /\
    dispatch (sim_env (fun _ => true)) (default_cfg (range_dict 0 0 999 999))
             (shot_state still_shot) 0 None action (start [])
    = (r, (w', [] ++ [(Swipe 500 99999 (-20) 700 300, flag)])).
Proof.
  apply (swipe_sent_as_written (sim_env (fun _ => true)) (default_cfg (range_dict 0 0 999 999))
           (shot_state still_shot) 0 None 500 99999 (-20) 700 0);
    reflexivity.
Defined.

End SwipeFacts.
